(** * SingleThreadedProxyResolver: a shallow embedding and its properties

    Source: [src/net/proxy/single_threaded_proxy_resolver.cc].

    The resolver serialises proxy queries through one worker thread.  The
    embedding keeps the objects of the source as records in an explicit
    [World]: the heap of [Job] objects (addressed by their allocation index,
    which is what a [RequestHandle] points to), the members of the resolver
    ([resolver_], [thread_], [pending_jobs_]), the message loop of the worker
    thread (inside [thread_]) and the message loop of the origin thread.

    Methods are functions [World -> option World]; [None] is a failed DCHECK
    or an access through a null or dangling pointer.  The two threads are
    interleaved at the granularity of message-loop tasks: a task of the worker
    thread ([Job::DoQuery], [SetPacScriptTask::Run]) touches only the wrapped
    resolver, the job's [url_] and [results_buf_] and the origin loop, none of
    which the origin thread reads while that task is outstanding, so running
    it atomically loses no behaviour. *)

From stdpp Require Import base option list sorting gmap strings.
From Stdlib Require Import ZArith Lia.

Local Open Scope Z_scope.
Local Open Scope nat_scope.

(** ** Data *)

Abbreviation GURL := string.
Abbreviation ProxyInfo := string.

(** Modelled from the spec: [net/base/net_errors.h] is not part of the
    sources.  The spec fixes that non-negative codes are successes and
    negative ones failures, which makes [OK] zero; the pending sentinel is a
    failure code that is never a final result, [-1] in Chromium. *)
Definition OK : Z := 0%Z.
Definition ERR_IO_PENDING : Z := (-1)%Z.

(** Modelled from the spec: [net/proxy/proxy_resolver.h] is not part of the
    sources.  The wrapped resolution engine offers [resolve(url)], the two
    configuration calls and the capability flag [expects_pac_bytes]; what a
    lookup answers is left to [engine], a function of the installed script,
    the URL and the previous content of the output buffer. *)
Inductive PacScript :=
| NoScript
| ScriptByUrl (pac_url : GURL)
| ScriptByData (bytes : string).

Record ProxyResolver := mkResolver {
  expects_pac_bytes : bool;
  pac_script : PacScript;
  engine : PacScript -> GURL -> ProxyInfo -> Z * ProxyInfo
}.

Definition SetPacScriptByUrl (pac_url : GURL) (r : ProxyResolver) : ProxyResolver :=
  mkResolver (expects_pac_bytes r) (ScriptByUrl pac_url) (engine r).

Definition SetPacScriptByData (bytes : string) (r : ProxyResolver) : ProxyResolver :=
  mkResolver (expects_pac_bytes r) (ScriptByData bytes) (engine r).

(** The only [SingleThreadedProxyResolver] of a world; a job's
    [coordinator_] either points to it or is [NULL]. *)
Inductive Coordinator := this_resolver.

(** [class SingleThreadedProxyResolver::Job].  Pointers are options:
    [callback_] and [results_] hold the address of a caller-owned object.
    [origin_loop_] is the one origin loop of the world.  [ref_count_] counts
    the references that the code of this file takes on the job: the one of
    the queue's [scoped_refptr] and the one that [Start] takes with [AddRef]
    and [QueryComplete] drops with [Release].  The references that posted
    tasks hold are not in it; [task_references] counts them. *)
Record Job := mkJob {
  coordinator_ : option Coordinator;
  callback_ : option nat;
  results_ : option nat;
  url_ : GURL;
  is_started_ : bool;
  results_buf_ : ProxyInfo;
  ref_count_ : nat
}.

(** Tasks posted to the worker thread's loop and to the origin loop. *)
Inductive WorkerTask :=
| DoQueryTask (j : nat)
| SetPacScriptTask (pac_url : GURL) (bytes : string).

Inductive OriginTask :=
| QueryCompleteTask (j : nat) (result_code : Z).

(** What an observer of the program can see happen, in order. *)
Inductive Event :=
| EvThreadStart
| EvStart (j : nat)
| EvCancel (j : nat)
| EvUse (j slot : nat) (info : ProxyInfo)
| EvCallback (j cb : nat) (result_code : Z)
| EvThreadStop
| EvResolverDestroyed.

(** The program's state, and two records kept for the statements only:
    [worker_log], the tasks the worker thread has run, and [events].
    [alive] tells whether the resolver object exists: it is set by the
    constructor and cleared by the destructor.  [thread_] is null or holds
    the started thread with the tasks waiting in its message loop; [heap]
    holds every job ever allocated, at its address; [slots] are the caller's
    [ProxyInfo] objects, by address. *)
Record World := mkWorld {
  alive : bool;
  resolver_ : option ProxyResolver;
  thread_ : option (list WorkerTask);
  pending_jobs_ : list nat;
  heap : list Job;
  origin_loop : list OriginTask;
  slots : gmap nat string;
  worker_log : list WorkerTask;
  events : list Event
}.

(** Field updates. *)
Definition set_alive (b : bool) (w : World) : World :=
  mkWorld b (resolver_ w) (thread_ w) (pending_jobs_ w) (heap w)
          (origin_loop w) (slots w) (worker_log w) (events w).
Definition set_resolver (r : option ProxyResolver) (w : World) : World :=
  mkWorld (alive w) r (thread_ w) (pending_jobs_ w) (heap w)
          (origin_loop w) (slots w) (worker_log w) (events w).
Definition set_thread (t : option (list WorkerTask)) (w : World) : World :=
  mkWorld (alive w) (resolver_ w) t (pending_jobs_ w) (heap w)
          (origin_loop w) (slots w) (worker_log w) (events w).
Definition set_pending (q : list nat) (w : World) : World :=
  mkWorld (alive w) (resolver_ w) (thread_ w) q (heap w)
          (origin_loop w) (slots w) (worker_log w) (events w).
Definition set_heap (h : list Job) (w : World) : World :=
  mkWorld (alive w) (resolver_ w) (thread_ w) (pending_jobs_ w) h
          (origin_loop w) (slots w) (worker_log w) (events w).
Definition set_origin (o : list OriginTask) (w : World) : World :=
  mkWorld (alive w) (resolver_ w) (thread_ w) (pending_jobs_ w) (heap w)
          o (slots w) (worker_log w) (events w).
Definition set_slots (s : gmap nat string) (w : World) : World :=
  mkWorld (alive w) (resolver_ w) (thread_ w) (pending_jobs_ w) (heap w)
          (origin_loop w) s (worker_log w) (events w).
Definition set_worker_log (l : list WorkerTask) (w : World) : World :=
  mkWorld (alive w) (resolver_ w) (thread_ w) (pending_jobs_ w) (heap w)
          (origin_loop w) (slots w) l (events w).
Definition log (e : Event) (w : World) : World :=
  mkWorld (alive w) (resolver_ w) (thread_ w) (pending_jobs_ w) (heap w)
          (origin_loop w) (slots w) (worker_log w) (events w ++ [e]).

Definition set_job (j : nat) (job : Job) (w : World) : World :=
  set_heap (<[j := job]> (heap w)) w.

(** A failed [DCHECK], and a pointer that must be valid to be used. *)
Definition DCHECK (b : bool) : option unit := if b then Some tt else None.
Definition valid (b : bool) : option unit := if b then Some tt else None.

Fixpoint run_all {A} (f : A -> World -> option World) (l : list A) (w : World)
  : option World :=
  match l with
  | [] => Some w
  | x :: l' => w' ← f x w; run_all f l' w'
  end.

(** ** Job *)

Definition is_started (job : Job) : bool := is_started_ job.

(** [bool was_cancelled() const { return callback_ == NULL; }] *)
Definition was_cancelled (job : Job) : bool :=
  match callback_ job with None => true | Some _ => false end.

Definition AddRef (job : Job) : Job :=
  mkJob (coordinator_ job) (callback_ job) (results_ job) (url_ job)
        (is_started_ job) (results_buf_ job) (S (ref_count_ job)).

Definition Release (job : Job) : Job :=
  mkJob (coordinator_ job) (callback_ job) (results_ job) (url_ job)
        (is_started_ job) (results_buf_ job) (pred (ref_count_ job)).

Definition Job_Release (j : nat) (w : World) : option World :=
  job ← heap w !! j;
  Some (set_job j (Release job) w).

(** [Job::Job]: [DCHECK(callback)], not started, not cancelled. *)
Definition Job_new (url : GURL) (results callback : option nat) : option Job :=
  _ ← DCHECK (bool_decide (is_Some callback));
  Some (mkJob (Some this_resolver) callback results url false "" 0).

(** [Job::Start]: mark started, take a reference, post [DoQuery] to the
    worker thread's loop (reached through [coordinator_]).  The reference
    that the posted task itself holds on the job is not in [ref_count_]. *)
Definition Job_Start (j : nat) (w : World) : option World :=
  job ← heap w !! j;
  _ ← coordinator_ job;
  _ ← valid (alive w);
  loop ← thread_ w;
  let job' := AddRef (mkJob (coordinator_ job) (callback_ job) (results_ job)
                            (url_ job) true (results_buf_ job) (ref_count_ job)) in
  Some (log (EvStart j)
         (set_thread (Some (loop ++ [DoQueryTask j])) (set_job j job' w))).

(** [Job::Cancel]: clear the three pointers. *)
Definition Job_Cancel (j : nat) (w : World) : option World :=
  job ← heap w !! j;
  let job' := mkJob None None None (url_ job) (is_started_ job)
                    (results_buf_ job) (ref_count_ job) in
  Some (log (EvCancel j) (set_job j job' w)).

(** [Job::DoQuery], on the worker thread.  Its argument is the pointer
    [coordinator_->resolver_.get()] that [Start] captured: the resolver's
    [resolver_], unusable once the destructor has released it. *)
Definition Job_DoQuery (j : nat) (w : World) : option World :=
  job ← heap w !! j;
  r ← resolver_ w;
  let '(rv, buf) := engine r (pac_script r) (url_ job) (results_buf_ job) in
  _ ← DCHECK (negb (rv =? ERR_IO_PENDING)%Z);
  let job' := mkJob (coordinator_ job) (callback_ job) (results_ job)
                    (url_ job) (is_started_ job) buf (ref_count_ job) in
  Some (set_origin (origin_loop w ++ [QueryCompleteTask j rv]) (set_job j job' w)).

(** [SetPacScriptTask::Run], on the worker thread. *)
Definition SetPacScriptTask_Run (pac_url : GURL) (bytes : string) (w : World)
  : option World :=
  r ← resolver_ w;
  Some (set_resolver
          (Some (if expects_pac_bytes r
                 then SetPacScriptByData bytes r
                 else SetPacScriptByUrl pac_url r)) w).

(** ** SingleThreadedProxyResolver *)

(** The constructor: a live resolver wrapping [r], no thread, no job. *)
Definition init (r : ProxyResolver) : World :=
  mkWorld true (Some r) None [] [] [] ∅ [] [].

Definition EnsureThreadStarted (w : World) : World :=
  match thread_ w with
  | Some _ => w
  | None => log EvThreadStart (set_thread (Some []) w)
  end.

Definition ProcessPendingJobs (w : World) : option World :=
  match pending_jobs_ w with
  | [] => Some w
  | j :: _ =>
      job ← heap w !! j;
      if is_started job then Some w
      else Job_Start j (EnsureThreadStarted w)
  end.

(** [pop_front] drops the queue's reference to the job. *)
Definition RemoveFrontOfJobsQueueAndStartNext (expected_job : nat) (w : World)
  : option World :=
  match pending_jobs_ w with
  | [] => None
  | j :: rest =>
      _ ← DCHECK (bool_decide (expected_job = j));
      w1 ← Job_Release j (set_pending rest w);
      ProcessPendingJobs w1
  end.

(** Returns the result code, the handle written to [*request] (when
    [request] is not null) and the new world.  The new job lives at the next
    free heap address; the reference taken here is the queue's (the local
    [scoped_refptr] is gone when the method returns). *)
Definition GetProxyForURL (url : GURL) (results callback : option nat)
    (request : bool) (w : World) : option (Z * option nat * World) :=
  _ ← valid (alive w);
  _ ← DCHECK (bool_decide (is_Some callback));
  job ← Job_new url results callback;
  let j := length (heap w) in
  let w1 := set_pending (pending_jobs_ w ++ [j])
              (set_heap (heap w ++ [AddRef job]) w) in
  w2 ← ProcessPendingJobs w1;
  Some (ERR_IO_PENDING, if request then Some j else None, w2).

(** [std::find] followed by [erase]: the first occurrence goes. *)
Fixpoint erase_first (j : nat) (q : list nat) : option (list nat) :=
  match q with
  | [] => None
  | k :: q' => if bool_decide (k = j) then Some q'
               else q'' ← erase_first j q'; Some (k :: q'')
  end.

Definition is_active_job (job : Job) (j : nat) (w : World) : bool :=
  is_started job && negb (bool_decide (pending_jobs_ w = []))
  && bool_decide (head (pending_jobs_ w) = Some j).

(** A handle is the allocation index of its job, and the heap keeps every
    job that was ever made.  For the handle of a job that the program has
    deleted the model finds the old record where the source reads freed
    memory: what [CancelRequest] answers for such a handle says nothing
    about the program. *)
Definition CancelRequest (req : option nat) (w : World) : option World :=
  _ ← valid (alive w);
  j ← req;
  job ← heap w !! j;
  let active := is_active_job job j w in
  w1 ← Job_Cancel j w;
  if active then RemoveFrontOfJobsQueueAndStartNext j w1
  else
    q ← erase_first j (pending_jobs_ w1);
    Job_Release j (set_pending q w1).

Definition SetPacScriptHelper (pac_url : GURL) (bytes : string) (w : World)
  : option World :=
  _ ← valid (alive w);
  let w1 := EnsureThreadStarted w in
  loop ← thread_ w1;
  Some (set_thread (Some (loop ++ [SetPacScriptTask pac_url bytes])) w1).

Definition SetPacScriptByUrlInternal (pac_url : GURL) : World -> option World :=
  SetPacScriptHelper pac_url "".

Definition SetPacScriptByDataInternal (bytes : string) : World -> option World :=
  SetPacScriptHelper "" bytes.

(** ** The worker thread *)

Definition run_worker_task (t : WorkerTask) (w : World) : option World :=
  let w' := set_worker_log (worker_log w ++ [t]) w in
  match t with
  | DoQueryTask j => Job_DoQuery j w'
  | SetPacScriptTask pac_url bytes => SetPacScriptTask_Run pac_url bytes w'
  end.

(** One turn of the worker's message loop. *)
Definition worker_step (w : World) : option World :=
  match thread_ w with
  | Some (t :: rest) => run_worker_task t (set_thread (Some rest) w)
  | _ => Some w
  end.

(** ** The destructor *)

(** Modelled from the spec: [base/thread.h] is not part of the sources.
    Destroying a started [base::Thread] stops it: the tasks already posted
    to its loop run, then the thread is joined, so the execution context
    outlives every engine call it was asked to make. *)
Fixpoint drain (n : nat) (w : World) : option World :=
  match n with
  | 0 => Some w
  | S n' => w' ← worker_step w; drain n' w'
  end.

Definition Thread_Stop (w : World) : option World :=
  loop ← thread_ w;
  w' ← drain (length loop) w;
  Some (log EvThreadStop (set_thread None w')).

Inductive Member := m_resolver | m_thread | m_pending_jobs.

(** Modelled from the spec: the class declaration
    ([single_threaded_proxy_resolver.h]) is not part of the sources.  The
    destructor's comment and the spec say that [thread_] is destroyed before
    [resolver_]; members are destroyed in reverse declaration order, so
    [resolver_] is declared first. *)
Definition member_declaration_order : list Member :=
  [m_resolver; m_thread; m_pending_jobs].

Definition destroy_member (m : Member) (w : World) : option World :=
  match m with
  | m_pending_jobs =>
      w' ← run_all Job_Release (pending_jobs_ w) w;
      Some (set_pending [] w')
  | m_thread =>
      match thread_ w with
      | None => Some w
      | Some _ => Thread_Stop w
      end
  | m_resolver =>
      Some (log EvResolverDestroyed (set_resolver None w))
  end.

(** [~SingleThreadedProxyResolver]: the body cancels every pending job, then
    the members go, the last declared first. *)
Definition Destroy_with (declared : list Member) (w : World) : option World :=
  _ ← valid (alive w);
  w1 ← run_all Job_Cancel (pending_jobs_ w) w;
  w2 ← run_all destroy_member (rev declared) w1;
  Some (set_alive false w2).

Definition Destroy : World -> option World :=
  Destroy_with member_declaration_order.

(** ** The origin thread *)

(** What code on the origin thread (a caller, or a completion callback) can
    ask of the resolver. *)
Inductive Action :=
| ASubmit (url : GURL) (results callback : option nat) (request : bool)
| ACancel (req : option nat)
| ASetPacScriptByUrl (pac_url : GURL)
| ASetPacScriptByData (bytes : string)
| ADestroy.

Definition run_action (a : Action) (w : World) : option World :=
  match a with
  | ASubmit url results callback request =>
      '(_, _, w') ← GetProxyForURL url results callback request w; Some w'
  | ACancel req => CancelRequest req w
  | ASetPacScriptByUrl pac_url => SetPacScriptByUrlInternal pac_url w
  | ASetPacScriptByData bytes => SetPacScriptByDataInternal bytes w
  | ADestroy => Destroy w
  end.

(** [results_->Use(results_buf_)] *)
Definition ProxyInfo_Use (j : nat) (job : Job) (w : World) : option World :=
  slot ← results_ job;
  Some (log (EvUse j slot (results_buf_ job))
         (set_slots (<[slot := results_buf_ job]> (slots w)) w)).

(** [callback_->Run(result_code)]: the caller's code runs; [body] is what it
    asks of the resolver this time. *)
Definition CompletionCallback_Run (j : nat) (job : Job) (result_code : Z)
    (body : list Action) (w : World) : option World :=
  cb ← callback_ job;
  run_all run_action body (log (EvCallback j cb result_code) w).

(** [Job::QueryComplete], on the origin thread. *)
Definition Job_QueryComplete (body : list Action) (j : nat) (result_code : Z)
    (w : World) : option World :=
  job ← heap w !! j;
  w3 ← (if negb (was_cancelled job) then
          w1 ← (if (result_code >=? OK)%Z then ProxyInfo_Use j job w else Some w);
          w2 ← CompletionCallback_Run j job result_code body w1;
          job2 ← heap w2 !! j;
          if negb (was_cancelled job2) then
            _ ← coordinator_ job2;
            _ ← valid (alive w2);
            RemoveFrontOfJobsQueueAndStartNext j w2
          else Some w2
        else Some w);
  Job_Release j w3.

(** One turn of the origin loop. *)
Definition origin_step (body : list Action) (w : World) : option World :=
  match origin_loop w with
  | [] => Some w
  | QueryCompleteTask j rc :: rest =>
      Job_QueryComplete body j rc (set_origin rest w)
  end.

(** ** Executions *)

Inductive Step :=
| SUser (a : Action)
| SWorker
| SOrigin (body : list Action).

Definition step (s : Step) (w : World) : option World :=
  match s with
  | SUser a => run_action a w
  | SWorker => worker_step w
  | SOrigin body => origin_step body w
  end.

Definition run (steps : list Step) (w : World) : option World :=
  run_all step steps w.

Definition reachable (w : World) : Prop :=
  ∃ r steps, run steps (init r) = Some w.

(** * Observations, invariants and the vocabulary of the properties *)

(** ** Observations on a world *)

(** The job at address [j] exists and [Start] was called on it. *)
Definition started (h : list Job) (j : nat) : bool :=
  match h !! j with Some job => is_started job | None => false end.

(** The job at address [j] exists and [was_cancelled] holds of it. *)
Definition cancelled (h : list Job) (j : nat) : bool :=
  match h !! j with Some job => was_cancelled job | None => false end.

(** The tasks waiting in the worker thread's loop. *)
Definition worker_tasks (w : World) : list WorkerTask :=
  default [] (thread_ w).

(** Everything the worker thread has run or has been asked to run, in the
    order in which it runs it. *)
Definition schedule (w : World) : list WorkerTask :=
  worker_log w ++ worker_tasks w.

(** A job is finished once it was cancelled or its callback has run. *)
Definition finished (i : nat) (evs : list Event) : Prop :=
  EvCancel i ∈ evs ∨ ∃ cb rc, EvCallback i cb rc ∈ evs.

(** How many [DoQuery] tasks, [QueryComplete] tasks and callback runs of
    job [j] a list holds, and how often the thread was started. *)
Fixpoint count_dq (j : nat) (l : list WorkerTask) : nat :=
  match l with
  | [] => 0
  | DoQueryTask k :: l' => (if bool_decide (k = j) then 1 else 0) + count_dq j l'
  | _ :: l' => count_dq j l'
  end.

Fixpoint count_qc (j : nat) (l : list OriginTask) : nat :=
  match l with
  | [] => 0
  | QueryCompleteTask k _ :: l' =>
      (if bool_decide (k = j) then 1 else 0) + count_qc j l'
  end.

Fixpoint count_cb (j : nat) (l : list Event) : nat :=
  match l with
  | [] => 0
  | EvCallback k _ _ :: l' => (if bool_decide (k = j) then 1 else 0) + count_cb j l'
  | _ :: l' => count_cb j l'
  end.

Fixpoint count_thread_start (l : list Event) : nat :=
  match l with
  | [] => 0
  | EvThreadStart :: l' => S (count_thread_start l')
  | _ :: l' => count_thread_start l'
  end.

(** Jobs start in the order of their addresses, which is the order of their
    submission. *)
Definition starts_fifo (evs : list Event) : Prop :=
  ∀ n m i j, evs !! n = Some (EvStart i) → evs !! m = Some (EvStart j) →
             n < m → i < j.

(** When a job starts, every job submitted before it is finished. *)
Definition starts_after_preds (evs : list Event) : Prop :=
  ∀ n j, evs !! n = Some (EvStart j) → ∀ i, i < j → finished i (take n evs).

Definition is_start (e : Event) : bool :=
  match e with EvStart _ => true | _ => false end.

(** The work outstanding or done for job [j]: its [DoQuery] task, its
    [QueryComplete] task, its callback. *)
Definition job_activity (j : nat) (w : World) : nat :=
  count_dq j (worker_tasks w) + count_qc j (origin_loop w) + count_cb j (events w).

(** ** The invariant

    [wf0] holds between any two statements of the origin thread's methods;
    [wf] adds what holds whenever control is outside the resolver: the head
    of the queue is started and no queued job is cancelled. *)
Record wf0 (w : World) : Prop := mk_wf0 {
  wf_range : ∀ j, j ∈ pending_jobs_ w → j < length (heap w);
  wf_sorted : StronglySorted lt (pending_jobs_ w);
  wf_tail : ∀ j q, pending_jobs_ w = j :: q →
            ∀ k, k ∈ q → started (heap w) k = false;
  wf_coord : ∀ j job, heap w !! j = Some job →
             (coordinator_ job = None ↔ callback_ job = None);
  wf_cancel : ∀ j, cancelled (heap w) j = true ↔ EvCancel j ∈ events w;
  wf_finished : ∀ i, i < length (heap w) → i ∉ pending_jobs_ w →
                finished i (events w);
  wf_start_range : ∀ i, EvStart i ∈ events w → i < length (heap w);
  wf_start_lt : ∀ i k, EvStart i ∈ events w → k ∈ pending_jobs_ w →
                started (heap w) k = false → i < k;
  wf_fifo : starts_fifo (events w);
  wf_pred : starts_after_preds (events w);
  wf_activity : ∀ j, job_activity j w ≤ (if started (heap w) j then 1 else 0);
  wf_thread : match thread_ w with
              | Some _ => alive w = true ∧ count_thread_start (events w) = 1
              | None => if alive w then count_thread_start (events w) = 0
                        else count_thread_start (events w) ≤ 1
              end;
  wf_dead : alive w = false → pending_jobs_ w = [];
  wf_resolver : alive w = true → is_Some (resolver_ w);
  wf_logged : ∀ j, DoQueryTask j ∈ worker_log w → started (heap w) j = true;
  wf_started_thread : ∀ j, started (heap w) j = true → alive w = true →
                      is_Some (thread_ w)
}.

Record wf (w : World) : Prop := mk_wf {
  wf_base : wf0 w;
  wf_head : ∀ j q, pending_jobs_ w = j :: q → started (heap w) j = true;
  wf_queued : ∀ j, j ∈ pending_jobs_ w → cancelled (heap w) j = false
}.

(** ** Vocabulary of the proofs *)

(** Events that no clause of the invariant counts. *)
Definition neutral (e : Event) : bool :=
  match e with
  | EvUse _ _ _ | EvThreadStop | EvResolverDestroyed => true
  | _ => false
  end.

(** An update of a job that keeps its pointers and its started flag. *)
Definition same_shape (job job' : Job) : Prop :=
  coordinator_ job' = coordinator_ job ∧ callback_ job' = callback_ job ∧
  is_started_ job' = is_started_ job.

(** The two clauses that [wf] adds to [wf0]. *)
Definition head_started (w : World) : Prop :=
  ∀ j q, pending_jobs_ w = j :: q → started (heap w) j = true.

Definition none_cancelled (w : World) : Prop :=
  ∀ j, j ∈ pending_jobs_ w → cancelled (heap w) j = false.

(** The world in which [GetProxyForURL] calls [ProcessPendingJobs]. *)
Definition enqueued (url : GURL) (results callback : option nat) (w : World) : World :=
  set_pending (pending_jobs_ w ++ [length (heap w)])
    (set_heap (heap w ++
       [AddRef (mkJob (Some this_resolver) callback results url false "" 0)]) w).

(** All three pointers of the job at [j] are null. *)
Definition cleared (h : list Job) (j : nat) : Prop :=
  ∃ job, h !! j = Some job ∧
         coordinator_ job = None ∧ callback_ job = None ∧ results_ job = None.

(** The world after the members of the resolver are gone. *)
Definition torn_down (w : World) : World :=
  set_alive false
    (log EvResolverDestroyed
       (set_resolver None
          (match thread_ w with
           | Some _ => log EvThreadStop (set_thread None w)
           | None => w
           end))).

(** The job a delivery event belongs to. *)
Definition delivery_of (e : Event) : option nat :=
  match e with
  | EvUse j _ _ | EvCallback j _ _ => Some j
  | _ => None
  end.

(** [w'] comes after [w]: the log and the worker's schedule only grow, a
    cancelled job stays cancelled, and a result is delivered only for a job
    that was not cancelled. *)
Record follows (w w' : World) : Prop := mk_follows {
  fo_events : ∃ evs, events w' = events w ++ evs ∧
      ∀ e j, e ∈ evs → delivery_of e = Some j → cancelled (heap w) j = false;
  fo_cancelled : ∀ j, cancelled (heap w) j = true → cancelled (heap w') j = true;
  fo_schedule : ∃ l, schedule w' = schedule w ++ l;
  fo_heap : length (heap w) ≤ length (heap w')
}.

(** The same for a method called by the caller: nothing is delivered, and
    the output slots do not change. *)
Record follows_quietly (w w' : World) : Prop := mk_follows_quietly {
  fq_events : ∃ evs, events w' = events w ++ evs ∧
      ∀ e, e ∈ evs → delivery_of e = None;
  fq_slots : slots w' = slots w;
  fq_origin : ∃ l, origin_loop w' = origin_loop w ++ l;
  fq_cancelled : ∀ j, cancelled (heap w) j = true → cancelled (heap w') j = true;
  fq_schedule : ∃ l, schedule w' = schedule w ++ l;
  fq_heap : length (heap w) ≤ length (heap w')
}.

(** The world in which the callback's own code starts to run: the result is
    copied to the caller's slot when the code is a success, and the callback
    is entered. *)
Definition delivered (j : nat) (job : Job) (rc : Z) (w : World) : option World :=
  w1 ← (if (rc >=? OK)%Z then ProxyInfo_Use j job w else Some w);
  cb ← callback_ job;
  Some (log (EvCallback j cb rc) w1).

(** ** Examples: an engine that fails on the URL [bad], and the world
    reached from a fresh resolver by a list of steps *)

Definition example_engine (s : PacScript) (url : GURL) (buf : ProxyInfo) : Z * ProxyInfo :=
  if String.eqb url "bad" then ((-2)%Z, buf) else (0%Z, String.append "PROXY " url).

Definition example_resolver : ProxyResolver := mkResolver false NoScript example_engine.

Definition after (steps : list Step) : World :=
  default (init example_resolver) (run steps (init example_resolver)).

Definition submit (url : GURL) (slot cb : nat) : Step :=
  SUser (ASubmit url (Some slot) (Some cb) true).

(** ** Statements

    C1 as the claim states it: the started job that is executing on the
    worker (its engine call is the task the worker thread runs next) is the
    job at the front of the queue. *)
Definition single_flight_as_claimed : Prop :=
  ∀ w, reachable w →
  ∀ j rest, started (heap w) j = true →
            thread_ w = Some (DoQueryTask j :: rest) →
            head (pending_jobs_ w) = Some j.

(** A step that submits a query or a configuration. *)
Definition action_submits (a : Action) : bool :=
  match a with
  | ASubmit _ _ _ _ | ASetPacScriptByUrl _ | ASetPacScriptByData _ => true
  | ACancel _ | ADestroy => false
  end.

Definition step_submits (s : Step) : bool :=
  match s with
  | SUser a => action_submits a
  | SWorker => false
  | SOrigin body => existsb action_submits body
  end.

(** An action that calls [Job::Cancel] on job [j], or may: a request to
    cancel it, and the destruction of the resolver, which cancels the jobs
    that are queued. *)
Definition action_cancels (j : nat) (a : Action) : bool :=
  match a with
  | ACancel (Some k) => bool_decide (k = j)
  | ADestroy => true
  | ASubmit _ _ _ _ | ACancel None | ASetPacScriptByUrl _
  | ASetPacScriptByData _ => false
  end.

Definition step_cancels (j : nat) (s : Step) : bool :=
  match s with
  | SUser a => action_cancels j a
  | SWorker => false
  | SOrigin body => existsb (action_cancels j) body
  end.

(** A resolver nothing was ever submitted to. *)
Definition untouched (w : World) : Prop :=
  thread_ w = None ∧ pending_jobs_ w = [] ∧ heap w = [] ∧ origin_loop w = [].

(** While its callback runs, a job is the head of the queue of a live
    resolver, unless the callback's code cancelled it. *)
Definition kept_head (j : nat) (w : World) : Prop :=
  cancelled (heap w) j = true ∨
  (alive w = true ∧ head (pending_jobs_ w) = Some j).

(** The wrapped engine never answers with the pending sentinel (the
    contract that [DoQuery] asserts). *)
Definition engine_final (w : World) : Prop :=
  ∀ r, resolver_ w = Some r →
  ∀ s url buf, (engine r s url buf).1 ≠ ERR_IO_PENDING.

(** C8 as the claim states it, for a query submitted before a
    configuration call: if both have run on the worker, the query ran first.
    The job of the query lives at [length (heap w)]; the configuration task
    takes the place [length (schedule w2)] of the worker's schedule. *)
Definition query_before_later_configure_as_claimed : Prop :=
  ∀ w url results callback rv h w1 steps w2 pac_url bytes w3 steps' w4 n,
    reachable w →
    GetProxyForURL url results callback true w = Some (rv, h, w1) →
    run steps w1 = Some w2 →
    SetPacScriptHelper pac_url bytes w2 = Some w3 →
    run steps' w3 = Some w4 →
    worker_log w4 !! n = Some (DoQueryTask (length (heap w))) →
    worker_log w4 !! length (schedule w2) = Some (SetPacScriptTask pac_url bytes) →
    n < length (schedule w2).

(** ** Reference counts

    How often [j] occurs in a queue. *)
Fixpoint count_in (j : nat) (q : list nat) : nat :=
  match q with
  | [] => 0
  | k :: q' => (if bool_decide (k = j) then 1 else 0) + count_in j q'
  end.

(** The reference count of the job at address [j]. *)
Definition ref_count (h : list Job) (j : nat) : nat :=
  match h !! j with Some job => ref_count_ job | None => 0 end.

(** The references to job [j] that the code of this file holds: the
    queue's [scoped_refptr] and the reference that [Start] takes on behalf
    of the job's tasks, which is with the [DoQuery] task first and with the
    [QueryComplete] task then. *)
Definition references (j : nat) (w : World) : nat :=
  count_in j (pending_jobs_ w) + count_dq j (worker_tasks w) +
  count_qc j (origin_loop w).

(** Modelled from the spec: [base/task.h] is not part of the sources.  The
    spec names the holders of a job: the queue, the in-flight worker
    callback and the in-flight completion callback.  A task made by
    [NewRunnableMethod] holds a reference to its receiver from the moment it
    is made until it has run and is deleted, so each task of job [j] that
    waits in one of the two loops holds one. *)
Definition task_references (j : nat) (w : World) : nat :=
  count_dq j (worker_tasks w) + count_qc j (origin_loop w).

(** The counter of [RefCountedThreadSafe] of the job at address [j] between
    two tasks: the references taken by this file and those of the tasks. *)
Definition use_count (j : nat) (w : World) : nat :=
  ref_count (heap w) j + task_references j w.

(** The reference that a running [QueryComplete] holds until its last
    statement; [cur] is the job whose [QueryComplete] is running. *)
Definition held (cur : option nat) (j : nat) : nat :=
  if bool_decide (cur = Some j) then 1 else 0.

Record balanced (cur : option nat) (w : World) : Prop := mk_balanced {
  b_refs : ∀ j, ref_count (heap w) j = references j w + held cur j;
  b_busy : ∀ j, j ∈ pending_jobs_ w → started (heap w) j = true →
           count_dq j (worker_tasks w) + count_qc j (origin_loop w) + held cur j = 1;
  b_held : ∀ j, cur = Some j → started (heap w) j = true;
  b_idle : ∀ j, started (heap w) j = false →
           count_dq j (worker_tasks w) + count_qc j (origin_loop w) = 0
}.

(** ** The life of a job

    How a job can change: its URL is fixed, once started it stays started,
    and its three pointers keep the values given at submission until
    [Cancel] clears all of them. *)
Definition job_evolves (job job' : Job) : Prop :=
  url_ job' = url_ job ∧
  (is_started_ job = true → is_started_ job' = true) ∧
  ((coordinator_ job' = coordinator_ job ∧ callback_ job' = callback_ job ∧
    results_ job' = results_ job) ∨
   (coordinator_ job' = None ∧ callback_ job' = None ∧ results_ job' = None)).

Definition jobs_evolve (w w' : World) : Prop :=
  ∀ j job, heap w !! j = Some job →
           ∃ job', heap w' !! j = Some job' ∧ job_evolves job job'.

(** ** Progress

    A turn of one of the two loops in which the callback, if one runs, asks
    nothing of the resolver. *)
Definition idle_turn (s : Step) : Prop := s = SWorker ∨ s = SOrigin [].

(** A turn of one of the two message loops, whatever the callback would
    ask, as opposed to a call that the caller makes. *)
Definition loop_turn (s : Step) : bool :=
  match s with SUser _ => false | SWorker | SOrigin _ => true end.

(** The work that is left: a queued job needs its engine call and its
    completion, a task of the worker at most a completion. *)
Definition work_left (w : World) : nat :=
  3 * length (pending_jobs_ w) + 2 * length (worker_tasks w) +
  length (origin_loop w).

(** Every queued job has an output slot. *)
Definition slots_given (w : World) : Prop :=
  ∀ j job, j ∈ pending_jobs_ w → heap w !! j = Some job → is_Some (results_ job).

(** ** The statements of the program

    Every step of an execution is a sequence of the following updates of
    the world, one for each statement of the source that writes something.
    An update carries what the source has checked when it is made. *)
Inductive atom : World → World → Prop :=
| atom_release j job w :
    heap w !! j = Some job →
    atom w (set_job j (Release job) w)
| atom_cancel j job w :
    heap w !! j = Some job →
    atom w (log (EvCancel j)
              (set_job j (mkJob None None None (url_ job) (is_started_ job)
                                (results_buf_ job) (ref_count_ job)) w))
| atom_start j job loop w :
    heap w !! j = Some job → is_started job = false → thread_ w = Some loop →
    atom w (log (EvStart j)
              (set_thread (Some (loop ++ [DoQueryTask j]))
                 (set_job j (AddRef (mkJob (coordinator_ job) (callback_ job)
                      (results_ job) (url_ job) true (results_buf_ job)
                      (ref_count_ job))) w)))
| atom_thread w :
    thread_ w = None →
    atom w (log EvThreadStart (set_thread (Some []) w))
| atom_dequeue q w :
    (∀ k, k ∈ q → k ∈ pending_jobs_ w) →
    atom w (set_pending q w)
| atom_enqueue url results callback w :
    atom w (enqueued url results callback w)
| atom_post pac_url bytes loop w :
    thread_ w = Some loop →
    atom w (set_thread (Some (loop ++ [SetPacScriptTask pac_url bytes])) w)
| atom_query j job r rest w :
    thread_ w = Some (DoQueryTask j :: rest) → heap w !! j = Some job →
    resolver_ w = Some r →
    atom w (set_origin
              (origin_loop w ++
                 [QueryCompleteTask j
                    (engine r (pac_script r) (url_ job) (results_buf_ job)).1])
              (set_job j (mkJob (coordinator_ job) (callback_ job) (results_ job)
                           (url_ job) (is_started_ job)
                           (engine r (pac_script r) (url_ job) (results_buf_ job)).2
                           (ref_count_ job))
                 (set_worker_log (worker_log w ++ [DoQueryTask j])
                    (set_thread (Some rest) w))))
| atom_configure pac_url bytes r rest w :
    thread_ w = Some (SetPacScriptTask pac_url bytes :: rest) →
    resolver_ w = Some r →
    atom w (set_resolver
              (Some (if expects_pac_bytes r then SetPacScriptByData bytes r
                     else SetPacScriptByUrl pac_url r))
              (set_worker_log (worker_log w ++ [SetPacScriptTask pac_url bytes])
                 (set_thread (Some rest) w)))
| atom_stop w :
    thread_ w = Some [] →
    atom w (log EvThreadStop (set_thread None w))
| atom_gone w :
    atom w (set_alive false (log EvResolverDestroyed (set_resolver None w)))
| atom_deliver j rc rest job wd w :
    wf w → origin_loop w = QueryCompleteTask j rc :: rest →
    heap w !! j = Some job → was_cancelled job = false →
    delivered j job rc (set_origin rest w) = Some wd →
    atom w wd
| atom_skip j rc rest w :
    origin_loop w = QueryCompleteTask j rc :: rest →
    atom w (set_origin rest w).

(** ** What the logs record

    The script that the worker's tasks [l] leave installed in an engine with
    capability flag [e] that held the script [s] before. *)
Fixpoint installed (e : bool) (s : PacScript) (l : list WorkerTask) : PacScript :=
  match l with
  | [] => s
  | SetPacScriptTask pac_url bytes :: l' =>
      installed e (if e then ScriptByData bytes else ScriptByUrl pac_url) l'
  | DoQueryTask _ :: l' => installed e s l'
  end.

(** What the engine of [r0] answers for [url] when asked after the worker
    has run the tasks [pre]: the code and the content of the buffer. *)
Definition answer (r0 : ProxyResolver) (pre : list WorkerTask) (url : GURL)
  : Z * ProxyInfo :=
  engine r0 (installed (expects_pac_bytes r0) (pac_script r0) pre) url "".

(** Fields of the job at address [j]. *)
Definition url_of (h : list Job) (j : nat) : GURL :=
  match h !! j with Some job => url_ job | None => "" end.

Definition buf_of (h : list Job) (j : nat) : ProxyInfo :=
  match h !! j with Some job => results_buf_ job | None => "" end.

(** The worker has run the engine call of job [j], and [a] is the answer. *)
Definition answered (r0 : ProxyResolver) (w : World) (j : nat) (a : Z * ProxyInfo)
  : Prop :=
  ∃ m, worker_log w !! m = Some (DoQueryTask j) ∧
       a = answer r0 (take m (worker_log w)) (url_of (heap w) j).

(** Callbacks run in the order of the addresses of their jobs, which is the
    order of submission. *)
Definition cb_fifo (evs : list Event) : Prop :=
  ∀ n m i j cb rc cb' rc',
    evs !! n = Some (EvCallback i cb rc) → evs !! m = Some (EvCallback j cb' rc') →
    n < m → i < j.

(** The callback of a job runs after the job was started. *)
Definition cb_after_start (evs : list Event) : Prop :=
  ∀ n j cb rc, evs !! n = Some (EvCallback j cb rc) → EvStart j ∈ take n evs.

(** Events that are neither a start nor a delivery. *)
Definition quiet (e : Event) : bool :=
  match e with
  | EvStart _ | EvCallback _ _ _ | EvUse _ _ _ => false
  | _ => true
  end.

(** What holds of the logs, the loops and the wrapped resolver throughout an
    execution that started from a resolver wrapping [r0]. *)
Record recorded (r0 : ProxyResolver) (w : World) : Prop := mk_recorded {
  r_resolver : ∀ r, resolver_ w = Some r →
      expects_pac_bytes r = expects_pac_bytes r0 ∧ engine r = engine r0 ∧
      pac_script r = installed (expects_pac_bytes r0) (pac_script r0) (worker_log w);
  r_sched : ∀ j, DoQueryTask j ∈ schedule w → started (heap w) j = true;
  r_once : ∀ j, count_dq j (schedule w) ≤ 1;
  r_fresh : ∀ j, DoQueryTask j ∉ worker_log w → buf_of (heap w) j = "";
  r_buf : ∀ j a, answered r0 w j a → buf_of (heap w) j = a.2;
  r_qc : ∀ j rc, QueryCompleteTask j rc ∈ origin_loop w →
      ∃ a, answered r0 w j a ∧ rc = a.1;
  r_cb : ∀ j cb rc, EvCallback j cb rc ∈ events w →
      ∃ a, answered r0 w j a ∧ rc = a.1;
  r_use : ∀ j slot info, EvUse j slot info ∈ events w →
      ∃ a, answered r0 w j a ∧ info = a.2 ∧ (OK <= a.1)%Z;
  r_start : ∀ j, EvStart j ∈ events w ↔ started (heap w) j = true;
  r_cb_start : cb_after_start (events w);
  r_done : ∀ i k, 0 < count_cb i (events w) → k ∈ pending_jobs_ w → i ≤ k;
  r_fifo : cb_fifo (events w)
}.

(** The request of the job at address [j]: its URL, the caller's callback
    and the caller's output slot.  The job holds them until it is cancelled,
    and a delivery for [j] uses them. *)
Record owned (j : nat) (url : GURL) (results : option nat) (cb : nat) (w : World)
  : Prop := mk_owned {
  o_job : ∃ job, heap w !! j = Some job ∧ url_ job = url ∧
          (callback_ job = Some cb ∨ callback_ job = None) ∧
          (results_ job = results ∨ results_ job = None);
  o_cb : ∀ cb' rc, EvCallback j cb' rc ∈ events w → cb' = cb;
  o_use : ∀ slot info, EvUse j slot info ∈ events w → results = Some slot
}.

(** No configuration task is in [l]. *)
Definition no_configuration (l : list WorkerTask) : Prop :=
  ∀ pac_url bytes, SetPacScriptTask pac_url bytes ∉ l.

(** * Cloud print: the details of a print job

    Source: [src/chrome/service/cloud_print/print_system.h]. *)
Module cloud_print.

Inductive PrintJobStatus :=
| PRINT_JOB_STATUS_INVALID
| PRINT_JOB_STATUS_IN_PROGRESS
| PRINT_JOB_STATUS_ERROR
| PRINT_JOB_STATUS_COMPLETED.

(** The values of the enumerators, which is what [==] compares. *)
Definition PrintJobStatus_value (s : PrintJobStatus) : Z :=
  match s with
  | PRINT_JOB_STATUS_INVALID => 0
  | PRINT_JOB_STATUS_IN_PROGRESS => 1
  | PRINT_JOB_STATUS_ERROR => 2
  | PRINT_JOB_STATUS_COMPLETED => 3
  end%Z.

Record PrintJobDetails := mkPrintJobDetails {
  status : PrintJobStatus;
  platform_status_flags : Z;
  status_message : string;
  total_pages : Z;
  pages_printed : Z
}.

(** The constructor: [status_message] is default-constructed, the other
    members are initialised in the order of their declaration. *)
Definition PrintJobDetails_new : PrintJobDetails :=
  mkPrintJobDetails PRINT_JOB_STATUS_INVALID 0 "" 0 0.

(** Assignments to one member. *)
Definition set_status (s : PrintJobStatus) (d : PrintJobDetails) :=
  mkPrintJobDetails s (platform_status_flags d) (status_message d)
                    (total_pages d) (pages_printed d).
Definition set_platform_status_flags (n : Z) (d : PrintJobDetails) :=
  mkPrintJobDetails (status d) n (status_message d) (total_pages d) (pages_printed d).
Definition set_status_message (s : string) (d : PrintJobDetails) :=
  mkPrintJobDetails (status d) (platform_status_flags d) s
                    (total_pages d) (pages_printed d).
Definition set_total_pages (n : Z) (d : PrintJobDetails) :=
  mkPrintJobDetails (status d) (platform_status_flags d) (status_message d)
                    n (pages_printed d).
Definition set_pages_printed (n : Z) (d : PrintJobDetails) :=
  mkPrintJobDetails (status d) (platform_status_flags d) (status_message d)
                    (total_pages d) n.

Definition Clear (d : PrintJobDetails) : PrintJobDetails :=
  let d := set_status PRINT_JOB_STATUS_INVALID d in
  let d := set_platform_status_flags 0 d in
  let d := set_status_message "" d in
  let d := set_total_pages 0 d in
  set_pages_printed 0 d.

(** [operator ==] and [operator !=]. *)
Definition equal (d other : PrintJobDetails) : bool :=
  (PrintJobStatus_value (status d) =? PrintJobStatus_value (status other))%Z &&
  (platform_status_flags d =? platform_status_flags other)%Z &&
  String.eqb (status_message d) (status_message other) &&
  (total_pages d =? total_pages other)%Z &&
  (pages_printed d =? pages_printed other)%Z.

Definition not_equal (d other : PrintJobDetails) : bool := negb (equal d other).

End cloud_print.

(** * The login screen of Chrome OS: the layout of its controls

    Source: [src/chrome/browser/chromeos/login/login_manager_view.cc].

    [Layout] is embedded as a function of the size of the view and of the
    preferred sizes of its children into the rectangles that it passes to
    [SetBounds]. *)
Module login_manager_view.

(** [int] has 32 bits.  A value is a [Z] between [INT_MIN] and [INT_MAX];
    the result of an operation that leaves this range wraps around (two's
    complement, which is what the compilers of this code produce where the
    language leaves the overflow undefined), and the division truncates
    towards zero. *)
Definition INT_MIN : Z := (-2147483648)%Z.
Definition INT_MAX : Z := 2147483647%Z.

Definition to_int (z : Z) : Z := ((z - INT_MIN) mod 4294967296 + INT_MIN)%Z.

Definition int_add (a b : Z) : Z := to_int (a + b).
Definition int_sub (a b : Z) : Z := to_int (a - b).
Definition int_mul (a b : Z) : Z := to_int (a * b).
Definition int_div (a b : Z) : Z := to_int (a ÷ b).

Definition kTitleY : Z := 50.
Definition kVersionPad : Z := 4.
Definition kTextfieldWidth : Z := 286.
Definition kRowPad : Z := 10.
Definition kLabelPad : Z := 2.
Definition kCornerPad : Z := 6.

Record Size := mkSize { width : Z; height : Z }.

Record Rect := mkRect { x : Z; y : Z; w : Z; h : Z }.

(** [setViewBounds]: the rectangle given to [view->SetBounds] and the
    value returned; [pref_size] is [view->GetPreferredSize()]. *)
Definition setViewBounds (pref_size : Size) (x y width : Z) (force_width : bool)
  : Rect * Z :=
  let width :=
    if force_width then width
    else if (login_manager_view.width pref_size <? width)%Z
         then login_manager_view.width pref_size else width in
  let height := login_manager_view.height pref_size in
  (mkRect x y width height, height).

(** The children of the view, by member name. *)
Record Children (A : Type) := mkChildren {
  title_label_ : A;
  username_label_ : A;
  username_field_ : A;
  password_label_ : A;
  password_field_ : A;
  sign_in_button_ : A;
  error_label_ : A;
  os_version_label_ : A
}.
Arguments mkChildren {A}.
Arguments title_label_ {A}.
Arguments username_label_ {A}.
Arguments username_field_ {A}.
Arguments password_label_ {A}.
Arguments password_field_ {A}.
Arguments sign_in_button_ {A}.
Arguments error_label_ {A}.
Arguments os_version_label_ {A}.

(** [LoginManagerView::Layout], for a view of size [width] x [height] whose
    children have the preferred sizes [p]. *)
Definition Layout (width height : Z) (p : Children Size) : Children Rect :=
  let x := int_div (int_sub width kTextfieldWidth) 2 in
  let y := kTitleY in
  let max_width := int_sub width (int_add x kVersionPad) in
  let '(b_title, r) := setViewBounds (title_label_ p) x y max_width false in
  let y := int_add y (int_add r kRowPad) in
  let '(b_ulabel, r) := setViewBounds (username_label_ p) x y max_width false in
  let y := int_add y (int_add r kLabelPad) in
  let '(b_ufield, r) := setViewBounds (username_field_ p) x y kTextfieldWidth true in
  let y := int_add y (int_add r kRowPad) in
  let '(b_plabel, r) := setViewBounds (password_label_ p) x y max_width false in
  let y := int_add y (int_add r kLabelPad) in
  let '(b_pfield, r) := setViewBounds (password_field_ p) x y kTextfieldWidth true in
  let y := int_add y (int_add r kRowPad) in
  let '(b_button, r) := setViewBounds (sign_in_button_ p) x y max_width false in
  let y := int_add y (int_add r kRowPad) in
  let '(b_error, r) := setViewBounds (error_label_ p) x y max_width true in
  let y := int_add y (int_add r kRowPad) in
  let '(b_version, _) :=
    setViewBounds (os_version_label_ p) kCornerPad
      (int_sub height
         (int_add (login_manager_view.height (os_version_label_ p)) kCornerPad))
      (int_sub width (int_mul 2 kCornerPad)) true in
  mkChildren b_title b_ulabel b_ufield b_plabel b_pfield b_button b_error b_version.

(** The controls that [Layout] stacks, from top to bottom. *)
Definition column {A} (b : Children A) : list A :=
  [title_label_ b; username_label_ b; username_field_ b; password_label_ b;
   password_field_ b; sign_in_button_ b; error_label_ b].

(** Where the stack ends when nothing overflows: the title's [y], the
    preferred heights and the pads between the controls. *)
Definition form_bottom (p : Children Size) : Z :=
  (kTitleY + height (title_label_ p) + kRowPad
   + height (username_label_ p) + kLabelPad
   + height (username_field_ p) + kRowPad
   + height (password_label_ p) + kLabelPad
   + height (password_field_ p) + kRowPad
   + height (sign_in_button_ p) + kRowPad
   + height (error_label_ p))%Z.

(** [r2] lies below [r1], not touching it. *)
Definition below (r1 r2 : Rect) : Prop := (y r1 + h r1 < y r2)%Z.

Fixpoint stacked (l : list Rect) : Prop :=
  match l with
  | r1 :: (r2 :: _) as l' => below r1 r2 ∧ stacked l'
  | _ => True
  end.

(** ** Signing in

    The text fields hold UTF-16 strings; the conversions, the resource
    identifiers of the error messages and everything the view calls outside
    of itself are parameters.  What [Login] does is the new state of the
    view and the calls it makes, in order. *)
Definition kDefaultDomain : string := "@gmail.com".

(** The character [@]. *)
Definition at_sign : Ascii.ascii := Ascii.ascii_of_nat 64.

(** [s.find('@') != std::string::npos] *)
Fixpoint has_at (s : string) : bool :=
  match s with
  | EmptyString => false
  | String c s' => Ascii.eqb c at_sign || has_at s'
  end.

(** [s.find(p) != std::string::npos] *)
Fixpoint contains (p s : string) : bool :=
  String.prefix p s ||
  match s with
  | EmptyString => false
  | String _ s' => contains p s'
  end.

Section Login.

Context {string16 : Type}.
Variable empty16 : string16 → bool.
Variable UTF16ToUTF8 : string16 → string.
Variable UTF8ToUTF16 : string → string16.
Variables IDS_LOGIN_ERROR_NO_NETWORK_LIBRARY
          IDS_LOGIN_ERROR_NETWORK_NOT_CONNECTED
          IDS_LOGIN_ERROR_AUTHENTICATING : Z.

(** The members of the view that [Login] reads or writes. *)
Record View := mkView {
  username_text : string16;
  password_text : string16;
  error_id_ : Z;
  has_observer : bool
}.

Record NetworkLibrary := mkNetworkLibrary {
  EnsureLoaded : bool;
  Connected : bool
}.

(** What is outside of the view: the answer of the session helper that
    [Authenticate] launches ([kStubOutLogin] is false), whether the login
    library is loaded, and the network library, if there is one. *)
Record Env := mkEnv {
  Authenticate : string → string → bool;
  LoginLibrary_EnsureLoaded : bool;
  NetworkLibrary_Get : option NetworkLibrary
}.

Inductive Call :=
| CAuthenticate (username password : string)
| COnExit
| CAppendSwitch_AutoSSLClientAuth
| CStartSession (username : string)
| CUserLoggedIn (username : string).

(** [ShowError]: the label's text follows from [error_id_]. *)
Definition ShowError (error_id : Z) (v : View) : View :=
  mkView (username_text v) (password_text v) error_id (has_observer v).

Definition SetText_username (t : string16) (v : View) : View :=
  mkView t (password_text v) (error_id_ v) (has_observer v).

Definition SetupSession (env : Env) (v : View) (username : string) : list Call :=
  (if has_observer v then [COnExit] else []) ++
  (if contains "@google.com" username then [CAppendSwitch_AutoSSLClientAuth]
   else []) ++
  (if LoginLibrary_EnsureLoaded env then [CStartSession username] else []).

Definition Login (env : Env) (v : View) : View * list Call :=
  if empty16 (username_text v) then (v, [])
  else
    let username := UTF16ToUTF8 (username_text v) in
    let password := UTF16ToUTF8 (password_text v) in
    let '(username, v) :=
      if negb (has_at username)
      then (String.append username kDefaultDomain,
            SetText_username (UTF8ToUTF16 (String.append username kDefaultDomain)) v)
      else (username, v) in
    if Authenticate env username password
    then (v, [CAuthenticate username password] ++ SetupSession env v username ++
             [CUserLoggedIn username])
    else
      let error :=
        match NetworkLibrary_Get env with
        | None => IDS_LOGIN_ERROR_NO_NETWORK_LIBRARY
        | Some network =>
            if negb (EnsureLoaded network) then IDS_LOGIN_ERROR_NO_NETWORK_LIBRARY
            else if negb (Connected network)
                 then IDS_LOGIN_ERROR_NETWORK_NOT_CONNECTED
                 else IDS_LOGIN_ERROR_AUTHENTICATING
        end in
      (ShowError error v, [CAuthenticate username password]).

(** The user name that a call is about. *)
Definition call_username (c : Call) : option string :=
  match c with
  | CAuthenticate u _ | CStartSession u | CUserLoggedIn u => Some u
  | COnExit | CAppendSwitch_AutoSSLClientAuth => None
  end.

End Login.

End login_manager_view.

(** * Properties *)

(** ** Lists and counters *)

Lemma count_dq_app j l1 l2 : count_dq j (l1 ++ l2) = count_dq j l1 + count_dq j l2.
Proof.
  induction l1 as [|[k|u b] l1 IH]; simpl; [done| |done].
  rewrite IH. lia.
Qed.

Lemma count_qc_app j l1 l2 : count_qc j (l1 ++ l2) = count_qc j l1 + count_qc j l2.
Proof.
  induction l1 as [|[k rc] l1 IH]; simpl; [done|].
  rewrite IH. lia.
Qed.

Lemma count_cb_app j l1 l2 : count_cb j (l1 ++ l2) = count_cb j l1 + count_cb j l2.
Proof.
  induction l1 as [|e l1 IH]; simpl; [done|].
  destruct e; simpl; rewrite ?IH; lia.
Qed.

Lemma count_thread_start_app l1 l2 :
  count_thread_start (l1 ++ l2) = count_thread_start l1 + count_thread_start l2.
Proof.
  induction l1 as [|e l1 IH]; simpl; [done|].
  destruct e; simpl; rewrite ?IH; lia.
Qed.

Lemma count_dq_pos j l : DoQueryTask j ∈ l → 0 < count_dq j l.
Proof.
  induction l as [|t l IH]; intros H; [by apply elem_of_nil in H|].
  apply elem_of_cons in H as [<-|H]; simpl.
  - rewrite bool_decide_eq_true_2 by done. lia.
  - specialize (IH H). destruct t; lia.
Qed.

Lemma finished_mono i evs evs' : finished i evs → finished i (evs ++ evs').
Proof.
  intros [H|(cb & rc & H)]; [left|right; exists cb, rc];
    apply elem_of_app; by left.
Qed.

Lemma started_insert h j job k :
  started (<[j := job]> h) k =
  if bool_decide (k = j ∧ j < length h) then is_started job else started h k.
Proof.
  unfold started. case_bool_decide as Hd.
  - destruct Hd as [-> Hlt]. by rewrite list_lookup_insert_eq.
  - destruct (decide (k = j)) as [->|Hne].
    + rewrite list_insert_ge; [done|]. lia.
    + by rewrite list_lookup_insert_ne.
Qed.

Lemma cancelled_insert h j job k :
  cancelled (<[j := job]> h) k =
  if bool_decide (k = j ∧ j < length h) then was_cancelled job else cancelled h k.
Proof.
  unfold cancelled. case_bool_decide as Hd.
  - destruct Hd as [-> Hlt]. by rewrite list_lookup_insert_eq.
  - destruct (decide (k = j)) as [->|Hne].
    + rewrite list_insert_ge; [done|]. lia.
    + by rewrite list_lookup_insert_ne.
Qed.

Lemma started_lt h j : started h j = true → j < length h.
Proof.
  unfold started. destruct (h !! j) eqn:E; [|done].
  intros _. by eapply lookup_lt_Some.
Qed.

Lemma wf0_init r : wf0 (init r).
Proof.
  constructor; simpl; try done.
  - intros j H. by apply elem_of_nil in H.
  - constructor.
  - intros j. split; [done|]. intros H. by apply elem_of_nil in H.
  - intros i H. lia.
  - intros i H. by apply elem_of_nil in H.
  - intros i k H. by apply elem_of_nil in H.
  - intros j H. by apply elem_of_nil in H.
Qed.

Lemma wf_init r : wf (init r).
Proof.
  constructor; [apply wf0_init|done|].
  intros j H. by apply elem_of_nil in H.
Qed.

Lemma elem_of_snoc_ne {A} (l : list A) (e x : A) : x ∈ l ++ [e] → x ≠ e → x ∈ l.
Proof.
  intros H Hne. apply elem_of_app in H as [H|H]; [done|].
  apply list_elem_of_singleton in H. congruence.
Qed.

Lemma lookup_snoc_start evs e n i :
  (evs ++ [e]) !! n = Some (EvStart i) → is_start e = false →
  evs !! n = Some (EvStart i).
Proof.
  intros H He. apply lookup_snoc_Some in H as [[_ H]|[_ H]]; [done|].
  subst e. done.
Qed.

Lemma starts_fifo_snoc_other evs e :
  is_start e = false → starts_fifo evs → starts_fifo (evs ++ [e]).
Proof.
  intros He Hf n m i j Hn Hm Hlt.
  apply lookup_snoc_start in Hn, Hm; try done. by eapply Hf.
Qed.

Lemma starts_fifo_snoc_start evs j :
  starts_fifo evs → (∀ i, EvStart i ∈ evs → i < j) →
  starts_fifo (evs ++ [EvStart j]).
Proof.
  intros Hf Hj n m i k Hn Hm Hlt.
  apply lookup_snoc_Some in Hn as [[Hn1 Hn]|[Hn1 Hn]];
    apply lookup_snoc_Some in Hm as [[Hm1 Hm]|[Hm1 Hm]]; try lia.
  - by eapply Hf.
  - injection Hm as <-. apply Hj. by eapply list_elem_of_lookup_2.
Qed.

Lemma starts_after_preds_snoc_other evs e :
  is_start e = false → starts_after_preds evs → starts_after_preds (evs ++ [e]).
Proof.
  intros He Hp n j Hn i Hi.
  apply lookup_snoc_start in Hn; [|done].
  rewrite take_app_le; [by eapply Hp|].
  apply lookup_lt_Some in Hn. lia.
Qed.

Lemma starts_after_preds_snoc_start evs j :
  starts_after_preds evs → (∀ i, i < j → finished i evs) →
  starts_after_preds (evs ++ [EvStart j]).
Proof.
  intros Hp Hj n k Hn i Hi.
  apply lookup_snoc_Some in Hn as [[Hn1 Hn]|[Hn1 Hn]].
  - rewrite take_app_le by lia. by eapply Hp.
  - injection Hn as <-. subst n. rewrite take_app_length. by apply Hj.
Qed.

Lemma elem_of_app_neutral evs l x :
  Forall (λ e, neutral e = true) l → neutral x = false → x ∈ evs ++ l → x ∈ evs.
Proof.
  intros Hl Hx [H|H]%elem_of_app; [done|].
  apply (proj1 (Forall_forall _ _) Hl) in H. congruence.
Qed.

Lemma neutral_not_start e : neutral e = true → is_start e = false.
Proof. by destruct e. Qed.

Lemma starts_fifo_app_neutral evs l :
  Forall (λ e, neutral e = true) l → starts_fifo evs → starts_fifo (evs ++ l).
Proof.
  intros Hl. revert evs. induction Hl as [|e l He Hl IH]; intros evs Hf.
  - by rewrite app_nil_r.
  - rewrite (cons_middle e), app_assoc. apply IH.
    by apply starts_fifo_snoc_other; [apply neutral_not_start|].
Qed.

Lemma starts_after_preds_app_neutral evs l :
  Forall (λ e, neutral e = true) l →
  starts_after_preds evs → starts_after_preds (evs ++ l).
Proof.
  intros Hl. revert evs. induction Hl as [|e l He Hl IH]; intros evs Hf.
  - by rewrite app_nil_r.
  - rewrite (cons_middle e), app_assoc. apply IH.
    by apply starts_after_preds_snoc_other; [apply neutral_not_start|].
Qed.

Lemma count_cb_neutral j l : Forall (λ e, neutral e = true) l → count_cb j l = 0.
Proof. induction 1 as [|e l He Hl IH]; [done|]. by destruct e. Qed.

Lemma count_thread_start_neutral l :
  Forall (λ e, neutral e = true) l → count_thread_start l = 0.
Proof. induction 1 as [|e l He Hl IH]; [done|]. by destruct e. Qed.

(** The clauses of the invariant that read the event log, for a log that
    grew by neutral events. *)
Lemma log_clauses_neutral (evs l : list Event) :
  Forall (λ e, neutral e = true) l →
  (∀ j, EvCancel j ∈ evs ++ l ↔ EvCancel j ∈ evs) ∧
  (∀ i, EvStart i ∈ evs ++ l ↔ EvStart i ∈ evs) ∧
  (∀ i, finished i evs → finished i (evs ++ l)) ∧
  (starts_fifo evs → starts_fifo (evs ++ l)) ∧
  (starts_after_preds evs → starts_after_preds (evs ++ l)) ∧
  (∀ j, count_cb j (evs ++ l) = count_cb j evs) ∧
  count_thread_start (evs ++ l) = count_thread_start evs.
Proof.
  intros Hl. split_and!.
  - intros j. split; [by apply elem_of_app_neutral|].
    intros H. apply elem_of_app. by left.
  - intros j. split; [by apply elem_of_app_neutral|].
    intros H. apply elem_of_app. by left.
  - intros i. apply finished_mono.
  - by apply starts_fifo_app_neutral.
  - by apply starts_after_preds_app_neutral.
  - intros j. rewrite count_cb_app, (count_cb_neutral j l Hl). lia.
  - rewrite count_thread_start_app, (count_thread_start_neutral l Hl). lia.
Qed.

Ltac wsimpl := unfold job_activity, schedule, worker_tasks in *; simpl in *.

(** Changing only what the invariant does not look at. *)
Lemma wf0_ext w w' :
  alive w' = alive w → thread_ w' = thread_ w →
  pending_jobs_ w' = pending_jobs_ w → origin_loop w' = origin_loop w →
  worker_log w' = worker_log w → events w' = events w →
  (is_Some (resolver_ w) → is_Some (resolver_ w')) →
  length (heap w') = length (heap w) →
  (∀ j, started (heap w') j = started (heap w) j) →
  (∀ j, cancelled (heap w') j = cancelled (heap w) j) →
  (∀ j job, heap w' !! j = Some job →
            (coordinator_ job = None ↔ callback_ job = None)) →
  wf0 w → wf0 w'.
Proof.
  intros Ha Ht Hq Ho Hl He Hr Hn Hs Hc Hd [].
  constructor; unfold job_activity, worker_tasks;
    rewrite ?Ha, ?Ht, ?Hq, ?Ho, ?Hl, ?He, ?Hn; try done.
  - intros j q E k. rewrite Hs. by eapply wf_tail0.
  - intros j. rewrite Hc. apply wf_cancel0.
  - intros i k. rewrite Hs. apply wf_start_lt0.
  - intros j. rewrite Hs. apply wf_activity0.
  - intros H. apply Hr. by apply wf_resolver0.
  - intros j. rewrite Hs. apply wf_logged0.
  - intros j. rewrite Hs. apply wf_started_thread0.
Qed.

Lemma wf_ext w w' :
  alive w' = alive w → thread_ w' = thread_ w →
  pending_jobs_ w' = pending_jobs_ w → origin_loop w' = origin_loop w →
  worker_log w' = worker_log w → events w' = events w →
  (is_Some (resolver_ w) → is_Some (resolver_ w')) →
  length (heap w') = length (heap w) →
  (∀ j, started (heap w') j = started (heap w) j) →
  (∀ j, cancelled (heap w') j = cancelled (heap w) j) →
  (∀ j job, heap w' !! j = Some job →
            (coordinator_ job = None ↔ callback_ job = None)) →
  wf w → wf w'.
Proof.
  intros Ha Ht Hq Ho Hl He Hr Hn Hs Hc Hd [H0 Hh Hqd].
  constructor; [by eapply (wf0_ext w)| |].
  - intros j q. rewrite Hq, Hs. apply Hh.
  - intros j. rewrite Hq, Hc. apply Hqd.
Qed.

Lemma started_insert_same (h : list Job) (j : nat) job job' k :
  h !! j = Some job → is_started_ job' = is_started_ job →
  started (<[j := job']> h) k = started h k.
Proof.
  intros Hj Hs. rewrite started_insert. case_bool_decide as Hd; [|done].
  destruct Hd as [-> _]. unfold started, is_started. by rewrite Hj, Hs.
Qed.

Lemma cancelled_insert_same (h : list Job) (j : nat) job job' k :
  h !! j = Some job → callback_ job' = callback_ job →
  cancelled (<[j := job']> h) k = cancelled h k.
Proof.
  intros Hj Hc. rewrite cancelled_insert. case_bool_decide as Hd; [|done].
  destruct Hd as [-> _]. unfold cancelled, was_cancelled. by rewrite Hj, Hc.
Qed.

Lemma started_same_shape (h : list Job) (j : nat) job job' k :
  h !! j = Some job → same_shape job job' →
  started (<[j := job']> h) k = started h k.
Proof. intros Hj (_ & _ & Hs). by eapply started_insert_same. Qed.

Lemma cancelled_same_shape (h : list Job) (j : nat) job job' k :
  h !! j = Some job → same_shape job job' →
  cancelled (<[j := job']> h) k = cancelled h k.
Proof. intros Hj (_ & Hc & _). by eapply cancelled_insert_same. Qed.

Lemma coord_same_shape (h : list Job) (j : nat) job job' :
  h !! j = Some job → same_shape job job' →
  (∀ k jb, h !! k = Some jb → (coordinator_ jb = None ↔ callback_ jb = None)) →
  ∀ k jb, <[j := job']> h !! k = Some jb →
          (coordinator_ jb = None ↔ callback_ jb = None).
Proof.
  intros Hj (Hc & Hb & _) Hall k jb Hk.
  destruct (decide (k = j)) as [->|Hne].
  - rewrite list_lookup_insert_eq in Hk by (by eapply lookup_lt_Some).
    injection Hk as <-. rewrite Hc, Hb. by eapply Hall.
  - rewrite list_lookup_insert_ne in Hk by done. by eapply Hall.
Qed.

Lemma wf0_set_job j job job' w :
  heap w !! j = Some job → same_shape job job' → wf0 w → wf0 (set_job j job' w).
Proof.
  intros Hj Hs Hw. eapply (wf0_ext w); simpl; try done.
  - apply length_insert.
  - intros k. by eapply started_same_shape.
  - intros k. by eapply cancelled_same_shape.
  - eapply coord_same_shape; [done..|]. apply Hw.
Qed.

Lemma wf_set_job j job job' w :
  heap w !! j = Some job → same_shape job job' → wf w → wf (set_job j job' w).
Proof.
  intros Hj Hs Hw. eapply (wf_ext w); simpl; try done.
  - apply length_insert.
  - intros k. by eapply started_same_shape.
  - intros k. by eapply cancelled_same_shape.
  - eapply coord_same_shape; [done..|]. apply Hw.
Qed.

Lemma Job_Release_inv j w w' :
  Job_Release j w = Some w' →
  ∃ job, heap w !! j = Some job ∧ w' = set_job j (Release job) w.
Proof.
  unfold Job_Release. destruct (heap w !! j) as [job|]; [|done].
  simpl. intros [= <-]. by exists job.
Qed.

Lemma wf0_Job_Release j w w' : wf0 w → Job_Release j w = Some w' → wf0 w'.
Proof.
  intros Hw (job & Hj & ->)%Job_Release_inv. by eapply wf0_set_job.
Qed.

Lemma wf_Job_Release j w w' : wf w → Job_Release j w = Some w' → wf w'.
Proof.
  intros Hw (job & Hj & ->)%Job_Release_inv. by eapply wf_set_job.
Qed.

(** ** The invariant is kept by every statement *)

Lemma Job_Cancel_inv j w w' :
  Job_Cancel j w = Some w' →
  ∃ job, heap w !! j = Some job ∧
    w' = log (EvCancel j)
           (set_job j (mkJob None None None (url_ job) (is_started_ job)
                             (results_buf_ job) (ref_count_ job)) w).
Proof.
  unfold Job_Cancel. destruct (heap w !! j) as [job|]; [|done].
  simpl. intros [= <-]. by exists job.
Qed.

Lemma wf0_Job_Cancel j w w' : wf0 w → Job_Cancel j w = Some w' → wf0 w'.
Proof.
  intros Hw (job & Hj & ->)%Job_Cancel_inv.
  pose proof (lookup_lt_Some _ _ _ Hj) as Hlt.
  assert (Hst : ∀ k, started (<[j := mkJob None None None (url_ job)
            (is_started_ job) (results_buf_ job) (ref_count_ job)]> (heap w)) k
            = started (heap w) k) by (intros k; by eapply started_insert_same).
  destruct Hw. constructor; wsimpl; rewrite ?length_insert; try done.
  - intros j0 q E k Hk. rewrite Hst. by eapply wf_tail0.
  - intros k jb Hk. destruct (decide (k = j)) as [->|Hne].
    + rewrite list_lookup_insert_eq in Hk by done. by injection Hk as <-.
    + rewrite list_lookup_insert_ne in Hk by done. by eapply wf_coord0.
  - intros k. rewrite cancelled_insert. case_bool_decide as Hd.
    + destruct Hd as [-> _]. split; [|done]. intros _.
      apply elem_of_app. right. by apply list_elem_of_singleton.
    + rewrite wf_cancel0. split; [intros H; apply elem_of_app; by left|].
      intros H. apply elem_of_snoc_ne in H; [done|]. intros [= ->]. by apply Hd.
  - intros i Hi Hn. by apply finished_mono, wf_finished0.
  - intros i Hi. apply elem_of_snoc_ne in Hi; [|done]. by apply wf_start_range0.
  - intros i k Hi Hk. rewrite Hst. apply elem_of_snoc_ne in Hi; [|done].
    by apply wf_start_lt0.
  - by apply starts_fifo_snoc_other.
  - by apply starts_after_preds_snoc_other.
  - intros k. rewrite Hst, count_cb_app. simpl. specialize (wf_activity0 k). lia.
  - rewrite count_thread_start_app. simpl. by rewrite Nat.add_0_r.
  - intros k. rewrite Hst. apply wf_logged0.
  - intros k. rewrite Hst. apply wf_started_thread0.
Qed.

Lemma subset_nil (q : list nat) : (∀ k, k ∈ q → k ∈ @nil nat) → q = [].
Proof.
  destruct q as [|k q]; [done|]. intros H.
  exfalso. eapply elem_of_nil, H. by left.
Qed.

(** Dropping finished jobs from the queue. *)
Lemma wf0_set_pending q w :
  wf0 w → StronglySorted lt q →
  (∀ k, k ∈ q → k ∈ pending_jobs_ w) →
  (∀ k, k ∈ pending_jobs_ w → k ∉ q → finished k (events w)) →
  (∀ j q', q = j :: q' → ∀ k, k ∈ q' → started (heap w) k = false) →
  wf0 (set_pending q w).
Proof.
  intros [] Hs Hsub Hfin Htl. constructor; wsimpl; try done.
  - intros j Hj. by apply wf_range0, Hsub.
  - intros i Hi Hn. destruct (decide (i ∈ pending_jobs_ w)) as [Hin|Hin].
    + by apply Hfin.
    + by apply wf_finished0.
  - intros i k Hi Hk. by apply wf_start_lt0, Hsub.
  - intros Ha. apply subset_nil. intros k Hk. rewrite <-(wf_dead0 Ha). by apply Hsub.
Qed.

Lemma wf0_EnsureThreadStarted w : wf0 w → alive w = true → wf0 (EnsureThreadStarted w).
Proof.
  intros Hw Ha. unfold EnsureThreadStarted.
  destruct (thread_ w) as [loop|] eqn:Ht; [done|].
  destruct Hw. rewrite Ht, Ha in wf_thread0.
  constructor; wsimpl; try done.
  - intros j. rewrite wf_cancel0. split; [intros H; apply elem_of_app; by left|].
    intros H. by apply elem_of_snoc_ne in H.
  - intros i Hi Hn. by apply finished_mono, wf_finished0.
  - intros i Hi. apply elem_of_snoc_ne in Hi; [|done]. by apply wf_start_range0.
  - intros i k Hi Hk. apply elem_of_snoc_ne in Hi; [|done]. by apply wf_start_lt0.
  - by apply starts_fifo_snoc_other.
  - by apply starts_after_preds_snoc_other.
  - intros k. rewrite count_cb_app. simpl. specialize (wf_activity0 k).
    rewrite Ht in wf_activity0. simpl in *. lia.
  - split; [done|]. rewrite count_thread_start_app. simpl. lia.
Qed.

Lemma EnsureThreadStarted_fields w :
  let w' := EnsureThreadStarted w in
  is_Some (thread_ w') ∧ alive w' = alive w ∧ pending_jobs_ w' = pending_jobs_ w ∧
  heap w' = heap w ∧ origin_loop w' = origin_loop w ∧ slots w' = slots w ∧
  worker_log w' = worker_log w ∧ resolver_ w' = resolver_ w ∧
  worker_tasks w' = worker_tasks w.
Proof.
  unfold EnsureThreadStarted, worker_tasks.
  destruct (thread_ w) as [loop|] eqn:Ht; simpl; rewrite ?Ht; eauto 10.
Qed.

Lemma sorted_head_lt j q k : StronglySorted lt (j :: q) → k ∈ q → j < k.
Proof.
  intros [Hall _]%StronglySorted_cons Hk.
  by eapply (proj1 (Forall_forall _ _) Hall).
Qed.

Lemma sorted_tail j q : StronglySorted lt (j :: q) → StronglySorted lt q.
Proof. by intros [_ H]%StronglySorted_cons. Qed.

Lemma sorted_head_notin j q : StronglySorted lt (j :: q) → j ∉ q.
Proof. intros Hs Hj. pose proof (sorted_head_lt _ _ _ Hs Hj). lia. Qed.

Lemma Job_Start_inv j w w' :
  Job_Start j w = Some w' →
  ∃ job loop, heap w !! j = Some job ∧ is_Some (coordinator_ job) ∧
    alive w = true ∧ thread_ w = Some loop ∧
    w' = log (EvStart j)
           (set_thread (Some (loop ++ [DoQueryTask j]))
              (set_job j (AddRef (mkJob (coordinator_ job) (callback_ job)
                   (results_ job) (url_ job) true (results_buf_ job)
                   (ref_count_ job))) w)).
Proof.
  unfold Job_Start. destruct (heap w !! j) as [job|]; [|done]. simpl.
  destruct (coordinator_ job) as [c|] eqn:Hc; [|done]. simpl.
  destruct (alive w) eqn:Ha; [|done]. simpl.
  destruct (thread_ w) as [loop|]; [|done]. simpl.
  intros [= <-]. exists job, loop. rewrite Hc. eauto 10.
Qed.

(** Starting the head of the queue. *)
Lemma wf0_Job_Start j q w w' :
  wf0 w → pending_jobs_ w = j :: q → started (heap w) j = false →
  Job_Start j w = Some w' →
  wf0 w' ∧ started (heap w') j = true ∧
  (∀ k, cancelled (heap w') k = cancelled (heap w) k) ∧
  pending_jobs_ w' = pending_jobs_ w.
Proof.
  intros Hw Hq Hns (job & loop & Hj & Hco & Ha & Ht & ->)%Job_Start_inv.
  pose proof (lookup_lt_Some _ _ _ Hj) as Hlt.
  set (job' := AddRef _).
  assert (Hst : ∀ k, started (<[j := job']> (heap w)) k =
                     if bool_decide (k = j) then true else started (heap w) k).
  { intros k. rewrite started_insert. destruct (decide (k = j)) as [->|Hne].
    - by rewrite !bool_decide_eq_true_2.
    - rewrite !bool_decide_eq_false_2; [done..|]. by intros [? _]. }
  assert (Hca : ∀ k, cancelled (<[j := job']> (heap w)) k = cancelled (heap w) k).
  { intros k. by eapply cancelled_insert_same. }
  assert (Hjq : j ∈ pending_jobs_ w) by (rewrite Hq; by left).
  split; [|wsimpl; split_and!; [|done..]].
  2:{ rewrite Hst. by rewrite bool_decide_eq_true_2. }
  destruct Hw. rewrite Ht, Ha in wf_thread0.
  constructor; wsimpl; rewrite ?length_insert; try done.
  - intros j0 q0 E k Hk. rewrite Hst. case_bool_decide as Hd; [|by eapply wf_tail0].
    subst k. rewrite Hq in E. injection E as <- <-.
    rewrite Hq in wf_sorted0. by apply sorted_head_notin in wf_sorted0.
  - intros k jb Hk. destruct (decide (k = j)) as [->|Hne].
    + rewrite list_lookup_insert_eq in Hk by done. injection Hk as <-.
      simpl. by eapply wf_coord0.
    + rewrite list_lookup_insert_ne in Hk by done. by eapply wf_coord0.
  - intros k. rewrite Hca, wf_cancel0. split; [intros H; apply elem_of_app; by left|].
    intros H. by apply elem_of_snoc_ne in H.
  - intros i Hi Hn. by apply finished_mono, wf_finished0.
  - intros i Hi. apply elem_of_app in Hi as [Hi|Hi]; [by apply wf_start_range0|].
    apply list_elem_of_singleton in Hi. by injection Hi as ->.
  - intros i k Hi Hk. rewrite Hst. case_bool_decide as Hd; [done|]. intros Hk'.
    apply elem_of_app in Hi as [Hi|Hi]; [by apply wf_start_lt0|].
    apply list_elem_of_singleton in Hi. injection Hi as ->.
    rewrite Hq in Hk, wf_sorted0. apply elem_of_cons in Hk as [Hk|Hk]; [done|].
    by eapply sorted_head_lt.
  - apply starts_fifo_snoc_start; [done|]. intros i Hi. by apply wf_start_lt0.
  - apply starts_after_preds_snoc_start; [done|]. intros i Hi.
    apply wf_finished0; [lia|]. rewrite Hq. intros Hin.
    apply elem_of_cons in Hin as [Hin|Hin]; [lia|].
    rewrite Hq in wf_sorted0. pose proof (sorted_head_lt _ _ _ wf_sorted0 Hin). lia.
  - intros k. rewrite Hst, count_dq_app, count_cb_app. simpl.
    specialize (wf_activity0 k). rewrite Ht in wf_activity0. simpl in *.
    case_bool_decide as Hd.
    + subst k. rewrite Hns in wf_activity0. rewrite bool_decide_eq_true_2 by done. lia.
    + rewrite bool_decide_eq_false_2 by congruence. lia.
  - split; [done|]. rewrite count_thread_start_app. simpl. lia.
  - intros k Hk. rewrite Hst. case_bool_decide; [done|]. by apply wf_logged0.
Qed.

Lemma wf_intro w : wf0 w → head_started w → none_cancelled w → wf w.
Proof. by constructor. Qed.

(** [ProcessPendingJobs] turns [wf0] into [wf]. *)
Lemma wf_ProcessPendingJobs w w' :
  wf0 w → none_cancelled w → ProcessPendingJobs w = Some w' → wf w'.
Proof.
  intros Hw Hnc. unfold ProcessPendingJobs.
  destruct (pending_jobs_ w) as [|j q] eqn:Hq.
  { intros [= <-]. apply wf_intro; [done| |done].
    intros j q. by rewrite Hq. }
  destruct (heap w !! j) as [job|] eqn:Hj; [|done]. simpl.
  destruct (is_started job) eqn:Hs.
  { intros [= <-]. apply wf_intro; [done| |done].
    intros j' q'. rewrite Hq. intros [= <- <-]. unfold started. by rewrite Hj. }
  intros Hstart.
  assert (Ha : alive w = true).
  { destruct (alive w) eqn:Ha; [done|]. destruct Hw. by rewrite wf_dead0 in Hq. }
  pose proof (EnsureThreadStarted_fields w) as (_ & _ & Hq' & Hh' & _).
  eapply wf0_Job_Start in Hstart as (Hw' & Hst & Hca & Hq'').
  - apply wf_intro; [done| |].
    + intros j' q'. rewrite Hq'', Hq', Hq. by intros [= <- <-].
    + intros k. rewrite Hq'', Hq', Hca, Hh'. apply Hnc.
  - by apply wf0_EnsureThreadStarted.
  - by rewrite Hq'.
  - rewrite Hh'. unfold started. by rewrite Hj.
Qed.

Lemma Job_Release_fields j w w' :
  Job_Release j w = Some w' →
  alive w' = alive w ∧ thread_ w' = thread_ w ∧
  pending_jobs_ w' = pending_jobs_ w ∧ origin_loop w' = origin_loop w ∧
  slots w' = slots w ∧ worker_log w' = worker_log w ∧ events w' = events w ∧
  resolver_ w' = resolver_ w ∧ length (heap w') = length (heap w) ∧
  (∀ k, started (heap w') k = started (heap w) k) ∧
  (∀ k, cancelled (heap w') k = cancelled (heap w) k) ∧
  (∀ k, k ≠ j → heap w' !! k = heap w !! k).
Proof.
  intros (job & Hj & ->)%Job_Release_inv. simpl. split_and!; try done.
  - apply length_insert.
  - intros k. by eapply started_insert_same.
  - intros k. by eapply cancelled_insert_same.
  - intros k Hk. by apply list_lookup_insert_ne.
Qed.

Lemma Job_Cancel_fields j w w' :
  Job_Cancel j w = Some w' →
  alive w' = alive w ∧ thread_ w' = thread_ w ∧
  pending_jobs_ w' = pending_jobs_ w ∧ origin_loop w' = origin_loop w ∧
  slots w' = slots w ∧ worker_log w' = worker_log w ∧
  events w' = events w ++ [EvCancel j] ∧
  resolver_ w' = resolver_ w ∧ length (heap w') = length (heap w) ∧
  (∀ k, started (heap w') k = started (heap w) k) ∧
  (∀ k, cancelled (heap w') k = if bool_decide (k = j) then true
                                else cancelled (heap w) k) ∧
  (∀ k, k ≠ j → heap w' !! k = heap w !! k).
Proof.
  intros (job & Hj & ->)%Job_Cancel_inv. simpl.
  pose proof (lookup_lt_Some _ _ _ Hj) as Hlt. split_and!; try done.
  - apply length_insert.
  - intros k. by eapply started_insert_same.
  - intros k. rewrite cancelled_insert. destruct (decide (k = j)) as [->|Hne].
    + by rewrite !bool_decide_eq_true_2.
    + rewrite !bool_decide_eq_false_2; [done..|]. by intros [? _].
  - intros k Hk. by apply list_lookup_insert_ne.
Qed.

(** Popping the finished head and starting the next job. *)
Lemma wf_RemoveFront j w w' :
  wf0 w → head_started w →
  (∀ k, k ∈ pending_jobs_ w → k ≠ j → cancelled (heap w) k = false) →
  finished j (events w) →
  RemoveFrontOfJobsQueueAndStartNext j w = Some w' → wf w'.
Proof.
  intros Hw Hh Hnc Hfin. unfold RemoveFrontOfJobsQueueAndStartNext.
  destruct (pending_jobs_ w) as [|j' rest] eqn:Hq; [done|].
  case_bool_decide as Hd; [|done]. subst j'. simpl.
  destruct (Job_Release j (set_pending rest w)) as [w1|] eqn:Hrel; [|done]. simpl.
  assert (Hs : StronglySorted lt (j :: rest)) by (rewrite <-Hq; apply Hw).
  assert (Hw1 : wf0 (set_pending rest w)).
  { apply wf0_set_pending; try done.
    - by eapply sorted_tail.
    - intros k Hk. rewrite Hq. by right.
    - intros k Hk Hn. rewrite Hq in Hk.
      apply elem_of_cons in Hk as [->|Hk]; done.
    - intros j2 q2 -> k Hk. eapply (wf_tail _ Hw); [done|]. by right. }
  apply Job_Release_fields in Hrel as Hf.
  destruct Hf as (_ & _ & Hq1 & _ & _ & _ & _ & _ & _ & _ & Hc1 & _).
  apply wf_ProcessPendingJobs.
  - by eapply wf0_Job_Release.
  - intros k. rewrite Hq1, Hc1. simpl. intros Hk. apply Hnc.
    + by right.
    + intros ->. by eapply sorted_head_notin.
Qed.

Lemma started_app (h : list Job) job k :
  started (h ++ [job]) k =
  if bool_decide (k = length h) then is_started job else started h k.
Proof.
  unfold started. case_bool_decide as Hd.
  - subst k. by rewrite list_lookup_middle.
  - destruct (decide (k < length h)) as [Hlt|Hge].
    + by rewrite lookup_app_l.
    + rewrite !lookup_ge_None_2; [done|lia|]. rewrite length_app. simpl. lia.
Qed.

Lemma cancelled_app (h : list Job) job k :
  cancelled (h ++ [job]) k =
  if bool_decide (k = length h) then was_cancelled job else cancelled h k.
Proof.
  unfold cancelled. case_bool_decide as Hd.
  - subst k. by rewrite list_lookup_middle.
  - destruct (decide (k < length h)) as [Hlt|Hge].
    + by rewrite lookup_app_l.
    + rewrite !lookup_ge_None_2; [done|lia|]. rewrite length_app. simpl. lia.
Qed.

Lemma started_ge (h : list Job) k : length h ≤ k → started h k = false.
Proof. intros H. unfold started. by rewrite lookup_ge_None_2. Qed.

Lemma cancelled_ge (h : list Job) k : length h ≤ k → cancelled h k = false.
Proof. intros H. unfold cancelled. by rewrite lookup_ge_None_2. Qed.

(** Allocating a job and appending it to the queue. *)
Lemma wf0_push job w :
  wf w → alive w = true →
  is_Some (coordinator_ job) → is_Some (callback_ job) → is_started_ job = false →
  let w1 := set_pending (pending_jobs_ w ++ [length (heap w)])
              (set_heap (heap w ++ [job]) w) in
  wf0 w1 ∧ none_cancelled w1 ∧ (pending_jobs_ w ≠ [] → head_started w1).
Proof.
  intros [Hw Hh Hnc] Ha [c Hc] [cb Hcb] Hns w1.
  assert (Hwc : was_cancelled job = false) by (unfold was_cancelled; by rewrite Hcb).
  split_and!.
  - destruct Hw. constructor; subst w1; wsimpl; rewrite ?length_app; simpl; try done.
    + intros j [Hj|Hj]%elem_of_app.
      * apply wf_range0 in Hj. lia.
      * apply list_elem_of_singleton in Hj. lia.
    + apply StronglySorted_app_2; [|done|repeat constructor].
      intros x1 x2 H1 ->%list_elem_of_singleton. by apply wf_range0.
    + intros j q E k Hk. rewrite started_app. case_bool_decide; [done|].
      destruct (pending_jobs_ w) as [|j0 q0] eqn:Hq; simpl in E.
      * injection E as <- <-. by apply elem_of_nil in Hk.
      * injection E as <- <-. apply elem_of_app in Hk as [Hk|Hk].
        -- by eapply wf_tail0.
        -- apply list_elem_of_singleton in Hk. done.
    + intros k jb [Hk|[_ Hk]]%lookup_app_Some; [by eapply wf_coord0|].
      destruct (k - length (heap w)); simpl in Hk; [|done].
      injection Hk as <-. by rewrite Hc, Hcb.
    + intros k. rewrite cancelled_app, <-wf_cancel0. case_bool_decide; [|done].
      subst k. rewrite Hwc, cancelled_ge; done.
    + intros i Hi Hn. apply wf_finished0.
      * destruct (decide (i = length (heap w))) as [->|]; [|lia].
        exfalso. apply Hn, elem_of_app. right. by apply list_elem_of_singleton.
      * intros Hin. apply Hn, elem_of_app. by left.
    + intros i Hi. apply wf_start_range0 in Hi. lia.
    + intros i k Hi [Hk|Hk]%elem_of_app.
      * rewrite started_app. case_bool_decide as Hd; [|by apply wf_start_lt0].
        subst k. apply wf_range0 in Hk. lia.
      * apply list_elem_of_singleton in Hk. subst k. intros _.
        by apply wf_start_range0.
    + intros k. rewrite started_app. case_bool_decide as Hd; [|done].
      subst k. specialize (wf_activity0 (length (heap w))).
      rewrite started_ge in wf_activity0 by done. unfold is_started. by rewrite Hns.
    + by rewrite Ha.
    + intros j Hj. rewrite started_app. case_bool_decide as Hd; [|by apply wf_logged0].
      subst j. apply wf_logged0, started_lt in Hj. lia.
    + intros k. rewrite started_app. case_bool_decide as Hd; [|by apply wf_started_thread0].
      unfold is_started. by rewrite Hns.
  - intros k. subst w1. simpl. rewrite cancelled_app.
    case_bool_decide as Hd; [done|]. intros [Hk|Hk]%elem_of_app; [by apply Hnc|].
    apply list_elem_of_singleton in Hk. done.
  - intros Hne j q. subst w1. simpl.
    destruct (pending_jobs_ w) as [|j0 q0] eqn:Hq; [done|]. simpl.
    intros [= <- <-]. rewrite started_app.
    case_bool_decide as Hd; [|by eapply Hh].
    subst j0. pose proof (wf_range _ Hw (length (heap w))) as Hr.
    rewrite Hq in Hr. assert (length (heap w) < length (heap w)); [|lia].
    apply Hr. by left.
Qed.

Lemma GetProxyForURL_inv url results callback request w rv h w' :
  GetProxyForURL url results callback request w = Some (rv, h, w') →
  alive w = true ∧ is_Some callback ∧ rv = ERR_IO_PENDING ∧
  h = (if request then Some (length (heap w)) else None) ∧
  ProcessPendingJobs (enqueued url results callback w) = Some w'.
Proof.
  unfold GetProxyForURL, Job_new, enqueued.
  destruct (alive w); [|done]. simpl.
  case_bool_decide as Hcb; [|done]. simpl.
  destruct (ProcessPendingJobs _) as [w2|]; [|done]. simpl.
  by intros [= <- <- <-].
Qed.

Lemma wf_GetProxyForURL url results callback request w rv h w' :
  wf w → GetProxyForURL url results callback request w = Some (rv, h, w') → wf w'.
Proof.
  intros Hw (Ha & Hcb & _ & _ & Hp)%GetProxyForURL_inv.
  edestruct (wf0_push (AddRef (mkJob (Some this_resolver) callback results url
                                     false "" 0)) w) as (H0 & Hnc & _);
    [done|done|by eexists|done|done|].
  by eapply wf_ProcessPendingJobs.
Qed.

Lemma erase_first_spec j q q' :
  StronglySorted lt q → erase_first j q = Some q' →
  j ∈ q ∧ StronglySorted lt q' ∧ (∀ k, k ∈ q' ↔ k ∈ q ∧ k ≠ j) ∧
  (∀ j0 q0, q = j0 :: q0 → j0 ≠ j →
            ∃ q0', q' = j0 :: q0' ∧ ∀ k, k ∈ q0' → k ∈ q0).
Proof.
  revert q'. induction q as [|k q IH]; intros q' Hs; simpl; [done|].
  case_bool_decide as Hd.
  - intros [= <-]. subst k. split_and!.
    + by left.
    + by eapply sorted_tail.
    + intros k. split.
      * intros Hk. split; [by right|]. intros ->. by eapply sorted_head_notin.
      * intros [[->|Hk]%elem_of_cons Hne]; done.
    + intros j0 q0 [= <- <-]. done.
  - destruct (erase_first j q) as [q''|] eqn:E; [|done]. simpl. intros [= <-].
    destruct (IH q'' (sorted_tail _ _ Hs) eq_refl) as (Hin & Hs' & Hmem & _).
    split_and!.
    + by right.
    + apply StronglySorted_cons. split; [|done].
      apply Forall_forall. intros x Hx. apply Hmem in Hx as [Hx _].
      by eapply sorted_head_lt.
    + intros x. rewrite !elem_of_cons, Hmem. split.
      * intros [->|[Hx Hne]]; [by split; [left|]|by split; [right|]].
      * intros [[->|Hx] Hne]; [by left|by right].
    + intros j0 q0 [= <- <-] _. exists q''. split; [done|].
      intros x Hx. by apply Hmem in Hx as [Hx _].
Qed.

Lemma wf_CancelRequest req w w' : wf w → CancelRequest req w = Some w' → wf w'.
Proof.
  intros [Hw Hh Hnc]. unfold CancelRequest.
  destruct (alive w) eqn:Ha; [|done]. simpl.
  destruct req as [j|]; [|done]. simpl.
  destruct (heap w !! j) as [job|] eqn:Hj; [|done]. simpl.
  destruct (Job_Cancel j w) as [w1|] eqn:Hcan; [|done]. simpl.
  pose proof (wf0_Job_Cancel _ _ _ Hw Hcan) as Hw1.
  apply Job_Cancel_fields in Hcan
    as (_ & _ & Hq1 & _ & _ & _ & He1 & _ & _ & Hs1 & Hc1 & _).
  assert (Hfin : finished j (events w1)).
  { left. rewrite He1. apply elem_of_app. right. by apply list_elem_of_singleton. }
  assert (Hnc1 : ∀ k, k ∈ pending_jobs_ w1 → k ≠ j → cancelled (heap w1) k = false).
  { intros k. rewrite Hq1, Hc1. intros Hk Hne.
    rewrite bool_decide_eq_false_2 by done. by apply Hnc. }
  destruct (is_active_job job j w) eqn:Hact.
  - apply wf_RemoveFront; try done.
    intros j0 q0. rewrite Hq1, Hs1. apply Hh.
  - destruct (erase_first j (pending_jobs_ w1)) as [q|] eqn:Her; [|done]. simpl.
    intros Hrel.
    apply erase_first_spec in Her as (Hin & Hsq & Hmem & Hhd); [|apply Hw1].
    assert (Hw2 : wf0 (set_pending q w1)).
    { apply wf0_set_pending; try done.
      - intros k Hk. by apply Hmem in Hk as [Hk _].
      - intros k Hk Hn. destruct (decide (k = j)) as [->|Hne]; [done|].
        exfalso. apply Hn, Hmem. done.
      - intros j2 q2 -> k Hk.
        destruct (pending_jobs_ w1) as [|j0 q0] eqn:Hq0; [by apply elem_of_nil in Hin|].
        destruct (decide (j0 = j)) as [->|Hne].
        + eapply (wf_tail _ Hw1); [done|].
          assert (k ∈ j2 :: q2) as Hk2 by (by right).
          apply Hmem in Hk2 as [Hk2 Hk3].
          by apply elem_of_cons in Hk2 as [?|?].
        + destruct (Hhd _ _ eq_refl Hne) as (q0' & [= <- <-] & Hsub).
          eapply (wf_tail _ Hw1); [done|]. by apply Hsub. }
    pose proof (wf0_Job_Release _ _ _ Hw2 Hrel) as Hw3.
    apply Job_Release_fields in Hrel
      as (_ & _ & Hq3 & _ & _ & _ & _ & _ & _ & Hs3 & Hc3 & _).
    simpl in *. apply wf_intro; [done| |].
    + intros j2 q2. rewrite Hq3, Hs3, Hs1. intros ->.
      destruct (pending_jobs_ w) as [|j0 q0] eqn:Hq0;
        [rewrite Hq1 in Hin; by apply elem_of_nil in Hin|].
      destruct (decide (j0 = j)) as [->|Hne].
      * exfalso. unfold is_active_job in Hact. rewrite Hq0 in Hact. simpl in Hact.
        rewrite bool_decide_eq_true_2 in Hact by done.
        specialize (Hh _ _ eq_refl). unfold started in Hh. rewrite Hj in Hh.
        by rewrite Hh in Hact.
      * rewrite Hq1 in Hhd. destruct (Hhd _ _ eq_refl Hne) as (q0' & [= <- <-] & _).
        by eapply Hh.
    + intros k. rewrite Hq3, Hc3. intros [Hk Hne]%Hmem. by apply Hnc1.
Qed.

Lemma wf0_post t w loop :
  wf0 w → thread_ w = Some loop → (∀ j, t ≠ DoQueryTask j) →
  wf0 (set_thread (Some (loop ++ [t])) w).
Proof.
  intros [] Ht Hne. rewrite Ht in wf_thread0. constructor; wsimpl; try done.
  intros k. specialize (wf_activity0 k). rewrite Ht in wf_activity0. simpl in *.
  rewrite count_dq_app. destruct t as [j|u b]; [by destruct (Hne j)|]. simpl. lia.
Qed.

Lemma wf_SetPacScriptHelper pac_url bytes w w' :
  wf w → SetPacScriptHelper pac_url bytes w = Some w' → wf w'.
Proof.
  intros [Hw Hh Hnc]. unfold SetPacScriptHelper.
  destruct (alive w) eqn:Ha; [|done]. simpl.
  pose proof (wf0_EnsureThreadStarted _ Hw Ha) as Hw1.
  pose proof (EnsureThreadStarted_fields w) as (_ & _ & Hq & Hhp & _).
  destruct (thread_ (EnsureThreadStarted w)) as [loop|] eqn:Ht; [|done]. simpl.
  intros [= <-]. apply wf_intro.
  - by apply wf0_post.
  - intros j q. simpl. rewrite Hq, Hhp. apply Hh.
  - intros j. simpl. rewrite Hq, Hhp. apply Hnc.
Qed.

(** What a turn of the worker's loop leaves unchanged. *)
Lemma worker_step_fields w w' :
  worker_step w = Some w' →
  alive w' = alive w ∧ pending_jobs_ w' = pending_jobs_ w ∧
  slots w' = slots w ∧ events w' = events w ∧
  length (heap w') = length (heap w) ∧
  (∀ k, started (heap w') k = started (heap w) k) ∧
  (∀ k, cancelled (heap w') k = cancelled (heap w) k) ∧
  schedule w' = schedule w ∧
  (is_Some (thread_ w') ↔ is_Some (thread_ w)) ∧
  length (worker_tasks w') = pred (length (worker_tasks w)) ∧
  (is_Some (resolver_ w) → is_Some (resolver_ w')).
Proof.
  unfold worker_step, schedule, worker_tasks.
  destruct (thread_ w) as [[|t rest]|] eqn:Ht.
  1,3: intros [= <-]; rewrite Ht; by split_and!.
  destruct t as [j|u b]; simpl.
  - unfold Job_DoQuery. simpl.
    destruct (heap w !! j) as [job|] eqn:Hj; [|done]. simpl.
    destruct (resolver_ w) as [r|] eqn:Hr; [|done]. simpl.
    destruct (engine r _ _ _) as [rv buf].
    destruct (DCHECK _); [|done]. simpl. intros [= <-]. simpl.
    rewrite Hr. split_and!; try done.
    + apply length_insert.
    + intros k. by eapply started_insert_same.
    + intros k. by eapply cancelled_insert_same.
    + by rewrite <-app_assoc.
  - unfold SetPacScriptTask_Run. simpl.
    destruct (resolver_ w) as [r|] eqn:Hr; [|done]. simpl. intros [= <-]. simpl.
    split_and!; try done. by rewrite <-app_assoc.
Qed.

Lemma wf_worker_step w w' : wf w → worker_step w = Some w' → wf w'.
Proof.
  intros Hwf Hstep.
  pose proof (worker_step_fields _ _ Hstep)
    as (Ha & Hq & _ & He & Hn & Hs & Hc & _ & _ & _ & Hr).
  destruct Hwf as [Hw Hh Hnc]. apply wf_intro.
  2:{ intros j q. rewrite Hq, Hs. apply Hh. }
  2:{ intros j. rewrite Hq, Hc. apply Hnc. }
  revert Hstep. unfold worker_step.
  destruct (thread_ w) as [[|t rest]|] eqn:Ht; try (by intros [= <-]).
  destruct Hw. rewrite Ht in wf_thread0.
  destruct t as [j|u b]; simpl.
  - unfold Job_DoQuery. simpl.
    destruct (heap w !! j) as [job|] eqn:Hj; [|done]. simpl.
    destruct (resolver_ w) as [r|] eqn:Hrs; [|done]. simpl.
    destruct (engine r _ _ _) as [rv buf].
    destruct (DCHECK _); [|done]. simpl. intros [= <-].
    pose proof (lookup_lt_Some _ _ _ Hj) as Hlt.
    set (job' := mkJob _ _ _ _ _ _ _).
    assert (Hst : ∀ k, started (<[j := job']> (heap w)) k = started (heap w) k)
      by (intros k; by eapply started_insert_same).
    assert (Hca : ∀ k, cancelled (<[j := job']> (heap w)) k = cancelled (heap w) k)
      by (intros k; by eapply cancelled_insert_same).
    constructor; wsimpl; rewrite ?length_insert; try done.
    + intros j0 q E k Hk. rewrite Hst. by eapply wf_tail0.
    + eapply coord_same_shape; [done| |done]. done.
    + intros k. by rewrite Hca.
    + intros i k Hi Hk. rewrite Hst. by apply wf_start_lt0.
    + intros k. rewrite Hst, count_qc_app. simpl.
      specialize (wf_activity0 k). rewrite Ht in wf_activity0. simpl in *. lia.
    + intros k [Hk|Hk]%elem_of_app; rewrite Hst; [by apply wf_logged0|].
      apply list_elem_of_singleton in Hk. injection Hk as ->.
      specialize (wf_activity0 j). rewrite Ht in wf_activity0. simpl in *.
      rewrite bool_decide_eq_true_2 in wf_activity0 by done.
      destruct (started (heap w) j); [done|lia].
  - unfold SetPacScriptTask_Run. simpl.
    destruct (resolver_ w) as [r|] eqn:Hrs; [|done]. simpl. intros [= <-].
    constructor; wsimpl; try done.
    + intros k. specialize (wf_activity0 k). rewrite Ht in wf_activity0.
      simpl in *. lia.
    + intros k [Hk|Hk]%elem_of_app; [by apply wf_logged0|].
      by apply list_elem_of_singleton in Hk.
Qed.

Lemma wf_drain n w w' : wf w → drain n w = Some w' → wf w'.
Proof.
  revert w. induction n as [|n IH]; intros w Hw; simpl; [by intros [= <-]|].
  destruct (worker_step w) as [w1|] eqn:Hs; [|done]. simpl.
  eauto using wf_worker_step.
Qed.

Lemma drain_fields n w w' :
  drain n w = Some w' →
  alive w' = alive w ∧ pending_jobs_ w' = pending_jobs_ w ∧
  slots w' = slots w ∧ events w' = events w ∧
  length (heap w') = length (heap w) ∧
  (∀ k, started (heap w') k = started (heap w) k) ∧
  (∀ k, cancelled (heap w') k = cancelled (heap w) k) ∧
  schedule w' = schedule w ∧
  (is_Some (thread_ w') ↔ is_Some (thread_ w)) ∧
  length (worker_tasks w') = length (worker_tasks w) - n ∧
  (is_Some (resolver_ w) → is_Some (resolver_ w')).
Proof.
  revert w. induction n as [|n IH]; intros w; simpl.
  { intros [= <-]. split_and!; try done. lia. }
  destruct (worker_step w) as [w1|] eqn:Hs; [|done]. simpl. intros Hd.
  apply worker_step_fields in Hs
    as (Ha & Hq & Hsl & He & Hn & Hst & Hc & Hsc & Ht & Hl & Hr).
  apply IH in Hd as (Ha' & Hq' & Hsl' & He' & Hn' & Hst' & Hc' & Hsc' & Ht' & Hl' & Hr').
  split_and!; try congruence; try (intros k; congruence); try tauto; try lia.
Qed.

Lemma cleared_Job_Release j w w' k :
  Job_Release j w = Some w' → cleared (heap w) k → cleared (heap w') k.
Proof.
  intros (job & Hj & ->)%Job_Release_inv (jb & Hk & Hc). simpl.
  destruct (decide (k = j)) as [->|Hne].
  - exists (Release job). rewrite list_lookup_insert_eq by (by eapply lookup_lt_Some).
    split; [done|]. simpl. congruence.
  - exists jb. by rewrite list_lookup_insert_ne.
Qed.

Lemma cleared_worker_step w w' k :
  worker_step w = Some w' → cleared (heap w) k → cleared (heap w') k.
Proof.
  unfold worker_step.
  destruct (thread_ w) as [[|t rest]|]; try (by intros [= <-]).
  destruct t as [j|u b]; simpl.
  - unfold Job_DoQuery. simpl.
    destruct (heap w !! j) as [job|] eqn:Hj; [|done]. simpl.
    destruct (resolver_ w) as [r|]; [|done]. simpl.
    destruct (engine r _ _ _) as [rv buf].
    destruct (DCHECK _); [|done]. simpl. intros [= <-] (jb & Hk & Hc). simpl.
    destruct (decide (k = j)) as [->|Hne].
    + eexists. rewrite list_lookup_insert_eq by (by eapply lookup_lt_Some).
      split; [done|]. simpl. congruence.
    + exists jb. by rewrite list_lookup_insert_ne.
  - unfold SetPacScriptTask_Run. simpl.
    destruct (resolver_ w) as [r|]; [|done]. simpl. by intros [= <-].
Qed.

Lemma cleared_drain n w w' k :
  drain n w = Some w' → cleared (heap w) k → cleared (heap w') k.
Proof.
  revert w. induction n as [|n IH]; intros w; simpl; [by intros [= <-]|].
  destruct (worker_step w) as [w1|] eqn:Hs; [|done]. simpl.
  eauto using cleared_worker_step.
Qed.

Lemma cleared_Job_Cancel j w w' k :
  Job_Cancel j w = Some w' →
  (k = j ∨ cleared (heap w) k) → cleared (heap w') k.
Proof.
  intros (job & Hj & ->)%Job_Cancel_inv Hk. simpl.
  destruct (decide (k = j)) as [->|Hne].
  - eexists. rewrite list_lookup_insert_eq by (by eapply lookup_lt_Some). done.
  - destruct Hk as [?|(jb & Hk & Hc)]; [done|].
    exists jb. by rewrite list_lookup_insert_ne.
Qed.

(** The destructor's loop over the queue. *)
Lemma cancel_all_fields q w w' :
  run_all Job_Cancel q w = Some w' →
  alive w' = alive w ∧ thread_ w' = thread_ w ∧
  pending_jobs_ w' = pending_jobs_ w ∧ origin_loop w' = origin_loop w ∧
  slots w' = slots w ∧ worker_log w' = worker_log w ∧
  events w' = events w ++ (EvCancel <$> q) ∧
  resolver_ w' = resolver_ w ∧ length (heap w') = length (heap w) ∧
  (∀ k, started (heap w') k = started (heap w) k) ∧
  (∀ k, cancelled (heap w) k = true → cancelled (heap w') k = true) ∧
  (∀ k, k ∈ q → cleared (heap w') k) ∧
  (∀ k, cleared (heap w) k → cleared (heap w') k) ∧
  (wf0 w → wf0 w').
Proof.
  revert w. induction q as [|j q IH]; intros w; simpl.
  { intros [= <-]. rewrite app_nil_r. split_and!; try done.
    intros k Hk. by apply elem_of_nil in Hk. }
  destruct (Job_Cancel j w) as [w1|] eqn:Hc; [|done]. simpl. intros Hrest.
  pose proof (Job_Cancel_fields _ _ _ Hc)
    as (Ha & Ht & Hq & Ho & Hsl & Hl & He & Hr & Hn & Hst & Hca & _).
  apply IH in Hrest
    as (Ha' & Ht' & Hq' & Ho' & Hsl' & Hl' & He' & Hr' & Hn' & Hst' & Hca' & Hcl' & Hcl'' & Hw').
  split_and!; try congruence.
  - rewrite He', He, <-app_assoc. done.
  - intros k Hk. apply Hca'. rewrite Hca. by case_bool_decide.
  - intros k [->|Hk]%elem_of_cons; [|by apply Hcl'].
    apply Hcl''. eapply cleared_Job_Cancel; [done|]. by left.
  - intros k Hk. apply Hcl''. eapply cleared_Job_Cancel; [done|]. by right.
  - intros Hw. by eapply Hw', wf0_Job_Cancel.
Qed.

Lemma release_all_fields q w w' :
  run_all Job_Release q w = Some w' →
  alive w' = alive w ∧ thread_ w' = thread_ w ∧
  pending_jobs_ w' = pending_jobs_ w ∧ origin_loop w' = origin_loop w ∧
  slots w' = slots w ∧ worker_log w' = worker_log w ∧ events w' = events w ∧
  resolver_ w' = resolver_ w ∧ length (heap w') = length (heap w) ∧
  (∀ k, started (heap w') k = started (heap w) k) ∧
  (∀ k, cancelled (heap w') k = cancelled (heap w) k) ∧
  (∀ k, cleared (heap w) k → cleared (heap w') k) ∧
  (wf0 w → wf0 w').
Proof.
  revert w. induction q as [|j q IH]; intros w; simpl.
  { intros [= <-]. by split_and!. }
  destruct (Job_Release j w) as [w1|] eqn:Hc; [|done]. simpl. intros Hrest.
  pose proof (Job_Release_fields _ _ _ Hc)
    as (Ha & Ht & Hq & Ho & Hsl & Hl & He & Hr & Hn & Hst & Hca & _).
  apply IH in Hrest
    as (Ha' & Ht' & Hq' & Ho' & Hsl' & Hl' & He' & Hr' & Hn' & Hst' & Hca' & Hcl' & Hw').
  split_and!; try congruence.
  - intros k Hk. by eapply Hcl', cleared_Job_Release.
  - intros Hw. by eapply Hw', wf0_Job_Release.
Qed.

Lemma wf_torn_down w : wf0 w → pending_jobs_ w = [] → wf (torn_down w).
Proof.
  intros Hw Hq. unfold torn_down. apply wf_intro.
  2:{ intros j q. destruct (thread_ w); simpl; by rewrite Hq. }
  2:{ intros j. destruct (thread_ w); simpl; rewrite Hq; intros H;
      by apply elem_of_nil in H. }
  destruct Hw.
  destruct (thread_ w) as [loop|] eqn:Ht; constructor; wsimpl;
    rewrite <-?app_assoc; simpl; rewrite ?Hq; try done;
    try (intros ? H; by apply elem_of_nil in H);
    try (intros ? ? _ H; by apply elem_of_nil in H);
    try (by constructor).
  all: match goal with
       | |- context [events ?w0 ++ ?l] =>
           assert (Hl : Forall (λ e, neutral e = true) l) by (by repeat constructor);
           destruct (log_clauses_neutral (events w0) l Hl)
             as (Hc & Hs & Hf & Hfi & Hp & Hcb & Hts)
       end.
  all: rewrite ?Hts.
  all: try (intros j; rewrite ?Hc, ?Hs, ?Hcb; auto; fail).
  all: try (by auto).
  - intros i Hi Hn. apply Hf, wf_finished0; [done|]. by rewrite Hq.
  - intros k. rewrite Hcb. specialize (wf_activity0 k). simpl in *. lia.
  - lia.
  - intros i Hi Hn. apply Hf, wf_finished0; [done|]. by rewrite Hq.
  - rewrite Ht. destruct (alive w); lia.
Qed.

Lemma Destroy_inv w w' :
  Destroy w = Some w' →
  alive w = true ∧
  ∃ w1 w2 w3,
    run_all Job_Cancel (pending_jobs_ w) w = Some w1 ∧
    run_all Job_Release (pending_jobs_ w1) w1 = Some w2 ∧
    drain (length (worker_tasks w2)) (set_pending [] w2) = Some w3 ∧
    w' = torn_down w3.
Proof.
  unfold Destroy, Destroy_with. destruct (alive w); [|done]. simpl.
  destruct (run_all Job_Cancel _ w) as [w1|] eqn:Hc; [|done]. simpl.
  destruct (run_all Job_Release _ w1) as [w2|] eqn:Hr; [|done]. simpl.
  unfold Thread_Stop. simpl.
  destruct (thread_ w2) as [loop|] eqn:Ht; simpl.
  - destruct (drain (length loop) (set_pending [] w2)) as [w3|] eqn:Hd; [|done].
    simpl. intros [= <-].
    split; [done|]. exists w1, w2, w3. unfold torn_down, worker_tasks.
    rewrite Ht. simpl. split_and!; try done.
    apply drain_fields in Hd as (_ & _ & _ & _ & _ & _ & _ & _ & Hth & _).
    simpl in Hth. rewrite Ht in Hth.
    destruct (thread_ w3) as [loop3|] eqn:Ht3; [done|].
    destruct Hth as [_ Hth]. by destruct Hth.
  - intros [= <-]. split; [done|]. exists w1, w2, (set_pending [] w2).
    unfold torn_down, worker_tasks. rewrite Ht. simpl. by rewrite Ht.
Qed.

Lemma wf_Destroy w w' : wf w → Destroy w = Some w' → wf w'.
Proof.
  intros [Hw Hh Hnc] (Ha & w1 & w2 & w3 & Hc & Hr & Hd & ->)%Destroy_inv.
  apply cancel_all_fields in Hc
    as (_ & _ & Hq1 & _ & _ & _ & He1 & _ & _ & _ & _ & _ & _ & Hw1).
  apply release_all_fields in Hr
    as (_ & _ & Hq2 & _ & _ & _ & He2 & _ & _ & _ & _ & _ & Hw2).
  assert (Hwa : wf (set_pending [] w2)).
  { apply wf_intro.
    - apply wf0_set_pending; [by auto|constructor| | |done].
      + intros k Hk. by apply elem_of_nil in Hk.
      + intros k Hk _. left. rewrite He2, He1. apply elem_of_app. right.
        apply list_elem_of_fmap. exists k. split; [done|]. congruence.
    - by intros j q.
    - intros j Hj. by apply elem_of_nil in Hj. }
  pose proof (wf_drain _ _ _ Hwa Hd) as [Hw3 _ _].
  apply drain_fields in Hd as (_ & Hq3 & _).
  by apply wf_torn_down.
Qed.

(** ** What the methods leave alone *)

Ltac origin_same :=
  try match goal with
      | |- @ex (list OriginTask) _ =>
          exists []; rewrite app_nil_r; simpl; (done || congruence)
      end.

Lemma follows_quietly_refl w : follows_quietly w w.
Proof.
  constructor; try done; origin_same.
  - exists []. rewrite app_nil_r. split; [done|]. intros e H. by apply elem_of_nil in H.
  - exists []. by rewrite app_nil_r.
Qed.

Lemma follows_quietly_trans w1 w2 w3 :
  follows_quietly w1 w2 → follows_quietly w2 w3 → follows_quietly w1 w3.
Proof.
  intros [(e1 & He1 & Hq1) Hs1 (o1 & Ho1) Hc1 (l1 & Hl1) Hh1]
         [(e2 & He2 & Hq2) Hs2 (o2 & Ho2) Hc2 (l2 & Hl2) Hh2].
  constructor; try congruence; try lia.
  - exists (e1 ++ e2). rewrite He2, He1, app_assoc. split; [done|].
    intros e [H|H]%elem_of_app; auto.
  - exists (o1 ++ o2). by rewrite Ho2, Ho1, app_assoc.
  - auto.
  - exists (l1 ++ l2). by rewrite Hl2, Hl1, app_assoc.
Qed.

Lemma follows_refl w : follows w w.
Proof.
  constructor; try done.
  - exists []. rewrite app_nil_r. split; [done|]. intros e j H. by apply elem_of_nil in H.
  - exists []. by rewrite app_nil_r.
Qed.

Lemma follows_trans w1 w2 w3 : follows w1 w2 → follows w2 w3 → follows w1 w3.
Proof.
  intros [(e1 & He1 & Hq1) Hc1 (l1 & Hl1) Hh1] [(e2 & He2 & Hq2) Hc2 (l2 & Hl2) Hh2].
  constructor; try lia.
  - exists (e1 ++ e2). rewrite He2, He1, app_assoc. split; [done|].
    intros e j [H|H]%elem_of_app Hd; [by eapply Hq1|].
    specialize (Hq2 _ _ H Hd). specialize (Hc1 j).
    destruct (cancelled (heap w1) j); [|done]. rewrite Hc1 in Hq2; done.
  - auto.
  - exists (l1 ++ l2). by rewrite Hl2, Hl1, app_assoc.
Qed.

Lemma follows_quietly_follows w w' : follows_quietly w w' → follows w w'.
Proof.
  intros [(e1 & He1 & Hq1) _ _ Hc1 Hl1 Hh1]. constructor; try done.
  exists e1. split; [done|]. intros e j He Hd. rewrite (Hq1 e He) in Hd. done.
Qed.

(** A step that changes neither the log nor the schedule. *)
Lemma follows_quietly_same w w' :
  events w' = events w → slots w' = slots w → origin_loop w' = origin_loop w →
  (∀ j, cancelled (heap w') j = cancelled (heap w) j) →
  schedule w' = schedule w → length (heap w') = length (heap w) →
  follows_quietly w w'.
Proof.
  intros He Hs Ho Hc Hsc Hn. constructor; try done; origin_same.
  - exists []. rewrite app_nil_r. split; [done|]. intros e H. by apply elem_of_nil in H.
  - intros j. by rewrite Hc.
  - exists []. by rewrite app_nil_r.
  - lia.
Qed.

Lemma fq_Job_Release j w w' : Job_Release j w = Some w' → follows_quietly w w'.
Proof.
  intros (Ha & Ht & Hq & Ho & Hsl & Hl & He & Hr & Hn & Hst & Hca & _)%Job_Release_fields.
  apply follows_quietly_same; try done. unfold schedule, worker_tasks. congruence.
Qed.

Lemma fq_set_pending q w : follows_quietly w (set_pending q w).
Proof. by apply follows_quietly_same. Qed.

Lemma fq_Job_Cancel j w w' : Job_Cancel j w = Some w' → follows_quietly w w'.
Proof.
  intros (Ha & Ht & Hq & Ho & Hsl & Hl & He & Hr & Hn & Hst & Hca & _)%Job_Cancel_fields.
  constructor; try done; origin_same.
  - exists [EvCancel j]. split; [done|]. by intros e ->%list_elem_of_singleton.
  - intros k. rewrite Hca. by case_bool_decide.
  - exists []. rewrite app_nil_r. unfold schedule, worker_tasks. congruence.
  - lia.
Qed.

Lemma fq_EnsureThreadStarted w : follows_quietly w (EnsureThreadStarted w).
Proof.
  pose proof (EnsureThreadStarted_fields w)
    as (_ & _ & _ & Hh & Ho & Hsl & Hl & _ & Hwt).
  constructor; try done; origin_same.
  - unfold EnsureThreadStarted. destruct (thread_ w); simpl.
    + exists []. rewrite app_nil_r. split; [done|]. intros e H. by apply elem_of_nil in H.
    + exists [EvThreadStart]. split; [done|]. by intros e ->%list_elem_of_singleton.
  - intros j. by rewrite Hh.
  - exists []. rewrite app_nil_r. unfold schedule. congruence.
  - by rewrite Hh.
Qed.

Lemma fq_Job_Start j w w' :
  Job_Start j w = Some w' →
  follows_quietly w w' ∧ schedule w' = schedule w ++ [DoQueryTask j].
Proof.
  intros (job & loop & Hj & Hco & Ha & Ht & ->)%Job_Start_inv.
  assert (Hsc : schedule (log (EvStart j)
           (set_thread (Some (loop ++ [DoQueryTask j]))
              (set_job j (AddRef (mkJob (coordinator_ job) (callback_ job)
                 (results_ job) (url_ job) true (results_buf_ job)
                 (ref_count_ job))) w))) = schedule w ++ [DoQueryTask j]).
  { unfold schedule, worker_tasks. simpl. rewrite Ht. simpl. by rewrite app_assoc. }
  split; [|done]. constructor; simpl; try done; origin_same.
  - exists [EvStart j]. split; [done|]. by intros e ->%list_elem_of_singleton.
  - intros k. by erewrite cancelled_insert_same.
  - eauto.
  - by rewrite length_insert.
Qed.

Lemma fq_ProcessPendingJobs w w' :
  ProcessPendingJobs w = Some w' → follows_quietly w w'.
Proof.
  unfold ProcessPendingJobs. destruct (pending_jobs_ w) as [|j q].
  { intros [= <-]. apply follows_quietly_refl. }
  destruct (heap w !! j) as [job|]; [|done]. simpl.
  destruct (is_started job).
  { intros [= <-]. apply follows_quietly_refl. }
  intros [H _]%fq_Job_Start.
  eapply follows_quietly_trans; [apply fq_EnsureThreadStarted|done].
Qed.

Lemma fq_RemoveFront j w w' :
  RemoveFrontOfJobsQueueAndStartNext j w = Some w' → follows_quietly w w'.
Proof.
  unfold RemoveFrontOfJobsQueueAndStartNext.
  destruct (pending_jobs_ w) as [|j' rest]; [done|].
  destruct (DCHECK _); [|done]. simpl.
  destruct (Job_Release j' _) as [w1|] eqn:Hr; [|done]. simpl. intros Hp.
  eapply follows_quietly_trans; [apply (fq_set_pending rest)|].
  eapply follows_quietly_trans; [by eapply fq_Job_Release|].
  by apply fq_ProcessPendingJobs.
Qed.

Lemma fq_enqueued url results callback w :
  is_Some callback → follows_quietly w (enqueued url results callback w).
Proof.
  intros [cb ->]. constructor; simpl; try done; origin_same.
  - exists []. rewrite app_nil_r. split; [done|]. intros e H. by apply elem_of_nil in H.
  - intros j. rewrite cancelled_app. case_bool_decide as Hd; [|done].
    subst j. by rewrite cancelled_ge.
  - exists []. by rewrite app_nil_r.
  - rewrite length_app. lia.
Qed.

Lemma fq_GetProxyForURL url results callback request w rv h w' :
  GetProxyForURL url results callback request w = Some (rv, h, w') →
  follows_quietly w w'.
Proof.
  intros (Ha & Hcb & _ & _ & Hp)%GetProxyForURL_inv.
  eapply follows_quietly_trans; [by apply fq_enqueued|].
  by apply fq_ProcessPendingJobs.
Qed.

Lemma fq_CancelRequest req w w' : CancelRequest req w = Some w' → follows_quietly w w'.
Proof.
  unfold CancelRequest.
  destruct (valid _); [|done]. simpl.
  destruct req as [j|]; [|done]. simpl.
  destruct (heap w !! j) as [job|]; [|done]. simpl.
  destruct (Job_Cancel j w) as [w1|] eqn:Hc; [|done]. simpl.
  apply fq_Job_Cancel in Hc.
  destruct (is_active_job job j w).
  - intros H%fq_RemoveFront. by eapply follows_quietly_trans.
  - destruct (erase_first j _) as [q|]; [|done]. simpl. intros H%fq_Job_Release.
    eapply follows_quietly_trans; [done|].
    eapply follows_quietly_trans; [apply (fq_set_pending q)|done].
Qed.

Lemma fq_SetPacScriptHelper pac_url bytes w w' :
  SetPacScriptHelper pac_url bytes w = Some w' →
  follows_quietly w w' ∧
  schedule w' = schedule w ++ [SetPacScriptTask pac_url bytes].
Proof.
  unfold SetPacScriptHelper. destruct (valid _); [|done]. simpl.
  pose proof (fq_EnsureThreadStarted w) as H1.
  pose proof (EnsureThreadStarted_fields w)
    as (_ & _ & _ & Hh & Ho & Hsl & Hl & _ & Hwt).
  destruct (thread_ (EnsureThreadStarted w)) as [loop|] eqn:Ht; [|done]. simpl.
  intros [= <-].
  assert (Hsc : schedule (set_thread (Some (loop ++ [SetPacScriptTask pac_url bytes]))
                   (EnsureThreadStarted w))
                = schedule w ++ [SetPacScriptTask pac_url bytes]).
  { unfold schedule, worker_tasks in *. simpl. rewrite Ht in Hwt. simpl in Hwt.
    by rewrite Hl, Hwt, app_assoc. }
  split; [|done]. eapply follows_quietly_trans; [done|].
  constructor; simpl; try done; origin_same.
  - exists []. rewrite app_nil_r. split; [done|]. intros e H. by apply elem_of_nil in H.
  - exists [SetPacScriptTask pac_url bytes]. rewrite Hsc.
    unfold schedule. by rewrite Hl, Hwt.
Qed.

Lemma fq_worker_step w w' :
  worker_step w = Some w' →
  events w' = events w ∧ slots w' = slots w ∧ schedule w' = schedule w ∧
  (∀ j, cancelled (heap w') j = cancelled (heap w) j) ∧
  length (heap w') = length (heap w) ∧
  ∃ l, origin_loop w' = origin_loop w ++ l.
Proof.
  intros Hs.
  pose proof (worker_step_fields _ _ Hs)
    as (Ha & Hq & Hsl & He & Hn & Hst & Hc & Hsc & _).
  split_and!; try done.
  revert Hs. unfold worker_step.
  destruct (thread_ w) as [[|t rest]|].
  1,3: intros [= <-]; exists []; by rewrite app_nil_r.
  destruct t as [j|u b]; simpl.
  - unfold Job_DoQuery. simpl.
    destruct (heap w !! j) as [job|]; [|done]. simpl.
    destruct (resolver_ w) as [r|]; [|done]. simpl.
    destruct (engine r _ _ _) as [rv buf].
    destruct (DCHECK _); [|done]. simpl. intros [= <-]. simpl. eauto.
  - unfold SetPacScriptTask_Run. simpl.
    destruct (resolver_ w) as [r|]; [|done]. simpl. intros [= <-]. simpl.
    exists []. by rewrite app_nil_r.
Qed.

Lemma follows_worker_step w w' : worker_step w = Some w' → follows w w'.
Proof.
  intros (He & Hsl & Hsc & Hc & Hn & _)%fq_worker_step. constructor.
  - exists []. rewrite app_nil_r. split; [done|]. intros e j H. by apply elem_of_nil in H.
  - intros j. by rewrite Hc.
  - exists []. by rewrite app_nil_r.
  - lia.
Qed.

Lemma fq_drain n w w' :
  drain n w = Some w' →
  events w' = events w ∧ slots w' = slots w ∧ schedule w' = schedule w ∧
  (∀ j, cancelled (heap w') j = cancelled (heap w) j) ∧
  length (heap w') = length (heap w) ∧
  ∃ l, origin_loop w' = origin_loop w ++ l.
Proof.
  revert w. induction n as [|n IH]; intros w; simpl.
  { intros [= <-]. split_and!; try done. exists []. by rewrite app_nil_r. }
  destruct (worker_step w) as [w1|] eqn:Hs; [|done]. simpl. intros Hd.
  apply fq_worker_step in Hs as (He & Hsl & Hsc & Hc & Hn & (l & Ho)).
  apply IH in Hd as (He' & Hsl' & Hsc' & Hc' & Hn' & (l' & Ho')).
  split_and!; try congruence.
  exists (l ++ l'). by rewrite Ho', Ho, app_assoc.
Qed.

Lemma fq_Destroy w w' : Destroy w = Some w' → follows_quietly w w'.
Proof.
  intros (Ha & w1 & w2 & w3 & Hc & Hr & Hd & ->)%Destroy_inv.
  apply cancel_all_fields in Hc
    as (_ & Ht1 & Hq1 & Ho1 & Hs1 & Hl1 & He1 & _ & Hn1 & _ & Hc1 & _).
  apply release_all_fields in Hr
    as (_ & Ht2 & Hq2 & Ho2 & Hs2 & Hl2 & He2 & _ & Hn2 & _ & Hc2 & _).
  pose proof (drain_fields _ _ _ Hd) as (_ & _ & _ & _ & _ & _ & _ & _ & _ & Hlen & _).
  apply fq_drain in Hd as (He3 & Hs3 & Hsc3 & Hc3 & Hn3 & (l3 & Ho3)).
  simpl in *.
  assert (Hwt : worker_tasks w3 = []).
  { apply length_zero_iff_nil. rewrite Hlen. unfold worker_tasks. simpl. lia. }
  constructor.
  - exists ((EvCancel <$> pending_jobs_ w) ++
            (match thread_ w3 with Some _ => [EvThreadStop] | None => [] end) ++ [EvResolverDestroyed]).
    split.
    + unfold torn_down. destruct (thread_ w3); simpl;
        rewrite He3, He2, He1, <-?app_assoc; done.
    + intros e [H|[H|H]%elem_of_app]%elem_of_app.
      * apply list_elem_of_fmap in H as (k & -> & _). done.
      * destruct (thread_ w3); [|by apply elem_of_nil in H].
        by apply list_elem_of_singleton in H as ->.
      * by apply list_elem_of_singleton in H as ->.
  - unfold torn_down. destruct (thread_ w3); simpl; congruence.
  - exists l3. unfold torn_down. destruct (thread_ w3); simpl; congruence.
  - intros j Hj. unfold torn_down.
    assert (cancelled (heap w3) j = true) as H3.
    { rewrite Hc3. simpl. rewrite Hc2. by apply Hc1. }
    by destruct (thread_ w3).
  - exists []. rewrite app_nil_r.
    transitivity (schedule w3).
    + unfold torn_down, schedule, worker_tasks in *.
      destruct (thread_ w3) eqn:Ht3; simpl in *; rewrite ?Ht3; simpl; by rewrite ?Hwt.
    + rewrite Hsc3. unfold schedule, worker_tasks. simpl. congruence.
  - unfold torn_down. destruct (thread_ w3); simpl; lia.
Qed.

Lemma fq_run_action a w w' : run_action a w = Some w' → follows_quietly w w'.
Proof.
  destruct a as [url results callback request|req|u|b|]; simpl.
  - destruct (GetProxyForURL _ _ _ _ _) as [[[rv h] w1]|] eqn:Hg; [|done].
    simpl. intros [= <-]. by eapply fq_GetProxyForURL.
  - apply fq_CancelRequest.
  - by intros [H _]%fq_SetPacScriptHelper.
  - by intros [H _]%fq_SetPacScriptHelper.
  - apply fq_Destroy.
Qed.

Lemma wf_run_action a w w' : wf w → run_action a w = Some w' → wf w'.
Proof.
  intros Hw. destruct a as [url results callback request|req|u|b|]; simpl.
  - destruct (GetProxyForURL _ _ _ _ _) as [[[rv h] w1]|] eqn:Hg; [|done].
    simpl. intros [= <-]. by eapply wf_GetProxyForURL.
  - by apply wf_CancelRequest.
  - by apply wf_SetPacScriptHelper.
  - by apply wf_SetPacScriptHelper.
  - by apply wf_Destroy.
Qed.

Lemma fq_run_actions body w w' :
  run_all run_action body w = Some w' → follows_quietly w w'.
Proof.
  revert w. induction body as [|a body IH]; intros w; simpl.
  { intros [= <-]. apply follows_quietly_refl. }
  destruct (run_action a w) as [w1|] eqn:Ha; [|done]. simpl. intros H.
  eapply follows_quietly_trans; [by eapply fq_run_action|by apply IH].
Qed.

Lemma wf_run_actions body w w' :
  wf w → run_all run_action body w = Some w' → wf w'.
Proof.
  revert w. induction body as [|a body IH]; intros w Hw; simpl.
  { by intros [= <-]. }
  destruct (run_action a w) as [w1|] eqn:Ha; [|done]. simpl.
  eauto using wf_run_action.
Qed.

(** ** The completion path *)

Lemma Job_QueryComplete_inv body j rc w w' :
  Job_QueryComplete body j rc w = Some w' →
  ∃ job, heap w !! j = Some job ∧
    ((was_cancelled job = true ∧ Job_Release j w = Some w') ∨
     (was_cancelled job = false ∧
      ∃ wd w2 job2,
        delivered j job rc w = Some wd ∧
        run_all run_action body wd = Some w2 ∧
        heap w2 !! j = Some job2 ∧
        ((was_cancelled job2 = true ∧ Job_Release j w2 = Some w') ∨
         (was_cancelled job2 = false ∧ alive w2 = true ∧
          ∃ w3, RemoveFrontOfJobsQueueAndStartNext j w2 = Some w3 ∧
                Job_Release j w3 = Some w')))).
Proof.
  unfold Job_QueryComplete, delivered, CompletionCallback_Run.
  destruct (heap w !! j) as [job|] eqn:Hj; [|done]. simpl.
  intros H. exists job. split; [done|].
  destruct (was_cancelled job) eqn:Hc; simpl in H; [by left|right].
  split; [done|].
  destruct (if (rc >=? OK)%Z then ProxyInfo_Use j job w else Some w)
    as [w1|] eqn:Hu; [|done]. simpl in *.
  destruct (callback_ job) as [cb|] eqn:Hcb; [|done]. simpl in *.
  destruct (run_all run_action body _) as [w2|] eqn:Hb; [|done]. simpl in *.
  destruct (heap w2 !! j) as [job2|] eqn:Hj2; [|done]. simpl in *.
  exists (log (EvCallback j cb rc) w1), w2, job2. split_and!; try done.
  destruct (was_cancelled job2) eqn:Hc2; simpl in H; [by left|right].
  split; [done|].
  destruct (coordinator_ job2); [|done]. simpl in H.
  destruct (alive w2); [|done]. simpl in H. split; [done|].
  destruct (RemoveFrontOfJobsQueueAndStartNext j w2) as [w3|]; [|done].
  simpl in H. eauto.
Qed.

Lemma Job_QueryComplete_intro body j rc w job wd w2 job2 :
  heap w !! j = Some job → was_cancelled job = false →
  delivered j job rc w = Some wd → run_all run_action body wd = Some w2 →
  heap w2 !! j = Some job2 →
  Job_QueryComplete body j rc w =
    if was_cancelled job2 then Job_Release j w2
    else _ ← coordinator_ job2; _ ← valid (alive w2);
         w3 ← RemoveFrontOfJobsQueueAndStartNext j w2; Job_Release j w3.
Proof.
  intros Hj Hc Hd Hb Hj2. unfold Job_QueryComplete, CompletionCallback_Run.
  rewrite Hj. simpl. rewrite Hc. simpl. unfold delivered in Hd.
  destruct (if (rc >=? OK)%Z then ProxyInfo_Use j job w else Some w) as [w1|];
    [|done]. simpl in *.
  destruct (callback_ job) as [cb|]; [|done]. simpl in *. injection Hd as ->.
  rewrite Hb. simpl. rewrite Hj2. simpl.
  destruct (was_cancelled job2); simpl; [done|].
  destruct (coordinator_ job2); simpl; [|done].
  destruct (valid (alive w2)); simpl; [|done].
  by destruct (RemoveFrontOfJobsQueueAndStartNext j w2).
Qed.

Lemma wf_log_callback j cb rc w :
  wf w → job_activity j w + 1 ≤ (if started (heap w) j then 1 else 0) →
  wf (log (EvCallback j cb rc) w).
Proof.
  intros [Hw Hh Hnc] Hact. apply wf_intro; [|done..].
  destruct Hw. constructor; wsimpl; try done.
  - intros k. rewrite wf_cancel0. split; [intros H; apply elem_of_app; by left|].
    intros H. by apply elem_of_snoc_ne in H.
  - intros i Hi Hn. by apply finished_mono, wf_finished0.
  - intros i Hi. apply elem_of_snoc_ne in Hi; [|done]. by apply wf_start_range0.
  - intros i k Hi Hk. apply elem_of_snoc_ne in Hi; [|done]. by apply wf_start_lt0.
  - by apply starts_fifo_snoc_other.
  - by apply starts_after_preds_snoc_other.
  - intros k. rewrite count_cb_app. simpl. specialize (wf_activity0 k).
    case_bool_decide as Hd; [subst k|]; lia.
  - rewrite count_thread_start_app. simpl. by rewrite Nat.add_0_r.
Qed.

Lemma wf_use j slot info sl w :
  wf w → wf (log (EvUse j slot info) (set_slots sl w)).
Proof.
  intros [Hw Hh Hnc]. apply wf_intro; [|done..].
  destruct Hw.
  destruct (log_clauses_neutral (events w) [EvUse j slot info])
    as (Hc & Hs & Hf & Hfi & Hp & Hcb & Hts); [by repeat constructor|].
  constructor; wsimpl; rewrite ?Hts; try done; auto.
  - intros k. by rewrite Hc.
  - intros i. rewrite Hs. auto.
  - intros i k. rewrite Hs. auto.
  - intros k. by rewrite Hcb.
Qed.

Lemma wf_pop_origin j rc rest w :
  wf w → origin_loop w = QueryCompleteTask j rc :: rest →
  wf (set_origin rest w) ∧
  job_activity j (set_origin rest w) + 1 ≤ (if started (heap w) j then 1 else 0).
Proof.
  intros [Hw Hh Hnc] Ho.
  assert (Hact : ∀ k, job_activity k (set_origin rest w) +
                      (if bool_decide (j = k) then 1 else 0) = job_activity k w).
  { intros k. unfold job_activity, worker_tasks. simpl. rewrite Ho. simpl. lia. }
  split.
  - apply wf_intro; [|done..]. destruct Hw. constructor; try done.
    intros k. specialize (wf_activity0 k). specialize (Hact k). simpl. lia.
  - specialize (Hact j). rewrite bool_decide_eq_true_2 in Hact by done.
    pose proof (wf_activity _ Hw j). lia.
Qed.

Lemma delivered_fields j job rc w wd :
  delivered j job rc w = Some wd →
  ∃ cb, callback_ job = Some cb ∧
    alive wd = alive w ∧ resolver_ wd = resolver_ w ∧ thread_ wd = thread_ w ∧
    pending_jobs_ wd = pending_jobs_ w ∧ heap wd = heap w ∧
    origin_loop wd = origin_loop w ∧ worker_log wd = worker_log w ∧
    (((rc >= OK)%Z ∧ ∃ slot, results_ job = Some slot ∧
       slots wd = <[slot := results_buf_ job]> (slots w) ∧
       events wd = events w ++ [EvUse j slot (results_buf_ job); EvCallback j cb rc])
     ∨ ((rc < OK)%Z ∧ slots wd = slots w ∧
       events wd = events w ++ [EvCallback j cb rc])).
Proof.
  unfold delivered, ProxyInfo_Use.
  destruct (Z.geb_spec rc OK) as [Hge|Hlt].
  - destruct (results_ job) as [slot|]; [|done]. simpl.
    destruct (callback_ job) as [cb|]; [|done]. simpl. intros [= <-].
    exists cb. simpl. split_and!; try done. left. split; [lia|].
    exists slot. rewrite <-app_assoc. done.
  - simpl. destruct (callback_ job) as [cb|]; [|done]. simpl. intros [= <-].
    exists cb. simpl. split_and!; try done. by right.
Qed.

Lemma wf_delivered j job rc rest w wd :
  wf w → origin_loop w = QueryCompleteTask j rc :: rest →
  delivered j job rc (set_origin rest w) = Some wd → wf wd.
Proof.
  intros Hw Ho. destruct (wf_pop_origin _ _ _ _ Hw Ho) as [Hw0 Hact].
  unfold delivered, ProxyInfo_Use.
  destruct (rc >=? OK)%Z.
  - destruct (results_ job) as [slot|]; [|done]. simpl.
    destruct (callback_ job) as [cb|]; [|done]. simpl. intros [= <-].
    apply wf_log_callback; [by apply wf_use|].
    unfold job_activity, worker_tasks in *. simpl in *.
    rewrite count_cb_app. simpl. lia.
  - simpl. destruct (callback_ job) as [cb|]; [|done]. simpl. intros [= <-].
    by apply wf_log_callback.
Qed.

Lemma wf_origin_step body w w' : wf w → origin_step body w = Some w' → wf w'.
Proof.
  intros Hw. unfold origin_step.
  destruct (origin_loop w) as [|[j rc] rest] eqn:Ho; [by intros [= <-]|].
  intros (job & Hj & [[Hc Hr]|(Hc & wd & w2 & job2 & Hd & Hb & Hj2 & Hpost)])
    %Job_QueryComplete_inv.
  - eapply wf_Job_Release; [|done]. by eapply wf_pop_origin.
  - pose proof (wf_delivered _ _ _ _ _ _ Hw Ho Hd) as Hwd.
    pose proof (wf_run_actions _ _ _ Hwd Hb) as Hw2.
    destruct Hpost as [[Hc2 Hr]|(Hc2 & Ha2 & w3 & Hrm & Hr)].
    + by eapply wf_Job_Release.
    + eapply wf_Job_Release; [|done].
      apply fq_run_actions in Hb as [(evs & He & _) _ _ _ _ _].
      apply delivered_fields in Hd as (cb & Hcb & _ & _ & _ & _ & _ & _ & _ & Hev).
      destruct Hw2 as [Hw20 Hh2 Hnc2].
      eapply wf_RemoveFront; [done|done| |right; exists cb, rc|done].
      * intros k Hk _. by apply Hnc2.
      * rewrite He. apply elem_of_app. left.
        destruct Hev as [(_ & slot & _ & _ & ->)|(_ & _ & ->)];
          apply elem_of_app; right; repeat constructor.
Qed.

Lemma wf_step s w w' : wf w → step s w = Some w' → wf w'.
Proof.
  destruct s as [a| |body]; simpl.
  - apply wf_run_action.
  - apply wf_worker_step.
  - apply wf_origin_step.
Qed.

Lemma wf_run steps w w' : wf w → run steps w = Some w' → wf w'.
Proof.
  unfold run. revert w. induction steps as [|s steps IH]; intros w Hw; simpl.
  { by intros [= <-]. }
  destruct (step s w) as [w1|] eqn:Hs; [|done]. simpl.
  eauto using wf_step.
Qed.

(** Every reachable world satisfies the invariant. *)
Lemma reachable_wf w : reachable w → wf w.
Proof. intros (r & steps & Hr). eapply wf_run; [apply wf_init|done]. Qed.

Lemma follows_delivered j job rc w wd :
  heap w !! j = Some job → was_cancelled job = false →
  delivered j job rc w = Some wd → follows w wd.
Proof.
  intros Hj Hc (cb & Hcb & _ & _ & Ht & _ & Hh & _ & Hl & Hev)%delivered_fields.
  assert (Hnc : cancelled (heap w) j = false) by (unfold cancelled; by rewrite Hj).
  constructor.
  - destruct Hev as [(_ & slot & _ & _ & ->)|(_ & _ & ->)]; eexists; (split; [done|]).
    + intros e k [->|[->|H]%elem_of_cons]%elem_of_cons; simpl; try congruence.
      by apply elem_of_nil in H.
    + intros e k ->%list_elem_of_singleton; simpl; congruence.
  - intros k. by rewrite Hh.
  - exists []. rewrite app_nil_r. unfold schedule, worker_tasks. congruence.
  - by rewrite Hh.
Qed.

Lemma follows_set_origin o w : follows w (set_origin o w).
Proof.
  constructor; simpl; try done.
  - exists []. rewrite app_nil_r. split; [done|]. intros e j H. by apply elem_of_nil in H.
  - exists []. by rewrite app_nil_r.
Qed.

Lemma follows_Job_QueryComplete body j rc w w' :
  Job_QueryComplete body j rc w = Some w' → follows w w'.
Proof.
  intros (job & Hj & [[Hc Hr]|(Hc & wd & w2 & job2 & Hd & Hb & Hj2 & Hpost)])
    %Job_QueryComplete_inv.
  - by eapply follows_quietly_follows, fq_Job_Release.
  - eapply follows_trans; [by eapply follows_delivered|].
    eapply follows_trans; [by eapply follows_quietly_follows, fq_run_actions|].
    destruct Hpost as [[Hc2 Hr]|(Hc2 & Ha2 & w3 & Hrm & Hr)].
    + by eapply follows_quietly_follows, fq_Job_Release.
    + eapply follows_trans; [by eapply follows_quietly_follows, fq_RemoveFront|].
      by eapply follows_quietly_follows, fq_Job_Release.
Qed.

Lemma follows_origin_step body w w' : origin_step body w = Some w' → follows w w'.
Proof.
  unfold origin_step.
  destruct (origin_loop w) as [|[j rc] rest]; [intros [= <-]; apply follows_refl|].
  intros H%follows_Job_QueryComplete.
  eapply follows_trans; [apply (follows_set_origin rest)|done].
Qed.

Lemma follows_step s w w' : step s w = Some w' → follows w w'.
Proof.
  destruct s as [a| |body]; simpl.
  - intros H. by eapply follows_quietly_follows, fq_run_action.
  - apply follows_worker_step.
  - apply follows_origin_step.
Qed.

Lemma follows_run steps w w' : run steps w = Some w' → follows w w'.
Proof.
  unfold run. revert w. induction steps as [|s steps IH]; intros w; simpl.
  { intros [= <-]. apply follows_refl. }
  destruct (step s w) as [w1|] eqn:Hs; [|done]. simpl. intros H.
  eapply follows_trans; [by eapply follows_step|by apply IH].
Qed.

Lemma run_app s1 s2 w : run (s1 ++ s2) w = w' ← run s1 w; run s2 w'.
Proof.
  unfold run. revert w. induction s1 as [|s s1 IH]; intros w; simpl; [done|].
  destruct (step s w) as [w1|]; simpl; [apply IH|done].
Qed.

Lemma reachable_run steps w w' : reachable w → run steps w = Some w' → reachable w'.
Proof.
  intros (r & s0 & H0) H. exists r, (s0 ++ steps). rewrite run_app, H0. done.
Qed.

(** ** Examples used below *)

Lemma reachable_after steps :
  is_Some (run steps (init example_resolver)) → reachable (after steps).
Proof.
  intros [w H]. exists example_resolver, steps. unfold after. by rewrite H.
Defined.

(** ** Single flight and FIFO order (C1) *)

Lemma count_cb_pos j cb rc evs : EvCallback j cb rc ∈ evs → 0 < count_cb j evs.
Proof.
  induction evs as [|e evs IH]; intros H; [by apply elem_of_nil in H|].
  apply elem_of_cons in H as [<-|H]; simpl.
  - rewrite bool_decide_eq_true_2 by done. lia.
  - specialize (IH H). destruct e; lia.
Qed.

Lemma count_qc_pos j rc l : QueryCompleteTask j rc ∈ l → 0 < count_qc j l.
Proof.
  induction l as [|[k rc'] l IH]; intros H; [by apply elem_of_nil in H|].
  apply elem_of_cons in H as [[= <- <-]|H]; simpl.
  - rewrite bool_decide_eq_true_2 by done. lia.
  - specialize (IH H). lia.
Qed.

(** A job with work outstanding that was not cancelled is the head of the
    queue, and its callback has not run. *)
Lemma active_is_head w j :
  wf w → 0 < count_dq j (worker_tasks w) + count_qc j (origin_loop w) →
  cancelled (heap w) j = false →
  head (pending_jobs_ w) = Some j ∧ started (heap w) j = true ∧
  count_cb j (events w) = 0.
Proof.
  intros [Hw Hh Hnc] Hpos Hc.
  pose proof (wf_activity _ Hw j) as Hact. unfold job_activity in Hact.
  destruct (started (heap w) j) eqn:Hs; [|lia].
  assert (Hcb : count_cb j (events w) = 0) by lia.
  split_and!; try done.
  destruct (decide (j ∈ pending_jobs_ w)) as [Hin|Hout].
  - destruct (pending_jobs_ w) as [|j0 q] eqn:Hq; [by apply elem_of_nil in Hin|].
    apply elem_of_cons in Hin as [->|Hin]; [done|].
    pose proof (wf_tail _ Hw _ _ Hq _ Hin). congruence.
  - apply (wf_finished _ Hw) in Hout; [|by apply started_lt].
    destruct Hout as [Hcan|(cb & rc & Hcal)].
    + apply (wf_cancel _ Hw) in Hcan. congruence.
    + apply count_cb_pos in Hcal. lia.
Qed.

(** C1, counterexample: submit [a] and [b], cancel [a] while it is active.
    Both jobs are then started, the worker thread has the engine call of the
    cancelled job [a] to run, ahead of the one of [b], and the front of the
    queue is [b]. *)
Lemma single_flight_as_claimed_fails : ¬ single_flight_as_claimed.
Proof.
  intros H.
  specialize (H (after [submit "a" 10 100; submit "b" 11 101;
                        SUser (ACancel (Some 0))])).
  assert (Hr : reachable (after [submit "a" 10 100; submit "b" 11 101;
                                 SUser (ACancel (Some 0))])).
  { apply reachable_after. vm_compute. eauto. }
  assert (Hhead : head (pending_jobs_ (after [submit "a" 10 100; submit "b" 11 101;
                                          SUser (ACancel (Some 0))])) = Some 0).
  { apply (H Hr 0 [DoQueryTask 1]); vm_compute; reflexivity. }
  vm_compute in Hhead. discriminate Hhead.
Qed.

(** C1, amended: in every reachable world at most one job of the pending
    queue is started and it is the job at the front; a job whose engine call
    is outstanding on the worker and that was not cancelled is that front
    job; jobs start in the order of their submission (the order of their
    heap addresses), and when a job starts every job submitted before it
    has been cancelled or has had its callback run. *)
Theorem queue_single_flight_fifo w :
  reachable w →
  (∀ j, j ∈ pending_jobs_ w → started (heap w) j = true →
        head (pending_jobs_ w) = Some j) ∧
  (∀ j, head (pending_jobs_ w) = Some j → started (heap w) j = true) ∧
  (∀ j, DoQueryTask j ∈ worker_tasks w → cancelled (heap w) j = false →
        head (pending_jobs_ w) = Some j) ∧
  starts_fifo (events w) ∧
  starts_after_preds (events w).
Proof.
  intros Hwf%reachable_wf. pose proof Hwf as [Hw Hh Hnc]. split_and!.
  - intros j Hin Hs.
    destruct (pending_jobs_ w) as [|j0 q] eqn:Hq; [by apply elem_of_nil in Hin|].
    apply elem_of_cons in Hin as [->|Hin]; [done|].
    pose proof (wf_tail _ Hw _ _ Hq _ Hin). congruence.
  - intros j Hj. destruct (pending_jobs_ w) as [|j0 q] eqn:Hq; [done|].
    injection Hj as ->. by eapply Hh.
  - intros j Hin Hc. apply active_is_head; [done| |done].
    apply count_dq_pos in Hin. lia.
  - apply Hw.
  - apply Hw.
Qed.

Lemma queue_single_flight_fifo_witness :
  reachable (after [submit "a" 10 100; submit "b" 11 101; SWorker; SOrigin []]) ∧
  (∀ j, head (pending_jobs_ (after [submit "a" 10 100; submit "b" 11 101;
                                    SWorker; SOrigin []])) = Some j →
        started (heap (after [submit "a" 10 100; submit "b" 11 101;
                              SWorker; SOrigin []])) j = true).
Proof.
  assert (Hr : reachable (after [submit "a" 10 100; submit "b" 11 101;
                                 SWorker; SOrigin []])).
  { apply reachable_after. vm_compute. eauto. }
  split; [exact Hr|].
  exact (proj1 (proj2 (queue_single_flight_fifo _ Hr))).
Defined.

(** ** Processing the queue keeps the jobs *)

Lemma ProcessPendingJobs_keeps w w' n job :
  ProcessPendingJobs w = Some w' → heap w !! n = Some job →
  ∃ job', heap w' !! n = Some job' ∧ callback_ job' = callback_ job ∧
          results_ job' = results_ job ∧ url_ job' = url_ job ∧
          coordinator_ job' = coordinator_ job.
Proof.
  unfold ProcessPendingJobs. intros Hp Hn.
  destruct (pending_jobs_ w) as [|k q]; [injection Hp as <-; eauto 10|].
  destruct (heap w !! k) as [jobk|] eqn:Hk; [|done]. simpl in Hp.
  destruct (is_started jobk); [injection Hp as <-; eauto 10|].
  pose proof (EnsureThreadStarted_fields w) as (_ & _ & _ & Hh & _).
  apply Job_Start_inv in Hp as (jb & loop & Hj & _ & _ & _ & ->). simpl.
  rewrite Hh in *. destruct (decide (n = k)) as [Heq|Hne].
  - rewrite Heq in *. rewrite list_lookup_insert_eq by (by eapply lookup_lt_Some).
    eexists. split; [done|]. simpl. by simplify_eq.
  - rewrite list_lookup_insert_ne by done. eauto 10.
Qed.

(** ** The worker thread's lifetime (C9) *)

Lemma untouched_step s w w' :
  untouched w → step_submits s = false → step s w = Some w' → untouched w'.
Proof.
  intros (Ht & Hq & Hh & Ho) Hs. destruct s as [a| |body]; simpl in *.
  - destruct a as [| [j|] | | |]; try done; simpl.
    + unfold CancelRequest. destruct (valid _); [|done]. simpl. by rewrite Hh.
    + unfold CancelRequest. by destruct (valid _).
    + unfold Destroy, Destroy_with. destruct (valid _); [|done]. simpl. rewrite Hq. simpl.
      rewrite Hq. simpl. rewrite Ht. simpl. intros [= <-].
      unfold untouched. simpl. by rewrite Ht, Hh, Ho.
  - unfold worker_step. rewrite Ht. by intros [= <-].
  - unfold origin_step. rewrite Ho. by intros [= <-].
Qed.

Lemma count_thread_start_follows w w' :
  follows w w' → count_thread_start (events w) ≤ count_thread_start (events w').
Proof.
  intros [(evs & -> & _) _ _ _]. rewrite count_thread_start_app. lia.
Qed.

(** ** Queue processing always succeeds *)

Lemma wf0_alive w : wf0 w → pending_jobs_ w ≠ [] → alive w = true.
Proof.
  intros Hw Hq. destruct (alive w) eqn:Ha; [done|].
  by apply (wf_dead _ Hw) in Ha.
Qed.

Lemma ProcessPendingJobs_spec w :
  wf0 w → none_cancelled w →
  ∃ w', ProcessPendingJobs w = Some w' ∧
    pending_jobs_ w' = pending_jobs_ w ∧ slots w' = slots w ∧
    origin_loop w' = origin_loop w ∧ alive w' = alive w ∧
    length (heap w') = length (heap w) ∧
    (∀ k, cancelled (heap w') k = cancelled (heap w) k) ∧
    match pending_jobs_ w with
    | [] => w' = w
    | k :: _ =>
        if started (heap w) k then w' = w
        else started (heap w') k = true ∧
             schedule w' = schedule w ++ [DoQueryTask k] ∧
             is_Some (thread_ w') ∧
             events w' = events w ++
               match thread_ w with Some _ => [] | None => [EvThreadStart] end ++
               [EvStart k] ∧
             (∀ i, i ≠ k → heap w' !! i = heap w !! i)
    end.
Proof.
  intros Hw Hnc. unfold ProcessPendingJobs.
  destruct (pending_jobs_ w) as [|k q] eqn:Hq; [by eauto 10|].
  assert (Hk : k ∈ pending_jobs_ w) by (rewrite Hq; by left).
  destruct (lookup_lt_is_Some_2 (heap w) k) as [job Hj]; [by apply (wf_range _ Hw)|].
  rewrite Hj. simpl. unfold started at 1. rewrite Hj.
  destruct (is_started job) eqn:Hs; [by eauto 10|].
  assert (Ha : alive w = true) by (apply wf0_alive; [done|by rewrite Hq]).
  pose proof (EnsureThreadStarted_fields w)
    as ([loop Ht] & Ha1 & Hq1 & Hh1 & Ho1 & Hs1 & Hl1 & Hr1 & Hwt1).
  assert (Hco : is_Some (coordinator_ job)).
  { specialize (Hnc k Hk). unfold cancelled, was_cancelled in Hnc. rewrite Hj in Hnc.
    pose proof (wf_coord _ Hw _ _ Hj) as Hiff.
    destruct (coordinator_ job); [by eauto|].
    rewrite (proj1 Hiff eq_refl) in Hnc. done. }
  destruct Hco as [c Hco].
  unfold Job_Start. rewrite Hh1, Hj. simpl. rewrite Hco. simpl.
  rewrite Ha1, Ha. simpl. rewrite Ht. simpl.
  eexists. split; [done|]. simpl.
  pose proof (lookup_lt_Some _ _ _ Hj) as Hlt.
  rewrite Hq1, Hs1, Ho1, Ha1, Hh1, length_insert. split_and!; try done.
  - intros i. by eapply cancelled_insert_same.
  - rewrite started_insert. by rewrite bool_decide_eq_true_2.
  - unfold schedule, worker_tasks in *. simpl. rewrite Ht in Hwt1. simpl in Hwt1.
    by rewrite Hl1, <-Hwt1, app_assoc.
  - unfold EnsureThreadStarted. destruct (thread_ w); simpl; by rewrite <-?app_assoc.
  - intros i Hi. by rewrite list_lookup_insert_ne.
Qed.

Lemma SetPacScriptHelper_spec pac_url bytes w :
  alive w = true →
  ∃ w', SetPacScriptHelper pac_url bytes w = Some w' ∧
    thread_ w' = Some (worker_tasks w ++ [SetPacScriptTask pac_url bytes]) ∧
    events w' = events w ++
      match thread_ w with Some _ => [] | None => [EvThreadStart] end.
Proof.
  intros Ha. unfold SetPacScriptHelper, EnsureThreadStarted, worker_tasks.
  rewrite Ha. simpl.
  destruct (thread_ w) as [loop|] eqn:Ht; simpl.
  - rewrite Ht. simpl. eexists. split; [done|]. simpl. by rewrite ?app_nil_r.
  - eexists. split; [done|]. done.
Qed.

Lemma ProcessPendingJobs_starts w k q job :
  pending_jobs_ w = k :: q → heap w !! k = Some job → is_started job = false →
  alive w = true → is_Some (coordinator_ job) →
  ∃ w', ProcessPendingJobs w = Some w' ∧
    thread_ w' = Some (worker_tasks w ++ [DoQueryTask k]) ∧
    started (heap w') k = true ∧
    events w' = events w ++
      match thread_ w with Some _ => [] | None => [EvThreadStart] end ++ [EvStart k].
Proof.
  intros Hq Hj Hs Ha [c Hc]. unfold ProcessPendingJobs. rewrite Hq, Hj. simpl.
  rewrite Hs. pose proof (lookup_lt_Some _ _ _ Hj) as Hlt.
  unfold Job_Start, EnsureThreadStarted, worker_tasks.
  destruct (thread_ w) as [loop0|] eqn:Ht0; simpl.
  - rewrite Hj. simpl. rewrite Hc. simpl. rewrite Ha. simpl. rewrite Ht0. simpl.
    eexists. split; [done|]. simpl. split_and!; [done| |done].
    rewrite started_insert. by rewrite bool_decide_eq_true_2.
  - rewrite Hj. simpl. rewrite Hc. simpl. rewrite Ha. simpl.
    eexists. split; [done|]. simpl. split_and!; [done| |by rewrite <-?app_assoc].
    rewrite started_insert. by rewrite bool_decide_eq_true_2.
Qed.

(** C9: the thread does not exist in a fresh resolver and stays absent as
    long as nothing is submitted (no query, no configuration); over any
    execution it is started at most once; once it exists every step keeps it
    and starts no other one, until the resolver is destroyed; and
    [EnsureThreadStarted] does nothing when the thread exists.  The
    operations that need the thread start it when it is absent:
    [SetPacScriptHelper] always succeeds on a live resolver and leaves a
    thread that holds the configuration task behind the tasks that waited,
    started in this call exactly when there was none;
    [ProcessPendingJobs], when the head of the queue of a live resolver is
    a job that is neither started nor cancelled, succeeds, starts the job
    and leaves a thread that holds the job's engine call behind the tasks
    that waited, started in this call exactly when there was none; and the first query or configuration that a caller
    submits to a resolver without a thread succeeds and starts the thread,
    which is then the only start in the log. *)
Theorem worker_started_lazily_once :
  (∀ r, thread_ (init r) = None) ∧
  (∀ r steps w, run steps (init r) = Some w →
     forallb (λ s, negb (step_submits s)) steps = true → thread_ w = None) ∧
  (∀ w, reachable w →
     count_thread_start (events w) ≤ 1 ∧
     (is_Some (thread_ w) → alive w = true ∧ count_thread_start (events w) = 1)) ∧
  (∀ w s w', reachable w → is_Some (thread_ w) → step s w = Some w' →
     alive w' = true →
     is_Some (thread_ w') ∧
     count_thread_start (events w') = count_thread_start (events w)) ∧
  (∀ w, is_Some (thread_ w) → EnsureThreadStarted w = w) ∧
  (∀ w, thread_ w = None →
     thread_ (EnsureThreadStarted w) = Some [] ∧
     events (EnsureThreadStarted w) = events w ++ [EvThreadStart]) ∧
  (∀ w pac_url bytes, alive w = true →
     ∃ w', SetPacScriptHelper pac_url bytes w = Some w' ∧
       thread_ w' = Some (worker_tasks w ++ [SetPacScriptTask pac_url bytes]) ∧
       events w' = events w ++
         match thread_ w with Some _ => [] | None => [EvThreadStart] end) ∧
  (∀ w k q job,
     pending_jobs_ w = k :: q → heap w !! k = Some job → is_started job = false →
     alive w = true → is_Some (coordinator_ job) →
     ∃ w', ProcessPendingJobs w = Some w' ∧
       thread_ w' = Some (worker_tasks w ++ [DoQueryTask k]) ∧
       started (heap w') k = true ∧
       events w' = events w ++
         match thread_ w with Some _ => [] | None => [EvThreadStart] end ++
         [EvStart k]) ∧
  (∀ w a, reachable w → alive w = true → thread_ w = None →
     action_submits a = true →
     (∀ url results request, a ≠ ASubmit url results None request) →
     ∃ w', run_action a w = Some w' ∧ alive w' = true ∧ is_Some (thread_ w') ∧
       (∃ evs, events w' = events w ++ EvThreadStart :: evs) ∧
       count_thread_start (events w') = 1).
Proof.
  split_and!.
  - done.
  - intros r steps w Hrun Hall.
    assert (Hu : untouched (init r)) by done.
    revert Hrun Hall Hu. generalize (init r). unfold run.
    induction steps as [|s steps IH]; intros w0; simpl.
    { intros [= <-] _ Hu. apply Hu. }
    destruct (step s w0) as [w1|] eqn:Hs; [|done]. simpl.
    intros Hrun [Hns Hall]%andb_prop Hu. apply (IH w1); [done..|].
    eapply untouched_step; [done| |done]. by destruct (step_submits s).
  - intros w [Hw _ _]%reachable_wf. pose proof (wf_thread _ Hw) as Ht.
    destruct (thread_ w) as [loop|].
    + destruct Ht as [Ha Hc]. split; [lia|done].
    + split; [destruct (alive w); lia|]. by intros [? ?].
  - intros w s w' Hr [loop Ht] Hs Ha'.
    pose proof (reachable_wf _ Hr) as [Hw _ _].
    assert (Hr' : reachable w') by (eapply (reachable_run [s]); [done|];
      unfold run; simpl; by rewrite Hs).
    pose proof (reachable_wf _ Hr') as [Hw' _ _].
    pose proof (wf_thread _ Hw) as H1. pose proof (wf_thread _ Hw') as H2.
    rewrite Ht in H1. destruct H1 as [_ H1].
    pose proof (count_thread_start_follows _ _ (follows_step _ _ _ Hs)) as Hle.
    rewrite Ha' in H2. destruct (thread_ w') as [loop'|].
    + destruct H2 as [_ H2]. split; [done|lia].
    + lia.
  - intros w [loop Ht]. unfold EnsureThreadStarted. by rewrite Ht.
  - intros w Ht. unfold EnsureThreadStarted. by rewrite Ht.
  - intros w pac_url bytes Ha. by apply SetPacScriptHelper_spec.
  - intros w k q job. by apply ProcessPendingJobs_starts.
  - intros w a Hr Ha Ht Hsub Hcb. pose proof (reachable_wf _ Hr) as Hwf.
    assert (Hfin : ∀ w', run_action a w = Some w' → is_Some (thread_ w') →
              (∃ evs, events w' = events w ++ EvThreadStart :: evs) →
              ∃ w', run_action a w = Some w' ∧ alive w' = true ∧
                is_Some (thread_ w') ∧
                (∃ evs, events w' = events w ++ EvThreadStart :: evs) ∧
                count_thread_start (events w') = 1).
    { intros w' Hrun Hsome Hev. exists w'.
      pose proof (wf_run_action _ _ _ Hwf Hrun) as [Hw' _ _].
      pose proof (wf_thread _ Hw') as Hth. destruct Hsome as [loop Hl].
      rewrite Hl in Hth. destruct Hth as [Ha' Hc']. split_and!; try done. }
    assert (Hconf : ∀ pac_url bytes,
              ∃ w', SetPacScriptHelper pac_url bytes w = Some w' ∧
                is_Some (thread_ w') ∧
                ∃ evs, events w' = events w ++ EvThreadStart :: evs).
    { intros pac_url bytes.
      destruct (SetPacScriptHelper_spec pac_url bytes w Ha) as (w' & Hs & Ht' & He').
      exists w'. rewrite Ht in He'. split_and!; [done|by eexists|by exists []]. }
    destruct a as [url results [cb|] request| |pac_url|bytes|]; try done.
    + assert (Hq : pending_jobs_ w = []).
      { destruct (pending_jobs_ w) as [|k q] eqn:Hq; [done|]. exfalso.
        pose proof (wf_head _ Hwf _ _ Hq) as Hs.
        destruct (wf_started_thread _ (wf_base _ Hwf) _ Hs Ha) as [loop Hl].
        congruence. }
      destruct (wf0_push (AddRef (mkJob (Some this_resolver) (Some cb) results url
                                        false "" 0)) w) as (H0 & Hnc & _);
        [done|done|by eexists|by eexists|done|].
      destruct (ProcessPendingJobs_spec _ H0 Hnc)
        as (w' & Hp & _ & _ & _ & _ & _ & _ & Hcase).
      fold (enqueued url results (Some cb) w) in *.
      simpl in Hcase. rewrite Hq in Hcase. simpl in Hcase.
      rewrite started_app, bool_decide_eq_true_2 in Hcase by done. simpl in Hcase.
      destruct Hcase as (_ & _ & Hsome & He & _). rewrite Ht in He. simpl in He.
      apply (Hfin w'); [|done|by eexists].
      simpl. unfold GetProxyForURL, Job_new. rewrite Ha. simpl.
      fold (enqueued url results (Some cb) w). by rewrite Hp.
    + by specialize (Hcb url results request).
    + destruct (Hconf pac_url "") as (w' & Hs & Hsome & Hev). by apply (Hfin w').
    + destruct (Hconf "" bytes) as (w' & Hs & Hsome & Hev). by apply (Hfin w').
Qed.

(** ** Submission (C5) *)

(** C5: on a live resolver, a submission with a callback always returns
    ERR_IO_PENDING with the handle of a new job appended to the tail of the
    queue; it logs no delivery (the callback does not run, no output slot is
    written); if the queue was empty the new job is the head, is started and
    its engine call is posted to the worker thread, which is started exactly
    when it did not exist; otherwise nothing is started. *)
Theorem submit_enqueues_and_dispatches w url results cb request :
  reachable w → alive w = true →
  ∃ w', GetProxyForURL url results (Some cb) request w =
          Some (ERR_IO_PENDING,
                if request then Some (length (heap w)) else None, w') ∧
    pending_jobs_ w' = pending_jobs_ w ++ [length (heap w)] ∧
    (∃ evs, events w' = events w ++ evs ∧ ∀ e, e ∈ evs → delivery_of e = None) ∧
    slots w' = slots w ∧ origin_loop w' = origin_loop w ∧
    (pending_jobs_ w = [] →
       head (pending_jobs_ w') = Some (length (heap w)) ∧
       started (heap w') (length (heap w)) = true ∧
       is_Some (thread_ w') ∧
       schedule w' = schedule w ++ [DoQueryTask (length (heap w))] ∧
       events w' = events w ++
         match thread_ w with Some _ => [] | None => [EvThreadStart] end ++
         [EvStart (length (heap w))]) ∧
    (pending_jobs_ w ≠ [] →
       started (heap w') (length (heap w)) = false ∧
       thread_ w' = thread_ w ∧ events w' = events w ∧
       schedule w' = schedule w).
Proof.
  intros Hwf%reachable_wf Ha.
  destruct (wf0_push (AddRef (mkJob (Some this_resolver) (Some cb) results url
                                    false "" 0)) w) as (H0 & Hnc & Hhd);
    [done|done|by eexists|by eexists|done|].
  destruct (ProcessPendingJobs_spec _ H0 Hnc)
    as (w' & Hp & Hq & Hs & Ho & Ha' & Hn & _ & Hcase).
  fold (enqueued url results (Some cb) w) in *.
  exists w'. split.
  { unfold GetProxyForURL, Job_new. rewrite Ha. simpl.
    fold (enqueued url results (Some cb) w). by rewrite Hp. }
  pose proof (fq_GetProxyForURL url results (Some cb) request w ERR_IO_PENDING
                (if request then Some (length (heap w)) else None) w') as Hfq.
  destruct Hfq as [Hev _ _ _ _ _].
  { unfold GetProxyForURL, Job_new. rewrite Ha. simpl.
    fold (enqueued url results (Some cb) w). by rewrite Hp. }
  split_and!; try done.
  - intros Hempty. simpl in Hcase. rewrite Hempty in Hcase. simpl in Hcase.
    rewrite Hq. simpl. rewrite Hempty. simpl.
    rewrite started_app, bool_decide_eq_true_2 in Hcase by done. simpl in Hcase.
    destruct Hcase as (Hst & Hsc & Ht & He & _). done.
  - intros Hne. simpl in Hcase.
    destruct (pending_jobs_ w) as [|k q] eqn:Hqw; [done|]. simpl in Hcase.
    assert (Hqe : pending_jobs_ (enqueued url results (Some cb) w)
                  = k :: q ++ [length (heap w)])
      by (unfold enqueued; simpl; by rewrite Hqw).
    specialize (Hhd Hne k (q ++ [length (heap w)]) Hqe).
    unfold enqueued in Hhd. simpl in Hhd. rewrite Hhd in Hcase. subst w'.
    simpl. split_and!; try done.
    rewrite started_app, bool_decide_eq_true_2; done.
Qed.

Lemma submit_enqueues_and_dispatches_witness :
  ∃ w', GetProxyForURL "b" (Some 11) (Some 101) true (after [submit "a" 10 100]) =
          Some (ERR_IO_PENDING, Some 1, w') ∧
        pending_jobs_ w' = [0; 1].
Proof.
  assert (Hr : reachable (after [submit "a" 10 100])).
  { apply reachable_after. vm_compute. eauto. }
  assert (Ha : alive (after [submit "a" 10 100]) = true)
    by (vm_compute; reflexivity).
  destruct (submit_enqueues_and_dispatches (after [submit "a" 10 100])
              "b" (Some 11) 101 true Hr Ha) as (w' & Hg & Hq & _).
  exists w'. split; [exact Hg|].
  rewrite Hq. vm_compute. reflexivity.
Defined.

(** ** Cancellation (C3) *)

Lemma erase_first_total j q : j ∈ q → is_Some (erase_first j q).
Proof.
  induction q as [|k q IH]; intros H; [by apply elem_of_nil in H|]. simpl.
  case_bool_decide as Hd; [by eexists|].
  apply elem_of_cons in H as [->|H]; [done|].
  destruct (IH H) as [q' ->]. by eexists.
Qed.

Lemma RemoveFront_spec j rest w :
  wf0 w → pending_jobs_ w = j :: rest →
  (∀ k, k ∈ rest → cancelled (heap w) k = false) →
  finished j (events w) →
  ∃ w', RemoveFrontOfJobsQueueAndStartNext j w = Some w' ∧
    pending_jobs_ w' = rest ∧ slots w' = slots w ∧
    origin_loop w' = origin_loop w ∧ alive w' = alive w ∧
    length (heap w') = length (heap w) ∧
    (∀ k, cancelled (heap w') k = cancelled (heap w) k) ∧
    match rest with
    | [] => schedule w' = schedule w ∧ events w' = events w ∧
            thread_ w' = thread_ w
    | k :: _ =>
        if started (heap w) k then schedule w' = schedule w ∧ events w' = events w
        else started (heap w') k = true ∧
             schedule w' = schedule w ++ [DoQueryTask k] ∧
             is_Some (thread_ w') ∧
             events w' = events w ++
               match thread_ w with Some _ => [] | None => [EvThreadStart] end ++
               [EvStart k]
    end.
Proof.
  intros Hw Hq Hnc Hfin.
  assert (Hs : StronglySorted lt (j :: rest)) by (rewrite <-Hq; apply Hw).
  assert (Hjin : j ∈ pending_jobs_ w) by (rewrite Hq; by left).
  destruct (lookup_lt_is_Some_2 (heap w) j) as [job Hj]; [by apply (wf_range _ Hw)|].
  assert (Hw1 : wf0 (set_pending rest w)).
  { apply wf0_set_pending; try done.
    - by eapply sorted_tail.
    - intros k Hk. rewrite Hq. by right.
    - intros k Hk Hn. rewrite Hq in Hk.
      apply elem_of_cons in Hk as [->|Hk]; done.
    - intros j2 q2 -> k Hk. eapply (wf_tail _ Hw); [done|]. by right. }
  assert (Hrel : Job_Release j (set_pending rest w)
                 = Some (set_job j (Release job) (set_pending rest w))).
  { unfold Job_Release. simpl. by rewrite Hj. }
  pose proof (wf0_Job_Release _ _ _ Hw1 Hrel) as Hw2.
  pose proof (Job_Release_fields _ _ _ Hrel)
    as (Ha2 & Ht2 & Hq2 & Ho2 & Hsl2 & Hl2 & He2 & Hr2 & Hn2 & Hst2 & Hc2 & _).
  set (w2 := set_job j (Release job) (set_pending rest w)) in *.
  assert (Hnc2 : none_cancelled w2).
  { intros k. rewrite Hq2, Hc2. simpl. apply Hnc. }
  destruct (ProcessPendingJobs_spec _ Hw2 Hnc2)
    as (w' & Hp & Hq' & Hs' & Ho' & Ha' & Hn' & Hc' & Hcase).
  exists w'. split.
  { unfold RemoveFrontOfJobsQueueAndStartNext. rewrite Hq.
    rewrite bool_decide_eq_true_2 by done. simpl. rewrite Hrel. simpl. done. }
  assert (Hsc2 : schedule w2 = schedule w) by done.
  rewrite Hq', Hs', Ho', Ha', Hn', Hq2, Hsl2, Ho2, Ha2, Hn2. simpl.
  split_and!; try done.
  - intros k. by rewrite Hc', Hc2.
  - rewrite Hq2 in Hcase. simpl in Hcase.
    destruct rest as [|k rest']; [by subst w'|].
    rewrite Hst2 in Hcase. simpl in Hcase.
    destruct (started (heap w) k); [by subst w'|].
    destruct Hcase as (Hst' & Hsc' & Ht' & He' & _).
    rewrite Hsc', Hsc2. done.
Qed.

(** C3: [CancelRequest] on a queued job of a reachable world succeeds and
    marks the job cancelled.  If the job is started it is the front of the
    queue: it is popped, and the new front, if there is one, is started and
    its engine call posted to the worker.  If the job is not started, it is
    erased from the queue and nothing else changes: the front of the queue,
    every other job, the thread and its loop, the origin loop and the output
    slots stay as they are, and the log only records the cancellation. *)
Theorem cancel_request_cases w j job :
  reachable w → heap w !! j = Some job → j ∈ pending_jobs_ w →
  ∃ w', CancelRequest (Some j) w = Some w' ∧
    cancelled (heap w') j = true ∧
    (∀ k, k ∈ pending_jobs_ w' ↔ k ∈ pending_jobs_ w ∧ k ≠ j) ∧
    if is_started job then
      ∃ rest, pending_jobs_ w = j :: rest ∧ pending_jobs_ w' = rest ∧
        match rest with
        | [] => schedule w' = schedule w ∧
                events w' = events w ++ [EvCancel j]
        | k :: _ =>
            started (heap w) k = false ∧ started (heap w') k = true ∧
            schedule w' = schedule w ++ [DoQueryTask k] ∧
            events w' = events w ++ [EvCancel j; EvStart k]
        end
    else
      head (pending_jobs_ w') = head (pending_jobs_ w) ∧
      erase_first j (pending_jobs_ w) = Some (pending_jobs_ w') ∧
      (∀ k, k ≠ j → heap w' !! k = heap w !! k) ∧
      thread_ w' = thread_ w ∧ worker_log w' = worker_log w ∧
      origin_loop w' = origin_loop w ∧ slots w' = slots w ∧
      events w' = events w ++ [EvCancel j].
Proof.
  intros Hwf%reachable_wf Hj Hin. pose proof Hwf as [Hw Hh Hnc].
  assert (Ha : alive w = true).
  { apply wf0_alive; [done|]. intros Hq. rewrite Hq in Hin. by apply elem_of_nil in Hin. }
  destruct (Job_Cancel j w) as [w1|] eqn:Hcan;
    [|unfold Job_Cancel in Hcan; by rewrite Hj in Hcan].
  pose proof (wf0_Job_Cancel _ _ _ Hw Hcan) as Hw1.
  pose proof (Job_Cancel_fields _ _ _ Hcan)
    as (Ha1 & Ht1 & Hq1 & Ho1 & Hsl1 & Hl1 & He1 & Hr1 & Hn1 & Hs1 & Hc1 & Hoth1).
  assert (Hfin : finished j (events w1)).
  { left. rewrite He1. apply elem_of_app. right. by apply list_elem_of_singleton. }
  assert (Hcj : cancelled (heap w1) j = true)
    by (by rewrite Hc1, bool_decide_eq_true_2).
  unfold CancelRequest. rewrite Ha. simpl. rewrite Hj. simpl. rewrite Hcan. simpl.
  unfold is_active_job.
  destruct (pending_jobs_ w) as [|j0 rest] eqn:Hq; [by apply elem_of_nil in Hin|].
  simpl. assert (Hs : StronglySorted lt (j0 :: rest)) by (rewrite <-Hq; apply Hw).
  destruct (is_started job) eqn:Hst.
  - assert (j = j0) as <-.
    { apply elem_of_cons in Hin as [->|Hin]; [done|].
      pose proof (wf_tail _ Hw _ _ Hq _ Hin) as Hns.
      unfold started in Hns. rewrite Hj in Hns. congruence. }
    rewrite bool_decide_eq_true_2 by done. simpl.
    destruct (RemoveFront_spec j rest w1) as
      (w' & Hrm & Hq' & Hsl' & Ho' & Ha' & Hn' & Hc' & Hcase); try done.
    { intros k Hk. rewrite Hc1. rewrite bool_decide_eq_false_2.
      - apply Hnc. by right.
      - intros ->. by eapply sorted_head_notin. }
    exists w'. split; [done|]. split; [by rewrite Hc'|]. split.
    { intros k. rewrite Hq', elem_of_cons. split.
      - intros Hk. split; [by right|]. intros ->. by eapply sorted_head_notin.
      - intros [[->|Hk] Hne]; done. }
    exists rest. split_and!; try done.
    destruct rest as [|k rest'].
    + destruct Hcase as (Hsc & He & _). rewrite Hsc, He, He1.
      split; [|done]. unfold schedule, worker_tasks. congruence.
    + assert (Hns : started (heap w) k = false).
      { eapply (wf_tail _ Hw); [done|]. by left. }
      rewrite Hs1, Hns in Hcase. destruct Hcase as (Hst' & Hsc' & Ht' & He').
      split_and!; try done.
      * rewrite Hsc'. unfold schedule, worker_tasks. congruence.
      * rewrite He', He1, Ht1, <-app_assoc.
        assert (is_Some (thread_ w)) as [loop ->]; [|done].
        apply (wf_started_thread _ Hw j); [|done].
        unfold started. by rewrite Hj.
  - assert (Hne : j0 ≠ j).
    { intros ->. specialize (Hh _ _ eq_refl). unfold started in Hh.
      rewrite Hj in Hh. congruence. }
    rewrite (bool_decide_eq_false_2 (Some j0 = Some j)) by congruence.
    rewrite andb_false_r.
    destruct (erase_first_total j (pending_jobs_ w1)) as [q Her];
      [by rewrite Hq1|].
    rewrite Her. simpl.
    pose proof Her as Her'.
    apply erase_first_spec in Her' as (_ & Hsq & Hmem & Hhd); [|apply Hw1].
    destruct (lookup_lt_is_Some_2 (heap w1) j) as [job1 Hj1];
      [rewrite Hn1; by eapply lookup_lt_Some|].
    assert (Hrel : Job_Release j (set_pending q w1)
                   = Some (set_job j (Release job1) (set_pending q w1))).
    { unfold Job_Release. simpl. by rewrite Hj1. }
    rewrite Hrel. eexists. split; [done|].
    pose proof (Job_Release_fields _ _ _ Hrel)
      as (Ha2 & Ht2 & Hq2 & Ho2 & Hsl2 & Hl2 & He2 & Hr2 & Hn2 & Hs2 & Hc2 & Hoth2).
    rewrite Hq1 in Hmem, Her, Hhd.
    destruct (Hhd _ _ eq_refl Hne) as (q0' & -> & _).
    split_and!; try done.
    + by rewrite Hc2.
    + intros k Hk. rewrite Hoth2, Hoth1; done.
Qed.

Lemma cancel_request_cases_witness :
  ∃ w', CancelRequest (Some 0)
          (after [submit "a" 10 100; submit "b" 11 101; submit "c" 12 102])
        = Some w' ∧
        cancelled (heap w') 0 = true ∧
        pending_jobs_ w' = [1; 2] ∧ started (heap w') 1 = true.
Proof.
  assert (Hr : reachable (after [submit "a" 10 100; submit "b" 11 101;
                                 submit "c" 12 102])).
  { apply reachable_after. vm_compute. eauto. }
  edestruct (cancel_request_cases
               (after [submit "a" 10 100; submit "b" 11 101; submit "c" 12 102]) 0)
    as (w' & Hc & Hcan & _ & Hcase);
    [exact Hr|vm_compute; reflexivity|vm_compute; by left|].
  vm_compute in Hcase. destruct Hcase as (rest & Heq & Hq & Hm).
  injection Heq as <-. destruct Hm as (_ & Hs & _).
  exists w'. split_and!; [exact Hc|exact Hcan|exact Hq|exact Hs].
Defined.

(** ** After cancellation (C2) *)

Lemma cancelled_lookup (h : list Job) j :
  cancelled h j = true → ∃ job, h !! j = Some job ∧ was_cancelled job = true.
Proof. unfold cancelled. destruct (h !! j) as [job|]; [eauto|done]. Qed.

Lemma CancelRequest_cancels j w w' :
  CancelRequest (Some j) w = Some w' → cancelled (heap w') j = true.
Proof.
  unfold CancelRequest. destruct (valid _); [|done]. simpl.
  destruct (heap w !! j) as [job|]; [|done]. simpl.
  destruct (Job_Cancel j w) as [w1|] eqn:Hc; [|done]. simpl.
  apply Job_Cancel_fields in Hc as (_ & _ & _ & _ & _ & _ & _ & _ & _ & _ & Hc & _).
  specialize (Hc j). rewrite bool_decide_eq_true_2 in Hc by done.
  destruct (is_active_job job j w).
  - intros H%fq_RemoveFront. by apply H.
  - destruct (erase_first j _) as [q|]; [|done]. simpl. intros H%fq_Job_Release.
    by apply H.
Qed.

Lemma QueryComplete_cancelled body j rc w :
  cancelled (heap w) j = true → Job_QueryComplete body j rc w = Job_Release j w.
Proof.
  intros (job & Hj & Hc)%cancelled_lookup. unfold Job_QueryComplete.
  rewrite Hj. simpl. by rewrite Hc.
Qed.

(** C2: once [CancelRequest] has returned for a job, the job stays
    cancelled over every continuation of the execution; no callback run and
    no write to an output slot is ever logged for it again, whatever code the
    engine returns; and its [QueryComplete] only drops the job's reference:
    the resolver's members, the output slots and the log are untouched. *)
Theorem cancel_is_final w j w1 steps w2 :
  CancelRequest (Some j) w = Some w1 → run steps w1 = Some w2 →
  cancelled (heap w1) j = true ∧ cancelled (heap w2) j = true ∧
  (∃ evs, events w2 = events w1 ++ evs ∧
          ∀ e, e ∈ evs → delivery_of e ≠ Some j) ∧
  (∀ body rc, Job_QueryComplete body j rc w2 = Job_Release j w2) ∧
  (∀ body rc w3, Job_QueryComplete body j rc w2 = Some w3 →
     alive w3 = alive w2 ∧ resolver_ w3 = resolver_ w2 ∧
     thread_ w3 = thread_ w2 ∧ pending_jobs_ w3 = pending_jobs_ w2 ∧
     origin_loop w3 = origin_loop w2 ∧ slots w3 = slots w2 ∧
     events w3 = events w2 ∧ (∀ k, k ≠ j → heap w3 !! k = heap w2 !! k)).
Proof.
  intros Hc%CancelRequest_cancels [(evs & He & Hdel) Hmono _ _]%follows_run.
  pose proof (Hmono _ Hc) as Hc2. split_and!; try done.
  - exists evs. split; [done|]. intros e Hin Hd.
    specialize (Hdel _ _ Hin Hd). congruence.
  - intros body rc. by apply QueryComplete_cancelled.
  - intros body rc w3. rewrite QueryComplete_cancelled by done.
    intros (Ha & Ht & Hq & Ho & Hsl & Hl & He3 & Hr & Hn & Hst & Hca & Hoth)
      %Job_Release_fields.
    by split_and!.
Qed.

Lemma cancel_is_final_witness :
  cancelled (heap (after [submit "a" 10 100; SUser (ACancel (Some 0));
                          SWorker; SOrigin []])) 0 = true ∧
  events (after [submit "a" 10 100; SUser (ACancel (Some 0)); SWorker; SOrigin []])
  = [EvThreadStart; EvStart 0; EvCancel 0].
Proof.
  split.
  - refine (proj1 (proj2 (cancel_is_final (after [submit "a" 10 100]) 0
             (after [submit "a" 10 100; SUser (ACancel (Some 0))])
             [SWorker; SOrigin []]
             (after [submit "a" 10 100; SUser (ACancel (Some 0)); SWorker; SOrigin []])
             _ _))); vm_compute; reflexivity.
  - vm_compute. reflexivity.
Defined.

(** ** Delivery of a result (C4) *)

Lemma count_cb_quiet j evs :
  (∀ e, e ∈ evs → delivery_of e = None) → count_cb j evs = 0.
Proof.
  induction evs as [|e evs IH]; intros H; [done|].
  assert (He : delivery_of e = None) by (apply H; by left).
  assert (Hr : count_cb j evs = 0) by (apply IH; intros e' He'; apply H; by right).
  destruct e; simpl in *; done.
Qed.

Lemma origin_step_head w j rc rest :
  wf w → origin_loop w = QueryCompleteTask j rc :: rest →
  cancelled (heap w) j = false →
  head (pending_jobs_ w) = Some j ∧ count_cb j (events w) = 0 ∧ alive w = true.
Proof.
  intros Hwf Ho Hc.
  destruct (active_is_head w j Hwf) as (Hh & _ & Hcb); [|done|].
  { rewrite Ho. simpl. rewrite bool_decide_eq_true_2 by done. lia. }
  split_and!; try done. apply wf0_alive; [apply Hwf|].
  by destruct (pending_jobs_ w).
Qed.

Lemma DoQuery_posts_result j w w' job r :
  heap w !! j = Some job → resolver_ w = Some r →
  Job_DoQuery j w = Some w' →
  origin_loop w' = origin_loop w ++
    [QueryCompleteTask j (engine r (pac_script r) (url_ job) (results_buf_ job)).1] ∧
  ∃ job', heap w' !! j = Some job' ∧
    results_buf_ job' = (engine r (pac_script r) (url_ job) (results_buf_ job)).2 ∧
    callback_ job' = callback_ job ∧ results_ job' = results_ job.
Proof.
  intros Hj Hr. unfold Job_DoQuery. rewrite Hj. simpl. rewrite Hr. simpl.
  destruct (engine r _ _ _) as [rv buf]. destruct (DCHECK _); [|done].
  simpl. intros [= <-]. simpl. split; [done|].
  rewrite list_lookup_insert_eq by (by eapply lookup_lt_Some). eauto.
Qed.

(** C4: the [DoQuery] task of a job stores the engine's answer in the job's
    scratch buffer and posts [QueryComplete] with the engine's code.  When
    [QueryComplete] runs for a job that is not cancelled, the callback is
    run once with that code as it is; the output slot receives the scratch
    buffer exactly when the code is at least [OK], and keeps its value when
    the code is negative; the callback of that job is never run a second
    time; and the step succeeds whenever the callback's own code does
    nothing (given an output slot for a success). *)
Theorem completion_delivers_once w j rc rest job :
  reachable w → origin_loop w = QueryCompleteTask j rc :: rest →
  heap w !! j = Some job → was_cancelled job = false →
  (∀ w0 w1 job0 r, heap w0 !! j = Some job0 → resolver_ w0 = Some r →
     Job_DoQuery j w0 = Some w1 →
     origin_loop w1 = origin_loop w0 ++
       [QueryCompleteTask j
          (engine r (pac_script r) (url_ job0) (results_buf_ job0)).1]) ∧
  ((rc < OK)%Z ∨ is_Some (results_ job) → is_Some (origin_step [] w)) ∧
  ∀ body w', origin_step body w = Some w' →
    ∃ cb evs, callback_ job = Some cb ∧
      events w' = events w ++
        (if (rc >=? OK)%Z
         then match results_ job with
              | Some slot => [EvUse j slot (results_buf_ job)]
              | None => []
              end
         else []) ++ [EvCallback j cb rc] ++ evs ∧
      (∀ e, e ∈ evs → delivery_of e = None) ∧
      ((rc >= OK)%Z → ∃ slot, results_ job = Some slot ∧
                              slots w' = <[slot := results_buf_ job]> (slots w)) ∧
      ((rc < OK)%Z → slots w' = slots w) ∧
      count_cb j (events w') = 1 ∧
      (∀ steps w'', run steps w' = Some w'' → count_cb j (events w'') = 1).
Proof.
  intros Hr Ho Hj Hc. pose proof (reachable_wf _ Hr) as Hwf.
  assert (Hcj : cancelled (heap w) j = false) by (unfold cancelled; by rewrite Hj).
  destruct (origin_step_head _ _ _ _ Hwf Ho Hcj) as (Hhd & Hcb0 & Ha).
  split; [|split].
  - intros w0 w1 job0 r Hj0 Hr0 Hq0.
    by destruct (DoQuery_posts_result _ _ _ _ _ Hj0 Hr0 Hq0) as [? _].
  - intros Hres.
    assert (∃ wd, delivered j job rc (set_origin rest w) = Some wd) as [wd Hd].
    { unfold delivered, ProxyInfo_Use, was_cancelled in *.
      destruct (callback_ job) as [cb|]; [|done].
      destruct (Z.geb_spec rc OK) as [Hge|Hlt]; [|by eexists].
      destruct Hres as [?|[slot ->]]; [lia|]. by eexists. }
    pose proof (wf_delivered _ _ _ _ _ _ Hwf Ho Hd) as [Hwd Hhs Hncd].
    pose proof (delivered_fields _ _ _ _ _ Hd)
      as (cb & Hcb & Had & _ & _ & Hqd & Hhd' & _ & _ & Hev).
    destruct (pending_jobs_ w) as [|j0 q] eqn:Hq; [done|]. injection Hhd as ->.
    simpl in Hqd, Had, Hhd'. rewrite Hq in Hqd.
    destruct (RemoveFront_spec j q wd) as (w3 & Hrm & _ & _ & _ & _ & Hn3 & _);
      try done.
    { intros k Hk. apply Hncd. rewrite Hqd. by right. }
    { right. exists cb, rc.
      destruct Hev as [(_ & slot & _ & _ & ->)|(_ & _ & ->)];
        apply elem_of_app; right; repeat constructor. }
    destruct (lookup_lt_is_Some_2 (heap w3) j) as [job3 Hj3].
    { rewrite Hn3, Hhd'. by eapply lookup_lt_Some. }
    unfold origin_step. rewrite Ho.
    rewrite (Job_QueryComplete_intro [] j rc (set_origin rest w) job wd wd job);
      [|done|done|done|done|by rewrite Hhd'].
    rewrite Hc.
    destruct (coordinator_ job) as [c|] eqn:Hco.
    2:{ apply (wf_coord _ (wf_base _ Hwf) _ _ Hj) in Hco.
        unfold was_cancelled in Hc. by rewrite Hco in Hc. }
    simpl. rewrite Had, Ha. simpl. rewrite Hrm. simpl.
    unfold Job_Release. rewrite Hj3. by eexists.
  - intros body w' Hstep.
    assert (Hr' : reachable w').
    { eapply (reachable_run [SOrigin body]); [done|]. unfold run. simpl.
      by rewrite Hstep. }
    unfold origin_step in Hstep. rewrite Ho in Hstep.
    apply Job_QueryComplete_inv in Hstep
      as (job' & Hj' & [[Hc' _]|(_ & wd & w2 & job2 & Hd & Hb & Hj2 & Hpost)]).
    { simpl in Hj'. congruence. }
    simpl in Hj'. assert (job' = job) as -> by congruence.
    apply delivered_fields in Hd
      as (cb & Hcb & _ & _ & _ & _ & _ & _ & _ & Hev). simpl in Hev.
    apply fq_run_actions in Hb as [(evs2 & He2 & Hq2) Hs2 _ _ _ _].
    assert (∃ evs3, events w' = events w2 ++ evs3 ∧
                    (∀ e, e ∈ evs3 → delivery_of e = None) ∧
                    slots w' = slots w2) as (evs3 & He3 & Hq3 & Hs3).
    { destruct Hpost as [[_ Hrel]|(_ & _ & w3 & Hrm & Hrel)].
      - apply fq_Job_Release in Hrel as [(evs3 & ? & ?) ? _ _ _ _]. eauto.
      - apply fq_RemoveFront in Hrm as [(e3 & H3 & Hq3) Hs3 _ _ _ _].
        apply fq_Job_Release in Hrel as [(e4 & H4 & Hq4) Hs4 _ _ _ _].
        exists (e3 ++ e4). rewrite H4, H3, app_assoc. split_and!; [done| |congruence].
        intros e [?|?]%elem_of_app; auto. }
    assert (Hquiet : ∀ e, e ∈ evs2 ++ evs3 → delivery_of e = None).
    { intros e [?|?]%elem_of_app; auto. }
    assert (Hcount : count_cb j (events w') = 1).
    { rewrite He3, He2, <-app_assoc, count_cb_app, (count_cb_quiet j _ Hquiet).
      destruct Hev as [(_ & slot & _ & _ & ->)|(_ & _ & ->)];
        rewrite count_cb_app; simpl; rewrite bool_decide_eq_true_2 by done; lia. }
    exists cb, (evs2 ++ evs3). split; [done|]. split_and!; try done.
    + rewrite He3, He2, <-!app_assoc.
      destruct Hev as [(Hge & slot & Hres & _ & ->)|(Hlt & _ & ->)].
      * rewrite Hres. destruct (Z.geb_spec rc OK); [|lia]. by rewrite <-app_assoc.
      * destruct (Z.geb_spec rc OK); [lia|]. by rewrite <-app_assoc.
    + intros Hge. destruct Hev as [(_ & slot & Hres & Hsl & _)|(Hlt & _)]; [|lia].
      exists slot. split; [done|]. congruence.
    + intros Hlt. destruct Hev as [(Hge & _)|(_ & Hsl & _)]; [lia|]. congruence.
    + intros steps w'' Hrun.
      pose proof (reachable_wf _ (reachable_run _ _ _ Hr' Hrun)) as [Hw'' _ _].
      pose proof (wf_activity _ Hw'' j) as Hact. unfold job_activity in Hact.
      apply follows_run in Hrun as [(evs4 & He4 & _) _ _ _].
      rewrite He4, count_cb_app in *. destruct (started (heap w'') j); lia.
Qed.

Lemma completion_delivers_once_witness :
  is_Some (origin_step [] (after [submit "a" 10 100; SWorker])) ∧
  slots (after [submit "bad" 11 101; SWorker; SOrigin []])
  = slots (after [submit "bad" 11 101; SWorker]) ∧
  events (after [submit "bad" 11 101; SWorker; SOrigin []])
  = [EvThreadStart; EvStart 0; EvCallback 0 101 (-2)].
Proof.
  assert (Hr : reachable (after [submit "a" 10 100; SWorker])).
  { apply reachable_after. vm_compute. eauto. }
  assert (Hr' : reachable (after [submit "bad" 11 101; SWorker])).
  { apply reachable_after. vm_compute. eauto. }
  split_and!.
  - edestruct (completion_delivers_once (after [submit "a" 10 100; SWorker]) 0 0 [])
      as (_ & Htot & _);
      [exact Hr|vm_compute; reflexivity|vm_compute; reflexivity|
       vm_compute; reflexivity|].
    apply Htot. right. vm_compute. eauto.
  - edestruct (completion_delivers_once (after [submit "bad" 11 101; SWorker])
                 0 (-2) []) as (_ & _ & Hdel);
      [exact Hr'|vm_compute; reflexivity|vm_compute; reflexivity|
       vm_compute; reflexivity|].
    edestruct (Hdel [] (after [submit "bad" 11 101; SWorker; SOrigin []]))
      as (cb & evs & _ & _ & _ & _ & Hsl & _); [vm_compute; reflexivity|].
    apply Hsl. vm_compute. reflexivity.
  - vm_compute. reflexivity.
Defined.

(** ** Re-checking cancellation after the callback (C6) *)

Lemma ProcessPendingJobs_queue w w' :
  ProcessPendingJobs w = Some w' →
  pending_jobs_ w' = pending_jobs_ w ∧ alive w' = alive w.
Proof.
  unfold ProcessPendingJobs.
  destruct (pending_jobs_ w) as [|k q] eqn:Hq; [by intros [= <-]|].
  destruct (heap w !! k) as [job|]; [|done]. simpl.
  destruct (is_started job); [by intros [= <-]|].
  pose proof (EnsureThreadStarted_fields w) as (_ & Ha & Hq' & _).
  intros (jb & loop & _ & _ & _ & _ & ->)%Job_Start_inv. simpl.
  rewrite Ha, Hq'. done.
Qed.

Lemma kept_head_run_action a w w' j :
  wf w → kept_head j w → run_action a w = Some w' → kept_head j w'.
Proof.
  intros Hwf [Hc|[Ha Hh]] Hrun.
  { left. by apply (fq_cancelled _ _ (fq_run_action _ _ _ Hrun)). }
  destruct a as [url results callback request|req|u|b|]; simpl in Hrun.
  - destruct (GetProxyForURL _ _ _ _ _) as [[[rv h] w1]|] eqn:Hg; [|done].
    simpl in Hrun. injection Hrun as ->.
    apply GetProxyForURL_inv in Hg as (_ & _ & _ & _ & Hp).
    apply ProcessPendingJobs_queue in Hp as [Hq Ha'].
    right. rewrite Ha', Hq. simpl. split; [done|].
    by destruct (pending_jobs_ w).
  - unfold CancelRequest in Hrun. rewrite Ha in Hrun. simpl in Hrun.
    destruct req as [k|]; [|done]. simpl in Hrun.
    destruct (heap w !! k) as [jobk|] eqn:Hk; [|done]. simpl in Hrun.
    destruct (Job_Cancel k w) as [w1|] eqn:Hcan; [|done]. simpl in Hrun.
    pose proof (wf0_Job_Cancel _ _ _ (wf_base _ Hwf) Hcan) as Hw1.
    apply Job_Cancel_fields in Hcan
      as (Ha1 & _ & Hq1 & _ & _ & _ & _ & _ & _ & _ & Hc1 & _).
    destruct (decide (k = j)) as [->|Hne].
    { left. assert (cancelled (heap w1) j = true) as Hcj
        by (by rewrite Hc1, bool_decide_eq_true_2).
      destruct (is_active_job jobk j w).
      - by apply (fq_cancelled _ _ (fq_RemoveFront _ _ _ Hrun)).
      - destruct (erase_first j _) as [q|]; [|done]. simpl in Hrun.
        by apply (fq_cancelled _ _ (fq_Job_Release _ _ _ Hrun)). }
    assert (Hact : is_active_job jobk k w = false).
    { unfold is_active_job. rewrite Hh.
      rewrite (bool_decide_eq_false_2 (Some j = Some k)) by congruence.
      by rewrite andb_false_r. }
    rewrite Hact in Hrun.
    destruct (erase_first k (pending_jobs_ w1)) as [q|] eqn:Her; [|done].
    simpl in Hrun.
    apply erase_first_spec in Her as (_ & _ & _ & Hhd); [|apply Hw1].
    apply Job_Release_fields in Hrun as (Ha2 & _ & Hq2 & _).
    right. rewrite Ha2, Hq2. simpl. split; [congruence|].
    rewrite Hq1 in Hhd. destruct (pending_jobs_ w) as [|j0 q0]; [done|].
    injection Hh as ->. destruct (Hhd _ _ eq_refl) as (q0' & -> & _); [congruence|].
    done.
  - unfold SetPacScriptByUrlInternal, SetPacScriptHelper in Hrun.
    destruct (valid _); [|done]. simpl in Hrun.
    pose proof (EnsureThreadStarted_fields w) as (_ & Ha' & Hq' & _).
    destruct (thread_ (EnsureThreadStarted w)); [|done]. simpl in Hrun.
    injection Hrun as <-. right. simpl. by rewrite Ha', Hq'.
  - unfold SetPacScriptByDataInternal, SetPacScriptHelper in Hrun.
    destruct (valid _); [|done]. simpl in Hrun.
    pose proof (EnsureThreadStarted_fields w) as (_ & Ha' & Hq' & _).
    destruct (thread_ (EnsureThreadStarted w)); [|done]. simpl in Hrun.
    injection Hrun as <-. right. simpl. by rewrite Ha', Hq'.
  - apply Destroy_inv in Hrun as (_ & w1 & w2 & w3 & Hc & Hr & Hd & ->).
    apply cancel_all_fields in Hc
      as (_ & _ & _ & _ & _ & _ & _ & _ & _ & _ & _ & Hcl & _).
    apply release_all_fields in Hr
      as (_ & _ & _ & _ & _ & _ & _ & _ & _ & _ & Hc2 & _).
    apply drain_fields in Hd as (_ & _ & _ & _ & _ & _ & Hc3 & _).
    left. assert (cancelled (heap w3) j = true) as H3.
    { rewrite Hc3. simpl. rewrite Hc2.
      destruct (Hcl j) as (jb & Hjb & _ & Hcb & _).
      - destruct (pending_jobs_ w); [done|]. injection Hh as ->. by left.
      - unfold cancelled, was_cancelled. by rewrite Hjb, Hcb. }
    unfold torn_down. by destruct (thread_ w3).
Qed.

Lemma kept_head_run_actions body w w' j :
  wf w → kept_head j w → run_all run_action body w = Some w' → kept_head j w'.
Proof.
  revert w. induction body as [|a body IH]; intros w Hwf Hk; simpl.
  { by intros [= <-]. }
  destruct (run_action a w) as [w1|] eqn:Ha; [|done]. simpl.
  apply IH; eauto using wf_run_action, kept_head_run_action.
Qed.

(** C6: let the callback of job [j] have run, its code [body] leaving the
    world [w2].  Either the callback cancelled the job, or the resolver is
    still alive and the job is still the head of its queue; in particular a
    callback that destroyed the resolver cancelled the job.  If the job is
    cancelled, [QueryComplete] only drops the job's reference: the members of
    the resolver, the loops, the slots and the log stay as the callback left
    them.  If it is not cancelled, the front of the queue is popped and the
    next job processed. *)
Theorem completion_rechecks_cancellation w j rc rest job body wd w2 :
  reachable w → origin_loop w = QueryCompleteTask j rc :: rest →
  heap w !! j = Some job → was_cancelled job = false →
  delivered j job rc (set_origin rest w) = Some wd →
  run_all run_action body wd = Some w2 →
  kept_head j w2 ∧
  (alive w2 = false → cancelled (heap w2) j = true) ∧
  (cancelled (heap w2) j = true →
     origin_step body w = Job_Release j w2 ∧
     ∃ w', origin_step body w = Some w' ∧
       alive w' = alive w2 ∧ resolver_ w' = resolver_ w2 ∧
       thread_ w' = thread_ w2 ∧ pending_jobs_ w' = pending_jobs_ w2 ∧
       origin_loop w' = origin_loop w2 ∧ events w' = events w2 ∧
       slots w' = slots w2 ∧ worker_log w' = worker_log w2) ∧
  (cancelled (heap w2) j = false →
     ∃ q w3 w', pending_jobs_ w2 = j :: q ∧
       RemoveFrontOfJobsQueueAndStartNext j w2 = Some w3 ∧
       Job_Release j w3 = Some w' ∧
       origin_step body w = Some w' ∧ pending_jobs_ w' = q).
Proof.
  intros Hwf%reachable_wf Ho Hj Hc Hd Hb.
  assert (Hcj : cancelled (heap w) j = false) by (unfold cancelled; by rewrite Hj).
  destruct (origin_step_head _ _ _ _ Hwf Ho Hcj) as (Hhd & _ & Ha).
  pose proof (wf_delivered _ _ _ _ _ _ Hwf Ho Hd) as Hwd.
  pose proof (delivered_fields _ _ _ _ _ Hd)
    as (cb & Hcb & Had & _ & _ & Hqd & Hhd' & _ & _ & Hev).
  assert (Hkd : kept_head j wd).
  { right. rewrite Had, Hqd. done. }
  pose proof (kept_head_run_actions _ _ _ _ Hwd Hkd Hb) as Hk2.
  pose proof (wf_run_actions _ _ _ Hwd Hb) as Hwf2.
  pose proof (fq_run_actions _ _ _ Hb) as [(evs & He2 & _) _ _ _ _ Hlen].
  destruct (lookup_lt_is_Some_2 (heap w2) j) as [job2 Hj2].
  { eapply Nat.lt_le_trans; [|exact Hlen]. rewrite Hhd'. simpl.
    by eapply lookup_lt_Some. }
  assert (Hstep : origin_step body w =
            if was_cancelled job2 then Job_Release j w2
            else _ ← coordinator_ job2; _ ← valid (alive w2);
                 w3 ← RemoveFrontOfJobsQueueAndStartNext j w2; Job_Release j w3).
  { unfold origin_step. rewrite Ho. by eapply Job_QueryComplete_intro. }
  assert (Hc2 : cancelled (heap w2) j = was_cancelled job2)
    by (unfold cancelled; by rewrite Hj2).
  split_and!.
  - done.
  - intros Ha2. destruct Hk2 as [?|[? _]]; [done|congruence].
  - intros Hcan. rewrite Hc2 in Hcan. rewrite Hcan in Hstep. split; [done|].
    rewrite Hstep. unfold Job_Release. rewrite Hj2. simpl.
    eexists. split; [done|]. by simpl.
  - intros Hnot. destruct Hk2 as [?|[Ha2 Hh2]]; [congruence|].
    rewrite Hc2 in Hnot. rewrite Hnot in Hstep.
    destruct (pending_jobs_ w2) as [|j0 q] eqn:Hq2; [done|]. injection Hh2 as ->.
    destruct Hwf2 as [Hw2 Hhs2 Hnc2].
    destruct (RemoveFront_spec j q w2) as (w3 & Hrm & Hq3 & _ & _ & _ & Hn3 & _);
      try done.
    { intros k Hk. apply Hnc2. rewrite Hq2. by right. }
    { right. exists cb, rc. rewrite He2. apply elem_of_app. left.
      destruct Hev as [(_ & slot & _ & _ & ->)|(_ & _ & ->)];
        apply elem_of_app; right; repeat constructor. }
    destruct (lookup_lt_is_Some_2 (heap w3) j) as [job3 Hj3].
    { rewrite Hn3. by eapply lookup_lt_Some. }
    exists q, w3, (set_job j (Release job3) w3).
    assert (Hrel : Job_Release j w3 = Some (set_job j (Release job3) w3)).
    { unfold Job_Release. by rewrite Hj3. }
    split_and!; try done.
    rewrite Hstep.
    destruct (coordinator_ job2) as [c|] eqn:Hco.
    2:{ apply (wf_coord _ Hw2 _ _ Hj2) in Hco. unfold was_cancelled in Hnot.
        by rewrite Hco in Hnot. }
    simpl. rewrite Ha2. simpl. rewrite Hrm. simpl. done.
Qed.

Lemma completion_rechecks_cancellation_witness :
  alive (after [submit "a" 10 100; submit "b" 11 101; SWorker; SOrigin [ADestroy]])
  = false ∧
  cancelled (heap (after [submit "a" 10 100; submit "b" 11 101; SWorker;
                          SOrigin [ADestroy]])) 0 = true ∧
  events (after [submit "a" 10 100; submit "b" 11 101; SWorker; SOrigin [ADestroy]])
  = [EvThreadStart; EvStart 0; EvUse 0 10 "PROXY a"; EvCallback 0 100 0;
     EvCancel 0; EvCancel 1; EvThreadStop; EvResolverDestroyed].
Proof.
  assert (Hr : reachable (after [submit "a" 10 100; submit "b" 11 101; SWorker])).
  { apply reachable_after. vm_compute. eauto. }
  split_and!; [vm_compute; reflexivity| |vm_compute; reflexivity].
  edestruct (completion_rechecks_cancellation
               (after [submit "a" 10 100; submit "b" 11 101; SWorker])
               0 0 []) with (body := [ADestroy]) as (_ & Hdead & _);
    [exact Hr|vm_compute; reflexivity|vm_compute; reflexivity|
     vm_compute; reflexivity|vm_compute; reflexivity|vm_compute; reflexivity|].
  vm_compute in Hdead. vm_compute. apply Hdead. reflexivity.
Defined.

(** ** Destruction (C7) *)

Lemma cancel_all_total q w :
  (∀ j, j ∈ q → j < length (heap w)) → is_Some (run_all Job_Cancel q w).
Proof.
  revert w. induction q as [|j q IH]; intros w Hq; simpl; [by eexists|].
  destruct (lookup_lt_is_Some_2 (heap w) j) as [job Hj]; [apply Hq; by left|].
  destruct (Job_Cancel j w) as [w1|] eqn:Hc;
    [|unfold Job_Cancel in Hc; by rewrite Hj in Hc].
  simpl. apply IH. intros k Hk.
  apply Job_Cancel_fields in Hc as (_ & _ & _ & _ & _ & _ & _ & _ & -> & _).
  apply Hq. by right.
Qed.

Lemma release_all_total q w :
  (∀ j, j ∈ q → j < length (heap w)) → is_Some (run_all Job_Release q w).
Proof.
  revert w. induction q as [|j q IH]; intros w Hq; simpl; [by eexists|].
  destruct (lookup_lt_is_Some_2 (heap w) j) as [job Hj]; [apply Hq; by left|].
  destruct (Job_Release j w) as [w1|] eqn:Hc;
    [|unfold Job_Release in Hc; by rewrite Hj in Hc].
  simpl. apply IH. intros k Hk.
  apply Job_Release_fields in Hc as (_ & _ & _ & _ & _ & _ & _ & _ & -> & _).
  apply Hq. by right.
Qed.

Lemma worker_step_total w :
  wf w → engine_final w → ∃ w', worker_step w = Some w' ∧ engine_final w'.
Proof.
  intros [Hw _ _] He. unfold worker_step.
  destruct (thread_ w) as [[|t rest]|] eqn:Ht; [by eauto..| |by eauto].
  pose proof (wf_thread _ Hw) as Hth. rewrite Ht in Hth. destruct Hth as [Ha _].
  destruct (wf_resolver _ Hw Ha) as [r Hr].
  destruct t as [j|u b]; simpl.
  - pose proof (wf_activity _ Hw j) as Hact.
    unfold job_activity, worker_tasks in Hact. rewrite Ht in Hact. simpl in Hact.
    rewrite bool_decide_eq_true_2 in Hact by done.
    destruct (started (heap w) j) eqn:Hs; [|lia].
    destruct (lookup_lt_is_Some_2 (heap w) j) as [job Hj]; [by apply started_lt|].
    unfold Job_DoQuery. simpl. rewrite Hj. simpl. rewrite Hr. simpl.
    pose proof (He r Hr (pac_script r) (url_ job) (results_buf_ job)) as Hne.
    destruct (engine r _ _ _) as [rv buf]. simpl in Hne.
    destruct (Z.eqb_spec rv ERR_IO_PENDING) as [?|_]; [done|]. simpl.
    eexists. split; [done|]. intros r'. simpl. rewrite Hr. intros [= <-]. by apply He.
  - unfold SetPacScriptTask_Run. simpl. rewrite Hr. simpl.
    eexists. split; [done|]. intros r'. simpl. intros [= <-].
    intros s url buf. destruct (expects_pac_bytes r); simpl; by apply He.
Qed.

Lemma drain_total n w : wf w → engine_final w → is_Some (drain n w).
Proof.
  revert w. induction n as [|n IH]; intros w Hw He; simpl; [by eexists|].
  destruct (worker_step_total w Hw He) as (w1 & Hs & He1). rewrite Hs. simpl.
  apply IH; [by eapply wf_worker_step|done].
Qed.

(** C7: destroying a reachable live resolver succeeds when the engine keeps
    its contract.  The destructor calls [Cancel] on every job of the queue,
    in queue order, so that all three pointers of each are null; only then
    the thread goes (after the tasks already posted to it have run), and the
    wrapped resolver goes last. *)
Theorem destructor_cancels_then_tears_down w :
  reachable w → alive w = true →
  rev member_declaration_order = [m_pending_jobs; m_thread; m_resolver] ∧
  (engine_final w → is_Some (Destroy w)) ∧
  ∀ w', Destroy w = Some w' →
    events w' = events w ++ (EvCancel <$> pending_jobs_ w) ++
                match thread_ w with Some _ => [EvThreadStop] | None => [] end ++
                [EvResolverDestroyed] ∧
    (∀ j, j ∈ pending_jobs_ w → cleared (heap w') j) ∧
    alive w' = false ∧ thread_ w' = None ∧ resolver_ w' = None ∧
    pending_jobs_ w' = [] ∧ worker_log w' = schedule w.
Proof.
  intros Hwf%reachable_wf Ha. split; [done|]. split.
  - intros He. unfold Destroy, Destroy_with. rewrite Ha. simpl.
    destruct (cancel_all_total (pending_jobs_ w) w) as [w1 Hc];
      [apply Hwf|]. rewrite Hc. simpl.
    pose proof (cancel_all_fields _ _ _ Hc)
      as (Ha1 & Ht1 & Hq1 & _ & _ & _ & He1 & Hr1 & Hn1 & _ & _ & _ & _ & Hw1).
    destruct (release_all_total (pending_jobs_ w1) w1) as [w2 Hr];
      [rewrite Hq1, Hn1; apply Hwf|]. rewrite Hr. simpl.
    pose proof (release_all_fields _ _ _ Hr)
      as (Ha2 & Ht2 & Hq2 & _ & _ & _ & He2 & Hr2 & Hn2 & _ & _ & _ & Hw2).
    destruct (thread_ w2) as [loop|] eqn:Hth; simpl; [|by eexists].
    unfold Thread_Stop. simpl. rewrite Hth. simpl.
    destruct (drain_total (length loop) (set_pending [] w2)) as [w3 Hd].
    + apply wf_intro.
      * apply wf0_set_pending; [by apply Hw2, Hw1, Hwf|constructor| | |done].
        -- intros k Hk. by apply elem_of_nil in Hk.
        -- intros k Hk _. left. rewrite He2, He1. apply elem_of_app. right.
           apply list_elem_of_fmap. exists k. split; [done|]. congruence.
      * by intros j q.
      * intros j Hj. by apply elem_of_nil in Hj.
    + intros r. simpl. rewrite Hr2, Hr1. apply He.
    + rewrite Hd. simpl. by eexists.
  - intros w' (_ & w1 & w2 & w3 & Hc & Hr & Hd & ->)%Destroy_inv.
    apply cancel_all_fields in Hc
      as (_ & Ht1 & Hq1 & _ & _ & Hl1 & He1 & _ & _ & _ & _ & Hcl1 & _).
    apply release_all_fields in Hr
      as (_ & Ht2 & Hq2 & _ & _ & Hl2 & He2 & _ & _ & _ & _ & Hcl2 & _).
    pose proof (drain_fields _ _ _ Hd)
      as (_ & Hq3 & _ & He3 & _ & _ & _ & Hsc3 & Hth3 & Hlen3 & _).
    simpl in *.
    assert (Hwt : worker_tasks w3 = []).
    { apply length_zero_iff_nil. rewrite Hlen3. unfold worker_tasks. simpl. lia. }
    assert (Hth : is_Some (thread_ w3) ↔ is_Some (thread_ w)).
    { by rewrite Hth3, Ht2, Ht1. }
    assert (Hlog : worker_log w3 = schedule w).
    { transitivity (schedule w3).
      - unfold schedule. by rewrite Hwt, app_nil_r.
      - rewrite Hsc3. unfold schedule, worker_tasks. simpl. congruence. }
    unfold torn_down. split_and!.
    + destruct (thread_ w3) as [l3|], (thread_ w) as [l0|]; simpl;
        rewrite ?He3, ?He2, ?He1, <-?app_assoc; try done.
      * destruct Hth as [Hth _]. by destruct Hth.
      * destruct Hth as [_ Hth]. by destruct Hth.
    + intros j Hj.
      assert (cleared (heap w3) j) as H3.
      { eapply cleared_drain; [done|]. simpl. by apply Hcl2, Hcl1. }
      by destruct (thread_ w3).
    + done.
    + by destruct (thread_ w3) eqn:E; simpl.
    + done.
    + destruct (thread_ w3); simpl; congruence.
    + by destruct (thread_ w3).
Qed.

Lemma destructor_cancels_then_tears_down_witness :
  is_Some (Destroy (after [submit "a" 10 100; submit "b" 11 101])) ∧
  events (after [submit "a" 10 100; submit "b" 11 101; SUser ADestroy])
  = [EvThreadStart; EvStart 0; EvCancel 0; EvCancel 1; EvThreadStop;
     EvResolverDestroyed].
Proof.
  assert (Hr : reachable (after [submit "a" 10 100; submit "b" 11 101])).
  { apply reachable_after. vm_compute. eauto. }
  assert (Ha : alive (after [submit "a" 10 100; submit "b" 11 101]) = true)
    by (vm_compute; reflexivity).
  destruct (destructor_cancels_then_tears_down _ Hr Ha) as (_ & Htot & Hev).
  split.
  - apply Htot. intros r [= <-] s url buf. simpl. unfold example_engine.
    by destruct (String.eqb url "bad").
  - destruct (Hev (after [submit "a" 10 100; submit "b" 11 101; SUser ADestroy]))
      as (He & _); [vm_compute; reflexivity|].
    rewrite He. vm_compute. reflexivity.
Defined.

(** ** Configuration calls and queries (C8) *)

(** The worker thread runs its tasks in the order of the schedule. *)
Lemma worker_log_prefix w : ∃ l, schedule w = worker_log w ++ l.
Proof. by exists (worker_tasks w). Qed.

Lemma scheduled_started w j :
  wf w → DoQueryTask j ∈ schedule w → started (heap w) j = true.
Proof.
  intros [Hw _ _] [Hin|Hin]%elem_of_app; [by apply (wf_logged _ Hw)|].
  apply count_dq_pos in Hin. pose proof (wf_activity _ Hw j) as Hact.
  unfold job_activity in Hact. destruct (started (heap w) j); [done|lia].
Qed.

(** C8, counterexample: submit [a] and [b], then configure.  [b] waits in
    the queue behind [a], so its engine call is posted to the worker only
    when [a] completes, after the configuration task: the worker runs
    [DoQuery a], the configuration, [DoQuery b]. *)
Lemma query_before_later_configure_fails :
  ¬ query_before_later_configure_as_claimed.
Proof.
  intros H.
  assert (Hr : reachable (after [submit "a" 10 100])).
  { apply reachable_after. vm_compute. eauto. }
  specialize (H (after [submit "a" 10 100]) "b" (Some 11) (Some 101)
                ERR_IO_PENDING (Some 1)
                (after [submit "a" 10 100; submit "b" 11 101]) []
                (after [submit "a" 10 100; submit "b" 11 101])
                "pac" ""
                (after [submit "a" 10 100; submit "b" 11 101;
                        SUser (ASetPacScriptByUrl "pac")])
                [SWorker; SWorker; SOrigin []; SWorker]
                (after [submit "a" 10 100; submit "b" 11 101;
                        SUser (ASetPacScriptByUrl "pac");
                        SWorker; SWorker; SOrigin []; SWorker])
                2 Hr).
  assert (Hlt : 2 < length (schedule (after [submit "a" 10 100; submit "b" 11 101]))).
  { apply H; vm_compute; reflexivity. }
  vm_compute in Hlt. lia.
Qed.

(** C8, amended: a configuration call is posted to the worker at once, so
    that it runs right after everything scheduled when it was made, and
    remains there whatever happens next; the next configuration call comes
    after it; a query whose engine call was already scheduled runs before
    it; no query submitted later is scheduled yet, and neither is a query
    submitted earlier that still waits, not started, in the queue: when such
    a query runs, it runs after the configuration. *)
Theorem configuration_order w pac_url bytes w1 steps w2 :
  reachable w → SetPacScriptHelper pac_url bytes w = Some w1 →
  run steps w1 = Some w2 →
  (∃ l, schedule w2 = schedule w ++ SetPacScriptTask pac_url bytes :: l ∧
     (∀ u' b' w3, SetPacScriptHelper u' b' w2 = Some w3 →
        schedule w3 = schedule w ++ SetPacScriptTask pac_url bytes :: l ++
                      [SetPacScriptTask u' b']) ∧
     (∀ j, DoQueryTask j ∈ schedule w2 → DoQueryTask j ∉ schedule w →
           DoQueryTask j ∈ l)) ∧
  (∀ j, length (heap w) ≤ j → DoQueryTask j ∉ schedule w) ∧
  (∀ j, started (heap w) j = false → DoQueryTask j ∉ schedule w) ∧
  (∃ l, schedule w2 = worker_log w2 ++ l).
Proof.
  intros Hwf%reachable_wf [_ Hs1]%fq_SetPacScriptHelper [_ _ (l & Hl) _]%follows_run.
  split_and!.
  - exists l. rewrite Hl, Hs1, <-app_assoc. split_and!; [done| |].
    + intros u' b' w3 [_ Hs3]%fq_SetPacScriptHelper.
      rewrite Hs3, Hl, Hs1, <-!app_assoc. done.
    + intros j [Hin|[Hin|Hin]%elem_of_cons]%elem_of_app Hnot; done.
  - intros j Hj Hin. apply scheduled_started, started_lt in Hin; [lia|done].
  - intros j Hj Hin. apply scheduled_started in Hin; [congruence|done].
  - apply worker_log_prefix.
Qed.

Lemma configuration_order_witness :
  worker_log (after [submit "a" 10 100; SUser (ASetPacScriptByUrl "pac");
                     submit "b" 11 101; SWorker; SWorker; SOrigin []; SWorker])
  = [DoQueryTask 0; SetPacScriptTask "pac" ""; DoQueryTask 1] ∧
  ∃ l, schedule (after [submit "a" 10 100; SUser (ASetPacScriptByUrl "pac");
                        submit "b" 11 101; SWorker; SWorker; SOrigin []; SWorker])
       = schedule (after [submit "a" 10 100]) ++ SetPacScriptTask "pac" "" :: l.
Proof.
  assert (Hr : reachable (after [submit "a" 10 100])).
  { apply reachable_after. vm_compute. eauto. }
  split; [vm_compute; reflexivity|].
  destruct (configuration_order (after [submit "a" 10 100]) "pac" ""
              (after [submit "a" 10 100; SUser (ASetPacScriptByUrl "pac")])
              [submit "b" 11 101; SWorker; SWorker; SOrigin []; SWorker]
              (after [submit "a" 10 100; SUser (ASetPacScriptByUrl "pac");
                      submit "b" 11 101; SWorker; SWorker; SOrigin []; SWorker])
              Hr) as ((l & Hl & _) & _); [vm_compute; reflexivity..|].
  exists l. exact Hl.
Defined.

(** ** The cancelled state (C10) *)

Lemma ProcessPendingJobs_cancelled w w' :
  ProcessPendingJobs w = Some w' → ∀ k, cancelled (heap w') k = cancelled (heap w) k.
Proof.
  unfold ProcessPendingJobs. intros Hp k.
  destruct (pending_jobs_ w) as [|j q]; [by injection Hp as <-|].
  destruct (heap w !! j) as [job|] eqn:Hj; [|done]. simpl in Hp.
  destruct (is_started job); [by injection Hp as <-|].
  pose proof (EnsureThreadStarted_fields w) as (_ & _ & _ & Hh & _).
  apply Job_Start_inv in Hp as (jb & loop & Hjb & _ & _ & _ & ->). simpl.
  rewrite Hh in *. by eapply cancelled_insert_same.
Qed.

Lemma RemoveFront_cancelled j w w' :
  RemoveFrontOfJobsQueueAndStartNext j w = Some w' →
  ∀ k, cancelled (heap w') k = cancelled (heap w) k.
Proof.
  unfold RemoveFrontOfJobsQueueAndStartNext. intros Hr k.
  destruct (pending_jobs_ w) as [|j0 rest]; [done|].
  destruct (DCHECK _); [|done]. simpl in Hr.
  destruct (Job_Release j0 (set_pending rest w)) as [w1|] eqn:Hrel; [|done].
  simpl in Hr. rewrite (ProcessPendingJobs_cancelled _ _ Hr).
  apply Job_Release_fields in Hrel as (_ & _ & _ & _ & _ & _ & _ & _ & _ & _ & Hc & _).
  by rewrite Hc.
Qed.

Lemma run_action_cancelled j a w w' :
  run_action a w = Some w' → action_cancels j a = false →
  cancelled (heap w') j = cancelled (heap w) j.
Proof.
  destruct a as [url results callback request|[k|]|pac_url|bytes|]; simpl;
    try done.
  - destruct (GetProxyForURL url results callback request w)
      as [[[rv h] w1]|] eqn:Hg; [|done]. simpl. intros [= <-] _.
    apply GetProxyForURL_inv in Hg as (_ & [cb ->] & _ & _ & Hp).
    rewrite (ProcessPendingJobs_cancelled _ _ Hp). unfold enqueued. simpl.
    rewrite cancelled_app. case_bool_decide as Hk; [|done].
    subst j. simpl. by rewrite cancelled_ge.
  - intros Hc Hk. apply bool_decide_eq_false_1 in Hk. revert Hc.
    unfold CancelRequest. destruct (valid _); [|done]. simpl.
    destruct (heap w !! k) as [job|]; [|done]. simpl.
    destruct (Job_Cancel k w) as [w1|] eqn:Hcan; [|done]. simpl.
    apply Job_Cancel_fields in Hcan
      as (_ & _ & _ & _ & _ & _ & _ & _ & _ & _ & Hc1 & _).
    specialize (Hc1 j). rewrite bool_decide_eq_false_2 in Hc1 by congruence.
    destruct (is_active_job job k w).
    + intros Hr. by rewrite (RemoveFront_cancelled _ _ _ Hr).
    + destruct (erase_first k (pending_jobs_ w1)) as [q|]; [|done]. simpl.
      intros (_ & _ & _ & _ & _ & _ & _ & _ & _ & _ & Hc & _)%Job_Release_fields.
      by rewrite Hc.
  - unfold CancelRequest. by destruct (alive w).
  - unfold SetPacScriptByUrlInternal, SetPacScriptHelper, EnsureThreadStarted.
    destruct (alive w); simpl; [|done].
    destruct (thread_ w) eqn:Ht; simpl; rewrite ?Ht; simpl; by intros [= <-].
  - unfold SetPacScriptByDataInternal, SetPacScriptHelper, EnsureThreadStarted.
    destruct (alive w); simpl; [|done].
    destruct (thread_ w) eqn:Ht; simpl; rewrite ?Ht; simpl; by intros [= <-].
Qed.

Lemma run_actions_cancelled j body w w' :
  run_all run_action body w = Some w' → existsb (action_cancels j) body = false →
  cancelled (heap w') j = cancelled (heap w) j.
Proof.
  revert w. induction body as [|a body IH]; intros w; simpl.
  { by intros [= <-]. }
  destruct (run_action a w) as [w1|] eqn:Ha; [|done]. simpl.
  intros Hrun [Hna Hnb]%orb_false_elim.
  rewrite (IH _ Hrun Hnb). by eapply run_action_cancelled.
Qed.

Lemma step_cancelled j s w w' :
  step s w = Some w' → step_cancels j s = false →
  cancelled (heap w') j = cancelled (heap w) j.
Proof.
  destruct s as [a| |body]; simpl.
  - apply run_action_cancelled.
  - intros Hs _. by apply worker_step_fields in Hs
      as (_ & _ & _ & _ & _ & _ & Hc & _).
  - unfold origin_step. destruct (origin_loop w) as [|[c rc] rest].
    { by intros [= <-]. }
    intros Hqc Hnb.
    assert (Hrel : ∀ w1 w2, Job_Release c w1 = Some w2 →
                     cancelled (heap w2) j = cancelled (heap w1) j).
    { intros w1 w2 Hr.
      by apply Job_Release_fields in Hr
        as (_ & _ & _ & _ & _ & _ & _ & _ & _ & _ & Hc & _). }
    apply Job_QueryComplete_inv in Hqc
      as (job & Hj & [[_ Hr]|(_ & wd & w2 & job2 & Hd & Hbody & _ & Hpost)]).
    { by rewrite (Hrel _ _ Hr). }
    apply delivered_fields in Hd as (cb & _ & _ & _ & _ & _ & Hh & _).
    pose proof (run_actions_cancelled _ _ _ _ Hbody Hnb) as Hc2.
    rewrite Hh in Hc2. simpl in Hc2.
    destruct Hpost as [[_ Hr]|(_ & _ & w3 & Hrm & Hr)].
    + by rewrite (Hrel _ _ Hr).
    + by rewrite (Hrel _ _ Hr), (RemoveFront_cancelled _ _ _ Hrm).
Qed.

Lemma cleared_cancelled (h : list Job) j : cleared h j → cancelled h j = true.
Proof.
  intros (job & Hj & _ & Hcb & _). unfold cancelled, was_cancelled.
  by rewrite Hj, Hcb.
Qed.

Lemma Destroy_cancels w w' j :
  Destroy w = Some w' → j ∈ pending_jobs_ w → cleared (heap w') j.
Proof.
  intros (_ & w1 & w2 & w3 & Hc & Hr & Hd & ->)%Destroy_inv Hin.
  apply cancel_all_fields in Hc
    as (_ & _ & _ & _ & _ & _ & _ & _ & _ & _ & _ & Hcl & _).
  apply release_all_fields in Hr
    as (_ & _ & _ & _ & _ & _ & _ & _ & _ & _ & _ & Hcl2 & _).
  pose proof (cleared_drain _ _ _ j Hd (Hcl2 _ (Hcl _ Hin))) as Hcl3.
  unfold torn_down. by destruct (thread_ w3).
Qed.

(** C10: a job cannot be created with a null callback (the DCHECK of the
    constructor), a freshly submitted job is not cancelled, and in every
    reachable world [was_cancelled] holds of a job exactly when its callback
    pointer is null, which is exactly when [Cancel] was called on it.
    [Cancel] itself always succeeds on a job, clears its three pointers,
    which leaves it cancelled, and touches no other job; the two callers of
    [Cancel], [CancelRequest] and the destructor, leave the job of the
    handle and every queued job cancelled; and a step of an execution in
    which neither is asked for job [j] (a step of the worker, a submission,
    a configuration call, a completion whose callback cancels another job or
    none) leaves the cancelled state of [j] as it was. *)
Theorem cancelled_iff_Cancel_called w :
  reachable w →
  (∀ url results, Job_new url results None = None) ∧
  (∀ url results request, GetProxyForURL url results None request w = None) ∧
  (∀ url results callback request rv h w',
     GetProxyForURL url results callback request w = Some (rv, h, w') →
     ∃ job, heap w' !! length (heap w) = Some job ∧
            callback_ job = callback ∧ is_Some (callback_ job) ∧
            was_cancelled job = false) ∧
  (∀ j job, heap w !! j = Some job →
     (was_cancelled job = true ↔ callback_ job = None) ∧
     (was_cancelled job = true ↔ EvCancel j ∈ events w)) ∧
  (∀ j job, heap w !! j = Some job →
     ∃ w', Job_Cancel j w = Some w' ∧
       cleared (heap w') j ∧ cancelled (heap w') j = true ∧
       events w' = events w ++ [EvCancel j] ∧
       ∀ k, k ≠ j → heap w' !! k = heap w !! k) ∧
  (∀ j w', CancelRequest (Some j) w = Some w' → cancelled (heap w') j = true) ∧
  (∀ w', Destroy w = Some w' →
     ∀ j, j ∈ pending_jobs_ w →
          cleared (heap w') j ∧ cancelled (heap w') j = true) ∧
  (∀ s w' j, step s w = Some w' → step_cancels j s = false →
     cancelled (heap w') j = cancelled (heap w) j).
Proof.
  intros Hwf%reachable_wf. split_and!.
  - done.
  - intros url results request. unfold GetProxyForURL.
    destruct (valid (alive w)); done.
  - intros url results callback request rv h w' Hg.
    apply GetProxyForURL_inv in Hg as (Ha & [cb ->] & _ & _ & Hp).
    eapply (ProcessPendingJobs_keeps _ _ (length (heap w))
              (AddRef (mkJob (Some this_resolver) (Some cb) results url false "" 0)))
      in Hp as (job & Hj & Hcb & _).
    + exists job. split; [done|]. simpl in Hcb. rewrite Hcb.
      unfold was_cancelled. rewrite Hcb. eauto.
    + unfold enqueued. simpl. by apply list_lookup_middle.
  - intros j job Hj. split.
    + unfold was_cancelled. by destruct (callback_ job).
    + rewrite <-(wf_cancel _ (wf_base _ Hwf) j). unfold cancelled. by rewrite Hj.
  - intros j job Hj.
    destruct (Job_Cancel j w) as [w'|] eqn:Hc;
      [|unfold Job_Cancel in Hc; by rewrite Hj in Hc].
    exists w'. split; [done|].
    pose proof (cleared_Job_Cancel j w w' j Hc (or_introl eq_refl)) as Hcl.
    pose proof (Job_Cancel_fields _ _ _ Hc)
      as (_ & _ & _ & _ & _ & _ & He & _ & _ & _ & _ & Hk).
    split_and!; [done|by apply cleared_cancelled|done|done].
  - intros j w'. apply CancelRequest_cancels.
  - intros w' Hd j Hin. pose proof (Destroy_cancels _ _ _ Hd Hin) as Hcl.
    split; [done|by apply cleared_cancelled].
  - intros s w' j. apply step_cancelled.
Qed.

Lemma cancelled_iff_Cancel_called_witness :
  reachable (after [submit "a" 10 100; submit "b" 11 101; SUser (ACancel (Some 1))]) ∧
  GetProxyForURL "c" (Some 12) None true
    (after [submit "a" 10 100; submit "b" 11 101; SUser (ACancel (Some 1))]) = None ∧
  cancelled (heap (after [submit "a" 10 100; submit "b" 11 101;
                          SUser (ACancel (Some 1))])) 1 = true ∧
  cancelled (heap (after [submit "a" 10 100; submit "b" 11 101;
                          SUser (ACancel (Some 1)); SWorker; SOrigin []])) 0 = false ∧
  (∃ w', Job_Cancel 0 (after [submit "a" 10 100; submit "b" 11 101;
                              SUser (ACancel (Some 1))]) = Some w' ∧
         cancelled (heap w') 0 = true).
Proof.
  assert (Hr0 : reachable (after [submit "a" 10 100; submit "b" 11 101])).
  { apply reachable_after. vm_compute. eauto. }
  assert (Hr : reachable (after [submit "a" 10 100; submit "b" 11 101;
                                 SUser (ACancel (Some 1))])).
  { apply reachable_after. vm_compute. eauto. }
  assert (Hr1 : reachable (after [submit "a" 10 100; submit "b" 11 101;
                                  SUser (ACancel (Some 1)); SWorker])).
  { apply reachable_after. vm_compute. eauto. }
  destruct (cancelled_iff_Cancel_called _ Hr0) as (_ & _ & _ & _ & _ & Hcr & _).
  destruct (cancelled_iff_Cancel_called _ Hr)
    as (_ & Hnull & _ & _ & Hcan & _ & _ & Hstep).
  destruct (cancelled_iff_Cancel_called _ Hr1) as (_ & _ & _ & _ & _ & _ & _ & Hstep1).
  split_and!.
  - exact Hr.
  - exact (Hnull "c" (Some 12) true).
  - apply (Hcr 1). vm_compute. reflexivity.
  - rewrite (Hstep1 (SOrigin [])
               (after [submit "a" 10 100; submit "b" 11 101;
                       SUser (ACancel (Some 1)); SWorker; SOrigin []]) 0)
      by (vm_compute; reflexivity).
    rewrite (Hstep SWorker
               (after [submit "a" 10 100; submit "b" 11 101;
                       SUser (ACancel (Some 1)); SWorker]) 0)
      by (vm_compute; reflexivity).
    vm_compute. reflexivity.
  - destruct (Hcan 0 (mkJob (Some this_resolver) (Some 100) (Some 10) "a" true "" 2))
      as (w' & Hc & _ & Hcd & _); [vm_compute; reflexivity|].
    by exists w'.
Defined.

(** ** Scenarios *)

(** Three queries and no cancellation: the callbacks run in the order of
    submission, each after its own result was stored. *)
Example scenario_three_queries :
  events (after [submit "a" 10 100; submit "b" 11 101; submit "c" 12 102;
                 SWorker; SOrigin []; SWorker; SOrigin []; SWorker; SOrigin []])
  = [EvThreadStart; EvStart 0;
     EvUse 0 10 "PROXY a"; EvCallback 0 100 0; EvStart 1;
     EvUse 1 11 "PROXY b"; EvCallback 1 101 0; EvStart 2;
     EvUse 2 12 "PROXY c"; EvCallback 2 102 0].
Proof. vm_compute. reflexivity. Qed.

(** Cancelling the queued query [b] before [a] completes: only the callback
    of [a] runs. *)
Example scenario_cancel_queued :
  events (after [submit "a" 10 100; submit "b" 11 101; SUser (ACancel (Some 1));
                 SWorker; SOrigin []; SWorker; SOrigin []])
  = [EvThreadStart; EvStart 0; EvCancel 1;
     EvUse 0 10 "PROXY a"; EvCallback 0 100 0].
Proof. vm_compute. reflexivity. Qed.

(** Cancelling the active query empties the queue; the next submission is
    dispatched at once, behind the engine call of the cancelled job. *)
Example scenario_cancel_active :
  pending_jobs_ (after [submit "a" 10 100; SUser (ACancel (Some 0))]) = [] ∧
  thread_ (after [submit "a" 10 100; SUser (ACancel (Some 0)); submit "d" 13 103])
  = Some [DoQueryTask 0; DoQueryTask 1] ∧
  events (after [submit "a" 10 100; SUser (ACancel (Some 0)); submit "d" 13 103;
                 SWorker; SOrigin []; SWorker; SOrigin []])
  = [EvThreadStart; EvStart 0; EvCancel 0; EvStart 1;
     EvUse 1 13 "PROXY d"; EvCallback 1 103 0].
Proof. vm_compute. done. Qed.

(** A handle cannot be cancelled twice, nor after completion, nor on a
    destroyed resolver: the DCHECK of [CancelRequest] (or the dead object)
    stops the execution. *)
Example scenario_misuse :
  run [submit "a" 10 100; SUser (ACancel (Some 0)); SUser (ACancel (Some 0))]
      (init example_resolver) = None ∧
  run [submit "a" 10 100; SWorker; SOrigin []; SUser (ACancel (Some 0))]
      (init example_resolver) = None ∧
  run [submit "a" 10 100; SUser ADestroy; SUser (ACancel (Some 0))]
      (init example_resolver) = None.
Proof. vm_compute. done. Qed.

(** Why the declaration order matters: were [thread_] declared before
    [resolver_], the wrapped resolver would be destroyed first and the
    engine call still posted to the thread would run on a dead object. *)
Example scenario_declaration_order :
  Destroy_with [m_thread; m_resolver; m_pending_jobs] (after [submit "a" 10 100])
  = None ∧
  is_Some (Destroy_with [m_resolver; m_thread; m_pending_jobs]
             (after [submit "a" 10 100])) ∧
  is_Some (Destroy_with [m_pending_jobs; m_resolver; m_thread]
             (after [submit "a" 10 100])).
Proof. vm_compute. eauto. Qed.
(** * Further properties of the resolver *)

(** ** Processing the queue *)

(** X1: [ProcessPendingJobs] is idempotent: running it a second time changes
    nothing, whatever the world (and fails exactly when the first run
    fails); between two steps of an execution it changes nothing at all,
    since the front of the queue is already started. *)
Theorem ProcessPendingJobs_idempotent :
  (∀ w, ProcessPendingJobs w ≫= ProcessPendingJobs = ProcessPendingJobs w) ∧
  (∀ w, reachable w → ProcessPendingJobs w = Some w).
Proof.
  split.
  - intros w. destruct (ProcessPendingJobs w) as [w'|] eqn:Hp; [|done]. simpl.
    revert Hp. unfold ProcessPendingJobs.
    destruct (pending_jobs_ w) as [|j q] eqn:Hq.
    { intros [= <-]. by rewrite Hq. }
    destruct (heap w !! j) as [job|] eqn:Hj; [|done]. simpl.
    destruct (is_started job) eqn:Hs.
    { intros [= <-]. by rewrite Hq, Hj; simpl; rewrite Hs. }
    pose proof (EnsureThreadStarted_fields w) as (_ & _ & Hq' & Hh' & _).
    intros (jb & loop & Hjb & _ & _ & _ & ->)%Job_Start_inv. simpl.
    rewrite Hq', Hq, Hh'.
    rewrite list_lookup_insert_eq by (by eapply lookup_lt_Some). done.
  - intros w [Hw Hh _]%reachable_wf. unfold ProcessPendingJobs.
    destruct (pending_jobs_ w) as [|j q] eqn:Hq; [done|].
    specialize (Hh _ _ eq_refl). unfold started in Hh.
    destruct (heap w !! j) as [job|]; [|done]. simpl. by rewrite Hh.
Qed.

Lemma ProcessPendingJobs_idempotent_witness :
  ProcessPendingJobs (after [submit "a" 10 100; submit "b" 11 101])
  = Some (after [submit "a" 10 100; submit "b" 11 101]).
Proof.
  apply (proj2 ProcessPendingJobs_idempotent).
  apply reachable_after. vm_compute. eauto.
Defined.

(** ** The worker thread *)

(** X2: a turn of the worker thread's loop writes only what the source
    marks as usable from that thread.  The members of the resolver, the
    queue, the log and the caller's output slots are left alone; every job
    keeps its [coordinator_], [callback_], [results_], [url_], started flag
    and reference count (only [results_buf_] can differ); the wrapped
    resolver keeps its capability flag and its engine; and at most one task
    is added to the tail of the origin loop. *)
Theorem worker_thread_confined w w' :
  worker_step w = Some w' →
  alive w' = alive w ∧ pending_jobs_ w' = pending_jobs_ w ∧
  slots w' = slots w ∧ events w' = events w ∧
  length (heap w') = length (heap w) ∧
  (∀ j job, heap w !! j = Some job →
     ∃ job', heap w' !! j = Some job' ∧
       coordinator_ job' = coordinator_ job ∧ callback_ job' = callback_ job ∧
       results_ job' = results_ job ∧ url_ job' = url_ job ∧
       is_started_ job' = is_started_ job ∧ ref_count_ job' = ref_count_ job) ∧
  (∃ l, origin_loop w' = origin_loop w ++ l ∧ length l ≤ 1) ∧
  (∀ r, resolver_ w = Some r →
     ∃ r', resolver_ w' = Some r' ∧
       expects_pac_bytes r' = expects_pac_bytes r ∧ engine r' = engine r).
Proof.
  unfold worker_step.
  destruct (thread_ w) as [[|t rest]|] eqn:Ht.
  1,3: intros [= <-]; split_and!; try done;
       [by eauto 10|exists []; split; [by rewrite app_nil_r|simpl; lia]|by eauto].
  destruct t as [j|u b]; simpl.
  - unfold Job_DoQuery. simpl.
    destruct (heap w !! j) as [job|] eqn:Hj; [|done]. simpl.
    destruct (resolver_ w) as [r|] eqn:Hr; [|done]. simpl.
    destruct (engine r _ _ _) as [rv buf].
    destruct (DCHECK _); [|done]. simpl. intros [= <-]. simpl.
    split_and!; try done.
    + apply length_insert.
    + intros k jobk Hk. destruct (decide (k = j)) as [->|Hne].
      * rewrite list_lookup_insert_eq by (by eapply lookup_lt_Some).
        eexists. split; [done|]. by simplify_eq.
      * rewrite list_lookup_insert_ne by done. eauto 10.
    + eexists. split; [done|simpl; lia].
    + intros r0. rewrite Hr. eauto.
  - unfold SetPacScriptTask_Run. simpl.
    destruct (resolver_ w) as [r|] eqn:Hr; [|done]. simpl. intros [= <-]. simpl.
    split_and!; try done.
    + by eauto 10.
    + exists []. split; [by rewrite app_nil_r|simpl; lia].
    + intros r0 [= <-]. eexists. split; [done|].
      destruct (expects_pac_bytes r) eqn:E; simpl; by rewrite ?E.
Qed.

Lemma worker_thread_confined_witness :
  pending_jobs_ (after [submit "a" 10 100; submit "b" 11 101; SWorker])
  = pending_jobs_ (after [submit "a" 10 100; submit "b" 11 101]) ∧
  events (after [submit "a" 10 100; submit "b" 11 101; SWorker])
  = events (after [submit "a" 10 100; submit "b" 11 101]).
Proof.
  destruct (worker_thread_confined
              (after [submit "a" 10 100; submit "b" 11 101])
              (after [submit "a" 10 100; submit "b" 11 101; SWorker]))
    as (_ & Hq & _ & He & _); [vm_compute; reflexivity|].
  split; [exact Hq|exact He].
Defined.

(** X3: a task of the worker thread never fails in an execution whose
    engine keeps its contract: when the task runs the resolver is alive and
    the wrapped resolver it points to exists, the job of a [DoQuery] exists
    and is started, and the pending sentinel is not returned.  The task
    leaves the loop and enters the record of what the thread has run. *)
Theorem worker_task_never_fails w t rest :
  reachable w → engine_final w → thread_ w = Some (t :: rest) →
  alive w = true ∧ is_Some (resolver_ w) ∧
  (∀ j, t = DoQueryTask j → is_Some (heap w !! j) ∧ started (heap w) j = true) ∧
  ∃ w', worker_step w = Some w' ∧ engine_final w' ∧
    thread_ w' = Some rest ∧ worker_log w' = worker_log w ++ [t].
Proof.
  intros Hwf%reachable_wf He Ht.
  pose proof (wf_thread _ (wf_base _ Hwf)) as Hth. rewrite Ht in Hth.
  destruct Hth as [Ha _].
  pose proof (wf_resolver _ (wf_base _ Hwf) Ha) as Hr.
  split_and!; try done.
  - intros j ->.
    assert (Hs : started (heap w) j = true).
    { apply scheduled_started; [done|]. unfold schedule, worker_tasks.
      rewrite Ht. apply elem_of_app. right. by left. }
    split; [|done]. apply lookup_lt_is_Some_2. by apply started_lt.
  - destruct (worker_step_total w Hwf He) as (w' & Hs & He').
    exists w'. split_and!; try done.
    + revert Hs. unfold worker_step. rewrite Ht. destruct t as [j|u b]; simpl.
      * unfold Job_DoQuery. simpl. destruct (heap w !! j); [|done]. simpl.
        destruct (resolver_ w) as [r|]; [|done]. simpl.
        destruct (engine r _ _ _) as [rv buf]. destruct (DCHECK _); [|done].
        simpl. by intros [= <-].
      * unfold SetPacScriptTask_Run. simpl.
        destruct (resolver_ w) as [r|]; [|done]. simpl. by intros [= <-].
    + revert Hs. unfold worker_step. rewrite Ht. destruct t as [j|u b]; simpl.
      * unfold Job_DoQuery. simpl. destruct (heap w !! j); [|done]. simpl.
        destruct (resolver_ w) as [r|]; [|done]. simpl.
        destruct (engine r _ _ _) as [rv buf]. destruct (DCHECK _); [|done].
        simpl. by intros [= <-].
      * unfold SetPacScriptTask_Run. simpl.
        destruct (resolver_ w) as [r|]; [|done]. simpl. by intros [= <-].
Qed.

Lemma worker_task_never_fails_witness :
  ∃ w', worker_step (after [submit "a" 10 100]) = Some w' ∧
        thread_ w' = Some [] ∧ worker_log w' = [DoQueryTask 0].
Proof.
  assert (Hr : reachable (after [submit "a" 10 100])).
  { apply reachable_after. vm_compute. eauto. }
  assert (He : engine_final (after [submit "a" 10 100])).
  { intros r [= <-] s url buf. simpl. unfold example_engine.
    by destruct (String.eqb url "bad"). }
  destruct (worker_task_never_fails (after [submit "a" 10 100]) (DoQueryTask 0) []
              Hr He) as (_ & _ & _ & w' & Hs & _ & Ht & Hl);
    [vm_compute; reflexivity|].
  exists w'. split_and!; [exact Hs|exact Ht|].
  rewrite Hl. vm_compute. reflexivity.
Defined.

(** ** After the destructor *)

Lemma dead_completion_cancelled w j rc rest :
  wf w → alive w = false → origin_loop w = QueryCompleteTask j rc :: rest →
  cancelled (heap w) j = true.
Proof.
  intros [Hw _ _] Ha Ho.
  pose proof (wf_dead _ Hw Ha) as Hq.
  pose proof (wf_activity _ Hw j) as Hact. unfold job_activity in Hact.
  rewrite Ho in Hact. simpl in Hact. rewrite bool_decide_eq_true_2 in Hact by done.
  destruct (started (heap w) j) eqn:Hs; [|lia].
  destruct (wf_finished _ Hw j) as [Hc|(cb & rc' & Hcb)].
  - by apply started_lt.
  - rewrite Hq. apply not_elem_of_nil.
  - by apply (wf_cancel _ Hw).
  - apply count_cb_pos in Hcb. lia.
Qed.

Lemma dead_step s w w' :
  wf w → alive w = false → step s w = Some w' →
  alive w' = false ∧ events w' = events w ∧ slots w' = slots w ∧
  resolver_ w' = resolver_ w ∧ thread_ w' = thread_ w ∧
  pending_jobs_ w' = pending_jobs_ w.
Proof.
  intros Hwf Ha. destruct s as [a| |body]; simpl.
  - destruct a; simpl;
      unfold GetProxyForURL, CancelRequest, SetPacScriptByUrlInternal,
        SetPacScriptByDataInternal, SetPacScriptHelper, Destroy, Destroy_with;
      by rewrite Ha.
  - pose proof (wf_thread _ (wf_base _ Hwf)) as Hth. unfold worker_step.
    destruct (thread_ w) as [loop|] eqn:Ht; [destruct Hth; congruence|].
    by intros [= <-].
  - unfold origin_step. destruct (origin_loop w) as [|[j rc] rest] eqn:Ho.
    { by intros [= <-]. }
    pose proof (dead_completion_cancelled _ _ _ _ Hwf Ha Ho) as Hc.
    rewrite QueryComplete_cancelled by done.
    intros (Ha' & Ht' & Hq' & _ & Hsl' & _ & He' & Hr' & _)%Job_Release_fields.
    by rewrite Ha', Ht', Hq', Hsl', He', Hr'.
Qed.

(** X4: what is left of a destroyed resolver is inert.  Its thread is gone
    and its queue is empty; the [QueryComplete] tasks still waiting in the
    origin loop belong to cancelled jobs.  Hence every turn of a message
    loop that follows succeeds, whatever the callbacks would have done, and
    over any number of such turns no callback runs and no output slot is
    written: the log and the slots stay as the destructor left them.  (A
    call of a method of the destroyed object is a use after free in the
    source; the statement is about the turns of the loops only.) *)
Theorem destroyed_resolver_is_inert w :
  reachable w → alive w = false →
  thread_ w = None ∧ pending_jobs_ w = [] ∧
  (∀ j rc, QueryCompleteTask j rc ∈ origin_loop w → cancelled (heap w) j = true) ∧
  (∀ steps, forallb loop_turn steps = true →
     ∃ w', run steps w = Some w' ∧
       alive w' = false ∧ events w' = events w ∧ slots w' = slots w ∧
       pending_jobs_ w' = [] ∧ thread_ w' = None ∧
       ∃ done, origin_loop w = done ++ origin_loop w').
Proof.
  intros Hr Ha. pose proof (reachable_wf _ Hr) as Hwf.
  assert (Hth : ∀ w, wf w → alive w = false → thread_ w = None).
  { intros w0 Hwf0 Ha0. pose proof (wf_thread _ (wf_base _ Hwf0)) as Hth.
    destruct (thread_ w0) as [loop|]; [destruct Hth; congruence|done]. }
  split_and!.
  - by apply Hth.
  - by apply (wf_dead _ (wf_base _ Hwf)).
  - intros j rc Hin.
    pose proof (wf_dead _ (wf_base _ Hwf) Ha) as Hq.
    pose proof (wf_activity _ (wf_base _ Hwf) j) as Hact. unfold job_activity in Hact.
    apply count_qc_pos in Hin.
    destruct (started (heap w) j) eqn:Hs; [|lia].
    destruct (wf_finished _ (wf_base _ Hwf) j) as [Hc|(cb & rc' & Hcb)].
    + by apply started_lt.
    + rewrite Hq. apply not_elem_of_nil.
    + by apply (wf_cancel _ (wf_base _ Hwf)).
    + apply count_cb_pos in Hcb. lia.
  - intros steps. revert w Hr Ha Hwf. unfold run.
    induction steps as [|s steps IH]; intros w Hr Ha Hwf Hall; simpl.
    { exists w. split_and!; try done.
      - by apply (wf_dead _ (wf_base _ Hwf)).
      - by apply Hth.
      - by exists []. }
    simpl in Hall. apply andb_prop in Hall as [Hs Hall].
    assert (Hstep : ∃ w1, step s w = Some w1 ∧
                          ∃ done, origin_loop w = done ++ origin_loop w1).
    { destruct s as [a| |body]; [done| |]; simpl.
      - unfold worker_step. rewrite (Hth _ Hwf Ha). exists w. split; [done|by exists []].
      - unfold origin_step.
        destruct (origin_loop w) as [|[j rc] rest] eqn:Ho.
        { exists w. split; [done|]. exists []. by rewrite Ho. }
        pose proof (dead_completion_cancelled _ _ _ _ Hwf Ha Ho) as Hc.
        rewrite QueryComplete_cancelled by done.
        apply cancelled_lookup in Hc as (job & Hj & _).
        unfold Job_Release. simpl. rewrite Hj. simpl. eexists. split; [done|].
        by exists [QueryCompleteTask j rc]. }
    destruct Hstep as (w1 & Hs1 & done1 & Hd1). rewrite Hs1. simpl.
    destruct (dead_step _ _ _ Hwf Ha Hs1) as (Ha1 & He1 & Hsl1 & _).
    assert (Hr1 : reachable w1).
    { eapply (reachable_run [s]); [done|]. unfold run. simpl. by rewrite Hs1. }
    destruct (IH w1 Hr1 Ha1 (reachable_wf _ Hr1) Hall)
      as (w' & Hrun & ? & ? & ? & ? & ? & done2 & Hd2).
    exists w'. split_and!; try congruence.
    exists (done1 ++ done2). by rewrite Hd1, Hd2, app_assoc.
Qed.

Lemma destroyed_resolver_is_inert_witness :
  origin_loop (after [submit "a" 10 100; SWorker; SUser ADestroy])
  = [QueryCompleteTask 0 0] ∧
  ∃ w', run [SOrigin [ACancel (Some 0)]; SWorker]
            (after [submit "a" 10 100; SWorker; SUser ADestroy]) = Some w' ∧
        events w'
        = [EvThreadStart; EvStart 0; EvCancel 0; EvThreadStop; EvResolverDestroyed].
Proof.
  assert (Hr : reachable (after [submit "a" 10 100; SWorker; SUser ADestroy])).
  { apply reachable_after. vm_compute. eauto. }
  assert (Ha : alive (after [submit "a" 10 100; SWorker; SUser ADestroy]) = false)
    by (vm_compute; reflexivity).
  destruct (destroyed_resolver_is_inert _ Hr Ha) as (_ & _ & _ & Hrun).
  split; [vm_compute; reflexivity|].
  destruct (Hrun [SOrigin [ACancel (Some 0)]; SWorker] eq_refl)
    as (w' & Hw' & _ & He & _).
  exists w'. split; [exact Hw'|]. rewrite He. vm_compute. reflexivity.
Defined.

(** ** Reference counting *)

Lemma count_in_app j q1 q2 : count_in j (q1 ++ q2) = count_in j q1 + count_in j q2.
Proof. induction q1 as [|k q1 IH]; simpl; [done|]. rewrite IH. lia. Qed.

Lemma count_in_pos j q : j ∈ q ↔ 0 < count_in j q.
Proof.
  induction q as [|k q IH]; simpl.
  - split; [by intros ?%elem_of_nil|lia].
  - rewrite elem_of_cons, IH. case_bool_decide as Hk; split.
    + lia.
    + intros _. by left.
    + intros [->|?]; [done|lia].
    + intros ?. right. lia.
Qed.

Lemma count_in_zero j q : j ∉ q → count_in j q = 0.
Proof. rewrite count_in_pos. lia. Qed.

Lemma count_in_sorted j q : StronglySorted lt q → count_in j q ≤ 1.
Proof.
  induction q as [|k q IH]; intros Hs; simpl; [lia|].
  specialize (IH (sorted_tail _ _ Hs)). case_bool_decide as Hk; [|lia].
  subst k. rewrite (count_in_zero j q); [lia|]. by eapply sorted_head_notin.
Qed.

Lemma count_in_erase j q q' k :
  erase_first j q = Some q' →
  count_in k q = count_in k q' + (if bool_decide (k = j) then 1 else 0).
Proof.
  revert q'. induction q as [|i q IH]; intros q'; simpl; [done|].
  destruct (decide (i = j)) as [->|Hi].
  - rewrite bool_decide_eq_true_2 by done. intros [= <-].
    rewrite (bool_decide_ext (j = k) (k = j)) by done. lia.
  - rewrite (bool_decide_eq_false_2 (i = j)) by done.
    destruct (erase_first j q) as [q''|]; [|done]. simpl. intros [= <-]. simpl.
    rewrite (IH q'' eq_refl). lia.
Qed.

Lemma count_dq_elem j l : 0 < count_dq j l → DoQueryTask j ∈ l.
Proof.
  induction l as [|t l IH]; simpl; [lia|]. destruct t as [k|u b].
  - case_bool_decide as Hk; [subst k; intros _; by left|].
    intros H. right. apply IH. lia.
  - intros H. right. by apply IH.
Qed.

Lemma count_qc_elem j l : 0 < count_qc j l → ∃ rc, QueryCompleteTask j rc ∈ l.
Proof.
  induction l as [|[k rc] l IH]; simpl; [lia|].
  case_bool_decide as Hk; [subst k; intros _; exists rc; by left|].
  intros H. destruct IH as [rc' Hin]; [lia|]. exists rc'. by right.
Qed.

Lemma ref_count_insert h j job k :
  ref_count (<[j := job]> h) k =
  if bool_decide (k = j ∧ j < length h) then ref_count_ job else ref_count h k.
Proof.
  unfold ref_count. case_bool_decide as Hd.
  - destruct Hd as [-> Hlt]. by rewrite list_lookup_insert_eq.
  - destruct (decide (k = j)) as [->|Hne].
    + rewrite list_insert_ge; [done|]. apply Nat.nlt_ge. intros ?. by apply Hd.
    + by rewrite list_lookup_insert_ne.
Qed.

Lemma ref_count_insert_same (h : list Job) (j : nat) job job' k :
  h !! j = Some job → ref_count_ job' = ref_count_ job →
  ref_count (<[j := job']> h) k = ref_count h k.
Proof.
  intros Hj Heq. rewrite ref_count_insert. case_bool_decide as Hd; [|done].
  destruct Hd as [-> _]. unfold ref_count. by rewrite Hj.
Qed.

Lemma ref_count_ge (h : list Job) k : length h ≤ k → ref_count h k = 0.
Proof. intros Hk. unfold ref_count. by rewrite lookup_ge_None_2. Qed.

Lemma ref_count_app (h : list Job) job k :
  ref_count (h ++ [job]) k =
  if bool_decide (k = length h) then ref_count_ job else ref_count h k.
Proof.
  unfold ref_count. case_bool_decide as Hd.
  - subst k. by rewrite list_lookup_middle.
  - destruct (decide (k < length h)) as [Hlt|Hge].
    + by rewrite lookup_app_l.
    + rewrite !lookup_ge_None_2; [done|lia|]. rewrite length_app. simpl. lia.
Qed.

(** A step that changes neither the queue, nor the loops, nor a count or a
    started flag keeps the balance. *)
Lemma balanced_ext cur w w' :
  pending_jobs_ w' = pending_jobs_ w → worker_tasks w' = worker_tasks w →
  origin_loop w' = origin_loop w →
  (∀ k, ref_count (heap w') k = ref_count (heap w) k) →
  (∀ k, started (heap w') k = started (heap w) k) →
  balanced cur w → balanced cur w'.
Proof.
  intros Hq Ht Ho Hrc Hs [H1 H2 H3 H4]. constructor; unfold references in *.
  - intros j. rewrite Hrc, Hq, Ht, Ho. apply H1.
  - intros j. rewrite Hq, Ht, Ho, Hs. apply H2.
  - intros j. rewrite Hs. apply H3.
  - intros j. rewrite Ht, Ho, Hs. apply H4.
Qed.

Lemma balanced_init r : balanced None (init r).
Proof. by constructor. Qed.

Lemma balanced_Job_Cancel cur j w w' :
  balanced cur w → Job_Cancel j w = Some w' → balanced cur w'.
Proof.
  intros Hb Hc.
  pose proof (Job_Cancel_fields _ _ _ Hc) as (_ & Ht & Hq & Ho & _ & _ & _ & _ & _ & Hs & _).
  apply Job_Cancel_inv in Hc as (job & Hj & ->).
  eapply balanced_ext; [done| |done| |done|done].
  - unfold worker_tasks. by rewrite Ht.
  - intros k. simpl. by eapply ref_count_insert_same.
Qed.

Lemma balanced_cancel_all cur q w w' :
  balanced cur w → run_all Job_Cancel q w = Some w' → balanced cur w'.
Proof.
  revert w. induction q as [|j q IH]; intros w Hb; simpl; [by intros [= <-]|].
  destruct (Job_Cancel j w) as [w1|] eqn:Hc; [|done]. simpl.
  eauto using balanced_Job_Cancel.
Qed.

(** Taking a job out of the queue and dropping the queue's reference. *)
Lemma balanced_dequeue cur j q w w' :
  balanced cur w →
  (∀ k, count_in k (pending_jobs_ w)
        = count_in k q + (if bool_decide (k = j) then 1 else 0)) →
  Job_Release j (set_pending q w) = Some w' → balanced cur w'.
Proof.
  intros [H1 H2 H3 H4] Hcount Hrel.
  pose proof (Job_Release_fields _ _ _ Hrel) as (_ & Ht & Hq & Ho & _ & _ & _ & _ & _ & Hs & _).
  apply Job_Release_inv in Hrel as (job & Hj & ->). simpl in *.
  assert (Hin : ∀ k, k ∈ q → k ∈ pending_jobs_ w).
  { intros k. rewrite !count_in_pos, (Hcount k). lia. }
  constructor; unfold references, worker_tasks in *; simpl.
  - intros k. rewrite ref_count_insert. specialize (H1 k). specialize (Hcount k).
    pose proof (lookup_lt_Some _ _ _ Hj) as Hlt.
    destruct (decide (k = j)) as [->|Hne].
    + rewrite bool_decide_eq_true_2 in Hcount by done.
      rewrite bool_decide_eq_true_2 by done.
      unfold ref_count in H1. rewrite Hj in H1. simpl. lia.
    + rewrite bool_decide_eq_false_2 in Hcount by done.
      rewrite bool_decide_eq_false_2 by (by intros [? _]). lia.
  - intros k Hk. rewrite Hs. simpl. apply H2. by apply Hin.
  - intros k. rewrite Hs. apply H3.
  - intros k. rewrite Hs. apply H4.
Qed.

Lemma balanced_EnsureThreadStarted cur w :
  balanced cur w → balanced cur (EnsureThreadStarted w).
Proof.
  pose proof (EnsureThreadStarted_fields w) as (_ & _ & Hq & Hh & Ho & _ & _ & _ & Ht).
  intros Hb. eapply balanced_ext; [done|done|done| | |done]; intros k; by rewrite Hh.
Qed.

Lemma balanced_Job_Start cur j w w' :
  balanced cur w → started (heap w) j = false → Job_Start j w = Some w' →
  balanced cur w'.
Proof.
  intros [H1 H2 H3 H4] Hns (job & loop & Hj & _ & _ & Ht & ->)%Job_Start_inv.
  pose proof (lookup_lt_Some _ _ _ Hj) as Hlt.
  assert (Hcur : held cur j = 0).
  { unfold held. case_bool_decide as Hc; [|done]. apply H3 in Hc. congruence. }
  pose proof (H4 j Hns) as Hidle.
  constructor; unfold references, worker_tasks in *; rewrite Ht in *; simpl in *.
  - intros k. rewrite ref_count_insert, count_dq_app. simpl. specialize (H1 k).
    case_bool_decide as Hd.
    + destruct Hd as [-> _]. rewrite bool_decide_eq_true_2 by done.
      unfold ref_count in H1. rewrite Hj in H1. simpl. lia.
    + rewrite bool_decide_eq_false_2; [lia|]. intros ->. by apply Hd.
  - intros k Hk. rewrite started_insert, count_dq_app. simpl.
    case_bool_decide as Hd.
    + destruct Hd as [-> _]. rewrite bool_decide_eq_true_2 by done. lia.
    + intros Hs. rewrite bool_decide_eq_false_2; [|intros ->; by apply Hd].
      specialize (H2 k Hk Hs). lia.
  - intros k Hk. rewrite started_insert. case_bool_decide; [done|by apply H3].
  - intros k. rewrite started_insert, count_dq_app. simpl.
    case_bool_decide as Hd; [done|]. intros Hs.
    rewrite bool_decide_eq_false_2; [|intros ->; by apply Hd].
    specialize (H4 k Hs). lia.
Qed.

Lemma balanced_ProcessPendingJobs cur w w' :
  balanced cur w → ProcessPendingJobs w = Some w' → balanced cur w'.
Proof.
  intros Hb. unfold ProcessPendingJobs.
  destruct (pending_jobs_ w) as [|j q]; [by intros [= <-]|].
  destruct (heap w !! j) as [job|] eqn:Hj; [|done]. simpl.
  destruct (is_started job) eqn:Hs; [by intros [= <-]|].
  apply balanced_Job_Start; [by apply balanced_EnsureThreadStarted|].
  pose proof (EnsureThreadStarted_fields w) as (_ & _ & _ & -> & _).
  unfold started. by rewrite Hj.
Qed.

Lemma balanced_RemoveFront cur j w w' :
  balanced cur w → RemoveFrontOfJobsQueueAndStartNext j w = Some w' →
  balanced cur w'.
Proof.
  intros Hb. unfold RemoveFrontOfJobsQueueAndStartNext.
  destruct (pending_jobs_ w) as [|j0 rest] eqn:Hq; [done|].
  case_bool_decide as Hd; [|done]. subst j0. simpl.
  destruct (Job_Release j (set_pending rest w)) as [w1|] eqn:Hrel; [|done]. simpl.
  apply balanced_ProcessPendingJobs.
  eapply balanced_dequeue; [done| |done].
  intros k. rewrite Hq. simpl. rewrite (bool_decide_ext (j = k) (k = j)) by done. lia.
Qed.

Lemma balanced_enqueued cur url results callback w :
  balanced cur w → balanced cur (enqueued url results callback w).
Proof.
  intros [H1 H2 H3 H4].
  pose proof (H1 (length (heap w))) as H0.
  rewrite ref_count_ge in H0 by done. unfold references in H0.
  constructor; unfold references, enqueued, worker_tasks in *; simpl.
  - intros k. rewrite ref_count_app, count_in_app. simpl. specialize (H1 k).
    rewrite (bool_decide_ext (length (heap w) = k) (k = length (heap w))) by done.
    case_bool_decide as Hd; [subst k|]; lia.
  - intros k Hk. rewrite started_app. case_bool_decide as Hd; [done|].
    apply elem_of_app in Hk as [Hk|Hk]; [by apply H2|].
    by apply list_elem_of_singleton in Hk.
  - intros k Hk. rewrite started_app. specialize (H3 k Hk).
    case_bool_decide as Hd; [|done]. subst k.
    by rewrite started_ge in H3.
  - intros k. rewrite started_app. case_bool_decide as Hd; [subst k; lia|].
    apply H4.
Qed.

Lemma balanced_GetProxyForURL cur url results callback request w rv h w' :
  balanced cur w →
  GetProxyForURL url results callback request w = Some (rv, h, w') →
  balanced cur w'.
Proof.
  intros Hb (_ & _ & _ & _ & Hp)%GetProxyForURL_inv.
  eapply balanced_ProcessPendingJobs; [|done]. by apply balanced_enqueued.
Qed.

Lemma balanced_CancelRequest cur req w w' :
  balanced cur w → CancelRequest req w = Some w' → balanced cur w'.
Proof.
  intros Hb. unfold CancelRequest.
  destruct (valid _); [|done]. simpl. destruct req as [j|]; [|done]. simpl.
  destruct (heap w !! j) as [job|]; [|done]. simpl.
  destruct (Job_Cancel j w) as [w1|] eqn:Hc; [|done]. simpl.
  pose proof (balanced_Job_Cancel _ _ _ _ Hb Hc) as Hb1.
  destruct (is_active_job job j w); [by apply balanced_RemoveFront|].
  destruct (erase_first j (pending_jobs_ w1)) as [q|] eqn:He; [|done]. simpl.
  apply balanced_dequeue; [done|]. intros k. by apply count_in_erase.
Qed.

Lemma balanced_SetPacScriptHelper cur pac_url bytes w w' :
  balanced cur w → SetPacScriptHelper pac_url bytes w = Some w' → balanced cur w'.
Proof.
  intros Hb. unfold SetPacScriptHelper. destruct (valid _); [|done]. simpl.
  pose proof (balanced_EnsureThreadStarted _ _ Hb) as [H1 H2 H3 H4].
  destruct (thread_ (EnsureThreadStarted w)) as [loop|] eqn:Ht; [|done]. simpl.
  intros [= <-].
  constructor; unfold references, worker_tasks in *; rewrite Ht in *; simpl in *.
  - intros k. rewrite count_dq_app. simpl. rewrite Nat.add_0_r. apply H1.
  - intros k. rewrite count_dq_app. simpl. rewrite Nat.add_0_r. apply H2.
  - done.
  - intros k. rewrite count_dq_app. simpl. rewrite Nat.add_0_r. apply H4.
Qed.

Lemma balanced_worker_step cur w w' :
  balanced cur w → worker_step w = Some w' → balanced cur w'.
Proof.
  intros [H1 H2 H3 H4]. unfold worker_step.
  destruct (thread_ w) as [[|t rest]|] eqn:Ht; try (by intros [= <-]).
  destruct t as [j|u b]; simpl.
  - unfold Job_DoQuery. simpl.
    destruct (heap w !! j) as [job|] eqn:Hj; [|done]. simpl.
    destruct (resolver_ w) as [r|]; [|done]. simpl.
    destruct (engine r _ _ _) as [rv buf]. destruct (DCHECK _); [|done].
    simpl. intros [= <-].
    set (job' := mkJob _ _ _ _ _ _ _).
    assert (Hst : ∀ k, started (<[j := job']> (heap w)) k = started (heap w) k)
      by (intros k; by eapply started_insert_same).
    assert (Hrc : ∀ k, ref_count (<[j := job']> (heap w)) k = ref_count (heap w) k)
      by (intros k; by eapply ref_count_insert_same).
    constructor; unfold references, worker_tasks in *; rewrite Ht in *; simpl in *.
    + intros k. rewrite Hrc, count_qc_app. simpl. specialize (H1 k). lia.
    + intros k Hk. rewrite Hst, count_qc_app. simpl. intros Hs.
      specialize (H2 k Hk Hs). lia.
    + intros k. rewrite Hst. apply H3.
    + intros k. rewrite Hst, count_qc_app. simpl. intros Hs.
      specialize (H4 k Hs). lia.
  - unfold SetPacScriptTask_Run. simpl.
    destruct (resolver_ w) as [r|]; [|done]. simpl. intros [= <-].
    constructor; unfold references, worker_tasks in *; rewrite Ht in *; simpl in *;
      done.
Qed.

Lemma balanced_drain cur n w w' :
  balanced cur w → drain n w = Some w' → balanced cur w'.
Proof.
  revert w. induction n as [|n IH]; intros w Hb; simpl; [by intros [= <-]|].
  destruct (worker_step w) as [w1|] eqn:Hs; [|done]. simpl.
  eauto using balanced_worker_step.
Qed.

Lemma ref_count_release_all q w w' :
  run_all Job_Release q w = Some w' →
  ∀ k, ref_count (heap w') k = ref_count (heap w) k - count_in k q.
Proof.
  revert w. induction q as [|j q IH]; intros w; simpl.
  { intros [= <-] k. lia. }
  destruct (Job_Release j w) as [w1|] eqn:Hrel; [|done]. simpl. intros Hrest k.
  rewrite (IH _ Hrest k).
  apply Job_Release_inv in Hrel as (job & Hj & ->). simpl.
  rewrite ref_count_insert. case_bool_decide as Hd.
  - destruct Hd as [-> _]. rewrite bool_decide_eq_true_2 by done.
    unfold ref_count. rewrite Hj. simpl. lia.
  - rewrite bool_decide_eq_false_2; [lia|]. intros ->. apply Hd.
    split; [done|]. by eapply lookup_lt_Some.
Qed.

Lemma balanced_Destroy cur w w' :
  balanced cur w → Destroy w = Some w' → balanced cur w'.
Proof.
  intros Hb (_ & w1 & w2 & w3 & Hc & Hr & Hd & ->)%Destroy_inv.
  pose proof (balanced_cancel_all _ _ _ _ Hb Hc) as [H1 H2 H3 H4].
  pose proof (ref_count_release_all _ _ _ Hr) as Hrc.
  apply release_all_fields in Hr
    as (_ & Ht2 & Hq2 & Ho2 & _ & _ & _ & _ & _ & Hs2 & _).
  assert (Hb2 : balanced cur (set_pending [] w2)).
  { constructor; unfold references, worker_tasks in *; simpl.
    - intros k. rewrite Hrc, Ht2, Ho2. specialize (H1 k). lia.
    - intros k Hk. by apply elem_of_nil in Hk.
    - intros k. rewrite Hs2. apply H3.
    - intros k. rewrite Hs2, Ht2, Ho2. apply H4. }
  pose proof (balanced_drain _ _ _ _ Hb2 Hd) as Hb3.
  apply drain_fields in Hd as (_ & Hq3 & _ & _ & _ & _ & _ & _ & _ & Hlen & _).
  assert (Hwt : worker_tasks w3 = []).
  { apply length_zero_iff_nil. rewrite Hlen. simpl.
    unfold worker_tasks. simpl. lia. }
  unfold torn_down.
  eapply balanced_ext; [..|exact Hb3]; try done;
    destruct (thread_ w3) as [l3|] eqn:Ht3; simpl; done.
Qed.

Lemma balanced_run_action cur a w w' :
  balanced cur w → run_action a w = Some w' → balanced cur w'.
Proof.
  intros Hb. destruct a as [url results callback request|req|u|b|]; simpl.
  - destruct (GetProxyForURL _ _ _ _ _) as [[[rv h] w1]|] eqn:Hg; [|done].
    simpl. intros [= <-]. by eapply balanced_GetProxyForURL.
  - by apply balanced_CancelRequest.
  - by apply balanced_SetPacScriptHelper.
  - by apply balanced_SetPacScriptHelper.
  - by apply balanced_Destroy.
Qed.

Lemma balanced_run_actions cur body w w' :
  balanced cur w → run_all run_action body w = Some w' → balanced cur w'.
Proof.
  revert w. induction body as [|a body IH]; intros w Hb; simpl; [by intros [= <-]|].
  destruct (run_action a w) as [w1|] eqn:Ha; [|done]. simpl.
  eauto using balanced_run_action.
Qed.

(** The last statement of [QueryComplete]. *)
Lemma balanced_finish j w w' :
  balanced (Some j) w → j ∉ pending_jobs_ w → Job_Release j w = Some w' →
  balanced None w'.
Proof.
  intros [H1 H2 H3 H4] Hout Hrel.
  pose proof (Job_Release_fields _ _ _ Hrel) as (_ & Ht & Hq & Ho & _ & _ & _ & _ & _ & Hs & _).
  apply Job_Release_inv in Hrel as (job & Hj & ->). simpl in *.
  pose proof (lookup_lt_Some _ _ _ Hj) as Hlt.
  constructor; unfold references, worker_tasks, held in *; simpl in *.
  - intros k. rewrite ref_count_insert. specialize (H1 k).
    destruct (decide (k = j)) as [->|Hne].
    + rewrite bool_decide_eq_true_2 by done.
      rewrite bool_decide_eq_true_2 in H1 by done.
      unfold ref_count in H1. rewrite Hj in H1. simpl. lia.
    + rewrite bool_decide_eq_false_2 by (by intros [? _]).
      rewrite bool_decide_eq_false_2 in H1 by congruence. done.
  - intros k Hk. rewrite Hs. intros Hst. specialize (H2 k Hk Hst).
    rewrite bool_decide_eq_false_2 in H2 by congruence. done.
  - done.
  - intros k. rewrite Hs. apply H4.
Qed.

Lemma RemoveFront_queue j w w' :
  RemoveFrontOfJobsQueueAndStartNext j w = Some w' →
  pending_jobs_ w = j :: pending_jobs_ w'.
Proof.
  unfold RemoveFrontOfJobsQueueAndStartNext.
  destruct (pending_jobs_ w) as [|j0 rest]; [done|].
  case_bool_decide as Hd; [|done]. subst j0. simpl.
  destruct (Job_Release j (set_pending rest w)) as [w1|] eqn:Hrel; [|done]. simpl.
  apply Job_Release_fields in Hrel as (_ & _ & Hq & _).
  intros [Hq' _]%ProcessPendingJobs_queue. by rewrite Hq', Hq.
Qed.

Lemma balanced_origin_step body w w' :
  wf w → balanced None w → origin_step body w = Some w' → balanced None w'.
Proof.
  intros Hwf Hb. unfold origin_step.
  destruct (origin_loop w) as [|[j rc] rest] eqn:Ho; [by intros [= <-]|].
  assert (Hb0 : balanced (Some j) (set_origin rest w)).
  { destruct Hb as [H1 H2 H3 H4].
    assert (Hst : started (heap w) j = true).
    { destruct (started (heap w) j) eqn:Hs; [done|]. specialize (H4 j Hs).
      rewrite Ho in H4. simpl in H4. rewrite bool_decide_eq_true_2 in H4 by done.
      lia. }
    constructor; unfold references, worker_tasks, held in *; rewrite Ho in *;
      simpl in *.
    - intros k. specialize (H1 k).
      rewrite (bool_decide_ext (Some j = Some k) (j = k)) by (split; congruence).
      destruct (bool_decide (j = k)); lia.
    - intros k Hk Hs. specialize (H2 k Hk Hs).
      rewrite (bool_decide_ext (Some j = Some k) (j = k)) by (split; congruence).
      destruct (bool_decide (j = k)); lia.
    - by intros k [= <-].
    - intros k Hs. specialize (H4 k Hs). lia. }
  intros (job & Hj & [[Hc Hrel]|(Hc & wd & w2 & job2 & Hd & Hbody & Hj2 & Hpost)])
    %Job_QueryComplete_inv.
  - eapply balanced_finish; [done| |done]. simpl. intros Hin.
    apply (wf_queued _ Hwf) in Hin. unfold cancelled in Hin. simpl in Hj.
    rewrite Hj in Hin. congruence.
  - pose proof (wf_delivered _ _ _ _ _ _ Hwf Ho Hd) as Hwd.
    pose proof (wf_run_actions _ _ _ Hwd Hbody) as Hw2.
    assert (Hbd : balanced (Some j) wd).
    { apply delivered_fields in Hd
        as (cb & _ & _ & _ & Ht & Hq & Hh & Hol & _).
      eapply balanced_ext; [done| |done| | |exact Hb0];
        [unfold worker_tasks; by rewrite Ht|intros k; by rewrite Hh..]. }
    pose proof (balanced_run_actions _ _ _ _ Hbd Hbody) as Hb2.
    destruct Hpost as [[Hc2 Hrel]|(Hc2 & _ & w3 & Hrm & Hrel)].
    + eapply balanced_finish; [done| |done]. intros Hin.
      apply (wf_queued _ Hw2) in Hin. unfold cancelled in Hin.
      rewrite Hj2 in Hin. congruence.
    + eapply balanced_finish; [by eapply balanced_RemoveFront| |done].
      pose proof (RemoveFront_queue _ _ _ Hrm) as Hq.
      pose proof (wf_sorted _ (wf_base _ Hw2)) as Hs. rewrite Hq in Hs.
      by eapply sorted_head_notin.
Qed.

Lemma balanced_step s w w' :
  wf w → balanced None w → step s w = Some w' → balanced None w'.
Proof.
  intros Hwf Hb. destruct s as [a| |body]; simpl.
  - by apply balanced_run_action.
  - by apply balanced_worker_step.
  - by apply balanced_origin_step.
Qed.

Lemma balanced_run steps w w' :
  wf w → balanced None w → run steps w = Some w' → balanced None w'.
Proof.
  revert w. unfold run. induction steps as [|s steps IH]; intros w Hwf Hb; simpl.
  { by intros [= <-]. }
  destruct (step s w) as [w1|] eqn:Hs; [|done]. simpl.
  apply IH; eauto using wf_step, balanced_step.
Qed.

Lemma reachable_balanced w : reachable w → balanced None w.
Proof.
  intros (r & steps & Hrun).
  eapply balanced_run; [apply wf_init|apply balanced_init|done].
Qed.

(** X5: reference counting is balanced.  Between two steps of an execution
    the references that the code of this file holds on a job ([ref_count_])
    are one while the job is in the queue, and the one taken by [Start] for
    as long as the job's [DoQuery] task or its [QueryComplete] task waits to
    run, which [QueryComplete] releases.  A job has at most one such task,
    and a queued job that was started has exactly one.  With the reference
    that the waiting task itself holds, the counter of the object is the
    one of the queue plus two for the task, three at most; it is zero, which
    is when the job is deleted, exactly when the job is neither queued nor
    awaited by a task, and then this file holds no reference either. *)
Theorem reference_count_balanced w j :
  reachable w →
  ref_count (heap w) j =
    (if bool_decide (j ∈ pending_jobs_ w) then 1 else 0) + task_references j w ∧
  task_references j w ≤ 1 ∧
  use_count j w =
    (if bool_decide (j ∈ pending_jobs_ w) then 1 else 0) + 2 * task_references j w ∧
  use_count j w ≤ 3 ∧
  (j ∈ pending_jobs_ w → started (heap w) j = true →
   task_references j w = 1 ∧ use_count j w = 3) ∧
  (j ∈ pending_jobs_ w → started (heap w) j = false → use_count j w = 1) ∧
  (use_count j w = 0 ↔
   (j ∉ pending_jobs_ w) ∧ (DoQueryTask j ∉ worker_tasks w) ∧
   ∀ rc, QueryCompleteTask j rc ∉ origin_loop w) ∧
  (use_count j w = 0 ↔ ref_count (heap w) j = 0).
Proof.
  intros Hr. pose proof (reachable_wf _ Hr) as [Hw _ _].
  pose proof (reachable_balanced _ Hr) as [H1 H2 _ H4].
  specialize (H1 j). unfold references, held in H1. simpl in H1.
  pose proof (count_in_sorted j _ (wf_sorted _ Hw)) as Hle.
  pose proof (count_in_pos j (pending_jobs_ w)) as Hpos.
  pose proof (wf_activity _ Hw j) as Hact. unfold job_activity in Hact.
  assert (Hin : count_in j (pending_jobs_ w)
                = if bool_decide (j ∈ pending_jobs_ w) then 1 else 0).
  { case_bool_decide as Hd; [apply Hpos in Hd; lia|].
    destruct (count_in j (pending_jobs_ w)) eqn:E; [done|].
    exfalso. apply Hd, Hpos. lia. }
  assert (Hle1 : task_references j w ≤ 1).
  { unfold task_references. destruct (started (heap w) j); lia. }
  assert (Hown : ref_count (heap w) j =
                 (if bool_decide (j ∈ pending_jobs_ w) then 1 else 0)
                 + task_references j w).
  { unfold task_references. lia. }
  assert (Hzero : ref_count (heap w) j = 0 ↔
                  (j ∉ pending_jobs_ w) ∧ (DoQueryTask j ∉ worker_tasks w) ∧
                  ∀ rc, QueryCompleteTask j rc ∉ origin_loop w).
  { rewrite H1, Hin. split.
    + intros H0. case_bool_decide as Hd; [lia|]. split_and!; [done| |].
      * intros Hdq%count_dq_pos. lia.
      * intros rc Hqc%count_qc_pos. lia.
    + intros (Hq & Hdq & Hqc). rewrite bool_decide_eq_false_2 by done.
      destruct (count_dq j (worker_tasks w)) eqn:E1.
      2:{ exfalso. apply Hdq, count_dq_elem. lia. }
      destruct (count_qc j (origin_loop w)) eqn:E2; [done|].
      exfalso. destruct (count_qc_elem j (origin_loop w)) as [rc Hrc]; [lia|].
      by apply (Hqc rc). }
  assert (Hboth : use_count j w = 0 ↔ ref_count (heap w) j = 0).
  { unfold use_count. rewrite Hown. lia. }
  split_and!.
  - done.
  - done.
  - unfold use_count. lia.
  - unfold use_count. case_bool_decide; lia.
  - intros Hq Hs. specialize (H2 j Hq Hs). unfold held in H2. simpl in H2.
    unfold use_count. rewrite Hown, bool_decide_eq_true_2 by done.
    unfold task_references. lia.
  - intros Hq Hs. specialize (H4 j Hs).
    unfold use_count. rewrite Hown, bool_decide_eq_true_2 by done.
    unfold task_references. lia.
  - by rewrite Hboth.
  - done.
Qed.

Lemma reference_count_balanced_witness :
  use_count 0 (after [submit "a" 10 100; submit "b" 11 101; SWorker]) = 3 ∧
  ref_count (heap (after [submit "a" 10 100; submit "b" 11 101; SWorker])) 0 = 2 ∧
  use_count 1 (after [submit "a" 10 100; submit "b" 11 101; SWorker]) = 1 ∧
  use_count 0 (after [submit "a" 10 100; submit "b" 11 101; SWorker;
                      SOrigin []]) = 0.
Proof.
  assert (Hr : reachable (after [submit "a" 10 100; submit "b" 11 101; SWorker])).
  { apply reachable_after. vm_compute. eauto. }
  assert (Hr' : reachable (after [submit "a" 10 100; submit "b" 11 101; SWorker;
                                  SOrigin []])).
  { apply reachable_after. vm_compute. eauto. }
  destruct (reference_count_balanced _ 0 Hr) as (Ha1 & _ & Ha2 & _).
  destruct (reference_count_balanced _ 1 Hr) as (_ & _ & Hb2 & _).
  destruct (reference_count_balanced _ 0 Hr') as (_ & _ & Hc2 & _).
  split_and!.
  - rewrite Ha2. vm_compute. reflexivity.
  - rewrite Ha1. vm_compute. reflexivity.
  - rewrite Hb2. vm_compute. reflexivity.
  - rewrite Hc2. vm_compute. reflexivity.
Defined.

(** ** The life of a request handle *)

Lemma erase_first_elem j q q' : erase_first j q = Some q' → j ∈ q.
Proof.
  revert q'. induction q as [|k q IH]; intros q'; simpl; [done|].
  case_bool_decide as Hk; [subst k; intros _; by left|].
  destruct (erase_first j q) as [q''|]; [|done]. intros _. right. by eapply IH.
Qed.

Lemma CancelRequest_total w j :
  wf w → j ∈ pending_jobs_ w → is_Some (CancelRequest (Some j) w).
Proof.
  intros Hwf Hin. pose proof Hwf as [Hw Hh Hnc].
  assert (Ha : alive w = true).
  { apply wf0_alive; [done|]. intros Hq. rewrite Hq in Hin. by apply elem_of_nil in Hin. }
  destruct (lookup_lt_is_Some_2 (heap w) j) as [job Hj]; [by apply (wf_range _ Hw)|].
  destruct (Job_Cancel j w) as [w1|] eqn:Hcan;
    [|unfold Job_Cancel in Hcan; by rewrite Hj in Hcan].
  pose proof (wf0_Job_Cancel _ _ _ Hw Hcan) as Hw1.
  pose proof (Job_Cancel_fields _ _ _ Hcan)
    as (_ & _ & Hq1 & _ & _ & _ & He1 & _ & Hn1 & _ & Hc1 & _).
  unfold CancelRequest. rewrite Ha. simpl. rewrite Hj. simpl. rewrite Hcan. simpl.
  destruct (is_active_job job j w) eqn:Hact.
  - unfold is_active_job in Hact.
    destruct (pending_jobs_ w) as [|j0 rest] eqn:Hq; [by apply elem_of_nil in Hin|].
    simpl in Hact. apply andb_prop in Hact as [_ Hact].
    apply bool_decide_eq_true_1 in Hact. injection Hact as ->.
    assert (Hs : StronglySorted lt (j :: rest)) by (rewrite <-Hq; apply Hw).
    destruct (RemoveFront_spec j rest w1) as (w' & Hrm & _); [done|by rewrite Hq1| | |].
    + intros k Hk. rewrite Hc1, bool_decide_eq_false_2.
      * apply Hnc. by right.
      * intros ->. by eapply sorted_head_notin.
    + left. rewrite He1. apply elem_of_app. right. by apply list_elem_of_singleton.
    + rewrite Hrm. by eexists.
  - destruct (erase_first_total j (pending_jobs_ w1)) as [q Her]; [by rewrite Hq1|].
    rewrite Her. simpl.
    destruct (lookup_lt_is_Some_2 (heap w1) j) as [job1 Hj1];
      [rewrite Hn1; by eapply lookup_lt_Some|].
    unfold Job_Release. simpl. rewrite Hj1. by eexists.
Qed.

Lemma queued_no_callback cur w j :
  wf w → balanced cur w → j ∈ pending_jobs_ w →
  count_cb j (events w) = 0 ∨ cur = Some j.
Proof.
  intros [Hw _ _] [_ H2 _ _] Hin.
  pose proof (wf_activity _ Hw j) as Hact. unfold job_activity in Hact.
  destruct (started (heap w) j) eqn:Hs; [|left; lia].
  specialize (H2 j Hin Hs). unfold held in H2.
  case_bool_decide; [by right|left; lia].
Qed.

Lemma queued_iff w j :
  wf w → balanced None w →
  j ∈ pending_jobs_ w ↔
  j < length (heap w) ∧ cancelled (heap w) j = false ∧ count_cb j (events w) = 0.
Proof.
  intros Hwf Hb. split.
  - intros Hin. split_and!.
    + by apply (wf_range _ (wf_base _ Hwf)).
    + by apply (wf_queued _ Hwf).
    + by destruct (queued_no_callback _ _ _ Hwf Hb Hin).
  - intros (Hlt & Hc & Hcb).
    destruct (decide (j ∈ pending_jobs_ w)) as [|Hout]; [done|]. exfalso.
    destruct (wf_finished _ (wf_base _ Hwf) j Hlt Hout) as [Hcan|(cb & rc & Hcal)].
    + apply (wf_cancel _ (wf_base _ Hwf)) in Hcan. congruence.
    + apply count_cb_pos in Hcal. lia.
Qed.

(** The world in which the code of the callback of job [c] runs, after it
    has asked [body] of the resolver. *)
Lemma callback_world w c rc rest job wd body w2 :
  wf w → balanced None w → origin_loop w = QueryCompleteTask c rc :: rest →
  heap w !! c = Some job → was_cancelled job = false →
  delivered c job rc (set_origin rest w) = Some wd →
  run_all run_action body wd = Some w2 →
  wf w2 ∧ balanced (Some c) w2 ∧ kept_head c w2 ∧ 0 < count_cb c (events w2).
Proof.
  intros Hwf Hb Ho Hj Hc Hd Hbody.
  pose proof (wf_delivered _ _ _ _ _ _ Hwf Ho Hd) as Hwd.
  assert (Hb0 : balanced (Some c) (set_origin rest w)).
  { destruct Hb as [H1 H2 H3 H4].
    assert (Hst : started (heap w) c = true).
    { destruct (started (heap w) c) eqn:Hs; [done|]. specialize (H4 c Hs).
      rewrite Ho in H4. simpl in H4. rewrite bool_decide_eq_true_2 in H4 by done.
      lia. }
    constructor; unfold references, worker_tasks, held in *; rewrite Ho in *;
      simpl in *.
    - intros k. specialize (H1 k).
      rewrite (bool_decide_ext (Some c = Some k) (c = k)) by (split; congruence).
      destruct (bool_decide (c = k)); lia.
    - intros k Hk Hs. specialize (H2 k Hk Hs).
      rewrite (bool_decide_ext (Some c = Some k) (c = k)) by (split; congruence).
      destruct (bool_decide (c = k)); lia.
    - by intros k [= <-].
    - intros k Hs. specialize (H4 k Hs). lia. }
  assert (Hcn : cancelled (heap w) c = false).
  { unfold cancelled. by rewrite Hj. }
  destruct (origin_step_head _ _ _ _ Hwf Ho Hcn) as (Hhd & _ & Ha).
  pose proof (delivered_fields _ _ _ _ _ Hd)
    as (cb & _ & Had & _ & Ht & Hq & Hh & Hol & _ & Hev).
  assert (Hbd : balanced (Some c) wd).
  { eapply balanced_ext; [done| |done| | |exact Hb0];
      [unfold worker_tasks; by rewrite Ht|intros k; by rewrite Hh..]. }
  assert (Hkd : kept_head c wd).
  { right. by rewrite Had, Hq. }
  assert (Hcd : 0 < count_cb c (events wd)).
  { destruct Hev as [(_ & slot & _ & _ & ->)|(_ & _ & ->)];
      rewrite count_cb_app; simpl; rewrite bool_decide_eq_true_2 by done; lia. }
  split_and!.
  - by eapply wf_run_actions.
  - by eapply balanced_run_actions.
  - by eapply kept_head_run_actions.
  - destruct (fq_events _ _ (fq_run_actions _ _ _ Hbody)) as (evs & -> & _).
    rewrite count_cb_app. lia.
Qed.

(** X6: the life of a request handle.  Between two tasks, a job is in the
    queue exactly from its submission until it is cancelled or its callback
    has run; as long as it is there [CancelRequest] of its handle succeeds,
    leaves the job cancelled and out of the queue; and a job that has left
    the queue never returns to it.  While the callback of a job runs the
    same holds, except that this job, whose callback is logged already, is
    still in the queue and can still be cancelled.  (Cancelling a handle
    whose job has left the queue is a misuse that the statement says nothing
    about: the source looks into an object that may have been deleted.) *)
Theorem handle_valid_until_finished w j :
  reachable w →
  (j ∈ pending_jobs_ w ↔
   j < length (heap w) ∧ cancelled (heap w) j = false ∧
   count_cb j (events w) = 0) ∧
  (j ∈ pending_jobs_ w →
   ∃ w', CancelRequest (Some j) w = Some w' ∧
         (j ∉ pending_jobs_ w') ∧ cancelled (heap w') j = true ∧
         count_cb j (events w') = 0) ∧
  (∀ steps w', run steps w = Some w' → j < length (heap w) →
     j ∉ pending_jobs_ w → j ∉ pending_jobs_ w') ∧
  (∀ c rc rest job wd body w2,
     origin_loop w = QueryCompleteTask c rc :: rest →
     heap w !! c = Some job → was_cancelled job = false →
     delivered c job rc (set_origin rest w) = Some wd →
     run_all run_action body wd = Some w2 →
     (j ∈ pending_jobs_ w2 ↔
      j < length (heap w2) ∧ cancelled (heap w2) j = false ∧
      (count_cb j (events w2) = 0 ∨ j = c)) ∧
     0 < count_cb c (events w2) ∧
     (j ∈ pending_jobs_ w2 →
      ∃ w3, CancelRequest (Some j) w2 = Some w3 ∧
            (j ∉ pending_jobs_ w3) ∧ cancelled (heap w3) j = true)).
Proof.
  intros Hr. pose proof (reachable_wf _ Hr) as Hwf.
  pose proof (reachable_balanced _ Hr) as Hb.
  assert (Hcan : ∀ w0, wf w0 → j ∈ pending_jobs_ w0 →
            ∃ w', CancelRequest (Some j) w0 = Some w' ∧
                  (j ∉ pending_jobs_ w') ∧ cancelled (heap w') j = true ∧
                  count_cb j (events w') = count_cb j (events w0)).
  { intros w0 Hwf0 Hin. destruct (CancelRequest_total _ _ Hwf0 Hin) as [w' Hc].
    exists w'. pose proof (CancelRequest_cancels _ _ _ Hc) as Hcd.
    pose proof (wf_CancelRequest _ _ _ Hwf0 Hc) as Hwf'.
    split_and!; [done| |done|].
    - intros Hin'. apply (wf_queued _ Hwf') in Hin'. congruence.
    - destruct (fq_events _ _ (fq_CancelRequest _ _ _ Hc)) as (evs & -> & Hq).
      rewrite count_cb_app, (count_cb_quiet _ _ Hq). lia. }
  split_and!.
  - by apply queued_iff.
  - intros Hin. destruct (Hcan _ Hwf Hin) as (w' & Hc & Hout & Hcd & Hcb).
    exists w'. split_and!; [done..|].
    rewrite Hcb. by apply (queued_iff _ _ Hwf Hb).
  - intros steps w' Hrun Hlt Hout Hin'.
    pose proof (reachable_run _ _ _ Hr Hrun) as Hr'.
    apply (queued_iff _ _ (reachable_wf _ Hr') (reachable_balanced _ Hr')) in Hin'
      as (_ & Hc' & Hcb').
    pose proof (follows_run _ _ _ Hrun) as [(evs & He & _) Hfc _ _].
    destruct (wf_finished _ (wf_base _ Hwf) j Hlt Hout) as [Hcan0|(cb & rc & Hcal)].
    + apply (wf_cancel _ (wf_base _ Hwf)) in Hcan0. apply Hfc in Hcan0. congruence.
    + apply count_cb_pos in Hcal. rewrite He, count_cb_app in Hcb'. lia.
  - intros c rc rest job wd body w2 Ho Hj Hc Hd Hbody.
    destruct (callback_world _ _ _ _ _ _ _ _ Hwf Hb Ho Hj Hc Hd Hbody)
      as (Hwf2 & Hb2 & Hk2 & Hcb2).
    split_and!.
    + split.
      * intros Hin. split_and!.
        -- by apply (wf_range _ (wf_base _ Hwf2)).
        -- by apply (wf_queued _ Hwf2).
        -- destruct (queued_no_callback _ _ _ Hwf2 Hb2 Hin) as [?|[= ->]]; auto.
      * intros (Hlt & Hcn & Hor).
        destruct (decide (j = c)) as [->|Hne].
        { destruct Hk2 as [Hk2|[_ Hk2]]; [congruence|].
          destruct (pending_jobs_ w2) as [|j0 q]; [done|].
          injection Hk2 as ->. by left. }
        destruct Hor as [Hcb|?]; [|done].
        destruct (decide (j ∈ pending_jobs_ w2)) as [|Hout]; [done|]. exfalso.
        destruct (wf_finished _ (wf_base _ Hwf2) j Hlt Hout)
          as [Hcan0|(cb & rc' & Hcal)].
        -- apply (wf_cancel _ (wf_base _ Hwf2)) in Hcan0. congruence.
        -- apply count_cb_pos in Hcal. lia.
    + done.
    + intros Hin. destruct (Hcan _ Hwf2 Hin) as (w3 & Hc3 & Hout & Hcd & _).
      by exists w3.
Qed.

Lemma handle_valid_until_finished_witness :
  (∃ w', CancelRequest (Some 1) (after [submit "a" 10 100; submit "b" 11 101])
         = Some w' ∧ 1 ∉ pending_jobs_ w') ∧
  0 ∉ pending_jobs_ (after [submit "a" 10 100; submit "b" 11 101; SWorker;
                            SOrigin []; SWorker; SOrigin []]) ∧
  (∃ wd w3,
     delivered 0 (mkJob (Some this_resolver) (Some 100) (Some 10) "a" true
                        "PROXY a" 2) 0
       (set_origin [] (after [submit "a" 10 100; SWorker])) = Some wd ∧
     0 < count_cb 0 (events wd) ∧
     CancelRequest (Some 0) wd = Some w3 ∧ 0 ∉ pending_jobs_ w3).
Proof.
  assert (Hr1 : reachable (after [submit "a" 10 100; submit "b" 11 101])).
  { apply reachable_after. vm_compute. eauto. }
  assert (Hr2 : reachable (after [submit "a" 10 100; submit "b" 11 101; SWorker;
                                  SOrigin []])).
  { apply reachable_after. vm_compute. eauto. }
  assert (Hr3 : reachable (after [submit "a" 10 100; SWorker])).
  { apply reachable_after. vm_compute. eauto. }
  split_and!.
  - destruct (proj1 (proj2 (handle_valid_until_finished _ 1 Hr1)))
      as (w' & Hc & Hout & _); [vm_compute; right; left|].
    by exists w'.
  - apply (proj1 (proj2 (proj2 (handle_valid_until_finished _ 0 Hr2)))
             [SWorker; SOrigin []]).
    + vm_compute. reflexivity.
    + vm_compute. lia.
    + vm_compute. intros H. apply elem_of_cons in H as [H|H]; [discriminate H|].
      by apply elem_of_nil in H.
  - set (J := mkJob (Some this_resolver) (Some 100) (Some 10) "a" true "PROXY a" 2).
    set (W := after [submit "a" 10 100; SWorker]).
    exists (default W (delivered 0 J 0 (set_origin [] W))).
    assert (Hd : delivered 0 J 0 (set_origin [] W)
                 = Some (default W (delivered 0 J 0 (set_origin [] W)))).
    { vm_compute. reflexivity. }
    destruct (proj2 (proj2 (proj2 (handle_valid_until_finished _ 0 Hr3)))
                0 0%Z [] J _ [] _
                ltac:(vm_compute; reflexivity) ltac:(vm_compute; reflexivity)
                eq_refl Hd eq_refl) as (_ & Hcb & Hcan).
    destruct Hcan as (w3 & Hc3 & Hout3 & _); [vm_compute; left|].
    exists w3. split_and!; [exact Hd|exact Hcb|exact Hc3|exact Hout3].
Defined.


(** ** The life of a job *)

Lemma job_evolves_refl job : job_evolves job job.
Proof. split_and!; auto. Qed.

Lemma job_evolves_trans job1 job2 job3 :
  job_evolves job1 job2 → job_evolves job2 job3 → job_evolves job1 job3.
Proof.
  intros (Hu & Hs & Hp) (Hu' & Hs' & Hp'). split_and!; [congruence|auto|].
  destruct Hp' as [(? & ? & ?)|?]; [|by right].
  destruct Hp as [(? & ? & ?)|(? & ? & ?)]; [left|right]; split_and!; congruence.
Qed.

Lemma jobs_evolve_refl w : jobs_evolve w w.
Proof. intros j job Hj. eauto using job_evolves_refl. Qed.

Lemma jobs_evolve_trans w1 w2 w3 :
  jobs_evolve w1 w2 → jobs_evolve w2 w3 → jobs_evolve w1 w3.
Proof.
  intros H12 H23 j job Hj. destruct (H12 _ _ Hj) as (job2 & Hj2 & He2).
  destruct (H23 _ _ Hj2) as (job3 & Hj3 & He3). eauto using job_evolves_trans.
Qed.

Lemma jobs_evolve_heap w w' : heap w' = heap w → jobs_evolve w w'.
Proof. intros Hh j job Hj. rewrite Hh. eauto using job_evolves_refl. Qed.

Lemma jobs_evolve_set_job j job job' w :
  heap w !! j = Some job → job_evolves job job' → jobs_evolve w (set_job j job' w).
Proof.
  intros Hj He k jobk Hk. simpl. destruct (decide (k = j)) as [->|Hne].
  - rewrite list_lookup_insert_eq by (by eapply lookup_lt_Some).
    eexists. split; [done|]. by simplify_eq.
  - rewrite list_lookup_insert_ne by done. eauto using job_evolves_refl.
Qed.

Lemma jobs_evolve_Job_Release j w w' : Job_Release j w = Some w' → jobs_evolve w w'.
Proof.
  intros (job & Hj & ->)%Job_Release_inv.
  apply jobs_evolve_set_job with job; [done|]. split_and!; auto.
Qed.

Lemma jobs_evolve_Job_Cancel j w w' : Job_Cancel j w = Some w' → jobs_evolve w w'.
Proof.
  intros (job & Hj & ->)%Job_Cancel_inv.
  eapply jobs_evolve_trans; [|by apply jobs_evolve_heap].
  apply jobs_evolve_set_job with job; [done|]. split_and!; auto.
Qed.

Lemma jobs_evolve_Job_Start j w w' : Job_Start j w = Some w' → jobs_evolve w w'.
Proof.
  intros (job & loop & Hj & _ & _ & _ & ->)%Job_Start_inv.
  eapply jobs_evolve_trans; [|by apply jobs_evolve_heap].
  apply jobs_evolve_set_job with job; [done|]. split_and!; auto.
Qed.

Lemma jobs_evolve_ProcessPendingJobs w w' :
  ProcessPendingJobs w = Some w' → jobs_evolve w w'.
Proof.
  unfold ProcessPendingJobs.
  destruct (pending_jobs_ w) as [|j q]; [intros [= <-]; apply jobs_evolve_refl|].
  destruct (heap w !! j) as [job|]; [|done]. simpl.
  destruct (is_started job); [intros [= <-]; apply jobs_evolve_refl|].
  intros Hs%jobs_evolve_Job_Start.
  eapply jobs_evolve_trans; [|done]. apply jobs_evolve_heap.
  by pose proof (EnsureThreadStarted_fields w) as (_ & _ & _ & -> & _).
Qed.

Lemma jobs_evolve_RemoveFront j w w' :
  RemoveFrontOfJobsQueueAndStartNext j w = Some w' → jobs_evolve w w'.
Proof.
  unfold RemoveFrontOfJobsQueueAndStartNext.
  destruct (pending_jobs_ w) as [|j0 rest]; [done|].
  destruct (DCHECK _); [|done]. simpl.
  destruct (Job_Release j0 (set_pending rest w)) as [w1|] eqn:Hrel; [|done]. simpl.
  intros Hp%jobs_evolve_ProcessPendingJobs. apply jobs_evolve_Job_Release in Hrel.
  eapply jobs_evolve_trans; [|done]. eapply jobs_evolve_trans; [|done].
  by apply jobs_evolve_heap.
Qed.

Lemma jobs_evolve_GetProxyForURL url results callback request w rv h w' :
  GetProxyForURL url results callback request w = Some (rv, h, w') →
  jobs_evolve w w'.
Proof.
  intros (_ & _ & _ & _ & Hp%jobs_evolve_ProcessPendingJobs)%GetProxyForURL_inv.
  eapply jobs_evolve_trans; [|done].
  intros j job Hj. unfold enqueued. simpl.
  rewrite lookup_app_l by (by eapply lookup_lt_Some). eauto using job_evolves_refl.
Qed.

Lemma jobs_evolve_CancelRequest req w w' :
  CancelRequest req w = Some w' → jobs_evolve w w'.
Proof.
  unfold CancelRequest. destruct (valid _); [|done]. simpl.
  destruct req as [j|]; [|done]. simpl.
  destruct (heap w !! j) as [job|]; [|done]. simpl.
  destruct (Job_Cancel j w) as [w1|] eqn:Hc; [|done]. simpl.
  apply jobs_evolve_Job_Cancel in Hc.
  destruct (is_active_job job j w).
  - intros Hr%jobs_evolve_RemoveFront. by eapply jobs_evolve_trans.
  - destruct (erase_first j (pending_jobs_ w1)) as [q|]; [|done]. simpl.
    intros Hr%jobs_evolve_Job_Release. eapply jobs_evolve_trans; [done|].
    eapply jobs_evolve_trans; [|done]. by apply jobs_evolve_heap.
Qed.

Lemma jobs_evolve_SetPacScriptHelper pac_url bytes w w' :
  SetPacScriptHelper pac_url bytes w = Some w' → jobs_evolve w w'.
Proof.
  unfold SetPacScriptHelper. destruct (valid _); [|done]. simpl.
  pose proof (EnsureThreadStarted_fields w) as (_ & _ & _ & Hh & _).
  destruct (thread_ (EnsureThreadStarted w)); [|done]. simpl. intros [= <-].
  by apply jobs_evolve_heap.
Qed.

(** What a turn of the worker's loop does to the jobs: only a scratch
    buffer can change. *)
Lemma worker_step_jobs w w' :
  worker_step w = Some w' →
  ∀ j job, heap w !! j = Some job →
    ∃ job', heap w' !! j = Some job' ∧
      coordinator_ job' = coordinator_ job ∧ callback_ job' = callback_ job ∧
      results_ job' = results_ job ∧ url_ job' = url_ job ∧
      is_started_ job' = is_started_ job ∧ ref_count_ job' = ref_count_ job.
Proof.
  unfold worker_step.
  destruct (thread_ w) as [[|t rest]|] eqn:Ht.
  1,3: intros [= <-]; by eauto 10.
  destruct t as [j|u b]; simpl.
  - unfold Job_DoQuery. simpl.
    destruct (heap w !! j) as [job|] eqn:Hj; [|done]. simpl.
    destruct (resolver_ w) as [r|] eqn:Hr; [|done]. simpl.
    destruct (engine r _ _ _) as [rv buf].
    destruct (DCHECK _); [|done]. simpl. intros [= <-]. simpl.
    intros k jobk Hk. destruct (decide (k = j)) as [->|Hne].
    + rewrite list_lookup_insert_eq by (by eapply lookup_lt_Some).
      eexists. split; [done|]. by simplify_eq.
    + rewrite list_lookup_insert_ne by done. eauto 10.
  - unfold SetPacScriptTask_Run. simpl.
    destruct (resolver_ w) as [r|] eqn:Hr; [|done]. simpl. intros [= <-]. simpl.
    by eauto 10.
Qed.

Lemma jobs_evolve_worker_step w w' : worker_step w = Some w' → jobs_evolve w w'.
Proof.
  intros Hs j job Hj.
  destruct (worker_step_jobs _ _ Hs _ _ Hj) as (job' & Hj' & Hc & Hcb & Hr & Hu & Hst & _).
  exists job'. split; [done|]. split_and!; [done|congruence|by left].
Qed.

Lemma jobs_evolve_drain n w w' : drain n w = Some w' → jobs_evolve w w'.
Proof.
  revert w. induction n as [|n IH]; intros w; simpl.
  { intros [= <-]. apply jobs_evolve_refl. }
  destruct (worker_step w) as [w1|] eqn:Hs; [|done]. simpl. intros Hd.
  eauto using jobs_evolve_trans, jobs_evolve_worker_step.
Qed.

Lemma jobs_evolve_run_all {A} (f : A → World → option World) l w w' :
  (∀ x w1 w2, f x w1 = Some w2 → jobs_evolve w1 w2) →
  run_all f l w = Some w' → jobs_evolve w w'.
Proof.
  intros Hf. revert w. induction l as [|x l IH]; intros w; simpl.
  { intros [= <-]. apply jobs_evolve_refl. }
  destruct (f x w) as [w1|] eqn:Hx; [|done]. simpl. intros Hl.
  eauto using jobs_evolve_trans.
Qed.

Lemma jobs_evolve_Destroy w w' : Destroy w = Some w' → jobs_evolve w w'.
Proof.
  intros (_ & w1 & w2 & w3 & Hc & Hr & Hd & ->)%Destroy_inv.
  apply (jobs_evolve_run_all Job_Cancel) in Hc;
    [|intros; by eapply jobs_evolve_Job_Cancel].
  apply (jobs_evolve_run_all Job_Release) in Hr;
    [|intros; by eapply jobs_evolve_Job_Release].
  apply jobs_evolve_drain in Hd.
  eapply jobs_evolve_trans; [done|]. eapply jobs_evolve_trans; [done|].
  eapply jobs_evolve_trans; [|eapply jobs_evolve_trans; [done|]].
  - by apply jobs_evolve_heap.
  - apply jobs_evolve_heap. unfold torn_down. by destruct (thread_ w3).
Qed.

Lemma jobs_evolve_run_action a w w' : run_action a w = Some w' → jobs_evolve w w'.
Proof.
  destruct a as [url results callback request|req|u|b|]; simpl.
  - destruct (GetProxyForURL _ _ _ _ _) as [[[rv h] w1]|] eqn:Hg; [|done].
    simpl. intros [= <-]. by eapply jobs_evolve_GetProxyForURL.
  - apply jobs_evolve_CancelRequest.
  - apply jobs_evolve_SetPacScriptHelper.
  - apply jobs_evolve_SetPacScriptHelper.
  - apply jobs_evolve_Destroy.
Qed.

Lemma jobs_evolve_origin_step body w w' :
  origin_step body w = Some w' → jobs_evolve w w'.
Proof.
  unfold origin_step.
  destruct (origin_loop w) as [|[j rc] rest]; [intros [= <-]; apply jobs_evolve_refl|].
  intros (job & Hj & [[Hc Hrel]|(Hc & wd & w2 & job2 & Hd & Hbody & Hj2 & Hpost)])
    %Job_QueryComplete_inv.
  - apply jobs_evolve_Job_Release in Hrel. eapply jobs_evolve_trans; [|done].
    by apply jobs_evolve_heap.
  - apply delivered_fields in Hd as (cb & _ & _ & _ & _ & _ & Hh & _).
    apply (jobs_evolve_run_all run_action) in Hbody;
      [|intros; by eapply jobs_evolve_run_action].
    eapply jobs_evolve_trans; [by apply (jobs_evolve_heap w wd)|].
    eapply jobs_evolve_trans; [done|].
    destruct Hpost as [[_ Hrel]|(_ & _ & w3 & Hrm & Hrel)].
    + by eapply jobs_evolve_Job_Release.
    + eapply jobs_evolve_trans; [by eapply jobs_evolve_RemoveFront|].
      by eapply jobs_evolve_Job_Release.
Qed.

Lemma jobs_evolve_step s w w' : step s w = Some w' → jobs_evolve w w'.
Proof.
  destruct s as [a| |body]; simpl.
  - apply jobs_evolve_run_action.
  - apply jobs_evolve_worker_step.
  - apply jobs_evolve_origin_step.
Qed.

Lemma jobs_evolve_run steps w w' : run steps w = Some w' → jobs_evolve w w'.
Proof. apply jobs_evolve_run_all. intros. by eapply jobs_evolve_step. Qed.

(** ** Progress *)

Lemma ProcessPendingJobs_tasks w w' :
  ProcessPendingJobs w = Some w' →
  resolver_ w' = resolver_ w ∧ length (heap w') = length (heap w) ∧
  length (worker_tasks w') ≤ S (length (worker_tasks w)).
Proof.
  unfold ProcessPendingJobs.
  destruct (pending_jobs_ w) as [|j q]; [intros [= <-]; split_and!; [done..|lia]|].
  destruct (heap w !! j) as [job|]; [|done]. simpl.
  destruct (is_started job); [intros [= <-]; split_and!; [done..|lia]|].
  pose proof (EnsureThreadStarted_fields w) as (_ & _ & _ & Hh & _ & _ & _ & Hr & Ht).
  intros (jb & loop & _ & _ & _ & Hl & ->)%Job_Start_inv. simpl.
  rewrite length_insert, Hh, Hr. split_and!; [done..|].
  rewrite <-Ht. unfold worker_tasks. rewrite Hl. simpl.
  rewrite length_app. simpl. lia.
Qed.

Lemma RemoveFront_tasks j w w' :
  RemoveFrontOfJobsQueueAndStartNext j w = Some w' →
  resolver_ w' = resolver_ w ∧ length (heap w') = length (heap w) ∧
  length (worker_tasks w') ≤ S (length (worker_tasks w)).
Proof.
  unfold RemoveFrontOfJobsQueueAndStartNext.
  destruct (pending_jobs_ w) as [|j0 rest]; [done|].
  destruct (DCHECK _); [|done]. simpl.
  destruct (Job_Release j0 (set_pending rest w)) as [w1|] eqn:Hrel; [|done]. simpl.
  apply Job_Release_fields in Hrel as (_ & Ht & _ & _ & _ & _ & _ & Hr & Hn & _).
  intros (Hr' & Hn' & Hl)%ProcessPendingJobs_tasks.
  rewrite Hr', Hn', Hr, Hn. split_and!; [done..|].
  unfold worker_tasks in *. by rewrite Ht in Hl.
Qed.

Lemma worker_turn w :
  wf w → engine_final w →
  ∃ w', worker_step w = Some w' ∧ engine_final w' ∧
    pending_jobs_ w' = pending_jobs_ w ∧
    length (worker_tasks w') = pred (length (worker_tasks w)) ∧
    length (origin_loop w') ≤
      length (origin_loop w) + (if worker_tasks w is [] then 0 else 1) ∧
    (∀ k, cancelled (heap w') k = cancelled (heap w) k).
Proof.
  intros Hwf He. destruct (worker_step_total w Hwf He) as (w' & Hs & He').
  exists w'. pose proof (worker_step_fields _ _ Hs)
    as (_ & Hq & _ & _ & _ & _ & Hc & _ & _ & Hl & _).
  split_and!; try done.
  revert Hs. unfold worker_step, worker_tasks.
  destruct (thread_ w) as [[|t rest]|] eqn:Ht; simpl;
    try (intros [= <-]; lia).
  destruct t as [j|u b]; simpl.
  - unfold Job_DoQuery. simpl. destruct (heap w !! j); [|done]. simpl.
    destruct (resolver_ w) as [r|]; [|done]. simpl.
    destruct (engine r _ _ _) as [rv buf]. destruct (DCHECK _); [|done].
    simpl. intros [= <-]. simpl. rewrite length_app. simpl. lia.
  - unfold SetPacScriptTask_Run. simpl.
    destruct (resolver_ w) as [r|]; [|done]. simpl. intros [= <-]. simpl. lia.
Qed.

Lemma origin_turn w j rc rest :
  wf w → origin_loop w = QueryCompleteTask j rc :: rest →
  (∀ job, heap w !! j = Some job → was_cancelled job = false →
          is_Some (results_ job)) →
  ∃ w', origin_step [] w = Some w' ∧ origin_loop w' = rest ∧
    resolver_ w' = resolver_ w ∧
    (∃ l, pending_jobs_ w = l ++ pending_jobs_ w' ∧
          length (worker_tasks w') ≤ length (worker_tasks w) + length l) ∧
    (∀ k, cancelled (heap w') k = cancelled (heap w) k).
Proof.
  intros Hwf Ho Hres.
  destruct (cancelled (heap w) j) eqn:Hc.
  - unfold origin_step. rewrite Ho. rewrite QueryComplete_cancelled by done.
    apply cancelled_lookup in Hc as (job & Hj & _).
    unfold Job_Release. simpl. rewrite Hj. simpl. eexists. split; [done|].
    simpl. split_and!; try done.
    + exists []. split; [done|]. unfold worker_tasks. simpl. lia.
    + intros k. by eapply cancelled_insert_same.
  - destruct (origin_step_head _ _ _ _ Hwf Ho Hc) as (Hhd & Hcb0 & Ha).
    destruct (pending_jobs_ w) as [|j0 q] eqn:Hq; [done|]. injection Hhd as ->.
    destruct (lookup_lt_is_Some_2 (heap w) j) as [job Hj].
    { apply (wf_range _ (wf_base _ Hwf)). rewrite Hq. by left. }
    assert (Hnc : was_cancelled job = false)
      by (unfold cancelled in Hc; by rewrite Hj in Hc).
    assert (∃ wd, delivered j job rc (set_origin rest w) = Some wd) as [wd Hd].
    { unfold delivered, ProxyInfo_Use.
      destruct (Hres job Hj Hnc) as [slot ->].
      unfold was_cancelled in Hnc. destruct (callback_ job) as [cb|]; [|done].
      destruct (rc >=? OK)%Z; by eexists. }
    pose proof (wf_delivered _ _ _ _ _ _ Hwf Ho Hd) as [Hwd Hhs Hncd].
    pose proof (delivered_fields _ _ _ _ _ Hd)
      as (cb & Hcb & Had & Hrd & Htd & Hqd & Hhd' & Hod & _ & Hev).
    simpl in Hqd, Had, Hhd', Hrd, Htd, Hod. rewrite Hq in Hqd.
    destruct (RemoveFront_spec j q wd) as (w3 & Hrm & Hq3 & _ & Ho3 & _ & Hn3 & Hc3 & _);
      try done.
    { intros k Hk. apply Hncd. rewrite Hqd. by right. }
    { right. exists cb, rc.
      destruct Hev as [(_ & slot & _ & _ & ->)|(_ & _ & ->)];
        apply elem_of_app; right; repeat constructor. }
    pose proof (RemoveFront_tasks _ _ _ Hrm) as (Hr3 & _ & Hl3).
    destruct (lookup_lt_is_Some_2 (heap w3) j) as [job3 Hj3].
    { rewrite Hn3, Hhd'. by eapply lookup_lt_Some. }
    unfold origin_step. rewrite Ho.
    rewrite (Job_QueryComplete_intro [] j rc (set_origin rest w) job wd wd job);
      [|done|done|done|done|by rewrite Hhd'].
    rewrite Hnc.
    destruct (coordinator_ job) as [c|] eqn:Hco.
    2:{ apply (wf_coord _ (wf_base _ Hwf) _ _ Hj) in Hco.
        unfold was_cancelled in Hnc. by rewrite Hco in Hnc. }
    simpl. rewrite Had, Ha. simpl. rewrite Hrm. simpl.
    unfold Job_Release. rewrite Hj3. simpl. eexists. split; [done|]. simpl.
    split_and!.
    + by rewrite Ho3, Hod.
    + by rewrite Hr3, Hrd.
    + exists [j]. rewrite Hq3. split; [done|]. simpl.
      unfold worker_tasks in *. simpl. rewrite Htd in Hl3. lia.
    + intros k. rewrite (cancelled_insert_same _ _ job3) by done.
      by rewrite Hc3, Hhd'.
Qed.

(** A queue whose two loops are empty is empty: no job can be left waiting
    for a task that does not exist. *)
Lemma no_stuck_queue w :
  wf w → balanced None w → worker_tasks w = [] → origin_loop w = [] →
  pending_jobs_ w = [].
Proof.
  intros Hwf [_ H2 _ _] Ht Ho.
  destruct (pending_jobs_ w) as [|j q] eqn:Hq; [done|]. exfalso.
  pose proof (wf_head _ Hwf _ _ Hq) as Hs.
  specialize (H2 j). rewrite Ht, Ho in H2.
  unfold held in H2. simpl in H2. specialize (H2 ltac:(by left) Hs). lia.
Qed.

Lemma slots_given_step s w w' :
  wf w → wf w' → slots_given w → step s w = Some w' →
  (∀ k, k ∈ pending_jobs_ w' → k ∈ pending_jobs_ w) →
  slots_given w'.
Proof.
  intros Hwf Hwf' Hsl Hs Hsub j job' Hin Hj'.
  destruct (lookup_lt_is_Some_2 (heap w) j) as [job Hj].
  { apply (wf_range _ (wf_base _ Hwf)). by apply Hsub. }
  destruct (jobs_evolve_step _ _ _ Hs _ _ Hj) as (job2 & Hj2 & _ & _ & Hp).
  assert (job2 = job') as -> by congruence.
  pose proof (wf_queued _ Hwf' _ Hin) as Hc. unfold cancelled, was_cancelled in Hc.
  rewrite Hj' in Hc.
  destruct Hp as [(_ & _ & ->)|(_ & Hcb & _)]; [|by rewrite Hcb in Hc].
  apply (Hsl j); [by apply Hsub|done].
Qed.

Lemma idle_turn_progress s w :
  reachable w → engine_final w → slots_given w → idle_turn s →
  ∃ w', step s w = Some w' ∧ reachable w' ∧ engine_final w' ∧ slots_given w' ∧
    (∀ k, cancelled (heap w') k = cancelled (heap w) k) ∧
    (∀ k, k ∈ pending_jobs_ w' → k ∈ pending_jobs_ w) ∧
    work_left w' ≤ work_left w ∧
    (s = SWorker → worker_tasks w ≠ [] → work_left w' < work_left w) ∧
    (s = SOrigin [] → origin_loop w ≠ [] → work_left w' < work_left w).
Proof.
  intros Hr He Hsl Hs. pose proof (reachable_wf _ Hr) as Hwf.
  assert (Hnext : ∀ w', step s w = Some w' → reachable w').
  { intros w' Hstep. eapply (reachable_run [s]); [done|]. unfold run. simpl.
    by rewrite Hstep. }
  destruct Hs as [->| ->]; simpl in *.
  - destruct (worker_turn w Hwf He) as (w' & Hstep & He' & Hq & Hl & Ho & Hc).
    exists w'. pose proof (Hnext _ Hstep) as Hr'.
    assert (Hsub : ∀ k, k ∈ pending_jobs_ w' → k ∈ pending_jobs_ w)
      by (intros k; by rewrite Hq).
    split_and!; try done.
    + eapply (slots_given_step SWorker); eauto using reachable_wf.
    + unfold work_left. rewrite Hq, Hl. destruct (worker_tasks w); simpl in *; lia.
    + intros _ Hne. unfold work_left. rewrite Hq, Hl.
      destruct (worker_tasks w); simpl in *; [done|lia].
  - destruct (origin_loop w) as [|[j rc] rest] eqn:Ho.
    { exists w. unfold origin_step. rewrite Ho. split_and!; try done. }
    destruct (origin_turn w j rc rest Hwf Ho) as (w' & Hstep & Ho' & Hres & (l & Hq & Hl) & Hc).
    { intros job Hj Hnc. apply (Hsl j); [|done].
      assert (Hcj : cancelled (heap w) j = false)
        by (unfold cancelled; by rewrite Hj).
      destruct (origin_step_head _ _ _ _ Hwf Ho Hcj) as (Hhd & _).
      destruct (pending_jobs_ w); [done|]. injection Hhd as ->. by left. }
    exists w'. pose proof (Hnext _ Hstep) as Hr'.
    assert (Hsub : ∀ k, k ∈ pending_jobs_ w' → k ∈ pending_jobs_ w).
    { intros k Hk. rewrite Hq. apply elem_of_app. by right. }
    assert (Hlt : work_left w' < work_left w).
    { unfold work_left. rewrite Ho, Ho', Hq, length_app. simpl. lia. }
    split_and!; try done.
    + intros r. rewrite Hres. apply He.
    + eapply (slots_given_step (SOrigin [])); eauto using reachable_wf.
    + lia.
Qed.

Lemma idle_turns_complete n w :
  reachable w → engine_final w → slots_given w → work_left w ≤ n →
  ∃ steps w', Forall idle_turn steps ∧ length steps ≤ n ∧ run steps w = Some w' ∧
    reachable w' ∧
    pending_jobs_ w' = [] ∧ worker_tasks w' = [] ∧ origin_loop w' = [] ∧
    (∀ k, cancelled (heap w') k = cancelled (heap w) k).
Proof.
  revert w. induction n as [|n IH]; intros w Hr He Hsl Hle.
  - exists [], w. unfold work_left in Hle.
    destruct (pending_jobs_ w), (worker_tasks w), (origin_loop w); simpl in *;
      try lia.
    by split_and!.
  - destruct (worker_tasks w) as [|t ts] eqn:Ht.
    + destruct (origin_loop w) as [|o os] eqn:Ho.
      * exists [], w. split_and!; try done; [simpl; lia|].
        apply no_stuck_queue; eauto using reachable_wf, reachable_balanced.
      * destruct (idle_turn_progress (SOrigin []) w Hr He Hsl)
          as (w1 & Hs & Hr1 & He1 & Hsl1 & Hc1 & _ & _ & _ & Hlt); [by right|].
        specialize (Hlt eq_refl). rewrite Ho in Hlt. specialize (Hlt ltac:(done)).
        destruct (IH w1 Hr1 He1 Hsl1) as (steps & w' & Hall & Hlen & Hrun & Hr' & Hq & Hw & Hol & Hc);
          [lia|].
        exists (SOrigin [] :: steps), w'. split_and!; try done.
        -- constructor; [by right|done].
        -- simpl. lia.
        -- unfold run in *. simpl. simpl in Hs. by rewrite Hs.
        -- intros k. by rewrite Hc, Hc1.
    + destruct (idle_turn_progress SWorker w Hr He Hsl)
        as (w1 & Hs & Hr1 & He1 & Hsl1 & Hc1 & _ & _ & Hlt & _); [by left|].
      specialize (Hlt eq_refl). rewrite Ht in Hlt. specialize (Hlt ltac:(done)).
      destruct (IH w1 Hr1 He1 Hsl1) as (steps & w' & Hall & Hlen & Hrun & Hr' & Hq & Hw & Hol & Hc);
        [lia|].
      exists (SWorker :: steps), w'. split_and!; try done.
      * constructor; [by left|done].
      * simpl. lia.
      * unfold run in *. simpl. simpl in Hs. by rewrite Hs.
      * intros k. by rewrite Hc, Hc1.
Qed.

(** X7: every queued request is answered.  From any state of an execution
    whose engine keeps its contract and whose queued jobs have an output
    slot, a turn of either loop succeeds and never adds work, and does some
    when its loop has a task; when both loops are empty so is the queue;
    hence running the two loops, with callbacks that ask nothing more of the
    resolver, empties the queue and both loops within [work_left] turns, and
    by then the callback of every job that was queued has run exactly
    once. *)
Theorem queued_requests_complete w :
  reachable w → engine_final w → slots_given w →
  (∀ s, idle_turn s →
     ∃ w', step s w = Some w' ∧ work_left w' ≤ work_left w ∧
       (s = SWorker → worker_tasks w ≠ [] → work_left w' < work_left w) ∧
       (s = SOrigin [] → origin_loop w ≠ [] → work_left w' < work_left w)) ∧
  (worker_tasks w = [] → origin_loop w = [] → pending_jobs_ w = []) ∧
  ∃ steps w', Forall idle_turn steps ∧ length steps ≤ work_left w ∧
    run steps w = Some w' ∧
    pending_jobs_ w' = [] ∧ worker_tasks w' = [] ∧ origin_loop w' = [] ∧
    ∀ j, j ∈ pending_jobs_ w → count_cb j (events w') = 1.
Proof.
  intros Hr He Hsl. split_and!.
  - intros s Hs.
    destruct (idle_turn_progress s w Hr He Hsl Hs)
      as (w' & Hstep & _ & _ & _ & _ & _ & Hle & Hw & Ho).
    by exists w'.
  - apply no_stuck_queue; eauto using reachable_wf, reachable_balanced.
  - destruct (idle_turns_complete (work_left w) w Hr He Hsl)
      as (steps & w' & Hall & Hlen & Hrun & Hr' & Hq & Hw & Ho & Hc); [done|].
    exists steps, w'. split_and!; try done.
    intros j Hin.
    pose proof (reachable_wf _ Hr) as Hwf. pose proof (reachable_wf _ Hr') as Hwf'.
    pose proof (follows_run _ _ _ Hrun) as [_ _ _ Hlen'].
    assert (Hlt : j < length (heap w')).
    { eapply Nat.lt_le_trans; [|done]. by apply (wf_range _ (wf_base _ Hwf)). }
    destruct (wf_finished _ (wf_base _ Hwf') j Hlt) as [Hcan|(cb & rc & Hcb)].
    + rewrite Hq. apply not_elem_of_nil.
    + apply (wf_cancel _ (wf_base _ Hwf')) in Hcan. rewrite Hc in Hcan.
      pose proof (wf_queued _ Hwf _ Hin). congruence.
    + apply count_cb_pos in Hcb.
      pose proof (wf_activity _ (wf_base _ Hwf') j) as Hact.
      unfold job_activity in Hact. destruct (started (heap w') j); lia.
Qed.

Lemma queued_requests_complete_witness :
  ∃ steps w',
    run steps (after [submit "a" 10 100; submit "b" 11 101]) = Some w' ∧
    pending_jobs_ w' = [] ∧ count_cb 1 (events w') = 1.
Proof.
  assert (Hr : reachable (after [submit "a" 10 100; submit "b" 11 101])).
  { apply reachable_after. vm_compute. eauto. }
  assert (He : engine_final (after [submit "a" 10 100; submit "b" 11 101])).
  { intros r [= <-] s url buf. simpl. unfold example_engine.
    by destruct (String.eqb url "bad"). }
  assert (Hsl : slots_given (after [submit "a" 10 100; submit "b" 11 101])).
  { intros j job Hin Hj. vm_compute in Hin.
    apply elem_of_cons in Hin as [->|Hin].
    { vm_compute in Hj. injection Hj as <-. by eexists. }
    apply elem_of_cons in Hin as [->|Hin].
    { vm_compute in Hj. injection Hj as <-. by eexists. }
    by apply elem_of_nil in Hin. }
  destruct (queued_requests_complete _ Hr He Hsl)
    as (_ & _ & steps & w' & _ & _ & Hrun & Hq & _ & _ & Hcb).
  exists steps, w'. split_and!; [exact Hrun|exact Hq|].
  apply Hcb. vm_compute. right. left.
Defined.

(** ** Every step is a sequence of statements *)

Lemma atoms_Job_Release j w w' : Job_Release j w = Some w' → rtc atom w w'.
Proof. intros (job & Hj & ->)%Job_Release_inv. apply rtc_once. by constructor. Qed.

Lemma atoms_Job_Cancel j w w' : Job_Cancel j w = Some w' → rtc atom w w'.
Proof. intros (job & Hj & ->)%Job_Cancel_inv. apply rtc_once. by constructor. Qed.

Lemma atoms_run_all {A} (f : A → World → option World) l w w' :
  (∀ x w1 w2, f x w1 = Some w2 → rtc atom w1 w2) →
  run_all f l w = Some w' → rtc atom w w'.
Proof.
  intros Hf. revert w. induction l as [|x l IH]; intros w; simpl.
  { by intros [= <-]. }
  destruct (f x w) as [w1|] eqn:Hx; [|done]. simpl. intros Hl.
  etrans; eauto.
Qed.

Lemma atoms_EnsureThreadStarted w : rtc atom w (EnsureThreadStarted w).
Proof.
  unfold EnsureThreadStarted. destruct (thread_ w) eqn:Ht; [done|].
  apply rtc_once. by constructor.
Qed.

Lemma atoms_ProcessPendingJobs w w' :
  ProcessPendingJobs w = Some w' → rtc atom w w'.
Proof.
  unfold ProcessPendingJobs.
  destruct (pending_jobs_ w) as [|j q]; [by intros [= <-]|].
  destruct (heap w !! j) as [job|] eqn:Hj; [|done]. simpl.
  destruct (is_started job) eqn:Hs; [by intros [= <-]|].
  pose proof (EnsureThreadStarted_fields w) as (_ & _ & _ & Hh & _).
  intros (jb & loop & Hjb & _ & _ & Ht & ->)%Job_Start_inv.
  etrans; [apply atoms_EnsureThreadStarted|]. apply rtc_once.
  constructor; [done| |done]. rewrite Hh in Hjb. congruence.
Qed.

Lemma atoms_RemoveFront j w w' :
  RemoveFrontOfJobsQueueAndStartNext j w = Some w' → rtc atom w w'.
Proof.
  unfold RemoveFrontOfJobsQueueAndStartNext.
  destruct (pending_jobs_ w) as [|j0 rest] eqn:Hq; [done|].
  destruct (DCHECK _); [|done]. simpl.
  destruct (Job_Release j0 (set_pending rest w)) as [w1|] eqn:Hrel; [|done]. simpl.
  intros Hp%atoms_ProcessPendingJobs. apply atoms_Job_Release in Hrel.
  etrans; [|done]. etrans; [|done]. apply rtc_once. constructor.
  intros k Hk. rewrite Hq. by right.
Qed.

Lemma atoms_GetProxyForURL url results callback request w rv h w' :
  GetProxyForURL url results callback request w = Some (rv, h, w') →
  rtc atom w w'.
Proof.
  intros (_ & _ & _ & _ & Hp%atoms_ProcessPendingJobs)%GetProxyForURL_inv.
  etrans; [|done]. apply rtc_once. constructor.
Qed.

Lemma atoms_CancelRequest req w w' : CancelRequest req w = Some w' → rtc atom w w'.
Proof.
  unfold CancelRequest. destruct (valid _); [|done]. simpl.
  destruct req as [j|]; [|done]. simpl.
  destruct (heap w !! j) as [job|]; [|done]. simpl.
  destruct (Job_Cancel j w) as [w1|] eqn:Hc; [|done]. simpl.
  apply atoms_Job_Cancel in Hc.
  destruct (is_active_job job j w).
  - intros Hr%atoms_RemoveFront. by etrans.
  - destruct (erase_first j (pending_jobs_ w1)) as [q|] eqn:He; [|done]. simpl.
    intros Hr%atoms_Job_Release. etrans; [done|]. etrans; [|done].
    apply rtc_once. constructor. intros k Hk.
    assert (Hcount := count_in_erase _ _ _ k He).
    apply count_in_pos. apply count_in_pos in Hk. lia.
Qed.

Lemma atoms_SetPacScriptHelper pac_url bytes w w' :
  SetPacScriptHelper pac_url bytes w = Some w' → rtc atom w w'.
Proof.
  unfold SetPacScriptHelper. destruct (valid _); [|done]. simpl.
  destruct (thread_ (EnsureThreadStarted w)) as [loop|] eqn:Ht; [|done]. simpl.
  intros [= <-]. etrans; [apply atoms_EnsureThreadStarted|].
  apply rtc_once. by constructor.
Qed.

Lemma atoms_worker_step w w' : worker_step w = Some w' → rtc atom w w'.
Proof.
  unfold worker_step.
  destruct (thread_ w) as [[|t rest]|] eqn:Ht; try (by intros [= <-]).
  destruct t as [j|u b]; simpl.
  - unfold Job_DoQuery. simpl.
    destruct (heap w !! j) as [job|] eqn:Hj; [|done]. simpl.
    destruct (resolver_ w) as [r|] eqn:Hr; [|done]. simpl.
    pose proof (atom_query j job r rest w Ht Hj Hr) as Ha.
    destruct (engine r _ _ _) as [rv buf]. destruct (DCHECK _); [|done].
    simpl. intros [= <-]. by apply rtc_once.
  - unfold SetPacScriptTask_Run. simpl.
    destruct (resolver_ w) as [r|] eqn:Hr; [|done]. simpl. intros [= <-].
    apply rtc_once. by constructor.
Qed.

Lemma atoms_drain n w w' : drain n w = Some w' → rtc atom w w'.
Proof.
  revert w. induction n as [|n IH]; intros w; simpl; [by intros [= <-]|].
  destruct (worker_step w) as [w1|] eqn:Hs; [|done]. simpl. intros Hd.
  etrans; eauto using atoms_worker_step.
Qed.

Lemma atoms_Destroy w w' : Destroy w = Some w' → rtc atom w w'.
Proof.
  intros (_ & w1 & w2 & w3 & Hc & Hr & Hd & ->)%Destroy_inv.
  apply (atoms_run_all Job_Cancel) in Hc; [|intros; by eapply atoms_Job_Cancel].
  apply (atoms_run_all Job_Release) in Hr; [|intros; by eapply atoms_Job_Release].
  pose proof (drain_fields _ _ _ Hd) as (_ & _ & _ & _ & _ & _ & _ & _ & _ & Hlen & _).
  apply atoms_drain in Hd.
  etrans; [done|]. etrans; [done|].
  etrans; [apply rtc_once; constructor; by intros k ?%elem_of_nil|].
  etrans; [done|]. unfold torn_down.
  destruct (thread_ w3) as [l3|] eqn:Ht3.
  - etrans; [|apply rtc_once; constructor]. apply rtc_once. constructor.
    unfold worker_tasks in Hlen. rewrite Ht3 in Hlen. simpl in Hlen.
    destruct l3; [done|]. simpl in Hlen. lia.
  - apply rtc_once. constructor.
Qed.

Lemma atoms_run_action a w w' : run_action a w = Some w' → rtc atom w w'.
Proof.
  destruct a as [url results callback request|req|u|b|]; simpl.
  - destruct (GetProxyForURL _ _ _ _ _) as [[[rv h] w1]|] eqn:Hg; [|done].
    simpl. intros [= <-]. by eapply atoms_GetProxyForURL.
  - apply atoms_CancelRequest.
  - apply atoms_SetPacScriptHelper.
  - apply atoms_SetPacScriptHelper.
  - apply atoms_Destroy.
Qed.

Lemma atoms_origin_step body w w' :
  wf w → origin_step body w = Some w' → rtc atom w w'.
Proof.
  intros Hwf. unfold origin_step.
  destruct (origin_loop w) as [|[j rc] rest] eqn:Ho; [by intros [= <-]|].
  intros (job & Hj & [[Hc Hrel]|(Hc & wd & w2 & job2 & Hd & Hbody & Hj2 & Hpost)])
    %Job_QueryComplete_inv.
  - apply atoms_Job_Release in Hrel. etrans; [|done].
    apply rtc_once. by econstructor.
  - apply (atoms_run_all run_action) in Hbody;
      [|intros; by eapply atoms_run_action].
    etrans; [apply rtc_once; by eapply atom_deliver|].
    etrans; [done|].
    destruct Hpost as [[_ Hrel]|(_ & _ & w3 & Hrm & Hrel)].
    + by eapply atoms_Job_Release.
    + etrans; [by eapply atoms_RemoveFront|]. by eapply atoms_Job_Release.
Qed.

Lemma atoms_step s w w' : wf w → step s w = Some w' → rtc atom w w'.
Proof.
  intros Hwf. destruct s as [a| |body]; simpl.
  - apply atoms_run_action.
  - apply atoms_worker_step.
  - by apply atoms_origin_step.
Qed.

Lemma atoms_run steps w w' : wf w → run steps w = Some w' → rtc atom w w'.
Proof.
  revert w. unfold run. induction steps as [|s steps IH]; intros w Hwf; simpl.
  { by intros [= <-]. }
  destruct (step s w) as [w1|] eqn:Hs; [|done]. simpl. intros Hrun.
  etrans; [by eapply atoms_step|]. apply IH; [|done]. by eapply wf_step.
Qed.

(** A property kept by every statement holds throughout every execution
    that starts in a world where it holds. *)
Lemma atoms_invariant (P : World → Prop) w w' :
  (∀ w1 w2, atom w1 w2 → P w1 → P w2) → rtc atom w w' → P w → P w'.
Proof. intros Hstep Hrtc. induction Hrtc; eauto. Qed.

(** ** What the logs record *)

Lemma installed_app e s l1 l2 :
  installed e s (l1 ++ l2) = installed e (installed e s l1) l2.
Proof.
  revert s. induction l1 as [|t l1 IH]; intros s; simpl; [done|].
  destruct t; by rewrite IH.
Qed.

Lemma url_of_insert_same (h : list Job) (j : nat) job job' k :
  h !! j = Some job → url_ job' = url_ job →
  url_of (<[j := job']> h) k = url_of h k.
Proof.
  intros Hj Heq. unfold url_of. destruct (decide (k = j)) as [->|Hne].
  - rewrite list_lookup_insert_eq by (by eapply lookup_lt_Some). by rewrite Hj.
  - by rewrite list_lookup_insert_ne.
Qed.

Lemma buf_of_insert_same (h : list Job) (j : nat) job job' k :
  h !! j = Some job → results_buf_ job' = results_buf_ job →
  buf_of (<[j := job']> h) k = buf_of h k.
Proof.
  intros Hj Heq. unfold buf_of. destruct (decide (k = j)) as [->|Hne].
  - rewrite list_lookup_insert_eq by (by eapply lookup_lt_Some). by rewrite Hj.
  - by rewrite list_lookup_insert_ne.
Qed.

Lemma buf_of_insert_ne (h : list Job) (j : nat) job' k :
  k ≠ j → buf_of (<[j := job']> h) k = buf_of h k.
Proof. intros Hne. unfold buf_of. by rewrite list_lookup_insert_ne. Qed.

Lemma elem_of_snoc {A} (l : list A) x y : y ∈ l ++ [x] ↔ y ∈ l ∨ y = x.
Proof. by rewrite elem_of_app, list_elem_of_singleton. Qed.

Lemma cb_after_start_snoc evs e :
  cb_after_start evs →
  (∀ j cb rc, e = EvCallback j cb rc → EvStart j ∈ evs) →
  cb_after_start (evs ++ [e]).
Proof.
  intros H He n j cb rc [[Hlt Hn]|[-> ->]]%lookup_snoc_Some.
  - rewrite take_app_le by lia. by eapply H.
  - rewrite take_app_length. by eapply He.
Qed.

Lemma cb_fifo_snoc evs e :
  cb_fifo evs →
  (∀ j cb rc, e = EvCallback j cb rc →
     ∀ i cb' rc', EvCallback i cb' rc' ∈ evs → i < j) →
  cb_fifo (evs ++ [e]).
Proof.
  intros H He n m i j cb rc cb' rc' Hn Hm Hlt.
  apply lookup_snoc_Some in Hn as [[Hn1 Hn]|[-> Hn]];
    apply lookup_snoc_Some in Hm as [[Hm1 Hm]|[-> Hm]]; try lia.
  - by eapply H.
  - eapply He; [done|]. by eapply list_elem_of_lookup_2.
Qed.

Lemma quiet_clauses (evs l : list Event) :
  Forall (λ e, quiet e = true) l →
  (∀ j, EvStart j ∈ evs ++ l ↔ EvStart j ∈ evs) ∧
  (∀ j cb rc, EvCallback j cb rc ∈ evs ++ l ↔ EvCallback j cb rc ∈ evs) ∧
  (∀ j slot info, EvUse j slot info ∈ evs ++ l ↔ EvUse j slot info ∈ evs) ∧
  (∀ j, count_cb j (evs ++ l) = count_cb j evs) ∧
  (cb_after_start evs → cb_after_start (evs ++ l)) ∧
  (cb_fifo evs → cb_fifo (evs ++ l)).
Proof.
  intros Hl.
  assert (Hin : ∀ e, quiet e = false → e ∈ evs ++ l ↔ e ∈ evs).
  { intros e He. rewrite elem_of_app. split; [|by left]. intros [?|Hx]; [done|].
    rewrite Forall_forall in Hl. apply Hl in Hx. congruence. }
  split_and!; try (intros; by apply Hin).
  - intros j. rewrite count_cb_app.
    assert (count_cb j l = 0) as ->; [|lia].
    clear Hin. induction Hl as [|e l He Hl IH]; [done|].
    destruct e; simpl in *; done.
  - revert evs Hin. induction Hl as [|e l He Hl IH]; intros evs Hin H.
    { by rewrite app_nil_r. }
    rewrite cons_middle, app_assoc. apply IH.
    + intros e' He'. rewrite elem_of_app. split; [|by left]. intros [?|Hx]; [done|].
      rewrite Forall_forall in Hl. apply Hl in Hx. congruence.
    + apply cb_after_start_snoc; [done|]. intros j cb rc ->. done.
  - revert evs Hin. induction Hl as [|e l He Hl IH]; intros evs Hin H.
    { by rewrite app_nil_r. }
    rewrite cons_middle, app_assoc. apply IH.
    + intros e' He'. rewrite elem_of_app. split; [|by left]. intros [?|Hx]; [done|].
      rewrite Forall_forall in Hl. apply Hl in Hx. congruence.
    + apply cb_fifo_snoc; [done|]. intros j cb rc ->. done.
Qed.

Lemma answered_ext r0 w w' j a :
  worker_log w' = worker_log w → (∀ k, url_of (heap w') k = url_of (heap w) k) →
  answered r0 w' j a ↔ answered r0 w j a.
Proof. intros Hl Hu. unfold answered. by rewrite Hl, Hu. Qed.

Lemma answered_snoc r0 w w' t j a :
  worker_log w' = worker_log w ++ [t] →
  (∀ k, url_of (heap w') k = url_of (heap w) k) →
  answered r0 w' j a ↔
  answered r0 w j a ∨
  (t = DoQueryTask j ∧ a = answer r0 (worker_log w) (url_of (heap w) j)).
Proof.
  intros Hl Hu. unfold answered. rewrite Hl, Hu. split.
  - intros (m & [[Hlt Hm]|[-> <-]]%lookup_snoc_Some & ->).
    + left. exists m. split; [done|]. by rewrite take_app_le by lia.
    + right. split; [done|]. by rewrite take_app_length.
  - intros [(m & Hm & ->)|[-> ->]].
    + exists m. pose proof (lookup_lt_Some _ _ _ Hm).
      split; [by rewrite lookup_app_l|]. by rewrite take_app_le by lia.
    + exists (length (worker_log w)). split; [by apply list_lookup_middle|].
      by rewrite take_app_length.
Qed.

Lemma answered_logged r0 w j a : answered r0 w j a → DoQueryTask j ∈ worker_log w.
Proof. intros (m & Hm & _). by eapply list_elem_of_lookup_2. Qed.

Lemma count_dq_zero j l : DoQueryTask j ∉ l → count_dq j l = 0.
Proof.
  intros Hn. destruct (count_dq j l) eqn:E; [done|].
  exfalso. apply Hn, count_dq_elem. lia.
Qed.

(** A statement that leaves the worker's record and the jobs' URLs, buffers
    and started flags alone, adds no engine call, no completion, no start and
    no delivery, and no job to the queue. *)
Lemma recorded_ext r0 w w' evs :
  (∀ r, resolver_ w' = Some r → resolver_ w = Some r) →
  worker_log w' = worker_log w →
  (∀ j, count_dq j (schedule w') = count_dq j (schedule w)) →
  (∀ t, t ∈ origin_loop w' → t ∈ origin_loop w) →
  events w' = events w ++ evs → Forall (λ e, quiet e = true) evs →
  (∀ k, k ∈ pending_jobs_ w' → k ∈ pending_jobs_ w) →
  (∀ k, started (heap w') k = started (heap w) k) →
  (∀ k, url_of (heap w') k = url_of (heap w) k) →
  (∀ k, buf_of (heap w') k = buf_of (heap w) k) →
  recorded r0 w → recorded r0 w'.
Proof.
  intros Hr Hl Hsc Ho He Hq Hp Hs Hu Hb
    [Rres Rsch Ronce Rfresh Rbuf Rqc Rcb Ruse Rstart Rcbs Rdone Rfifo].
  destruct (quiet_clauses (events w) evs Hq) as (Q1 & Q2 & Q3 & Q4 & Q5 & Q6).
  assert (Han : ∀ j a, answered r0 w' j a ↔ answered r0 w j a)
    by (intros; by apply answered_ext).
  constructor.
  - intros r Hr'. rewrite Hl. by apply Rres, Hr.
  - intros j Hj%count_dq_pos. rewrite Hs. apply Rsch, count_dq_elem.
    by rewrite <-Hsc.
  - intros j. rewrite Hsc. apply Ronce.
  - intros j. rewrite Hl, Hb. apply Rfresh.
  - intros j a. rewrite Han, Hb. apply Rbuf.
  - intros j rc Hin%Ho. destruct (Rqc _ _ Hin) as (a & Ha & ->).
    exists a. by rewrite Han.
  - intros j cb rc. rewrite He, Q2. intros Hin.
    destruct (Rcb _ _ _ Hin) as (a & Ha & ->). exists a. by rewrite Han.
  - intros j slot info. rewrite He, Q3. intros Hin.
    destruct (Ruse _ _ _ Hin) as (a & Ha & -> & Hok). exists a. by rewrite Han.
  - intros j. rewrite He, Q1, Hs. apply Rstart.
  - rewrite He. by apply Q5.
  - intros i k. rewrite He, Q4. intros Hi Hk%Hp. by apply Rdone.
  - rewrite He. by apply Q6.
Qed.

Lemma recorded_init r0 : recorded r0 (init r0).
Proof.
  constructor; simpl; try done.
  - by intros r [= <-].
  - intros j Hj. by apply elem_of_nil in Hj.
  - intros j. unfold schedule, worker_tasks. simpl. lia.
  - intros j a (m & Hm & _). done.
  - intros j rc Hj. by apply elem_of_nil in Hj.
  - intros j cb rc Hj. by apply elem_of_nil in Hj.
  - intros j slot info Hj. by apply elem_of_nil in Hj.
  - intros j. split; [by intros ?%elem_of_nil|done].
  - intros i k. lia.
Qed.

Lemma count_cb_elem j evs :
  0 < count_cb j evs → ∃ cb rc, EvCallback j cb rc ∈ evs.
Proof.
  induction evs as [|e evs IH]; simpl; [lia|]. intros H.
  assert (Hrest : 0 < count_cb j evs → ∃ cb rc, EvCallback j cb rc ∈ e :: evs).
  { intros (cb & rc & Hin)%IH. exists cb, rc. by right. }
  destruct e as [| | | |k cb rc| |]; try (by apply Hrest).
  case_bool_decide as Hk; [|apply Hrest; lia]. subst k. exists cb, rc. by left.
Qed.

(** What an event that is no delivery adds to the log. *)
Lemma undelivered_clauses (evs : list Event) e :
  delivery_of e = None →
  (∀ j cb rc, EvCallback j cb rc ∈ evs ++ [e] ↔ EvCallback j cb rc ∈ evs) ∧
  (∀ j slot info, EvUse j slot info ∈ evs ++ [e] ↔ EvUse j slot info ∈ evs) ∧
  (∀ j, count_cb j (evs ++ [e]) = count_cb j evs) ∧
  (cb_after_start evs → cb_after_start (evs ++ [e])) ∧
  (cb_fifo evs → cb_fifo (evs ++ [e])).
Proof.
  intros He. split_and!.
  - intros j cb rc. rewrite elem_of_snoc. split; [|by left].
    intros [?|<-]; done.
  - intros j slot info. rewrite elem_of_snoc. split; [|by left].
    intros [?|<-]; done.
  - intros j. rewrite count_cb_app. destruct e; simpl in *; try done; lia.
  - intros H. apply cb_after_start_snoc; [done|]. by intros j cb rc ->.
  - intros H. apply cb_fifo_snoc; [done|]. by intros j cb rc ->.
Qed.

Lemma recorded_start r0 j job loop w :
  heap w !! j = Some job → is_started job = false → thread_ w = Some loop →
  recorded r0 w →
  recorded r0
    (log (EvStart j)
       (set_thread (Some (loop ++ [DoQueryTask j]))
          (set_job j (AddRef (mkJob (coordinator_ job) (callback_ job)
               (results_ job) (url_ job) true (results_buf_ job)
               (ref_count_ job))) w))).
Proof.
  intros Hj Hns Ht [Rres Rsch Ronce Rfresh Rbuf Rqc Rcb Ruse Rstart Rcbs Rdone Rfifo].
  pose proof (lookup_lt_Some _ _ _ Hj) as Hlt.
  set (job' := AddRef _).
  destruct (undelivered_clauses (events w) (EvStart j) eq_refl)
    as (U1 & U2 & U3 & U4 & U5).
  assert (Hst : ∀ k, started (<[j := job']> (heap w)) k
                     = if bool_decide (k = j) then true else started (heap w) k).
  { intros k. rewrite started_insert. case_bool_decide as H1; case_bool_decide as H2;
      try done; [by destruct H1|]. subst k. exfalso. by apply H1. }
  assert (Hsj : started (heap w) j = false) by (unfold started; by rewrite Hj).
  assert (Hsc : schedule (log (EvStart j)
                   (set_thread (Some (loop ++ [DoQueryTask j]))
                      (set_job j job' w))) = schedule w ++ [DoQueryTask j]).
  { unfold schedule, worker_tasks. simpl. rewrite Ht. simpl. by rewrite app_assoc. }
  assert (Han : ∀ k a, answered r0 (log (EvStart j)
                   (set_thread (Some (loop ++ [DoQueryTask j]))
                      (set_job j job' w))) k a ↔ answered r0 w k a).
  { intros k a. apply answered_ext; [done|]. intros i. simpl.
    by eapply url_of_insert_same. }
  assert (Hb : ∀ k, buf_of (<[j := job']> (heap w)) k = buf_of (heap w) k)
    by (intros k; by eapply buf_of_insert_same).
  constructor; rewrite ?Hsc; simpl.
  - done.
  - intros k. rewrite Hst, elem_of_snoc. intros [Hk|[= ->]].
    + apply Rsch in Hk. by case_bool_decide.
    + by rewrite bool_decide_eq_true_2.
  - intros k. rewrite count_dq_app. simpl. specialize (Ronce k).
    case_bool_decide as Hk; [|lia]. subst k.
    rewrite (count_dq_zero j (schedule w)); [lia|].
    intros Hin%Rsch. congruence.
  - intros k. rewrite Hb. apply Rfresh.
  - intros k a. rewrite Han, Hb. apply Rbuf.
  - intros k rc Hin. destruct (Rqc _ _ Hin) as (a & Ha & ->). exists a. by rewrite Han.
  - intros k cb rc. rewrite U1. intros Hin.
    destruct (Rcb _ _ _ Hin) as (a & Ha & ->). exists a. by rewrite Han.
  - intros k slot info. rewrite U2. intros Hin.
    destruct (Ruse _ _ _ Hin) as (a & Ha & -> & Hok). exists a. by rewrite Han.
  - intros k. rewrite Hst, elem_of_snoc, Rstart. case_bool_decide as Hk.
    + subst k. split; [done|]. intros _. by right.
    + split; [|by left]. intros [?|[= ?]]; done.
  - by apply U4.
  - intros i k. rewrite U3. apply Rdone.
  - by apply U5.
Qed.

Lemma url_of_app (h : list Job) job k :
  url_of (h ++ [job]) k = if bool_decide (k = length h) then url_ job else url_of h k.
Proof.
  unfold url_of. case_bool_decide as Hd.
  - subst k. by rewrite list_lookup_middle.
  - destruct (decide (k < length h)) as [Hlt|Hge].
    + by rewrite lookup_app_l.
    + rewrite !lookup_ge_None_2; [done|lia|]. rewrite length_app. simpl. lia.
Qed.

Lemma buf_of_app (h : list Job) job k :
  buf_of (h ++ [job]) k =
  if bool_decide (k = length h) then results_buf_ job else buf_of h k.
Proof.
  unfold buf_of. case_bool_decide as Hd.
  - subst k. by rewrite list_lookup_middle.
  - destruct (decide (k < length h)) as [Hlt|Hge].
    + by rewrite lookup_app_l.
    + rewrite !lookup_ge_None_2; [done|lia|]. rewrite length_app. simpl. lia.
Qed.

Lemma recorded_enqueued r0 url results callback w :
  recorded r0 w → recorded r0 (enqueued url results callback w).
Proof.
  intros [Rres Rsch Ronce Rfresh Rbuf Rqc Rcb Ruse Rstart Rcbs Rdone Rfifo].
  assert (Hold : ∀ k, started (heap w) k = true → k ≠ length (heap w)).
  { intros k Hs ->. by rewrite started_ge in Hs. }
  assert (Hlog : ∀ k, DoQueryTask k ∈ worker_log w → k ≠ length (heap w)).
  { intros k Hk. apply Hold, Rsch. unfold schedule. apply elem_of_app. by left. }
  assert (Han : ∀ k a, answered r0 (enqueued url results callback w) k a
                       ↔ answered r0 w k a).
  { intros k a. unfold answered, enqueued. simpl. split.
    - intros (m & Hm & ->). exists m. split; [done|].
      rewrite url_of_app, bool_decide_eq_false_2; [done|].
      apply Hlog. by eapply list_elem_of_lookup_2.
    - intros (m & Hm & ->). exists m. split; [done|].
      rewrite url_of_app, bool_decide_eq_false_2; [done|].
      apply Hlog. by eapply list_elem_of_lookup_2. }
  constructor; unfold enqueued in *; simpl.
  - done.
  - intros k Hk. apply Rsch in Hk. rewrite started_app.
    rewrite bool_decide_eq_false_2; [done|]. by apply Hold.
  - done.
  - intros k Hk. rewrite buf_of_app. case_bool_decide; [done|]. by apply Rfresh.
  - intros k a Ha. rewrite buf_of_app. apply Han in Ha.
    rewrite bool_decide_eq_false_2; [by apply Rbuf|].
    apply Hlog. by eapply answered_logged.
  - intros k rc Hin. destruct (Rqc _ _ Hin) as (a & Ha & ->). exists a. by rewrite Han.
  - intros k cb rc Hin. destruct (Rcb _ _ _ Hin) as (a & Ha & ->).
    exists a. by rewrite Han.
  - intros k slot info Hin. destruct (Ruse _ _ _ Hin) as (a & Ha & -> & Hok).
    exists a. by rewrite Han.
  - intros k. rewrite Rstart, started_app. case_bool_decide as Hk; [|done].
    subst k. rewrite started_ge by done. done.
  - done.
  - intros i k Hi [Hk|Hk%list_elem_of_singleton]%elem_of_app; [by apply Rdone|].
    subst k. destruct (count_cb_elem _ _ Hi) as (cb & rc & Hin).
    apply list_elem_of_lookup_1 in Hin as [n Hn].
    pose proof (Rcbs _ _ _ _ Hn) as Hs.
    assert (Hs' : EvStart i ∈ events w).
    { rewrite <-(take_drop n (events w)). apply elem_of_app. by left. }
    apply Rstart, started_lt in Hs'. lia.
  - done.
Qed.

Lemma recorded_configure r0 u b r rest w :
  thread_ w = Some (SetPacScriptTask u b :: rest) → resolver_ w = Some r →
  recorded r0 w →
  recorded r0
    (set_resolver
       (Some (if expects_pac_bytes r then SetPacScriptByData b r
              else SetPacScriptByUrl u r))
       (set_worker_log (worker_log w ++ [SetPacScriptTask u b])
          (set_thread (Some rest) w))).
Proof.
  intros Ht Hr [Rres Rsch Ronce Rfresh Rbuf Rqc Rcb Ruse Rstart Rcbs Rdone Rfifo].
  set (w' := set_resolver _ _).
  assert (Hsc : schedule w' = schedule w).
  { unfold schedule, worker_tasks. simpl. rewrite Ht. simpl. by rewrite <-app_assoc. }
  assert (Han : ∀ k a, answered r0 w' k a ↔ answered r0 w k a).
  { intros k a. rewrite (answered_snoc r0 w w' (SetPacScriptTask u b)) by done.
    split; [|by left]. by intros [?|[? _]]. }
  constructor; rewrite ?Hsc; try done.
  - intros r' [= <-]. destruct (Rres r Hr) as (He & Hen & Hp). simpl.
    rewrite installed_app. simpl. rewrite <-He.
    destruct (expects_pac_bytes r) eqn:E; simpl; rewrite ?E; by split_and!.
  - intros k Hk. simpl. apply Rfresh. intros Hin. apply Hk. simpl.
    apply elem_of_app. by left.
  - intros k a. rewrite Han. apply Rbuf.
  - intros k rc Hin. destruct (Rqc _ _ Hin) as (a & Ha & ->). exists a. by rewrite Han.
  - intros k cb rc Hin. destruct (Rcb _ _ _ Hin) as (a & Ha & ->).
    exists a. by rewrite Han.
  - intros k slot info Hin. destruct (Ruse _ _ _ Hin) as (a & Ha & -> & Hok).
    exists a. by rewrite Han.
Qed.

Lemma recorded_query r0 j job r rest w :
  thread_ w = Some (DoQueryTask j :: rest) → heap w !! j = Some job →
  resolver_ w = Some r → recorded r0 w →
  recorded r0
    (set_origin
       (origin_loop w ++
          [QueryCompleteTask j
             (engine r (pac_script r) (url_ job) (results_buf_ job)).1])
       (set_job j (mkJob (coordinator_ job) (callback_ job) (results_ job)
                    (url_ job) (is_started_ job)
                    (engine r (pac_script r) (url_ job) (results_buf_ job)).2
                    (ref_count_ job))
          (set_worker_log (worker_log w ++ [DoQueryTask j])
             (set_thread (Some rest) w)))).
Proof.
  intros Ht Hj Hr [Rres Rsch Ronce Rfresh Rbuf Rqc Rcb Ruse Rstart Rcbs Rdone Rfifo].
  set (w' := set_origin _ _).
  destruct (Rres r Hr) as (He & Hen & Hp).
  assert (Hsc : schedule w' = schedule w).
  { unfold schedule, worker_tasks. simpl. rewrite Ht. simpl. by rewrite <-app_assoc. }
  assert (Hnew : DoQueryTask j ∉ worker_log w).
  { intros Hin%count_dq_pos. specialize (Ronce j).
    unfold schedule, worker_tasks in Ronce. rewrite Ht in Ronce. simpl in Ronce.
    rewrite count_dq_app in Ronce. simpl in Ronce.
    rewrite bool_decide_eq_true_2 in Ronce by done. lia. }
  assert (Hurl : url_ job = url_of (heap w) j) by (unfold url_of; by rewrite Hj).
  assert (Hbuf : results_buf_ job = "").
  { specialize (Rfresh j Hnew). unfold buf_of in Rfresh. by rewrite Hj in Rfresh. }
  assert (Hans : engine r (pac_script r) (url_ job) (results_buf_ job)
                 = answer r0 (worker_log w) (url_of (heap w) j)).
  { unfold answer. by rewrite Hen, Hp, Hbuf, Hurl. }
  assert (Hu : ∀ k, url_of (heap w') k = url_of (heap w) k).
  { intros k. simpl. by eapply url_of_insert_same. }
  assert (Hst : ∀ k, started (heap w') k = started (heap w) k).
  { intros k. simpl. by eapply started_insert_same. }
  assert (Han : ∀ k a, answered r0 w' k a ↔
            answered r0 w k a ∨
            (DoQueryTask j = DoQueryTask k ∧
             a = answer r0 (worker_log w) (url_of (heap w) k)))
    by (intros k a; by apply answered_snoc).
  constructor; rewrite ?Hsc; try done.
  - intros r1 Hr1. simpl in Hr1. destruct (Rres r1 Hr1) as (? & ? & ?).
    simpl. rewrite installed_app. by simpl.
  - intros k. rewrite Hst. apply Rsch.
  - intros k Hk. simpl. rewrite buf_of_insert_ne.
    + apply Rfresh. intros Hin. apply Hk. simpl. apply elem_of_app. by left.
    + intros ->. apply Hk. simpl. apply elem_of_app. right. by left.
  - intros k a [Ha|[[= <-] ->]]%Han; simpl.
    + rewrite buf_of_insert_ne; [by apply Rbuf|].
      intros ->. by apply Hnew, (answered_logged r0 w j a).
    + unfold buf_of. rewrite list_lookup_insert_eq by (by eapply lookup_lt_Some).
      simpl. by rewrite Hans.
  - intros k rc. simpl. rewrite elem_of_snoc. intros [Hin|[= -> ->]].
    + destruct (Rqc _ _ Hin) as (a & Ha & ->). exists a. split; [|done].
      apply Han. by left.
    + eexists. split; [apply Han; by right|]. by rewrite Hans.
  - intros k cb rc Hin. destruct (Rcb _ _ _ Hin) as (a & Ha & ->).
    exists a. split; [|done]. apply Han. by left.
  - intros k slot info Hin. destruct (Ruse _ _ _ Hin) as (a & Ha & -> & Hok).
    exists a. split; [|done]. apply Han. by left.
  - intros k. rewrite Hst. apply Rstart.
Qed.

Lemma recorded_delivered r0 j rc rest job wd w :
  wf w → origin_loop w = QueryCompleteTask j rc :: rest →
  heap w !! j = Some job → was_cancelled job = false →
  delivered j job rc (set_origin rest w) = Some wd →
  recorded r0 w → recorded r0 wd.
Proof.
  intros Hwf Ho Hj Hnc Hd
    [Rres Rsch Ronce Rfresh Rbuf Rqc Rcb Ruse Rstart Rcbs Rdone Rfifo].
  assert (Hcj : cancelled (heap w) j = false) by (unfold cancelled; by rewrite Hj).
  destruct (origin_step_head _ _ _ _ Hwf Ho Hcj) as (Hhd & Hcb0 & _).
  destruct (active_is_head w j Hwf) as (_ & Hsj & _); [|done|].
  { rewrite Ho. simpl. rewrite bool_decide_eq_true_2 by done. lia. }
  destruct (Rqc j rc) as (a & Ha & Hrc); [rewrite Ho; by left|].
  pose proof (Rbuf _ _ Ha) as Hbuf. unfold buf_of in Hbuf. rewrite Hj in Hbuf.
  apply delivered_fields in Hd
    as (cb & Hcb & _ & Hrd & Htd & Hqd & Hhd' & Hod & Hld & Hev).
  simpl in Hrd, Htd, Hqd, Hhd', Hod, Hld.
  assert (Hsc : schedule wd = schedule w).
  { unfold schedule, worker_tasks. by rewrite Hld, Htd. }
  assert (Han : ∀ k a', answered r0 wd k a' ↔ answered r0 w k a').
  { intros k a'. apply answered_ext; [done|]. intros i. by rewrite Hhd'. }
  assert (Hmin : ∀ k, k ∈ pending_jobs_ w → j ≤ k).
  { intros k Hk. destruct (pending_jobs_ w) as [|j0 q] eqn:Hq; [done|].
    injection Hhd as ->. apply elem_of_cons in Hk as [->|Hk]; [done|].
    pose proof (wf_sorted _ (wf_base _ Hwf)) as Hs. rewrite Hq in Hs.
    pose proof (sorted_head_lt _ _ _ Hs Hk). lia. }
  assert (Hbefore : ∀ i cb' rc', EvCallback i cb' rc' ∈ events w → i < j).
  { intros i cb' rc' Hin.
    assert (Hi : 0 < count_cb i (events w)) by (by eapply count_cb_pos).
    assert (i ≤ j).
    { apply Rdone; [done|]. destruct (pending_jobs_ w); [done|].
      injection Hhd as ->. by left. }
    destruct (decide (i = j)) as [->|]; lia. }
  assert (Hsev : EvStart j ∈ events w) by (by apply Rstart).
  assert (∃ pre, events wd = (events w ++ pre) ++ [EvCallback j cb rc] ∧
            Forall (λ e, ∃ slot, e = EvUse j slot a.2 ∧ (OK <= a.1)%Z) pre)
    as (pre & He & Hpre).
  { destruct Hev as [(Hge & slot & _ & _ & ->)|(_ & _ & ->)].
    - exists [EvUse j slot (results_buf_ job)]. rewrite <-app_assoc. split; [done|].
      repeat constructor. exists slot. rewrite Hbuf. split; [done|]. lia.
    - exists []. by rewrite app_nil_r. }
  assert (Hmid : (∀ k, EvStart k ∈ events w ++ pre ↔ EvStart k ∈ events w) ∧
            (∀ k cb' rc', EvCallback k cb' rc' ∈ events w ++ pre
                          ↔ EvCallback k cb' rc' ∈ events w) ∧
            (∀ k, count_cb k (events w ++ pre) = count_cb k (events w)) ∧
            cb_after_start (events w ++ pre) ∧ cb_fifo (events w ++ pre) ∧
            (∀ k slot info, EvUse k slot info ∈ events w ++ pre →
               EvUse k slot info ∈ events w ∨
               (k = j ∧ info = a.2 ∧ (OK <= a.1)%Z))).
  { destruct pre as [|e pre]; [rewrite app_nil_r; split_and!; by auto|].
    apply Forall_cons in Hpre as [(slot & -> & Hok) Hpre].
    destruct pre; [|apply Forall_cons in Hpre as [(? & ? & ?) _]].
    2:{ destruct Hev as [(_ & ? & _ & _ & Hev)|(_ & _ & Hev)]; rewrite Hev in He;
          apply (f_equal length) in He; rewrite !length_app in He; simpl in He; lia. }
    split_and!.
    - intros k. rewrite elem_of_snoc. split; [|by left]. by intros [?|[=]].
    - intros k cb' rc'. rewrite elem_of_snoc. split; [|by left]. by intros [?|[=]].
    - intros k. rewrite count_cb_app. simpl. lia.
    - apply cb_after_start_snoc; [done|]. by intros ? ? ? [=].
    - apply cb_fifo_snoc; [done|]. by intros ? ? ? [=].
    - intros k slot' info. rewrite elem_of_snoc. intros [?|[= -> -> ->]]; [by left|].
      by right. }
  destruct Hmid as (M1 & M2 & M3 & M4 & M5 & M6).
  constructor; rewrite ?Hsc, ?Hld, ?Hhd', ?Hrd, ?Hqd, ?Hod; try done.
  - intros k a'. rewrite Han. apply Rbuf.
  - intros k rc' Hin. destruct (Rqc k rc') as (a' & Ha' & ->); [rewrite Ho; by right|].
    exists a'. by rewrite Han.
  - intros k cb' rc'. rewrite He, elem_of_snoc, M2. intros [Hin|[= -> -> ->]].
    + destruct (Rcb _ _ _ Hin) as (a' & Ha' & ->). exists a'. by rewrite Han.
    + exists a. by rewrite Han.
  - intros k slot info. rewrite He, elem_of_snoc. intros [Hin|[=]].
    destruct (M6 _ _ _ Hin) as [Hold|(-> & -> & Hok)].
    + destruct (Ruse _ _ _ Hold) as (a' & Ha' & -> & Hok). exists a'. by rewrite Han.
    + exists a. by rewrite Han.
  - intros k. rewrite He, elem_of_snoc, M1, Rstart. split; [|by left].
    by intros [?|[=]].
  - rewrite He. apply cb_after_start_snoc; [done|].
    intros k cb' rc' [= <- <- <-]. by apply M1.
  - intros i k. rewrite He, count_cb_app, M3. simpl. intros Hi Hk.
    case_bool_decide as Hij; [subst i; by apply Hmin|].
    apply Rdone; [lia|done].
  - rewrite He. apply cb_fifo_snoc; [done|].
    intros k cb' rc' [= <- <- <-] i cb'' rc''. rewrite M2. apply Hbefore.
Qed.

Lemma recorded_atom r0 w w' : atom w w' → recorded r0 w → recorded r0 w'.
Proof.
  intros Hatom Hrec.
  destruct Hatom as [j job w Hj|j job w Hj|j job loop w Hj Hns Ht|w Ht|q w Hq|
                     url results callback w|u b loop w Ht|j job r rest w Ht Hj Hr|
                     u b r rest w Ht Hr|w Ht|w|j rc rest job wd w Hwf Ho Hj Hnc Hd|
                     j rc rest w Ho].
  - (* Release *)
    apply (recorded_ext r0 w _ []); simpl; try done.
    + by rewrite app_nil_r.
    + intros k. by eapply started_insert_same.
    + intros k. by eapply url_of_insert_same.
    + intros k. by eapply buf_of_insert_same.
  - (* Cancel *)
    apply (recorded_ext r0 w _ [EvCancel j]); simpl; try done.
    + by repeat constructor.
    + intros k. by eapply started_insert_same.
    + intros k. by eapply url_of_insert_same.
    + intros k. by eapply buf_of_insert_same.
  - (* Start *)
    by apply recorded_start.
  - (* the thread starts *)
    apply (recorded_ext r0 w _ [EvThreadStart]); simpl; try done.
    + intros k. unfold schedule, worker_tasks. simpl. by rewrite Ht.
    + by repeat constructor.
  - (* the queue shrinks *)
    apply (recorded_ext r0 w _ []); simpl; try done. by rewrite app_nil_r.
  - (* a job is queued *)
    by apply recorded_enqueued.
  - (* a configuration is posted *)
    apply (recorded_ext r0 w _ []); simpl; try done.
    + intros k. unfold schedule, worker_tasks. simpl. rewrite Ht. simpl.
      rewrite !count_dq_app. simpl. lia.
    + by rewrite app_nil_r.
  - (* DoQuery *)
    by apply recorded_query.
  - (* SetPacScriptTask *)
    by apply recorded_configure.
  - (* the thread stops *)
    apply (recorded_ext r0 w _ [EvThreadStop]); simpl; try done.
    + intros k. unfold schedule, worker_tasks. simpl. by rewrite Ht.
    + by repeat constructor.
  - (* the members are gone *)
    apply (recorded_ext r0 w _ [EvResolverDestroyed]); simpl; try done.
    by repeat constructor.
  - (* delivery *)
    by eapply recorded_delivered.
  - (* the completion of a cancelled job *)
    apply (recorded_ext r0 w _ []); simpl; try done.
    + intros t Hin. rewrite Ho. by right.
    + by rewrite app_nil_r.
Qed.

Lemma recorded_run r0 steps w : run steps (init r0) = Some w → recorded r0 w.
Proof.
  intros Hrun. eapply (atoms_invariant (recorded r0)).
  - intros w1 w2. apply recorded_atom.
  - eapply atoms_run; [apply wf_init|done].
  - apply recorded_init.
Qed.

(** ** The wrapped resolver *)

Lemma installed_none e s l : no_configuration l → installed e s l = s.
Proof.
  induction l as [|t l IH]; intros Hn; simpl; [done|].
  destruct t as [j|u b].
  - apply IH. intros u b Hin. apply (Hn u b). by right.
  - exfalso. apply (Hn u b). by left.
Qed.

Lemma installed_last e s pre u b post :
  no_configuration post →
  installed e s (pre ++ SetPacScriptTask u b :: post)
  = if e then ScriptByData b else ScriptByUrl u.
Proof. intros Hn. rewrite installed_app. simpl. by apply installed_none. Qed.

(** X8: the wrapped resolver keeps its capability flag and its engine for
    ever, and its script is the one of the last configuration task that the
    worker thread has run, the initial script if there was none.  Which of
    the two arguments of a configuration task is installed depends on the
    flag alone: a call by URL posts the URL with empty bytes and a call by
    data posts the bytes with an empty URL, so that a call by URL on an
    engine that expects bytes installs the empty byte string, and a call by
    data on an engine that expects a URL installs the empty URL. *)
Theorem last_configuration_is_installed r0 steps w r :
  run steps (init r0) = Some w → resolver_ w = Some r →
  expects_pac_bytes r = expects_pac_bytes r0 ∧ engine r = engine r0 ∧
  pac_script r = installed (expects_pac_bytes r0) (pac_script r0) (worker_log w) ∧
  (no_configuration (worker_log w) → pac_script r = pac_script r0) ∧
  (∀ pre pac_url bytes post,
     worker_log w = pre ++ SetPacScriptTask pac_url bytes :: post →
     no_configuration post →
     pac_script r = if expects_pac_bytes r0 then ScriptByData bytes
                    else ScriptByUrl pac_url) ∧
  (∀ pac_url w', SetPacScriptByUrlInternal pac_url w = Some w' →
     schedule w' = schedule w ++ [SetPacScriptTask pac_url ""]) ∧
  (∀ bytes w', SetPacScriptByDataInternal bytes w = Some w' →
     schedule w' = schedule w ++ [SetPacScriptTask "" bytes]).
Proof.
  intros Hrun Hr. destruct (recorded_run _ _ _ Hrun) as [Rres _ _ _ _ _ _ _ _ _ _ _].
  destruct (Rres r Hr) as (He & Hen & Hp). split_and!; try done.
  - intros Hn. by rewrite Hp, installed_none.
  - intros pre u b post Hl Hn. by rewrite Hp, Hl, installed_last.
  - intros u w' [_ Hs]%fq_SetPacScriptHelper. done.
  - intros b w' [_ Hs]%fq_SetPacScriptHelper. done.
Qed.

Lemma last_configuration_is_installed_witness :
  ∃ r, resolver_ (after [SUser (ASetPacScriptByData "script");
                         SUser (ASetPacScriptByUrl "pac"); SWorker; SWorker])
       = Some r ∧
       pac_script r = ScriptByUrl "pac".
Proof.
  exists (mkResolver false (ScriptByUrl "pac") example_engine).
  split; [vm_compute; reflexivity|].
  destruct (last_configuration_is_installed example_resolver
              [SUser (ASetPacScriptByData "script");
               SUser (ASetPacScriptByUrl "pac"); SWorker; SWorker]
              (after [SUser (ASetPacScriptByData "script");
                      SUser (ASetPacScriptByUrl "pac"); SWorker; SWorker])
              (mkResolver false (ScriptByUrl "pac") example_engine))
    as (_ & _ & _ & _ & Hlast & _); [vm_compute; reflexivity..|].
  apply (Hlast [SetPacScriptTask "" "script"] "pac" "" []);
    [vm_compute; reflexivity|].
  intros u b Hin. by apply elem_of_nil in Hin.
Defined.

(** ** What a callback is given *)

Lemma owned_ext j url results cb w w' evs :
  heap w' !! j = heap w !! j → events w' = events w ++ evs →
  Forall (λ e, quiet e = true) evs →
  owned j url results cb w → owned j url results cb w'.
Proof.
  intros Hh He Hq [O1 O2 O3].
  destruct (quiet_clauses (events w) evs Hq) as (_ & Q2 & Q3 & _).
  constructor.
  - by rewrite Hh.
  - intros cb' rc. rewrite He, Q2. apply O2.
  - intros slot info. rewrite He, Q3. apply O3.
Qed.

Lemma owned_set_job j url results cb k jobk jobk' w evs :
  heap w !! k = Some jobk → url_ jobk' = url_ jobk →
  (callback_ jobk' = callback_ jobk ∨ callback_ jobk' = None) →
  (results_ jobk' = results_ jobk ∨ results_ jobk' = None) →
  ∀ w', heap w' = <[k := jobk']> (heap w) → events w' = events w ++ evs →
  Forall (λ e, quiet e = true) evs →
  owned j url results cb w → owned j url results cb w'.
Proof.
  intros Hk Hu Hc Hr w' Hh He Hq [(job & Hj & Hju & Hjc & Hjr) O2 O3].
  destruct (quiet_clauses (events w) evs Hq) as (_ & Q2 & Q3 & _).
  constructor.
  - rewrite Hh. destruct (decide (j = k)) as [->|Hne].
    + rewrite list_lookup_insert_eq by (by eapply lookup_lt_Some).
      assert (jobk = job) as -> by congruence.
      exists jobk'. split_and!; [done|congruence| |].
      * destruct Hc as [->| ->]; auto.
      * destruct Hr as [->| ->]; auto.
    + rewrite list_lookup_insert_ne by done. by exists job.
  - intros cb' rc. rewrite He, Q2. apply O2.
  - intros slot info. rewrite He, Q3. apply O3.
Qed.

Lemma owned_atom j url results cb w w' :
  atom w w' → owned j url results cb w → owned j url results cb w'.
Proof.
  intros Hatom Hown.
  destruct Hatom as [k job w Hk|k job w Hk|k job loop w Hk Hns Ht|w Ht|q w Hq|
                     url' results' callback w|u b loop w Ht|k job r rest w Ht Hk Hr|
                     u b r rest w Ht Hr|w Ht|w|k rc rest job wd w Hwf Ho Hk Hnc Hd|
                     k rc rest w Ho].
  - eapply (owned_set_job _ _ _ _ k job (Release job) w []); try done; auto.
    simpl. by rewrite app_nil_r.
  - eapply (owned_set_job _ _ _ _ k job
              (mkJob None None None (url_ job) (is_started_ job)
                     (results_buf_ job) (ref_count_ job)) w [EvCancel k]);
      try done; simpl; auto.
  - destruct Hown as [(jb & Hj & Hju & Hjc & Hjr) O2 O3].
    destruct (undelivered_clauses (events w) (EvStart k) eq_refl) as (U1 & U2 & _).
    constructor; simpl.
    + destruct (decide (j = k)) as [->|Hne].
      * rewrite list_lookup_insert_eq by (by eapply lookup_lt_Some).
        assert (job = jb) as -> by congruence. eexists. split; [done|]. by simpl.
      * rewrite list_lookup_insert_ne by done. by exists jb.
    + intros cb' rc. rewrite U1. apply O2.
    + intros slot info. rewrite U2. apply O3.
  - apply (owned_ext _ _ _ _ w _ [EvThreadStart]); try done. by repeat constructor.
  - apply (owned_ext _ _ _ _ w _ []); try done. simpl. by rewrite app_nil_r.
  - apply (owned_ext _ _ _ _ w _ []); try done.
    + unfold enqueued. simpl. destruct Hown as [(jb & Hj & _) _ _].
      rewrite lookup_app_l by (by eapply lookup_lt_Some). done.
    + simpl. by rewrite app_nil_r.
  - apply (owned_ext _ _ _ _ w _ []); try done. simpl. by rewrite app_nil_r.
  - eapply (owned_set_job _ _ _ _ k job
              (mkJob (coordinator_ job) (callback_ job) (results_ job)
                 (url_ job) (is_started_ job)
                 (engine r (pac_script r) (url_ job) (results_buf_ job)).2
                 (ref_count_ job)) w []);
      try done; simpl; auto.
    by rewrite app_nil_r.
  - apply (owned_ext _ _ _ _ w _ []); try done. simpl. by rewrite app_nil_r.
  - apply (owned_ext _ _ _ _ w _ [EvThreadStop]); try done. by repeat constructor.
  - apply (owned_ext _ _ _ _ w _ [EvResolverDestroyed]); try done.
    by repeat constructor.
  - destruct Hown as [(jb & Hj & Hju & Hjc & Hjr) O2 O3].
    apply delivered_fields in Hd
      as (cb0 & Hcb & _ & _ & _ & _ & Hhd' & _ & _ & Hev).
    simpl in Hhd'.
    assert (Hmine : k = j → cb0 = cb ∧
              ∀ slot, results_ job = Some slot → results = Some slot).
    { intros ->. assert (job = jb) as -> by congruence.
      destruct Hjc as [Hc|Hc]; [|congruence]. split; [congruence|].
      intros slot Hs. destruct Hjr as [<-|Hn]; congruence. }
    constructor.
    + rewrite Hhd'. by exists jb.
    + intros cb' rc'.
      destruct Hev as [(_ & slot & _ & _ & ->)|(_ & _ & ->)];
        rewrite !elem_of_app, ?elem_of_cons, ?elem_of_nil.
      * intros [?|[[=]|[[= -> -> ->]|[]]]]; [by eapply O2|]. by apply Hmine.
      * intros [?|[[= -> -> ->]|[]]]; [by eapply O2|]. by apply Hmine.
    + intros slot' info.
      destruct Hev as [(_ & slot & Hres & _ & ->)|(_ & _ & ->)];
        rewrite !elem_of_app, ?elem_of_cons, ?elem_of_nil.
      * intros [?|[[= -> -> ->]|[[=]|[]]]]; [by eapply O3|].
        by apply (proj2 (Hmine eq_refl)).
      * intros [?|[[=]|[]]]. by eapply O3.
  - apply (owned_ext _ _ _ _ w _ []); try done. simpl. by rewrite app_nil_r.
Qed.

Lemma owned_submitted r0 steps0 w url results cb request rv h w1 :
  run steps0 (init r0) = Some w →
  GetProxyForURL url results (Some cb) request w = Some (rv, h, w1) →
  owned (length (heap w)) url results cb w1.
Proof.
  intros Hrun Hg.
  assert (Hr : reachable w) by (by exists r0, steps0).
  pose proof (reachable_wf _ Hr) as Hwf.
  destruct (recorded_run _ _ _ Hrun) as [_ Rsch _ _ _ _ Rcb Ruse _ _ _ _].
  pose proof (fq_GetProxyForURL _ _ _ _ _ _ _ _ Hg) as [(evs & He & Hq) _ _ _ _ _].
  apply GetProxyForURL_inv in Hg as (_ & _ & _ & _ & Hp).
  eapply (ProcessPendingJobs_keeps _ _ (length (heap w))
            (AddRef (mkJob (Some this_resolver) (Some cb) results url false "" 0)))
    in Hp as (job & Hj & Hcb & Hres & Hu & _).
  2:{ unfold enqueued. simpl. by apply list_lookup_middle. }
  assert (Hfresh : ∀ a, ¬ answered r0 w (length (heap w)) a).
  { intros a Hin%answered_logged.
    assert (DoQueryTask (length (heap w)) ∈ schedule w) as Hs%Rsch
      by (apply elem_of_app; by left).
    by rewrite started_ge in Hs. }
  constructor.
  - exists job. simpl in *. split_and!; auto.
  - intros cb' rc. rewrite He, elem_of_app. intros [Hin|Hin].
    + destruct (Rcb _ _ _ Hin) as (a & Ha & _). by destruct (Hfresh a).
    + by apply Hq in Hin.
  - intros slot info. rewrite He, elem_of_app. intros [Hin|Hin].
    + destruct (Ruse _ _ _ Hin) as (a & Ha & _). by destruct (Hfresh a).
    + by apply Hq in Hin.
Qed.

(** X9: what a request is answered with.  Let a query for [url] be
    submitted with the callback [cb] and the output slot [results], and let
    the execution continue in any way.  If the callback of its job runs, it
    is [cb] that runs, and the code it is given is the code that the wrapped
    engine returned for [url] when the worker thread ran the job's engine
    call, under the script installed by the tasks the worker had run before,
    on an empty buffer.  If the output slot is written, it is the slot
    [results] and it receives the buffer of that same engine call, whose
    code was a success. *)
Theorem callback_gets_engine_answer r0 steps0 w url results cb request rv h w1
    steps w2 :
  run steps0 (init r0) = Some w →
  GetProxyForURL url results (Some cb) request w = Some (rv, h, w1) →
  run steps w1 = Some w2 →
  (∀ cb' rc, EvCallback (length (heap w)) cb' rc ∈ events w2 →
     cb' = cb ∧
     ∃ m, worker_log w2 !! m = Some (DoQueryTask (length (heap w))) ∧
          rc = (engine r0 (installed (expects_pac_bytes r0) (pac_script r0)
                             (take m (worker_log w2))) url "").1) ∧
  (∀ slot info, EvUse (length (heap w)) slot info ∈ events w2 →
     results = Some slot ∧
     ∃ m, worker_log w2 !! m = Some (DoQueryTask (length (heap w))) ∧
          info = (engine r0 (installed (expects_pac_bytes r0) (pac_script r0)
                               (take m (worker_log w2))) url "").2 ∧
          (OK <= (engine r0 (installed (expects_pac_bytes r0) (pac_script r0)
                               (take m (worker_log w2))) url "").1)%Z).
Proof.
  intros Hrun Hg Hrun2.
  assert (Hr : reachable w) by (by exists r0, steps0).
  assert (Hstep : step (SUser (ASubmit url results (Some cb) request)) w = Some w1)
    by (simpl; by rewrite Hg).
  assert (Hrun1 : run (steps0 ++ [SUser (ASubmit url results (Some cb) request)])
                      (init r0) = Some w1).
  { rewrite run_app, Hrun. simpl. unfold run. simpl. simpl in Hstep.
    by rewrite Hstep. }
  assert (Hr1 : reachable w1) by (by eexists _, _).
  assert (Hall : run ((steps0 ++ [SUser (ASubmit url results (Some cb) request)])
                      ++ steps) (init r0) = Some w2).
  { rewrite run_app, Hrun1. done. }
  destruct (recorded_run _ _ _ Hall) as [_ _ _ _ _ _ Rcb Ruse _ _ _ _].
  pose proof (owned_submitted _ _ _ _ _ _ _ _ _ _ Hrun Hg) as Hown.
  assert (Hown2 : owned (length (heap w)) url results cb w2).
  { eapply (atoms_invariant (owned (length (heap w)) url results cb)); [|by
      eapply atoms_run; [apply (reachable_wf _ Hr1)|]|done].
    intros wa wb. apply owned_atom. }
  destruct Hown2 as [(job & Hj & Hu & _) O2 O3].
  assert (Hurl : url_of (heap w2) (length (heap w)) = url)
    by (unfold url_of; by rewrite Hj).
  split.
  - intros cb' rc Hin. split; [by eapply O2|].
    destruct (Rcb _ _ _ Hin) as (a & (m & Hm & ->) & ->).
    exists m. split; [done|]. by rewrite Hurl.
  - intros slot info Hin. split; [by eapply O3|].
    destruct (Ruse _ _ _ Hin) as (a & (m & Hm & ->) & -> & Hok).
    exists m. rewrite Hurl in *. by split_and!.
Qed.

Lemma callback_gets_engine_answer_witness :
  ∃ m, worker_log (after [submit "a" 10 100; SWorker; SOrigin []]) !! m
       = Some (DoQueryTask 0) ∧
       0%Z = (engine example_resolver
                (installed false NoScript
                   (take m (worker_log (after [submit "a" 10 100; SWorker;
                                               SOrigin []])))) "a" "").1.
Proof.
  destruct (callback_gets_engine_answer example_resolver [] (init example_resolver)
              "a" (Some 10) 100 true ERR_IO_PENDING (Some 0)
              (after [submit "a" 10 100]) [SWorker; SOrigin []]
              (after [submit "a" 10 100; SWorker; SOrigin []]))
    as [Hcb _]; [vm_compute; reflexivity..|].
  destruct (Hcb 100 0%Z) as (_ & m & Hm & Hrc).
  { vm_compute. do 3 right. left. }
  exists m. split; [exact Hm|exact Hrc].
Defined.

(** ** The order of the callbacks *)

(** X10: callbacks run in the order in which their requests were submitted
    (the order of the addresses of their jobs), each at most once; a
    callback runs only after its job was started and after the worker thread
    has run the job's engine call, which is scheduled at most once; and a
    job is started exactly when its start is in the log. *)
Theorem callbacks_in_submission_order w :
  reachable w →
  cb_fifo (events w) ∧ cb_after_start (events w) ∧
  (∀ j cb rc, EvCallback j cb rc ∈ events w → DoQueryTask j ∈ worker_log w) ∧
  (∀ j, count_cb j (events w) ≤ 1) ∧
  (∀ j, count_dq j (schedule w) ≤ 1) ∧
  (∀ j, EvStart j ∈ events w ↔ started (heap w) j = true).
Proof.
  intros Hr. pose proof (reachable_wf _ Hr) as [Hw _ _].
  destruct Hr as (r0 & steps & Hrun).
  destruct (recorded_run _ _ _ Hrun)
    as [_ _ Ronce _ _ _ Rcb _ Rstart Rcbs _ Rfifo].
  split_and!; try done.
  - intros j cb rc Hin. destruct (Rcb _ _ _ Hin) as (a & Ha & _).
    by eapply answered_logged.
  - intros j. pose proof (wf_activity _ Hw j) as Hact. unfold job_activity in Hact.
    destruct (started (heap w) j); lia.
Qed.

Lemma callbacks_in_submission_order_witness :
  DoQueryTask 1 ∈ worker_log
    (after [submit "a" 10 100; submit "b" 11 101; SWorker; SOrigin [];
            SWorker; SOrigin []]) ∧
  EvStart 1 ∈ take 6 (events
    (after [submit "a" 10 100; submit "b" 11 101; SWorker; SOrigin [];
            SWorker; SOrigin []])).
Proof.
  assert (Hr : reachable (after [submit "a" 10 100; submit "b" 11 101; SWorker;
                                 SOrigin []; SWorker; SOrigin []])).
  { apply reachable_after. vm_compute. eauto. }
  destruct (callbacks_in_submission_order _ Hr) as (_ & Hs & Hl & _).
  split.
  - apply (Hl 1 101 0%Z). vm_compute. do 6 right. left.
  - apply (Hs 6 1 101 0%Z). vm_compute. reflexivity.
Defined.

(** ** A job keeps its request *)

(** X11: over any execution a job stays at its address and keeps its URL; a
    started job stays started and a cancelled job stays cancelled; and the
    three pointers of the job ([coordinator_], [callback_], [results_]) are
    either all as they were or all null. *)
Theorem job_keeps_its_request steps w w' j job :
  run steps w = Some w' → heap w !! j = Some job →
  ∃ job', heap w' !! j = Some job' ∧ url_ job' = url_ job ∧
    (is_started job = true → is_started job' = true) ∧
    (was_cancelled job = true → was_cancelled job' = true) ∧
    ((coordinator_ job' = coordinator_ job ∧ callback_ job' = callback_ job ∧
      results_ job' = results_ job) ∨
     (coordinator_ job' = None ∧ callback_ job' = None ∧ results_ job' = None)).
Proof.
  intros Hrun Hj.
  destruct (jobs_evolve_run _ _ _ Hrun _ _ Hj) as (job' & Hj' & Hu & Hs & Hp).
  exists job'. split_and!; try done.
  unfold was_cancelled. destruct Hp as [(_ & -> & _)|(_ & -> & _)]; done.
Qed.

Lemma job_keeps_its_request_witness :
  ∃ job', heap (after [submit "a" 10 100; submit "b" 11 101;
                       SUser (ACancel (Some 1)); SWorker; SOrigin []]) !! 1
          = Some job' ∧ url_ job' = "b" ∧ callback_ job' = None.
Proof.
  destruct (job_keeps_its_request
              [SUser (ACancel (Some 1)); SWorker; SOrigin []]
              (after [submit "a" 10 100; submit "b" 11 101])
              (after [submit "a" 10 100; submit "b" 11 101;
                      SUser (ACancel (Some 1)); SWorker; SOrigin []])
              1 (mkJob (Some this_resolver) (Some 101) (Some 11) "b" false "" 1))
    as (job' & Hj & Hu & _ & _ & Hp); [vm_compute; reflexivity..|].
  exists job'. split_and!; [exact Hj|exact Hu|].
  vm_compute in Hj. injection Hj as <-. reflexivity.
Defined.

(** * Cloud print: the details of a print job *)

(** X12: [Clear] brings any [PrintJobDetails] back to the value that the
    constructor makes; [==] holds exactly of details that agree on all five
    members, and [!=] exactly of those that differ on one. *)
Theorem print_job_details_equality :
  (∀ d, cloud_print.Clear d = cloud_print.PrintJobDetails_new) ∧
  (∀ d other, cloud_print.equal d other = true ↔ d = other) ∧
  (∀ d other, cloud_print.not_equal d other = true ↔ d ≠ other) ∧
  (∀ d, cloud_print.equal (cloud_print.Clear d) cloud_print.PrintJobDetails_new
        = true).
Proof.
  assert (Heq : ∀ d other, cloud_print.equal d other = true ↔ d = other).
  { intros [s f m t p] [s' f' m' t' p']. unfold cloud_print.equal. simpl.
    rewrite !andb_true_iff, !Z.eqb_eq, String.eqb_eq. split.
    - intros ((((Hs & ->) & ->) & ->) & ->). f_equal. by destruct s, s'.
    - intros [= -> -> -> -> ->]. done. }
  split_and!.
  - done.
  - done.
  - intros d other. unfold cloud_print.not_equal. rewrite negb_true_iff.
    rewrite <-Heq. by destruct (cloud_print.equal d other).
  - intros d. by apply Heq.
Qed.

(** * The login screen of Chrome OS: the layout of its controls *)

Lemma to_int_id z :
  (login_manager_view.INT_MIN <= z <= login_manager_view.INT_MAX)%Z →
  login_manager_view.to_int z = z.
Proof.
  unfold login_manager_view.to_int, login_manager_view.INT_MIN,
    login_manager_view.INT_MAX. intros Hz.
  rewrite Z.mod_small by lia. lia.
Qed.

Lemma Layout_no_overflow width height p :
  (0 <= width <= login_manager_view.INT_MAX)%Z →
  (0 <= height <= login_manager_view.INT_MAX)%Z →
  Forall (λ s, (0 <= login_manager_view.height s)%Z) (login_manager_view.column p) →
  (login_manager_view.form_bottom p + 10 <= login_manager_view.INT_MAX)%Z →
  (0 <= login_manager_view.height (login_manager_view.os_version_label_ p)
   <= login_manager_view.INT_MAX - 6)%Z →
  let x0 := ((width - 286) ÷ 2)%Z in
  let m := (width - (x0 + 4))%Z in
  let cut (s : login_manager_view.Size) :=
    if (login_manager_view.width s <? m)%Z then login_manager_view.width s else m in
  let h (f : login_manager_view.Children login_manager_view.Size
             → login_manager_view.Size) := login_manager_view.height (f p) in
  let y1 := (50 + (h login_manager_view.title_label_ + 10))%Z in
  let y2 := (y1 + (h login_manager_view.username_label_ + 2))%Z in
  let y3 := (y2 + (h login_manager_view.username_field_ + 10))%Z in
  let y4 := (y3 + (h login_manager_view.password_label_ + 2))%Z in
  let y5 := (y4 + (h login_manager_view.password_field_ + 10))%Z in
  let y6 := (y5 + (h login_manager_view.sign_in_button_ + 10))%Z in
  login_manager_view.Layout width height p =
  login_manager_view.mkChildren
    (login_manager_view.mkRect x0 50 (cut (login_manager_view.title_label_ p))
       (h login_manager_view.title_label_))
    (login_manager_view.mkRect x0 y1 (cut (login_manager_view.username_label_ p))
       (h login_manager_view.username_label_))
    (login_manager_view.mkRect x0 y2 286 (h login_manager_view.username_field_))
    (login_manager_view.mkRect x0 y3 (cut (login_manager_view.password_label_ p))
       (h login_manager_view.password_label_))
    (login_manager_view.mkRect x0 y4 286 (h login_manager_view.password_field_))
    (login_manager_view.mkRect x0 y5 (cut (login_manager_view.sign_in_button_ p))
       (h login_manager_view.sign_in_button_))
    (login_manager_view.mkRect x0 y6 m (h login_manager_view.error_label_))
    (login_manager_view.mkRect 6
       (height - (h login_manager_view.os_version_label_ + 6)) (width - 12)
       (h login_manager_view.os_version_label_)).
Proof.
  intros Hw Hh Hp Hb Hv x0 m cut h y1 y2 y3 y4 y5 y6.
  unfold login_manager_view.column in Hp.
  repeat (apply Forall_cons in Hp as [? Hp]). clear Hp.
  unfold login_manager_view.form_bottom, login_manager_view.kTitleY,
    login_manager_view.kRowPad, login_manager_view.kLabelPad in Hb.
  unfold login_manager_view.INT_MAX in Hw, Hh, Hb, Hv.
  assert (Hx : (-143 <= (width - 286) ÷ 2 <= 1073741823)%Z).
  { pose proof (Z.quot_rem' (width - 286) 2) as Hqr.
    pose proof (Z.rem_bound_abs (width - 286) 2 ltac:(lia)) as Hr. lia. }
  assert (Hx' : (width - 287 <= 2 * ((width - 286) ÷ 2) <= width + 287)%Z).
  { pose proof (Z.quot_rem' (width - 286) 2) as Hqr.
    pose proof (Z.rem_bound_abs (width - 286) 2 ltac:(lia)) as Hr. lia. }
  subst x0 m cut h y1 y2 y3 y4 y5 y6.
  unfold login_manager_view.Layout, login_manager_view.setViewBounds,
    login_manager_view.int_add, login_manager_view.int_sub,
    login_manager_view.int_mul, login_manager_view.int_div,
    login_manager_view.kTitleY, login_manager_view.kVersionPad,
    login_manager_view.kTextfieldWidth, login_manager_view.kRowPad,
    login_manager_view.kLabelPad, login_manager_view.kCornerPad.
  cbv zeta.
  repeat match goal with
         | |- context [login_manager_view.to_int ?z] =>
             rewrite (to_int_id z)
               by (unfold login_manager_view.INT_MIN, login_manager_view.INT_MAX; lia)
         end.
  reflexivity.
Qed.

(** X13: for a view and preferred sizes with which no value of [Layout]
    leaves the range of [int] (the view's sides and the preferred heights
    are not negative, and the stack ends below [INT_MAX]), [Layout] puts the
    seven controls of the login form one below the other, in the order
    title, user name label and field, password label and field, button,
    error label, without overlap; the stack starts at [y = 50] and ends at
    [form_bottom], so that it lies inside the view vertically exactly when
    [form_bottom] is at most the view's height, which [Layout] does not
    check.  The controls all start at the same left edge, which centres the
    286 pixels of the text fields in a view that is at least as wide and is
    negative in a view narrower than 285; in a view at least 286 wide no
    control passes the left or the right edge, and in any view the labels
    and the button, cut to that width, end at least 4 pixels before the
    right edge.  The version label sits in the bottom left corner, 6 pixels
    from the edges. *)
Theorem Layout_stacks_the_form width height p :
  (0 <= width <= login_manager_view.INT_MAX)%Z →
  (0 <= height <= login_manager_view.INT_MAX)%Z →
  Forall (λ s, (0 <= login_manager_view.height s)%Z) (login_manager_view.column p) →
  (login_manager_view.form_bottom p + 10 <= login_manager_view.INT_MAX)%Z →
  (0 <= login_manager_view.height (login_manager_view.os_version_label_ p)
   <= login_manager_view.INT_MAX - 6)%Z →
  let b := login_manager_view.Layout width height p in
  login_manager_view.stacked (login_manager_view.column b) ∧
  login_manager_view.y (login_manager_view.title_label_ b) = 50%Z ∧
  (∀ r, r ∈ login_manager_view.column b →
     login_manager_view.x r = ((width - 286) ÷ 2)%Z ∧
     ((286 <= width)%Z →
      (0 <= login_manager_view.x r)%Z ∧
      (login_manager_view.x r + login_manager_view.w r <= width)%Z)) ∧
  (∀ r, r ∈ [login_manager_view.title_label_;
             login_manager_view.username_label_;
             login_manager_view.password_label_;
             login_manager_view.sign_in_button_;
             login_manager_view.error_label_] →
     (login_manager_view.x (r b) + login_manager_view.w (r b) <= width - 4)%Z) ∧
  ((286 <= width)%Z →
   (2 * ((width - 286) ÷ 2) <= width - 286 <= 2 * ((width - 286) ÷ 2) + 1)%Z) ∧
  ((width < 285)%Z → ((width - 286) ÷ 2 < 0)%Z) ∧
  login_manager_view.w (login_manager_view.username_field_ b) = 286%Z ∧
  login_manager_view.w (login_manager_view.password_field_ b) = 286%Z ∧
  login_manager_view.os_version_label_ b
  = login_manager_view.mkRect 6
      (height - (login_manager_view.height (login_manager_view.os_version_label_ p)
                 + 6))
      (width - 12)
      (login_manager_view.height (login_manager_view.os_version_label_ p)) ∧
  (∀ r, r ∈ login_manager_view.column b →
     (50 <= login_manager_view.y r)%Z ∧
     (login_manager_view.y r + login_manager_view.h r
      <= login_manager_view.form_bottom p)%Z) ∧
  (login_manager_view.y (login_manager_view.error_label_ b)
   + login_manager_view.h (login_manager_view.error_label_ b)
   = login_manager_view.form_bottom p)%Z ∧
  ((∀ r, r ∈ login_manager_view.column b →
      (login_manager_view.y r + login_manager_view.h r <= height)%Z)
   ↔ (login_manager_view.form_bottom p <= height)%Z).
Proof.
  intros Hw Hh Hp Hb Hv b. subst b.
  rewrite (Layout_no_overflow width height p Hw Hh Hp Hb Hv). cbv zeta.
  unfold login_manager_view.column in Hp.
  repeat (apply Forall_cons in Hp as [? Hp]). clear Hp.
  unfold login_manager_view.form_bottom, login_manager_view.kTitleY,
    login_manager_view.kRowPad, login_manager_view.kLabelPad in *.
  set (x0 := ((width - 286) ÷ 2)%Z).
  assert (Hq : (286 <= width → 0 <= x0 ∧ 2 * x0 <= width - 286 <= 2 * x0 + 1)%Z).
  { intros Hge. unfold x0.
    pose proof (Z.quot_rem' (width - 286) 2) as Hqr.
    pose proof (Z.rem_bound_pos (width - 286) 2 ltac:(lia) ltac:(lia)) as Hr.
    pose proof (Z.quot_pos (width - 286) 2 ltac:(lia) ltac:(lia)). lia. }
  split_and!.
  - unfold login_manager_view.column, login_manager_view.stacked,
      login_manager_view.below. simpl. repeat split; lia.
  - done.
  - intros r Hr. unfold login_manager_view.column in Hr. simpl in Hr. split.
    + repeat (apply elem_of_cons in Hr as [->|Hr]; [done|]).
      by apply elem_of_nil in Hr.
    + intros Hge. destruct (Hq Hge) as (Hx & Hlo & Hhi).
      repeat (apply elem_of_cons in Hr as [->|Hr];
              [simpl; split; [done|]; repeat case_match; lia|]).
      by apply elem_of_nil in Hr.
  - intros r Hr.
    repeat (apply elem_of_cons in Hr as [->|Hr];
            [simpl; repeat case_match; lia|]).
    by apply elem_of_nil in Hr.
  - intros Hge. by apply Hq.
  - intros Hlt.
    pose proof (Z.quot_rem' (width - 286) 2) as Hqr.
    pose proof (Z.rem_bound_abs (width - 286) 2 ltac:(lia)) as Hr.
    unfold x0. lia.
  - done.
  - done.
  - done.
  - intros r Hr. unfold login_manager_view.column in Hr. simpl in Hr.
    repeat (apply elem_of_cons in Hr as [->|Hr]; [simpl; lia|]).
    by apply elem_of_nil in Hr.
  - simpl. lia.
  - split.
    + intros Hall.
      specialize (Hall _ ltac:(unfold login_manager_view.column; simpl;
                               do 6 right; left)).
      simpl in Hall. lia.
    + intros Hfit r Hr. unfold login_manager_view.column in Hr. simpl in Hr.
      repeat (apply elem_of_cons in Hr as [->|Hr]; [simpl; lia|]).
      by apply elem_of_nil in Hr.
Qed.

Lemma Layout_stacks_the_form_witness :
  login_manager_view.stacked
    (login_manager_view.column
       (login_manager_view.Layout 1024 768
          (login_manager_view.mkChildren
             (login_manager_view.mkSize 200 30) (login_manager_view.mkSize 80 16)
             (login_manager_view.mkSize 100 24) (login_manager_view.mkSize 80 16)
             (login_manager_view.mkSize 100 24) (login_manager_view.mkSize 90 28)
             (login_manager_view.mkSize 300 16) (login_manager_view.mkSize 60 12)))) ∧
  ¬ (∀ r, r ∈ login_manager_view.column
            (login_manager_view.Layout 1024 100
               (login_manager_view.mkChildren
                  (login_manager_view.mkSize 200 30) (login_manager_view.mkSize 80 16)
                  (login_manager_view.mkSize 100 24) (login_manager_view.mkSize 80 16)
                  (login_manager_view.mkSize 100 24) (login_manager_view.mkSize 90 28)
                  (login_manager_view.mkSize 300 16) (login_manager_view.mkSize 60 12))) →
          (login_manager_view.y r + login_manager_view.h r <= 100)%Z).
Proof.
  split.
  - apply (Layout_stacks_the_form 1024 768);
      [vm_compute; split; discriminate
      |vm_compute; split; discriminate
      |repeat constructor; vm_compute; discriminate
      |vm_compute; discriminate
      |vm_compute; split; discriminate].
  - intros Hall.
    apply (Layout_stacks_the_form 1024 100) in Hall;
      [vm_compute in Hall; by apply Hall
      |vm_compute; split; discriminate
      |vm_compute; split; discriminate
      |repeat constructor; vm_compute; discriminate
      |vm_compute; discriminate
      |vm_compute; split; discriminate].
Defined.

(** * The login screen of Chrome OS: signing in *)

Lemma has_at_append s t :
  login_manager_view.has_at (String.append s t)
  = login_manager_view.has_at s || login_manager_view.has_at t.
Proof.
  induction s as [|c s IH]; simpl; [done|]. rewrite IH. by rewrite orb_assoc.
Qed.

Lemma no_at_no_google s :
  login_manager_view.has_at s = false →
  login_manager_view.contains "@google.com"
    (String.append s login_manager_view.kDefaultDomain) = false.
Proof.
  induction s as [|c s IH]; [done|].
  intros H. simpl in H. apply orb_false_elim in H as [Hc Hs].
  change (login_manager_view.contains "@google.com"
            (String.append (String c s) login_manager_view.kDefaultDomain))
    with (String.prefix "@google.com"
            (String c (String.append s login_manager_view.kDefaultDomain))
          || login_manager_view.contains "@google.com"
               (String.append s login_manager_view.kDefaultDomain)).
  rewrite (IH Hs), orb_false_r.
  change (String.prefix "@google.com" (String c ?x))
    with (if Ascii.ascii_dec login_manager_view.at_sign c
          then String.prefix "google.com"
                 (String.append s login_manager_view.kDefaultDomain)
          else false).
  destruct (Ascii.ascii_dec login_manager_view.at_sign c) as [<-|Hne]; [|done].
  by rewrite Ascii.eqb_refl in Hc.
Qed.

(** X14: [Login] does nothing while the user name field is empty.
    Otherwise it asks the session helper exactly once, first of all, and
    every user name it hands on (to the helper, the session and the user
    manager) contains an [@]: a name typed without one is completed with
    [@gmail.com], in the field too, and a name that has one is left as it
    is.  A name typed without a domain is never treated as a google.com
    account.  When the helper refuses, no session is set up and one of the
    three error messages is shown: that the network library is missing, if
    it is absent or cannot be loaded, that the network is not connected, or
    else that authentication failed; when it accepts, the error shown
    before stays. *)
Theorem Login_completes_the_user_name {string16 : Type}
    (empty16 : string16 → bool) (UTF16ToUTF8 : string16 → string)
    (UTF8ToUTF16 : string → string16)
    (no_library not_connected authenticating : Z)
    (env : login_manager_view.Env) (v : login_manager_view.View (string16 := string16)) :
  let name := UTF16ToUTF8 (login_manager_view.username_text v) in
  let full := if login_manager_view.has_at name then name
              else String.append name "@gmail.com" in
  let password := UTF16ToUTF8 (login_manager_view.password_text v) in
  let r := login_manager_view.Login empty16 UTF16ToUTF8 UTF8ToUTF16
             no_library not_connected authenticating env v in
  (empty16 (login_manager_view.username_text v) = true → r = (v, [])) ∧
  (empty16 (login_manager_view.username_text v) = false →
   head r.2 = Some (login_manager_view.CAuthenticate full password) ∧
   (∀ u p, login_manager_view.CAuthenticate u p ∈ tail r.2 → False)) ∧
  (∀ c u, c ∈ r.2 → login_manager_view.call_username c = Some u →
          u = full ∧ login_manager_view.has_at u = true) ∧
  (login_manager_view.has_at name = false →
   login_manager_view.CAppendSwitch_AutoSSLClientAuth ∉ r.2) ∧
  (login_manager_view.has_at name = true →
   login_manager_view.username_text r.1 = login_manager_view.username_text v) ∧
  (empty16 (login_manager_view.username_text v) = false →
   login_manager_view.has_at name = false →
   login_manager_view.username_text r.1 = UTF8ToUTF16 full) ∧
  (empty16 (login_manager_view.username_text v) = false →
   login_manager_view.Authenticate env full password = false →
   r.2 = [login_manager_view.CAuthenticate full password] ∧
   login_manager_view.error_id_ r.1 =
     match login_manager_view.NetworkLibrary_Get env with
     | None => no_library
     | Some network =>
         if login_manager_view.EnsureLoaded network
         then if login_manager_view.Connected network then authenticating
              else not_connected
         else no_library
     end) ∧
  (login_manager_view.Authenticate env full password = true →
   login_manager_view.error_id_ r.1 = login_manager_view.error_id_ v).
Proof.
  simpl. unfold login_manager_view.Login.
  assert (Hfull : ∀ s, login_manager_view.has_at s = false →
            login_manager_view.has_at (String.append s "@gmail.com") = true).
  { intros s Hs. by rewrite has_at_append, orb_true_r. }
  destruct (empty16 (login_manager_view.username_text v)) eqn:Hempty;
    [|destruct (login_manager_view.has_at
                  (UTF16ToUTF8 (login_manager_view.username_text v))) eqn:Hat;
      [|pose proof (Hfull _ Hat) as Hat'; pose proof (no_at_no_google _ Hat) as Hgoogle;
        unfold login_manager_view.kDefaultDomain in *];
      simpl; destruct (login_manager_view.Authenticate env _ _) eqn:Hauth].
  all: simpl; unfold login_manager_view.SetupSession; rewrite ?Hgoogle.
  all: split_and!; try done.
  all: intros; simpl in *; try (split; [done|]); try done.
  all: try (intros; by repeat case_match).
  all: repeat case_match; simpl in *.
  all: repeat match goal with
       | H : _ ∈ _ :: _ |- _ => apply elem_of_cons in H as [H|H]; simplify_eq/=
       | H : _ ∈ [] |- _ => by apply elem_of_nil in H
       | |- _ ∉ _ => intros ?
       | |- ∀ _, _ => intros ?
       end; try done.
Qed.

Lemma Login_completes_the_user_name_witness :
  login_manager_view.has_at "joe@gmail.com" = true ∧
  login_manager_view.CAppendSwitch_AutoSSLClientAuth ∉
    (login_manager_view.Login (λ s, String.eqb s "") id id 1 2 3
       (login_manager_view.mkEnv (λ u p, String.eqb p "secret") true None)
       (login_manager_view.mkView "joe" "secret" (-1) true)).2.
Proof.
  pose proof (Login_completes_the_user_name (λ s, String.eqb s "") id id 1 2 3
                (login_manager_view.mkEnv (λ u p, String.eqb p "secret") true None)
                (login_manager_view.mkView "joe" "secret" (-1) true))
    as (_ & _ & Hname & Hgoogle & _).
  split.
  - apply (Hname (login_manager_view.CUserLoggedIn "joe@gmail.com"));
      [vm_compute; do 3 right; left|reflexivity].
  - apply Hgoogle. reflexivity.
Defined.
